(** * The Jansson text decoder of watchman (thirdparty/jansson/load.cpp)

    A shallow embedding of the byte stream, the lexer, the recursive-descent
    parser and the error reporter of [load.cpp], followed by the properties
    the decoder's specification states about them.

    Conventions.
    - A C [int] holding a character or a sentinel is a [Z]; bytes are kept
      in their unsigned value 0..255.  The bytes the stream can hand out
      (ASCII and validated UTF-8) never collide with the sentinels -1 and -2
      whichever signedness [char] has, so the unsigned view loses nothing.
    - The byte source ([get_func] together with its [data]) is the list of
      the values the getter is going to return, one per call; an exhausted
      list answers [EOF] for ever, as [string_get] and [buffer_get] do.
    - [size_t position] wraps modulo 2^64; the [int] counters [line] and
      [column] are kept in [Z] (signed overflow is undefined in C).
    - Allocation never fails.
    - [assert] is modelled where it can fail: a failed assertion aborts. *)

From Stdlib Require Import ZArith List String Ascii Bool Lia.
Import ListNotations.

Open Scope Z_scope.

(** ** Characters, sentinels and token codes *)

Definition chr (a : ascii) : Z := Z.of_N (N_of_ascii a).
Arguments chr a%_char.

Definition EOF : Z := -1.

Definition STREAM_STATE_OK : Z := 0.
Definition STREAM_STATE_EOF : Z := -1.
Definition STREAM_STATE_ERROR : Z := -2.

Definition TOKEN_INVALID : Z := -1.
Definition TOKEN_EOF : Z := 0.
Definition TOKEN_STRING : Z := 256.
Definition TOKEN_INTEGER : Z := 257.
Definition TOKEN_REAL : Z := 258.
Definition TOKEN_TRUE : Z := 259.
Definition TOKEN_FALSE : Z := 260.
Definition TOKEN_NULL : Z := 261.

(** Locale independent versions of the isxxx() functions, as the macros
    are written. *)
Definition l_isupper (c : Z) : bool := (chr "A" <=? c) && (c <=? chr "Z").
Definition l_islower (c : Z) : bool := (chr "a" <=? c) && (c <=? chr "z").
Definition l_isalpha (c : Z) : bool := l_isupper c || l_islower c.
Definition l_isdigit (c : Z) : bool := (chr "0" <=? c) && (c <=? chr "9").
Definition l_isxdigit (c : Z) : bool :=
  l_isdigit c || (chr "A" <=? c) || (c <=? chr "F")
              || (chr "a" <=? c) || (c <=? chr "f").

(** ** Strings of bytes *)

Definition to_uchar (c : Z) : Z := c mod 256.

Definition ascii_of_byte (b : Z) : ascii := ascii_of_N (Z.to_N (to_uchar b)).

Fixpoint string_of_bytes (l : list Z) : string :=
  match l with
  | [] => EmptyString
  | b :: l' => String (ascii_of_byte b) (string_of_bytes l')
  end.

Fixpoint bytes_of_string (s : string) : list Z :=
  match s with
  | EmptyString => []
  | String a s' => chr a :: bytes_of_string s'
  end.

(** The bytes a C string function sees: everything before the first NUL. *)
Fixpoint cstr (l : list Z) : list Z :=
  match l with
  | [] => []
  | b :: l' => if b =? 0 then [] else b :: cstr l'
  end.

Fixpoint string_take (n : nat) (s : string) : string :=
  match n, s with
  | S n', String a s' => String a (string_take n' s')
  | _, _ => EmptyString
  end.

(** printf's %x and %04X of an [int]. *)
Definition hex_digit (upper : bool) (d : Z) : ascii :=
  ascii_of_byte (if d <? 10 then chr "0" + d
                 else (if upper then chr "A" else chr "a") + (d - 10)).

Fixpoint hex_go (fuel : nat) (upper : bool) (n : Z) (acc : string) : string :=
  match fuel with
  | O => acc
  | S fuel' =>
      let acc' := String (hex_digit upper (n mod 16)) acc in
      if n / 16 =? 0 then acc' else hex_go fuel' upper (n / 16) acc'
  end.

Definition fmt_x (n : Z) : string := hex_go 8 false (n mod 2 ^ 32) "".

Fixpoint pad0 (n : nat) (s : string) : string :=
  match n with
  | O => s
  | S n' => if Nat.ltb (String.length s) (S n') then pad0 n' (String "0" s) else s
  end.

Definition fmt_04X (n : Z) : string := pad0 4 (hex_go 8 true (n mod 2 ^ 32) "").

(** ** strbuffer.h *)

(** Modelled from the spec: [strbuffer.cpp] is not part of the sources at
    hand.  The lexer "retains the raw text of the current token": a byte
    buffer with its length, appended to and popped at its end. *)
Definition strbuffer_t : Type := list Z.

Definition strbuffer_clear (b : strbuffer_t) : strbuffer_t := [].

Definition strbuffer_append_byte (b : strbuffer_t) (c : Z) : strbuffer_t :=
  b ++ [to_uchar c].

Definition strbuffer_pop (b : strbuffer_t) : Z * strbuffer_t :=
  match rev b with
  | [] => (0, [])
  | c :: r => (c, rev r)
  end.

(** [strbuffer_value] is the NUL-terminated storage; [cstr] reads it as a C
    string, [strbuffer_first] is its first [char]. *)
Definition strbuffer_first (b : strbuffer_t) : Z := nth 0 b 0.

(** ** The stream and the lexer state *)

Definition get_func : Type := list Z.

Definition source_get (data : get_func) : Z * get_func :=
  match data with
  | [] => (EOF, [])
  | c :: rest => (c, rest)
  end.

Record stream_t : Type := mk_stream {
  data : get_func;
  buffer : list Z;
  buffer_pos : nat;
  state : Z;
  line : Z;
  column : Z;
  last_column : Z;
  position : Z
}.

(** The double a REAL token carries is kept as the exact decimal value of
    its literal, [r_mant * 10 ^ r_exp10]. *)
Record real_t : Type := mk_real { r_mant : Z; r_exp10 : Z }.

Inductive lex_value : Type :=
| ValString (s : option (list Z))
| ValInteger (i : Z)
| ValReal (r : real_t).

Record lex_t : Type := mk_lex {
  stream : stream_t;
  saved_text : strbuffer_t;
  token : Z;
  value : lex_value
}.

Definition set_stream (lex : lex_t) (s : stream_t) : lex_t :=
  mk_lex s (saved_text lex) (token lex) (value lex).
Definition set_saved_text (lex : lex_t) (b : strbuffer_t) : lex_t :=
  mk_lex (stream lex) b (token lex) (value lex).
Definition set_token (lex : lex_t) (t : Z) : lex_t :=
  mk_lex (stream lex) (saved_text lex) t (value lex).
Definition set_value (lex : lex_t) (v : lex_value) : lex_t :=
  mk_lex (stream lex) (saved_text lex) (token lex) v.

Definition size_t_wrap (z : Z) : Z := z mod 2 ^ 64.

Definition buf_get (b : list Z) (i : nat) : Z := nth i b 0.

Fixpoint buf_set (b : list Z) (i : nat) (v : Z) : list Z :=
  match b, i with
  | [], _ => []
  | _ :: b', O => v :: b'
  | x :: b', S i' => x :: buf_set b' i' v
  end.

(** ** utf.h *)

(** Modelled from the spec: [utf.cpp] is not part of the sources at hand.
    [utf8_check_first] gives the length of the character a lead byte
    announces: 1 for "a plain ASCII byte", 2 to 4 for "a valid multi-byte
    UTF-8 lead byte", 0 for a continuation byte or an invalid lead byte. *)
Definition utf8_check_first (byte : Z) : Z :=
  let u := to_uchar byte in
  if u <? 0x80 then 1
  else if u <=? 0xBF then 0
  else if u <=? 0xC1 then 0
  else if u <=? 0xDF then 2
  else if u <=? 0xEF then 3
  else if u <=? 0xF4 then 4
  else 0.

Fixpoint utf8_continuation (bytes : list Z) (acc : Z) : option Z :=
  match bytes with
  | [] => Some acc
  | u :: rest =>
      if (u <? 0x80) || (0xBF <? u) then None
      else utf8_continuation rest (Z.shiftl acc 6 + Z.land u 0x3F)
  end.

(** Modelled from the spec: [utf8_check_full] "validates the full sequence
    (length, continuation-byte shape, no overlong/surrogate encodings)". *)
Definition utf8_check_full (buffer : list Z) (size : Z) : bool :=
  let u := to_uchar (buf_get buffer 0) in
  let lead :=
    if size =? 2 then Some (Z.land u 0x1F)
    else if size =? 3 then Some (Z.land u 0xF)
    else if size =? 4 then Some (Z.land u 0x7)
    else None in
  match lead with
  | None => false
  | Some v0 =>
      match utf8_continuation
              (map to_uchar (firstn (Z.to_nat size - 1) (skipn 1 buffer))) v0 with
      | None => false
      | Some v =>
          if 0x10FFFF <? v then false
          else if (0xD800 <=? v) && (v <=? 0xDFFF) then false
          else if ((size =? 2) && (v <? 0x80))
                  || ((size =? 3) && (v <? 0x800))
                  || ((size =? 4) && (v <? 0x10000)) then false
          else true
      end
  end.

(** Modelled from the spec: [utf8_encode] "UTF-8-encode the result"; [None]
    is its failure return for a value outside 0..0x10FFFF. *)
Definition utf8_encode (codepoint : Z) : option (list Z) :=
  if codepoint <? 0 then None
  else if codepoint <? 0x80 then Some [codepoint]
  else if codepoint <? 0x800 then
    Some [0xC0 + Z.shiftr (Z.land codepoint 0x7C0) 6;
          0x80 + Z.land codepoint 0x03F]
  else if codepoint <? 0x10000 then
    Some [0xE0 + Z.shiftr (Z.land codepoint 0xF000) 12;
          0x80 + Z.shiftr (Z.land codepoint 0x0FC0) 6;
          0x80 + Z.land codepoint 0x003F]
  else if codepoint <=? 0x10FFFF then
    Some [0xF0 + Z.shiftr (Z.land codepoint 0x1C0000) 18;
          0x80 + Z.shiftr (Z.land codepoint 0x03F000) 12;
          0x80 + Z.shiftr (Z.land codepoint 0x000FC0) 6;
          0x80 + Z.land codepoint 0x00003F]
  else None.

(** ** Runs that can abort *)

(** The outcome of a piece of code that contains an [assert] that can
    fail: it returns, or the process is aborted.  [Unfinished] is the
    recursion bound of the parser's model being reached, which the bound
    the entry points use excludes ([parse_json_finishes]). *)
Inductive run (A : Type) : Type :=
| Done (a : A)
| Aborted
| Unfinished.
Arguments Done {A} a.
Arguments Aborted {A}.
Arguments Unfinished {A}.

Definition bind {A B : Type} (m : run A) (k : A -> run B) : run B :=
  match m with
  | Done a => k a
  | Aborted => Aborted
  | Unfinished => Unfinished
  end.

Notation "'do' x <- m ; k" := (bind m (fun x => k))
  (at level 10, x pattern, m at level 100, k at level 200).

(** ** jansson.h and the error record *)

(** The declarations of [jansson.h] the decoder uses.  The header is not
    part of the sources at hand, so the bound of the message text and the
    three option bits are parameters of the development. *)
Class jansson_h : Type := {
  JSON_ERROR_TEXT_LENGTH : nat;
  JSON_REJECT_DUPLICATES : Z;
  JSON_DISABLE_EOF_CHECK : Z;
  JSON_DECODE_ANY : Z
}.

Record json_error_t : Type := mk_error {
  e_line : Z;
  e_column : Z;
  e_position : Z;
  e_source : string;
  e_text : string
}.

Definition flag_set (flags flag : Z) : bool := negb (Z.land flags flag =? 0).

Section Decoder.

Context {header : jansson_h}.

(** What vsnprintf leaves in a buffer of [JSON_ERROR_TEXT_LENGTH] bytes. *)
Definition bounded (s : string) : string :=
  string_take (JSON_ERROR_TEXT_LENGTH - 1) s.

(** Modelled from the spec: [error.cpp] is not part of the sources at hand.
    [jsonp_error_init] starts a parse attempt with no error recorded (an
    empty message). *)
Definition jsonp_error_init (error : option json_error_t) (source : string)
  : option json_error_t :=
  match error with
  | None => None
  | Some _ => Some (mk_error (-1) (-1) 0 source "")
  end.

Definition error_recorded (e : json_error_t) : bool :=
  negb (String.eqb (e_text e) "").

(** Modelled from the spec: [jsonp_error_set] is in [error.cpp] too.  "If
    an error is already recorded, this is a no-op (first-failure-wins)";
    otherwise the position and the message, of "bounded length", are
    stored. *)
Definition jsonp_error_set (error : option json_error_t)
    (line column : Z) (position : Z) (text : string) : option json_error_t :=
  match error with
  | None => None
  | Some e =>
      if error_recorded e then Some e
      else Some (mk_error line column position (e_source e) (bounded text))
  end.

(** [msg] is the message after printf formatting.  [lex] is [None] for the
    null pointer the entry points pass. *)
Definition error_set (error : option json_error_t) (lex : option lex_t)
    (msg : string) : option json_error_t :=
  match error with
  | None => None
  | Some _ =>
      let msg_text := bounded msg in
      match lex with
      | Some lex =>
          let line := line (stream lex) in
          let col := column (stream lex) in
          let pos := position (stream lex) in
          if negb (strbuffer_first (saved_text lex) =? 0) then
            let context_length := Nat.min 20 (List.length (saved_text lex)) in
            let msg_with_context :=
              bounded (msg_text ++ " near '"
                       ++ string_of_bytes
                            (firstn context_length (cstr (saved_text lex)))
                       ++ "'")%string in
            jsonp_error_set error line col pos msg_with_context
          else if state (stream lex) =? STREAM_STATE_ERROR then
            (* No context for UTF-8 decoding errors *)
            jsonp_error_set error line col pos msg_text
          else
            let msg_with_context :=
              bounded (msg_text ++ " near end of file")%string in
            jsonp_error_set error line col pos msg_with_context
      | None => jsonp_error_set error (-1) (-1) 0 msg_text
      end
  end.

(** ** The byte stream *)

Definition stream_init (get : get_func) : stream_t :=
  mk_stream get [0; 0; 0; 0; 0] 0 STREAM_STATE_OK 1 0 0 0.

Definition set_state (s : stream_t) (st : Z) : stream_t :=
  mk_stream (data s) (buffer s) (buffer_pos s) st
            (line s) (column s) (last_column s) (position s).

(** The [for] loop of [stream_get] that reads the continuation bytes:
    [n] bytes are stored from index [i] on. *)
Fixpoint read_continuation (n i : nat) (data : get_func) (buffer : list Z)
  : get_func * list Z :=
  match n with
  | O => (data, buffer)
  | S n' =>
      let (c, data') := source_get data in
      read_continuation n' (S i) data' (buf_set buffer i (to_uchar c))
  end.

(** What the refill at the head of [stream_get] ends in. *)
Inductive refill : Type :=
| RefillOk (s : stream_t)
| RefillEof (s : stream_t)
| RefillOut (s : stream_t) (c : Z).

Definition stream_refill (stream : stream_t) : refill :=
  if buf_get (buffer stream) (buffer_pos stream) =? 0 then
    let (c, data') := source_get (data stream) in
    if c =? EOF then
      RefillEof (mk_stream data' (buffer stream) (buffer_pos stream)
                   STREAM_STATE_EOF (line stream) (column stream)
                   (last_column stream) (position stream))
    else
      let with_buffer d b :=
        mk_stream d b 0 (state stream) (line stream) (column stream)
          (last_column stream) (position stream) in
      let buffer0 := buf_set (buffer stream) 0 (to_uchar c) in
      if (0x80 <=? c) && (c <=? 0xFF) then
        (* multi-byte UTF-8 sequence *)
        let count := utf8_check_first c in
        if count =? 0 then RefillOut (with_buffer data' buffer0) c
        else
          let (data'', buffer1) :=
            read_continuation (Z.to_nat count - 1) 1 data' buffer0 in
          if negb (utf8_check_full buffer1 count) then
            RefillOut (with_buffer data'' buffer1) c
          else
            RefillOk (with_buffer data''
                        (buf_set buffer1 (Z.to_nat count) 0))
      else RefillOk (with_buffer data' (buf_set buffer0 1 0))
  else RefillOk stream.

(** [to_lex] is the [stream_to_lex] of the source: the lexer that contains
    the stream, with the stream as it is at the time of the call. *)
Definition stream_get (to_lex : stream_t -> lex_t) (stream : stream_t)
    (error : option json_error_t) : Z * stream_t * option json_error_t :=
  if negb (state stream =? STREAM_STATE_OK) then (state stream, stream, error)
  else
    match stream_refill stream with
    | RefillEof s => (STREAM_STATE_EOF, s, error)
    | RefillOut s c =>
        let s' := set_state s STREAM_STATE_ERROR in
        (STREAM_STATE_ERROR, s',
         error_set error (Some (to_lex s'))
           ("unable to decode byte 0x" ++ fmt_x c)%string)
    | RefillOk s =>
        let c := buf_get (buffer s) (buffer_pos s) in
        let pos := size_t_wrap (position s + 1) in
        if c =? chr "010" then
          (c, mk_stream (data s) (buffer s) (S (buffer_pos s)) (state s)
                (line s + 1) 0 (column s) pos, error)
        else if negb (utf8_check_first c =? 0) then
          (* track the Unicode character column, so increment only if
             this is the first character of a UTF-8 sequence *)
          (c, mk_stream (data s) (buffer s) (S (buffer_pos s)) (state s)
                (line s) (column s + 1) (last_column s) pos, error)
        else
          (c, mk_stream (data s) (buffer s) (S (buffer_pos s)) (state s)
                (line s) (column s) (last_column s) pos, error)
    end.

(** The two assertions of [stream_unget] ([buffer_pos > 0] and the byte
    under the cursor being [c]) hold whenever [c] is the byte the last
    [stream_get] returned, see [stream_unget_asserts]. *)
Definition stream_unget (stream : stream_t) (c : Z) : stream_t :=
  if (c =? STREAM_STATE_EOF) || (c =? STREAM_STATE_ERROR) then stream
  else
    let pos := size_t_wrap (position stream - 1) in
    if c =? chr "010" then
      mk_stream (data stream) (buffer stream) (pred (buffer_pos stream))
        (state stream) (line stream - 1) (last_column stream)
        (last_column stream) pos
    else if negb (utf8_check_first c =? 0) then
      mk_stream (data stream) (buffer stream) (pred (buffer_pos stream))
        (state stream) (line stream) (column stream - 1)
        (last_column stream) pos
    else
      mk_stream (data stream) (buffer stream) (pred (buffer_pos stream))
        (state stream) (line stream) (column stream) (last_column stream) pos.

Definition is_sentinel (c : Z) : bool :=
  (c =? STREAM_STATE_EOF) || (c =? STREAM_STATE_ERROR).

Definition lex_get (lex : lex_t) (error : option json_error_t)
  : Z * lex_t * option json_error_t :=
  let '(c, s, error') := stream_get (set_stream lex) (stream lex) error in
  (c, set_stream lex s, error').

Definition lex_save (lex : lex_t) (c : Z) : lex_t :=
  set_saved_text lex (strbuffer_append_byte (saved_text lex) c).

Definition lex_get_save (lex : lex_t) (error : option json_error_t)
  : Z * lex_t * option json_error_t :=
  let '(c, s, error') := stream_get (set_stream lex) (stream lex) error in
  let lex' := set_stream lex s in
  if negb (is_sentinel c) then (c, lex_save lex' c, error')
  else (c, lex', error').

Definition lex_unget (lex : lex_t) (c : Z) : lex_t :=
  set_stream lex (stream_unget (stream lex) c).

Definition lex_unget_unsave (lex : lex_t) (c : Z) : lex_t :=
  if negb (is_sentinel c) then
    let lex' := set_stream lex (stream_unget (stream lex) c) in
    set_saved_text lex' (snd (strbuffer_pop (saved_text lex')))
  else lex.

Fixpoint lex_save_cached_loop (fuel : nat) (lex : lex_t) : lex_t :=
  match fuel with
  | O => lex
  | S fuel' =>
      let s := stream lex in
      let c := buf_get (buffer s) (buffer_pos s) in
      if c =? 0 then lex
      else
        let lex1 := lex_save lex c in
        lex_save_cached_loop fuel'
          (set_stream lex1
             (mk_stream (data s) (buffer s) (S (buffer_pos s)) (state s)
                (line s) (column s) (last_column s)
                (size_t_wrap (position s + 1))))
  end.

(** The buffer holds at most four bytes before its terminator. *)
Definition lex_save_cached (lex : lex_t) : lex_t :=
  lex_save_cached_loop 5 lex.

(** ** String literals *)

(** assumes that str points to 'u' plus at least 4 valid hex digits *)
Definition hex_value (c : Z) : run Z :=
  if l_isdigit c then Done (c - chr "0")
  else if l_islower c then Done (c - chr "a" + 10)
  else if l_isupper c then Done (c - chr "A" + 10)
  else Aborted.

Definition decode_unicode_escape (str : list Z) : run Z :=
  if negb (nth 0 str 0 =? chr "u") then Aborted
  else
    do d1 <- hex_value (nth 1 str 0);
    do d2 <- hex_value (nth 2 str 0);
    do d3 <- hex_value (nth 3 str 0);
    do d4 <- hex_value (nth 4 str 0);
    Done (Z.shiftl (Z.shiftl (Z.shiftl (Z.shiftl 0 4 + d1) 4 + d2) 4 + d3) 4
          + d4).

(** [p += n] on the text that is left; the text ends where its list
    does. *)
Fixpoint advance (n : nat) (p : list Z) : list Z :=
  match n with
  | O => p
  | S n' =>
      match p with
      | [] => p
      | _ :: p' => advance n' p'
      end
  end.

Definition short_escape (c : Z) : run Z :=
  if (c =? chr "034") || (c =? chr "\") || (c =? chr "/") then Done c
  else if c =? chr "b" then Done 8
  else if c =? chr "f" then Done 12
  else if c =? chr "n" then Done 10
  else if c =? chr "r" then Done 13
  else if c =? chr "t" then Done 9
  else Aborted.

(** The second pass of [lex_scan_string], over the saved text after its
    opening quote; [t] is what the target holds so far.  [inl msg] is an
    [error_set] with [msg] followed by [goto out], [inr t] the decoded
    string.  Reading on after the end of the saved text aborts. *)
Fixpoint decode_loop (p : list Z) (t : list Z) : run (string + list Z) :=
  match p with
  | [] => Aborted
  | c :: p1 =>
      if c =? chr "034" then Done (inr t)
      else if c =? chr "\" then
        if nth 0 p1 0 =? chr "u" then
          do value <- decode_unicode_escape p1;
          let p2 := advance 5 p1 in
          if (0xD800 <=? value) && (value <=? 0xDBFF) then
            (* surrogate pair *)
            if (nth 0 p2 0 =? chr "\") && (nth 1 p2 0 =? chr "u") then
              do value2 <- decode_unicode_escape (advance 1 p2);
              let p3 := advance 5 (advance 1 p2) in
              if (0xDC00 <=? value2) && (value2 <=? 0xDFFF) then
                (* valid second surrogate *)
                match utf8_encode (Z.shiftl (value - 0xD800) 10
                                   + (value2 - 0xDC00) + 0x10000) with
                | None => Aborted
                | Some bytes => decode_loop p3 (t ++ bytes)
                end
              else
                (* invalid second surrogate *)
                Done (inl ("invalid Unicode '\u" ++ fmt_04X value
                           ++ "\u" ++ fmt_04X value2 ++ "'")%string)
            else
              (* no second surrogate *)
              Done (inl ("invalid Unicode '\u" ++ fmt_04X value ++ "'")%string)
          else if (0xDC00 <=? value) && (value <=? 0xDFFF) then
            Done (inl ("invalid Unicode '\u" ++ fmt_04X value ++ "'")%string)
          else if value =? 0 then
            Done (inl "\u0000 is not allowed"%string)
          else
            match utf8_encode value with
            | None => Aborted
            | Some bytes => decode_loop p2 (t ++ bytes)
            end
        else
          match short_escape (nth 0 p1 0) with
          | Done x => decode_loop (advance 1 p1) (t ++ [x])
          | _ => Aborted
          end
      else decode_loop p1 (t ++ [c])
  end.

(** An upper bound of the bytes a stream can still hand out: those the
    source has left and those waiting in the buffer. *)
Definition stream_weight (s : stream_t) : nat :=
  List.length (data s) + List.length (cstr (skipn (buffer_pos s) (buffer s))).

(** The turns a loop of the lexer can take: every turn but the last reads
    a byte, or reads the end of the input and is the last but one. *)
Definition lex_fuel (lex : lex_t) : nat :=
  S (S (stream_weight (stream lex))).

(** The four checks after backslash-u: [inl] is the [goto out]. *)
Fixpoint scan_hex4 (i : nat) (c : Z) (lex : lex_t)
    (error : option json_error_t)
  : (lex_t * option json_error_t) + (Z * lex_t * option json_error_t) :=
  match i with
  | O => inr (c, lex, error)
  | S i' =>
      if negb (l_isxdigit c) then
        inl (lex, error_set error (Some lex) "invalid escape")
      else
        let '(c', lex', error') := lex_get_save lex error in
        scan_hex4 i' c' lex' error'
  end.

(** The first pass, the [while] loop up to the closing quote: [true] when the closing quote was
    reached, [false] for [goto out]. *)
Fixpoint scan_string_loop (fuel : nat) (c : Z) (lex : lex_t)
    (error : option json_error_t) : bool * lex_t * option json_error_t :=
  match fuel with
  | O => (false, lex, error)
  | S fuel' =>
      if c =? chr "034" then (true, lex, error)
      else if c =? STREAM_STATE_ERROR then (false, lex, error)
      else if c =? STREAM_STATE_EOF then
        (false, lex, error_set error (Some lex) "premature end of input")
      else if (0 <=? c) && (c <=? 0x1F) then
        (* control character *)
        let lex1 := lex_unget_unsave lex c in
        if c =? chr "010" then
          (false, lex1, error_set error (Some lex1) "unexpected newline")
        else
          (false, lex1,
           error_set error (Some lex1)
             ("control character 0x" ++ fmt_x c)%string)
      else if c =? chr "\" then
        let '(c1, lex1, error1) := lex_get_save lex error in
        if c1 =? chr "u" then
          let '(c2, lex2, error2) := lex_get_save lex1 error1 in
          match scan_hex4 4 c2 lex2 error2 with
          | inl (lex3, error3) => (false, lex3, error3)
          | inr (c3, lex3, error3) => scan_string_loop fuel' c3 lex3 error3
          end
        else if (c1 =? chr "034") || (c1 =? chr "\") || (c1 =? chr "/")
                || (c1 =? chr "b") || (c1 =? chr "f") || (c1 =? chr "n")
                || (c1 =? chr "r") || (c1 =? chr "t") then
          let '(c2, lex2, error2) := lex_get_save lex1 error1 in
          scan_string_loop fuel' c2 lex2 error2
        else
          (false, lex1, error_set error1 (Some lex1) "invalid escape")
      else
        let '(c1, lex1, error1) := lex_get_save lex error in
        scan_string_loop fuel' c1 lex1 error1
  end.

Definition lex_scan_string (lex : lex_t) (error : option json_error_t)
  : run (lex_t * option json_error_t) :=
  let lex0 := set_token (set_value lex (ValString None)) TOKEN_INVALID in
  let '(c, lex1, error1) := lex_get_save lex0 error in
  let '(closed, lex2, error2) :=
    scan_string_loop (lex_fuel lex1) c lex1 error1 in
  if closed then
    (* + 1 to skip the opening quote *)
    do r <- decode_loop (advance 1 (saved_text lex2)) [];
    match r with
    | inl msg => Done (lex2, error_set error2 (Some lex2) msg)
    | inr t => Done (set_token (set_value lex2 (ValString (Some t)))
                       TOKEN_STRING, error2)
    end
  else Done (lex2, error2).

(** ** Number literals *)

Fixpoint digits_value (l : list Z) (acc : Z) : Z :=
  match l with
  | [] => acc
  | d :: l' =>
      if l_isdigit d then digits_value l' (acc * 10 + (d - chr "0")) else acc
  end.

Fixpoint take_digits (l : list Z) : list Z :=
  match l with
  | [] => []
  | d :: l' => if l_isdigit d then d :: take_digits l' else []
  end.

Fixpoint drop_digits (l : list Z) : list Z :=
  match l with
  | [] => []
  | d :: l' => if l_isdigit d then drop_digits l' else l
  end.

Definition strip_minus (l : list Z) : bool * list Z :=
  match l with
  | c :: l' => if c =? chr "-" then (true, l') else (false, l)
  | [] => (false, [])
  end.

(** Modelled from the spec: [json_strtoint] is the C library's strtoll on
    a "signed 64-bit integer", "a locale-independent integer parse"; the
    boolean is errno being ERANGE, the value then being the bound that was
    passed. *)
Definition json_strtoint (text : list Z) : Z * bool :=
  let (neg, ds) := strip_minus (cstr text) in
  let v := digits_value ds 0 in
  let v := if neg then - v else v in
  if v <? - 2 ^ 63 then (- 2 ^ 63, true)
  else if 2 ^ 63 - 1 <? v then (2 ^ 63 - 1, true)
  else (v, false).

(** The decimal value [m * 10 ^ e] is so large that the nearest double is
    infinity: it is at least 2^1024 - 2^970, half an ulp above the largest
    double. *)
Definition real_overflows (m e : Z) : bool :=
  let bound := 2 ^ 1024 - 2 ^ 970 in
  if 0 <=? e then bound <=? Z.abs m * 10 ^ e
  else bound * 10 ^ (- e) <=? Z.abs m.

(** Modelled from the spec: [jsonp_strtod] is in [strconv.cpp], which is
    not part of the sources at hand: "a correctly-rounded
    decimal-to-binary-floating-point routine; a result that overflows to
    infinity is rejected".  [None] is its error return. *)
Definition jsonp_strtod (text : strbuffer_t) : option real_t :=
  let (neg, l) := strip_minus (cstr text) in
  let int_part := take_digits l in
  let l1 := drop_digits l in
  let (frac, l2) :=
    match l1 with
    | c :: r => if c =? chr "." then (take_digits r, drop_digits r)
                else ([], l1)
    | [] => ([], l1)
    end in
  let e :=
    match l2 with
    | c :: r =>
        if (c =? chr "e") || (c =? chr "E") then
          match r with
          | s :: r' =>
              if s =? chr "-" then - digits_value r' 0
              else if s =? chr "+" then digits_value r' 0
              else digits_value r 0
          | [] => 0
          end
        else 0
    | [] => 0
    end in
  let m := digits_value (int_part ++ frac) 0 in
  let m := if neg then - m else m in
  let e := e - Z.of_nat (List.length frac) in
  if real_overflows m e then None else Some (mk_real m e).

(** [while(l_isdigit(c)) c = lex_get_save(lex, error);] *)
Fixpoint scan_digits (fuel : nat) (c : Z) (lex : lex_t)
    (error : option json_error_t) : Z * lex_t * option json_error_t :=
  match fuel with
  | O => (c, lex, error)
  | S fuel' =>
      if l_isdigit c then
        let '(c', lex', error') := lex_get_save lex error in
        scan_digits fuel' c' lex' error'
      else (c, lex, error)
  end.

(** [lex_scan_number] in its parts.  A part gives [inl] when it ends in
    [goto out], and [inr] with the character read last otherwise. *)
Definition scan_sign (c : Z) (lex : lex_t) (error : option json_error_t)
  : Z * lex_t * option json_error_t :=
  if c =? chr "-" then lex_get_save lex error else (c, lex, error).

Definition scan_integer_part (c : Z) (lex : lex_t)
    (error : option json_error_t)
  : (lex_t * option json_error_t) + (Z * lex_t * option json_error_t) :=
  if c =? chr "0" then
    let '(c1, lex1, error1) := lex_get_save lex error in
    if l_isdigit c1 then inl (lex_unget_unsave lex1 c1, error1)
    else inr (c1, lex1, error1)
  else if l_isdigit c then
    let '(c1, lex1, error1) := lex_get_save lex error in
    inr (scan_digits (lex_fuel lex1) c1 lex1 error1)
  else inl (lex_unget_unsave lex c, error).

Definition scan_fraction (c : Z) (lex : lex_t) (error : option json_error_t)
  : (lex_t * option json_error_t) + (Z * lex_t * option json_error_t) :=
  if c =? chr "." then
    let '(c1, lex1, error1) := lex_get lex error in
    if negb (l_isdigit c1) then inl (lex_unget lex1 c1, error1)
    else
      let lex2 := lex_save lex1 c1 in
      let '(c3, lex3, error3) := lex_get_save lex2 error1 in
      inr (scan_digits (lex_fuel lex3) c3 lex3 error3)
  else inr (c, lex, error).

Definition scan_exponent (c : Z) (lex : lex_t) (error : option json_error_t)
  : (lex_t * option json_error_t) + (Z * lex_t * option json_error_t) :=
  if (c =? chr "E") || (c =? chr "e") then
    let '(c2, lex2, error2) := lex_get_save lex error in
    let '(c3, lex3, error3) :=
      if (c2 =? chr "+") || (c2 =? chr "-")
      then lex_get_save lex2 error2 else (c2, lex2, error2) in
    if negb (l_isdigit c3) then inl (lex_unget_unsave lex3 c3, error3)
    else
      let '(c4, lex4, error4) := lex_get_save lex3 error3 in
      inr (scan_digits (lex_fuel lex4) c4 lex4 error4)
  else inr (c, lex, error).

(** The conversion of a literal without fraction and exponent. *)
Definition finish_integer (c : Z) (lex : lex_t)
    (error : option json_error_t) : Z * lex_t * option json_error_t :=
  let lex2 := lex_unget_unsave lex c in
  let (value, erange) := json_strtoint (saved_text lex2) in
  if erange then
    if value <? 0 then
      (-1, lex2, error_set error (Some lex2) "too big negative integer")
    else (-1, lex2, error_set error (Some lex2) "too big integer")
  else
    (0, set_value (set_token lex2 TOKEN_INTEGER) (ValInteger value), error).

Definition finish_real (c : Z) (lex : lex_t) (error : option json_error_t)
  : Z * lex_t * option json_error_t :=
  let lex3 := lex_unget_unsave lex c in
  match jsonp_strtod (saved_text lex3) with
  | None => (-1, lex3, error_set error (Some lex3) "real number overflow")
  | Some value =>
      (0, set_value (set_token lex3 TOKEN_REAL) (ValReal value), error)
  end.

Definition lex_scan_number (lex : lex_t) (c : Z)
    (error : option json_error_t) : Z * lex_t * option json_error_t :=
  let lex := set_token lex TOKEN_INVALID in
  let '(c, lex, error) := scan_sign c lex error in
  match scan_integer_part c lex error with
  | inl (lex1, error1) => (-1, lex1, error1)
  | inr (c1, lex1, error1) =>
      if negb (c1 =? chr ".") && negb (c1 =? chr "E")
         && negb (c1 =? chr "e") then finish_integer c1 lex1 error1
      else
        match scan_fraction c1 lex1 error1 with
        | inl (lex2, error2) => (-1, lex2, error2)
        | inr (c2, lex2, error2) =>
            match scan_exponent c2 lex2 error2 with
            | inl (lex3, error3) => (-1, lex3, error3)
            | inr (c3, lex3, error3) => finish_real c3 lex3 error3
            end
        end
  end.

(** ** The scanner *)

Definition is_space (c : Z) : bool :=
  (c =? chr " ") || (c =? chr "009") || (c =? chr "010") || (c =? chr "013").

Fixpoint skip_space (fuel : nat) (c : Z) (lex : lex_t)
    (error : option json_error_t) : Z * lex_t * option json_error_t :=
  match fuel with
  | O => (c, lex, error)
  | S fuel' =>
      if is_space c then
        let '(c', lex', error') := lex_get lex error in
        skip_space fuel' c' lex' error'
      else (c, lex, error)
  end.

(** [while(l_isalpha(c)) c = lex_get_save(lex, error);] *)
Fixpoint scan_alpha (fuel : nat) (c : Z) (lex : lex_t)
    (error : option json_error_t) : Z * lex_t * option json_error_t :=
  match fuel with
  | O => (c, lex, error)
  | S fuel' =>
      if l_isalpha c then
        let '(c', lex', error') := lex_get_save lex error in
        scan_alpha fuel' c' lex' error'
      else (c, lex, error)
  end.

Fixpoint bytes_eqb (a b : list Z) : bool :=
  match a, b with
  | [], [] => true
  | x :: a', y :: b' => (x =? y) && bytes_eqb a' b'
  | _, _ => false
  end.

(** [strcmp(saved_text, word) == 0] *)
Definition strcmp0 (text : strbuffer_t) (word : string) : bool :=
  bytes_eqb (cstr text) (bytes_of_string word).

Definition is_punct (c : Z) : bool :=
  (c =? chr "{") || (c =? chr "}") || (c =? chr "[") || (c =? chr "]")
  || (c =? chr ":") || (c =? chr ",").

Definition lex_scan (lex : lex_t) (error : option json_error_t)
  : run (lex_t * option json_error_t) :=
  let lex := set_saved_text lex (strbuffer_clear (saved_text lex)) in
  let lex :=
    if token lex =? TOKEN_STRING then set_value lex (ValString None)
    else lex in
  let '(c0, lex0, error0) := lex_get lex error in
  let '(c, lex, error) := skip_space (lex_fuel lex0) c0 lex0 error0 in
  if c =? STREAM_STATE_EOF then Done (set_token lex TOKEN_EOF, error)
  else if c =? STREAM_STATE_ERROR then
    Done (set_token lex TOKEN_INVALID, error)
  else
    let lex := lex_save lex c in
    if is_punct c then Done (set_token lex c, error)
    else if c =? chr "034" then lex_scan_string lex error
    else if l_isdigit c || (c =? chr "-") then
      let '(_, lex', error') := lex_scan_number lex c error in
      Done (lex', error')
    else if l_isalpha c then
      (* eat up the whole identifier for clearer error messages *)
      let '(c1, lex1, error1) := lex_get_save lex error in
      let '(c2, lex2, error2) :=
        scan_alpha (lex_fuel lex1) c1 lex1 error1 in
      let lex3 := lex_unget_unsave lex2 c2 in
      if strcmp0 (saved_text lex3) "true" then
        Done (set_token lex3 TOKEN_TRUE, error2)
      else if strcmp0 (saved_text lex3) "false" then
        Done (set_token lex3 TOKEN_FALSE, error2)
      else if strcmp0 (saved_text lex3) "null" then
        Done (set_token lex3 TOKEN_NULL, error2)
      else Done (set_token lex3 TOKEN_INVALID, error2)
    else
      (* save the rest of the input UTF-8 sequence to get an error
         message of valid UTF-8 *)
      Done (set_token (lex_save_cached lex) TOKEN_INVALID, error).

Definition lex_steal_string (lex : lex_t) : option (list Z) * lex_t :=
  if token lex =? TOKEN_STRING then
    match value lex with
    | ValString s => (s, set_value lex (ValString None))
    | _ => (None, lex)
    end
  else (None, lex).

Definition lex_init (get : get_func) : lex_t :=
  mk_lex (stream_init get) [] TOKEN_INVALID (ValString None).

(** ** The value tree *)

(** Modelled from the spec: the value tree and its builder ([value.cpp])
    are not part of the sources at hand.  The builder gives "construct
    empty object; construct empty array; ...; set-key-overwrite on an
    object; lookup-key on an object; append to an array".  An object is
    the list of its members, a key occurring once. *)
#[warnings="-register-all"]
Inductive json : Type :=
| JObject (members : list (list Z * json))
| JArray (elements : list json)
| JString (s : list Z)
| JInteger (i : Z)
| JReal (r : real_t)
| JTrue
| JFalse
| JNull.

Definition json_ref : Type := option json.

Fixpoint members_get (members : list (list Z * json)) (key : list Z)
  : option json :=
  match members with
  | [] => None
  | (k, v) :: rest => if bytes_eqb k key then Some v else members_get rest key
  end.

Fixpoint members_set (members : list (list Z * json)) (key : list Z)
    (v : json) : list (list Z * json) :=
  match members with
  | [] => [(key, v)]
  | (k, v0) :: rest =>
      if bytes_eqb k key then (k, v) :: rest
      else (k, v0) :: members_set rest key v
  end.

Definition json_object_get (object : json) (key : list Z) : json_ref :=
  match object with
  | JObject members => members_get members key
  | _ => None
  end.

Definition json_object_set_nocheck (object : json) (key : list Z) (v : json)
  : json :=
  match object with
  | JObject members => JObject (members_set members key v)
  | _ => object
  end.

Definition json_array_append (array : json) (v : json) : json :=
  match array with
  | JArray elements => JArray (elements ++ [v])
  | _ => array
  end.

(** The members of the union the parser reads; a token of the matching
    kind has always set them. *)
Definition lex_string (lex : lex_t) : list Z :=
  match value lex with
  | ValString (Some s) => s
  | _ => []
  end.

Definition lex_integer (lex : lex_t) : Z :=
  match value lex with
  | ValInteger i => i
  | _ => 0
  end.

Definition lex_real (lex : lex_t) : real_t :=
  match value lex with
  | ValReal r => r
  | _ => mk_real 0 0
  end.

(** ** The parser *)

Definition parsed : Type := run (json_ref * lex_t * option json_error_t).

Definition fail (lex : lex_t) (error : option json_error_t) (msg : string)
  : parsed :=
  Done (None, lex, error_set error (Some lex) msg).

(** What follows the value of a member in the loop of [parse_object]:
    the scan for the comma, and either the next turn of the loop ([loop],
    after one more scan) or the test for the closing brace. *)
Definition object_after_member
    (loop : lex_t -> option json_error_t -> json -> parsed)
    (lex : lex_t) (error : option json_error_t) (object : json) : parsed :=
  do (lex1, error1) <- lex_scan lex error;
  if negb (token lex1 =? chr ",") then
    if negb (token lex1 =? chr "}") then fail lex1 error1 "'}' expected"
    else Done (Some object, lex1, error1)
  else
    do (lex2, error2) <- lex_scan lex1 error1;
    loop lex2 error2 object.

Definition array_after_element
    (loop : lex_t -> option json_error_t -> json -> parsed)
    (lex : lex_t) (error : option json_error_t) (array : json) : parsed :=
  do (lex1, error1) <- lex_scan lex error;
  if negb (token lex1 =? chr ",") then
    if negb (token lex1 =? chr "]") then fail lex1 error1 "']' expected"
    else Done (Some array, lex1, error1)
  else
    do (lex2, error2) <- lex_scan lex1 error1;
    loop lex2 error2 array.

(** A member of an object from the scan for its colon on: the value, the
    store into the object, and what follows the member. *)
Definition object_member
    (value_parser : lex_t -> option json_error_t -> parsed)
    (loop : lex_t -> option json_error_t -> json -> parsed)
    (lex : lex_t) (error : option json_error_t) (object : json)
    (key : list Z) : parsed :=
  do (lex1, error1) <- lex_scan lex error;
  if negb (token lex1 =? chr ":") then fail lex1 error1 "':' expected"
  else
    do (lex2, error2) <- lex_scan lex1 error1;
    do (v, lex3, error3) <- value_parser lex2 error2;
    match v with
    | None => Done (None, lex3, error3)
    | Some v =>
        object_after_member loop lex3 error3
          (json_object_set_nocheck object key v)
    end.

(** [json_object_get(object, key)] is not null. *)
Definition has_key (object : json) (key : list Z) : bool :=
  match json_object_get object key with
  | Some _ => true
  | None => false
  end.

(** [parse_value], [parse_object] and [parse_array] with the turns of
    their loops; [fuel] bounds the calls that are open at a time. *)
Fixpoint parse_value (fuel : nat) (lex : lex_t) (flags : Z)
    (error : option json_error_t) {struct fuel} : parsed :=
  match fuel with
  | O => Unfinished
  | S fuel' =>
      if token lex =? TOKEN_STRING then
        Done (Some (JString (lex_string lex)), lex, error)
      else if token lex =? TOKEN_INTEGER then
        Done (Some (JInteger (lex_integer lex)), lex, error)
      else if token lex =? TOKEN_REAL then
        Done (Some (JReal (lex_real lex)), lex, error)
      else if token lex =? TOKEN_TRUE then Done (Some JTrue, lex, error)
      else if token lex =? TOKEN_FALSE then Done (Some JFalse, lex, error)
      else if token lex =? TOKEN_NULL then Done (Some JNull, lex, error)
      else if token lex =? chr "{" then parse_object fuel' lex flags error
      else if token lex =? chr "[" then parse_array fuel' lex flags error
      else if token lex =? TOKEN_INVALID then fail lex error "invalid token"
      else fail lex error "unexpected token"
  end

with parse_object (fuel : nat) (lex : lex_t) (flags : Z)
    (error : option json_error_t) {struct fuel} : parsed :=
  match fuel with
  | O => Unfinished
  | S fuel' =>
      let object := JObject [] in
      do (lex1, error1) <- lex_scan lex error;
      if token lex1 =? chr "}" then Done (Some object, lex1, error1)
      else parse_object_loop fuel' lex1 flags error1 object
  end

with parse_object_loop (fuel : nat) (lex : lex_t) (flags : Z)
    (error : option json_error_t) (object : json) {struct fuel} : parsed :=
  match fuel with
  | O => Unfinished
  | S fuel' =>
      if negb (token lex =? TOKEN_STRING) then
        fail lex error "string or '}' expected"
      else
        match lex_steal_string lex with
        | (None, lex0) => Done (None, lex0, error)
        | (Some key, lex0) =>
            if flag_set flags JSON_REJECT_DUPLICATES && has_key object key
            then fail lex0 error "duplicate object key"
            else
              object_member
                (fun l e => parse_value fuel' l flags e)
                (fun l e o => parse_object_loop fuel' l flags e o)
                lex0 error object key
        end
  end

with parse_array (fuel : nat) (lex : lex_t) (flags : Z)
    (error : option json_error_t) {struct fuel} : parsed :=
  match fuel with
  | O => Unfinished
  | S fuel' =>
      let array := JArray [] in
      do (lex1, error1) <- lex_scan lex error;
      if token lex1 =? chr "]" then Done (Some array, lex1, error1)
      else parse_array_loop fuel' lex1 flags error1 array
  end

with parse_array_loop (fuel : nat) (lex : lex_t) (flags : Z)
    (error : option json_error_t) (array : json) {struct fuel} : parsed :=
  match fuel with
  | O => Unfinished
  | S fuel' =>
      if token lex =? 0 then
        (* while(lex->token) is left at once *)
        if negb (token lex =? chr "]") then fail lex error "']' expected"
        else Done (Some array, lex, error)
      else
        do (elem, lex1, error1) <- parse_value fuel' lex flags error;
        match elem with
        | None => Done (None, lex1, error1)
        | Some elem =>
            array_after_element
              (fun l e a => parse_array_loop fuel' l flags e a)
              lex1 error1 (json_array_append array elem)
        end
  end.

(** The calls of the parser that are open at a time are fewer than three
    for each byte that is left. *)
Definition parse_fuel (lex : lex_t) : nat :=
  3 * stream_weight (stream lex) + 4.

Definition set_error_position (error : option json_error_t) (pos : Z)
  : option json_error_t :=
  match error with
  | None => None
  | Some e =>
      Some (mk_error (e_line e) (e_column e) pos (e_source e) (e_text e))
  end.

Definition parse_json (lex : lex_t) (flags : Z) (error : option json_error_t)
  : parsed :=
  do (lex1, error1) <- lex_scan lex error;
  if negb (flag_set flags JSON_DECODE_ANY)
     && (negb (token lex1 =? chr "[") && negb (token lex1 =? chr "{")) then
    fail lex1 error1 "'[' or '{' expected"
  else
    do (result, lex2, error2) <-
      parse_value (parse_fuel lex1) lex1 flags error1;
    match result with
    | None => Done (None, lex2, error2)
    | Some _ =>
        let finish (lex3 : lex_t) (error3 : option json_error_t) : parsed :=
          (* Save the position even though there was no error *)
          Done (result, lex3,
                set_error_position error3 (position (stream lex3))) in
        if negb (flag_set flags JSON_DISABLE_EOF_CHECK) then
          do (lex3, error3) <- lex_scan lex2 error2;
          if negb (token lex3 =? TOKEN_EOF) then
            fail lex3 error3 "end of file expected"
          else finish lex3 error3
        else finish lex2 error2
    end.

(** ** Entry points *)

(** [string_get] stops at the terminator of its C string. *)
Definition json_loads (text : list Z) (flags : Z)
    (error : option json_error_t) : parsed :=
  let error := jsonp_error_init error "<string>" in
  parse_json (lex_init (cstr text)) flags error.

Definition json_loadb (buffer : list Z) (flags : Z)
    (error : option json_error_t) : parsed :=
  let error := jsonp_error_init error "<buffer>" in
  parse_json (lex_init buffer) flags error.

End Decoder.

(** The values of Jansson's public header, for running the decoder. *)
#[export] Instance jansson_2 : jansson_h := {
  JSON_ERROR_TEXT_LENGTH := 160;
  JSON_REJECT_DUPLICATES := 0x1;
  JSON_DISABLE_EOF_CHECK := 0x2;
  JSON_DECODE_ANY := 0x4
}.

(** A text of the decoder written with ' for the double quote. *)
Definition json_text (s : string) : list Z :=
  map (fun c => if c =? chr "'" then chr "034" else c) (bytes_of_string s).

(** The error record an entry point starts from. *)
Definition no_error : json_error_t := mk_error (-1) (-1) 0 "<buffer>" "".

(** * Properties *)

(** ** The stream *)

(** The operations the lexer applies to a stream. *)
Inductive stream_op : Type :=
| OpGet
| OpUnget (c : Z).

Section StreamProperties.

Context {header : jansson_h}.

(** A sequence of operations on a stream; the values the [stream_get]s
    among them returned are collected. *)
Fixpoint stream_run (to_lex : stream_t -> lex_t) (ops : list stream_op)
    (s : stream_t) (error : option json_error_t)
  : list Z * stream_t * option json_error_t :=
  match ops with
  | [] => ([], s, error)
  | OpGet :: ops' =>
      let '(c, s1, error1) := stream_get to_lex s error in
      let '(cs, s2, error2) := stream_run to_lex ops' s1 error1 in
      (c :: cs, s2, error2)
  | OpUnget c :: ops' => stream_run to_lex ops' (stream_unget s c) error
  end.

Lemma stream_unget_state (s : stream_t) (c : Z) :
  state (stream_unget s c) = state s /\ data (stream_unget s c) = data s.
Proof.
  unfold stream_unget.
  repeat match goal with |- context [if ?b then _ else _] => destruct b end;
    auto.
Qed.

Lemma stream_get_not_ok (to_lex : stream_t -> lex_t) (s : stream_t)
    (error : option json_error_t) :
  state s <> STREAM_STATE_OK ->
  stream_get to_lex s error = (state s, s, error).
Proof.
  intros H. unfold stream_get.
  destruct (state s =? STREAM_STATE_OK) eqn:E; [|reflexivity].
  apply Z.eqb_eq in E. contradiction.
Qed.

(** What [stream_get] can do to the state of a stream that is Ok. *)
Lemma stream_get_state (to_lex : stream_t -> lex_t) (s : stream_t)
    (error : option json_error_t) c s' error' :
  stream_get to_lex s error = (c, s', error') ->
  state s = STREAM_STATE_OK ->
  state s' = STREAM_STATE_OK
  \/ (state s' = STREAM_STATE_EOF /\ c = STREAM_STATE_EOF)
  \/ (state s' = STREAM_STATE_ERROR /\ c = STREAM_STATE_ERROR).
Proof.
  unfold stream_get. intros H Hok. rewrite Hok in H. simpl in H.
  destruct (stream_refill s) as [s1|s1|s1 c1] eqn:R.
  - assert (state s1 = STREAM_STATE_OK) as H1.
    { unfold stream_refill in R.
      repeat match type of R with
             | context [if ?b then _ else _] => destruct b
             | context [let (_, _) := ?p in _] => destruct p
             end; inversion R; subst; simpl; auto. }
    repeat match type of H with
           | context [if ?b then _ else _] => destruct b
           end; inversion H; subst; simpl; auto.
  - inversion H; subst. right; left.
    unfold stream_refill in R.
    repeat match type of R with
           | context [if ?b then _ else _] => destruct b
           | context [let (_, _) := ?p in _] => destruct p
           end; inversion R; subst; simpl; auto.
  - inversion H; subst. right; right. simpl. auto.
Qed.

(** C6: the status of a stream is sticky.  On a stream whose state is Eof
    or Error, [stream_get] returns the state as its sentinel and leaves
    the stream, the byte source included, and the error record as they
    are; and whatever operations follow, the state stays what it is, the
    byte source is not consulted, and every [stream_get] among them
    returns that same sentinel. *)
Theorem C6_stream_state_sticky (to_lex : stream_t -> lex_t) (s : stream_t)
    (error : option json_error_t) :
  state s = STREAM_STATE_EOF \/ state s = STREAM_STATE_ERROR ->
  stream_get to_lex s error = (state s, s, error)
  /\ forall ops cs s' error',
       stream_run to_lex ops s error = (cs, s', error') ->
       state s' = state s /\ data s' = data s /\ error' = error
       /\ Forall (fun c => c = state s) cs.
Proof.
  intros Hs.
  assert (state s <> STREAM_STATE_OK) as Hne
    by (destruct Hs as [-> | ->]; discriminate).
  split; [apply stream_get_not_ok; assumption|].
  intros ops. revert s Hs Hne.
  induction ops as [|op ops IH]; intros s Hs Hne cs s' error' Hrun.
  - simpl in Hrun. inversion Hrun; subst. auto.
  - destruct op as [|c]; simpl in Hrun.
    + rewrite stream_get_not_ok in Hrun by assumption.
      destruct (stream_run to_lex ops s error) as [[cs0 s0] e0] eqn:R.
      inversion Hrun; subst.
      destruct (IH s Hs Hne _ _ _ R) as (H1 & H2 & H3 & H4).
      repeat split; auto.
    + destruct (stream_unget_state s c) as [Hst Hd].
      assert (state (stream_unget s c) = STREAM_STATE_EOF
              \/ state (stream_unget s c) = STREAM_STATE_ERROR) as Hs'
        by (rewrite Hst; exact Hs).
      assert (state (stream_unget s c) <> STREAM_STATE_OK) as Hne'
        by (rewrite Hst; exact Hne).
      destruct (IH _ Hs' Hne' _ _ _ Hrun) as (H1 & H2 & H3 & H4).
      rewrite Hst in H1, H4. rewrite Hd in H2. auto.
Qed.

Definition is_byte (b : Z) : Prop := 0 <= b < 256.

Definition stream_wf (s : stream_t) : Prop :=
  List.length (buffer s) = 5%nat
  /\ Forall is_byte (buffer s)
  /\ 0 <= position s < 2 ^ 64
  /\ (state s = STREAM_STATE_OK \/ state s = STREAM_STATE_EOF
      \/ state s = STREAM_STATE_ERROR).

Lemma to_uchar_byte c : is_byte (to_uchar c).
Proof. unfold is_byte, to_uchar. apply Z.mod_pos_bound. lia. Qed.

Lemma buf_set_length b i v : List.length (buf_set b i v) = List.length b.
Proof.
  revert i; induction b as [|x b IH]; intros [|i]; simpl; auto.
Qed.

Lemma buf_set_bytes b i v : Forall is_byte b -> is_byte v -> Forall is_byte (buf_set b i v).
Proof.
  intros Hb Hv. revert i; induction Hb as [|x b Hx Hb IH]; intros [|i]; simpl; auto.
Qed.

Lemma buf_get_byte b i : Forall is_byte b -> is_byte (buf_get b i).
Proof.
  intros Hb. unfold buf_get. revert i; induction Hb as [|x b Hx Hb IH]; intros [|i]; simpl; auto; unfold is_byte; lia.
Qed.

Lemma read_continuation_buffer n : forall i d b d' b',
  read_continuation n i d b = (d', b') ->
  List.length b' = List.length b /\ (Forall is_byte b -> Forall is_byte b').
Proof.
  induction n as [|n IH]; intros i d b d' b' H; simpl in H.
  - inversion H; subst; auto.
  - destruct (source_get d) as [c d1]. apply IH in H. destruct H as [H1 H2].
    rewrite buf_set_length in H1. split; auto.
    intros Hb. apply H2. apply buf_set_bytes; auto using to_uchar_byte.
Qed.

Lemma is_byte_0 : is_byte 0.
Proof. unfold is_byte; lia. Qed.

(** The refill keeps the counters and the shape of the buffer. *)
Lemma stream_refill_ok s s1 :
  stream_refill s = RefillOk s1 ->
  line s1 = line s /\ column s1 = column s /\ last_column s1 = last_column s
  /\ position s1 = position s /\ state s1 = state s
  /\ List.length (buffer s1) = List.length (buffer s)
  /\ (Forall is_byte (buffer s) -> Forall is_byte (buffer s1)).
Proof.
  unfold stream_refill. intros R.
  destruct (buf_get (buffer s) (buffer_pos s) =? 0); [|inversion R; subst; tauto].
  destruct (source_get (data s)) as [c d'].
  destruct (c =? EOF); [discriminate|].
  destruct ((0x80 <=? c) && (c <=? 0xFF)).
  - destruct (utf8_check_first c =? 0); [discriminate|].
    destruct (read_continuation _ _ _ _) as [d'' b1] eqn:RC.
    destruct (negb _); [discriminate|].
    inversion R; subst; simpl.
    apply read_continuation_buffer in RC. destruct RC as [L B].
    rewrite buf_set_length in L. rewrite buf_set_length.
    repeat split; auto.
    intros Hb. apply buf_set_bytes; auto using is_byte_0.
    apply B. apply buf_set_bytes; auto using to_uchar_byte.
  - inversion R; subst; simpl. rewrite !buf_set_length.
    repeat split; auto.
    intros Hb. apply buf_set_bytes; auto using is_byte_0.
    apply buf_set_bytes; auto using to_uchar_byte.
Qed.

Lemma stream_refill_eof s s1 :
  stream_refill s = RefillEof s1 ->
  line s1 = line s /\ column s1 = column s /\ last_column s1 = last_column s
  /\ position s1 = position s /\ buffer s1 = buffer s.
Proof.
  unfold stream_refill. intros R.
  repeat match type of R with
         | context [if ?b then _ else _] => destruct b
         | context [let (_, _) := ?p in _] => destruct p
         end; inversion R; subst; simpl; auto.
Qed.

Lemma stream_refill_out s s1 c :
  stream_refill s = RefillOut s1 c ->
  line s1 = line s /\ column s1 = column s /\ last_column s1 = last_column s
  /\ position s1 = position s
  /\ List.length (buffer s1) = List.length (buffer s)
  /\ (Forall is_byte (buffer s) -> Forall is_byte (buffer s1)).
Proof.
  unfold stream_refill. intros R.
  destruct (buf_get (buffer s) (buffer_pos s) =? 0); [|discriminate].
  destruct (source_get (data s)) as [c0 d'].
  destruct (c0 =? EOF); [discriminate|].
  destruct ((0x80 <=? c0) && (c0 <=? 0xFF)); [|discriminate].
  destruct (utf8_check_first c0 =? 0).
  - inversion R; subst; simpl. rewrite buf_set_length. repeat split; auto.
    intros; apply buf_set_bytes; auto using to_uchar_byte.
  - destruct (read_continuation _ _ _ _) as [d'' b1] eqn:RC.
    destruct (negb _); [|discriminate].
    inversion R; subst; simpl.
    apply read_continuation_buffer in RC. destruct RC as [L B].
    rewrite buf_set_length in L. repeat split; auto.
    intros; apply B; apply buf_set_bytes; auto using to_uchar_byte.
Qed.

Lemma size_t_wrap_range z : 0 <= size_t_wrap z < 2 ^ 64.
Proof. unfold size_t_wrap. apply Z.mod_pos_bound. lia. Qed.

Lemma size_t_wrap_pred p : 0 <= p < 2 ^ 64 -> size_t_wrap (size_t_wrap (p + 1) - 1) = p.
Proof.
  intros H. unfold size_t_wrap.
  destruct (Z.eq_dec p (2 ^ 64 - 1)) as [->|Hne]; [reflexivity|].
  rewrite (Z.mod_small (p + 1)) by lia. replace (p + 1 - 1) with p by lia.
  apply Z.mod_small; lia.
Qed.

Lemma byte_not_sentinel c : is_byte c -> is_sentinel c = false.
Proof.
  unfold is_byte, is_sentinel, STREAM_STATE_EOF, STREAM_STATE_ERROR. intros H.
  destruct (Z.eqb_spec c (-1)); [lia|]. destruct (Z.eqb_spec c (-2)); [lia|]. reflexivity.
Qed.


Lemma size_t_wrap_succ a : size_t_wrap (size_t_wrap a + 1) = size_t_wrap (a + 1).
Proof. unfold size_t_wrap. apply Zplus_mod_idemp_l. Qed.

Lemma size_t_wrap_add_l a b :
  size_t_wrap (size_t_wrap a + b) = size_t_wrap (a + b).
Proof. unfold size_t_wrap. apply Zplus_mod_idemp_l. Qed.

Lemma to_uchar_idem c : to_uchar (to_uchar c) = to_uchar c.
Proof. unfold to_uchar. apply Z.mod_mod. lia. Qed.

Lemma to_uchar_small c : 0 <= c < 256 -> to_uchar c = c.
Proof. intros. unfold to_uchar. apply Z.mod_small. assumption. Qed.

(** A continuation byte, once in the buffer, is handed out without a
    refill and without a move of the column. *)
Lemma stream_get_continuation (to_lex : stream_t -> lex_t) (s : stream_t)
    (error : option json_error_t) :
  state s = STREAM_STATE_OK ->
  0x80 <= buf_get (buffer s) (buffer_pos s) <= 0xBF ->
  stream_get to_lex s error =
    (buf_get (buffer s) (buffer_pos s),
     mk_stream (data s) (buffer s) (S (buffer_pos s)) (state s) (line s)
       (column s) (last_column s) (size_t_wrap (position s + 1)),
     error).
Proof.
  intros Hst Hb. unfold stream_get, stream_refill.
  remember (buf_get (buffer s) (buffer_pos s)) as b eqn:Eb.
  rewrite Hst at 1. simpl negb. cbv iota.
  destruct (Z.eqb_spec b 0); [lia|]. rewrite <- Eb.
  destruct (Z.eqb_spec b (chr "010")); [unfold chr in *; simpl in *; lia|].
  unfold utf8_check_first. rewrite to_uchar_small by lia.
  destruct (Z.ltb_spec b 0x80); [lia|].
  destruct (Z.leb_spec b 0xBF); [|lia]. reflexivity.
Qed.


Lemma utf8_check_first_lead lead :
  0x80 <= lead <= 0xFF ->
  utf8_check_first lead = 0 \/ utf8_check_first lead = 2
  \/ utf8_check_first lead = 3 \/ utf8_check_first lead = 4.
Proof.
  intros H. unfold utf8_check_first. rewrite to_uchar_small by lia.
  destruct (Z.ltb_spec lead 0x80); [lia|].
  repeat match goal with |- context [if ?b then _ else _] => destruct b end;
    auto.
Qed.

Lemma continuation_byte acc u rest v :
  utf8_continuation (u :: rest) acc = Some v ->
  0x80 <= u <= 0xBF
  /\ utf8_continuation rest (Z.shiftl acc 6 + Z.land u 0x3F) = Some v.
Proof.
  simpl. destruct (Z.ltb_spec u 0x80); [discriminate|].
  destruct (Z.ltb_spec 0xBF u); [discriminate|]. simpl. intros H1. split; [lia|auto].
Qed.

Lemma utf8_check_full_continuation b0 b1 b2 b3 b4 size :
  utf8_check_full [b0; b1; b2; b3; b4] size = true ->
  (size = 2 /\ 0x80 <= to_uchar b1 <= 0xBF)
  \/ (size = 3 /\ 0x80 <= to_uchar b1 <= 0xBF /\ 0x80 <= to_uchar b2 <= 0xBF)
  \/ (size = 4 /\ 0x80 <= to_uchar b1 <= 0xBF /\ 0x80 <= to_uchar b2 <= 0xBF
      /\ 0x80 <= to_uchar b3 <= 0xBF).
Proof.
  unfold utf8_check_full. intros H.
  destruct (Z.eqb_spec size 2) as [E2|N2]; [subst size|].
  { left. cbn [Z.to_nat Pos.to_nat Pos.iter_op Nat.sub Init.Nat.add skipn firstn map] in H.
    change (Z.to_nat 2 - 1)%nat with 1%nat in H. cbn [skipn firstn map] in H.
    destruct (utf8_continuation _ _) eqn:E; [|discriminate].
    apply continuation_byte in E. tauto. }
  destruct (Z.eqb_spec size 3) as [E3|N3]; [subst size|].
  { right; left. change (Z.to_nat 3 - 1)%nat with 2%nat in H. cbn [skipn firstn map] in H.
    destruct (utf8_continuation _ _) eqn:E; [|discriminate].
    apply continuation_byte in E. destruct E as [E1 E].
    apply continuation_byte in E. tauto. }
  destruct (Z.eqb_spec size 4) as [E4|N4]; [subst size|discriminate].
  right; right. change (Z.to_nat 4 - 1)%nat with 3%nat in H. cbn [skipn firstn map] in H.
  destruct (utf8_continuation _ _) eqn:E; [|discriminate].
  apply continuation_byte in E. destruct E as [E1 E].
  apply continuation_byte in E. destruct E as [E2 E].
  apply continuation_byte in E. tauto.
Qed.


Ltac continuation_bounds H :=
  apply utf8_check_full_continuation in H;
  destruct H as [H|[H|H]]; destruct H as [Hsize H]; try discriminate Hsize;
  rewrite ?to_uchar_idem in H.

Ltac character_done H Hu E Hdata :=
  cbn [buf_get nth buf_set data buffer buffer_pos state line column
       last_column position] in H;
  rewrite Hu in H;
  match type of H with context [?l =? chr "010"] =>
    destruct (Z.eqb_spec l (chr "010")); [contradiction|] end;
  rewrite E in H; simpl in H; inversion H; subst; clear H;
  cbn [repeat Nat.sub stream_run];
  repeat (rewrite stream_get_continuation
            by (cbn [buf_get nth buffer buffer_pos state]; auto; lia);
          cbn [buf_get nth buffer buffer_pos data state line column
               last_column position]);
  do 2 eexists; split; [exact E|]; split; [lia|]; split; [reflexivity|];
  rewrite Hdata; cbn [firstn map skipn List.length]; rewrite Hu;
  repeat split; auto;
  try (cbn [position];
       repeat (rewrite size_t_wrap_add_l || rewrite <- Z.add_assoc);
       f_equal; lia);
  repeat (constructor; try lia).

(** A multi-byte character: once its lead byte has been handed out, the
    next [stream_get]s hand out its continuation bytes; the column has
    moved by one, the offset by the length of the character. *)
Lemma stream_get_character (to_lex : stream_t -> lex_t) (s : stream_t)
    (error : option json_error_t) lead rest c s1 error1 :
  stream_wf s ->
  state s = STREAM_STATE_OK ->
  buf_get (buffer s) (buffer_pos s) = 0 ->
  data s = lead :: rest ->
  0x80 <= lead <= 0xFF ->
  stream_get to_lex s error = (c, s1, error1) ->
  is_sentinel c = false ->
  exists n cs s',
    utf8_check_first lead = Z.of_nat n /\ (2 <= n <= 4)%nat
    /\ stream_run to_lex (repeat OpGet (n - 1)) s1 error1 = (cs, s', error1)
    /\ c :: cs = map to_uchar (firstn n (data s))
    /\ List.length (c :: cs) = n
    /\ Forall (fun b => 0x80 <= b <= 0xBF) cs
    /\ data s' = skipn n (data s)
    /\ line s' = line s
    /\ column s' = column s + 1
    /\ position s' = size_t_wrap (position s + Z.of_nat n).
Proof.
  intros (Hlen & Hbytes & Hpos & _) Hst Hbuf Hdata Hlead H Hc.
  unfold stream_get in H. rewrite Hst in H. simpl negb in H. cbv iota in H.
  unfold stream_refill in H. rewrite Hbuf, Hdata in H. simpl source_get in H.
  cbv iota beta in H.
  destruct (Z.eqb_spec lead EOF) as [E|_]; [unfold EOF in E; lia|].
  destruct (Z.leb_spec 0x80 lead); [|lia].
  destruct (Z.leb_spec lead 0xFF); [|lia]. simpl andb in H. cbv iota in H.
  destruct (buffer s) as [|x0 [|x1 [|x2 [|x3 [|x4 [|]]]]]] eqn:Eb;
    try discriminate Hlen. clear Hlen.
  assert (lead <> chr "010") as Hnl by (unfold chr; simpl; lia).
  assert (to_uchar lead = lead) as Hu by (apply to_uchar_small; lia).
  destruct (utf8_check_first_lead lead Hlead) as [E|[E|[E|E]]]; rewrite E in H.
  - simpl in H. inversion H; subst. discriminate Hc.
  - exists 2%nat. change (Z.to_nat 2 - 1)%nat with 1%nat in H.
    change (Z.to_nat 2) with 2%nat in H.
    simpl Z.eqb in H. cbv iota in H.
    destruct rest as [|b1 rest]; cbn [read_continuation source_get buf_set] in H;
      match type of H with context [utf8_check_full ?b ?n] =>
        destruct (utf8_check_full b n) eqn:Hfull end; simpl negb in H;
      cbv iota in H; try (inversion H; subst; discriminate Hc);
      continuation_bounds Hfull;
      try (exfalso; change (to_uchar EOF) with 255 in Hfull; lia).
    character_done H Hu E Hdata.
  - exists 3%nat. change (Z.to_nat 3 - 1)%nat with 2%nat in H.
    change (Z.to_nat 3) with 3%nat in H.
    simpl Z.eqb in H. cbv iota in H.
    destruct rest as [|b1 [|b2 rest]];
      cbn [read_continuation source_get buf_set] in H;
      match type of H with context [utf8_check_full ?b ?n] =>
        destruct (utf8_check_full b n) eqn:Hfull end; simpl negb in H;
      cbv iota in H; try (inversion H; subst; discriminate Hc);
      continuation_bounds Hfull;
      try (exfalso; change (to_uchar EOF) with 255 in Hfull; lia).
    character_done H Hu E Hdata.
  - exists 4%nat. change (Z.to_nat 4 - 1)%nat with 3%nat in H.
    change (Z.to_nat 4) with 4%nat in H.
    simpl Z.eqb in H. cbv iota in H.
    destruct rest as [|b1 [|b2 [|b3 rest]]];
      cbn [read_continuation source_get buf_set] in H;
      match type of H with context [utf8_check_full ?b ?n] =>
        destruct (utf8_check_full b n) eqn:Hfull end; simpl negb in H;
      cbv iota in H; try (inversion H; subst; discriminate Hc);
      continuation_bounds Hfull;
      try (exfalso; change (to_uchar EOF) with 255 in Hfull; lia).
    character_done H Hu E Hdata.
Qed.

Lemma stream_init_wf (get : get_func) : stream_wf (stream_init get).
Proof.
  unfold stream_wf, stream_init; simpl. repeat split; auto; try lia.
  repeat constructor; unfold is_byte; lia.
Qed.

Lemma stream_get_wf (to_lex : stream_t -> lex_t) (s : stream_t)
    (error : option json_error_t) c s' error' :
  stream_wf s ->
  stream_get to_lex s error = (c, s', error') ->
  stream_wf s'.
Proof.
  intros (Hlen & Hbytes & Hpos & Hstate) H. unfold stream_get in H.
  destruct (state s =? STREAM_STATE_OK) eqn:Est; simpl in H.
  2:{ inversion H; subst. repeat split; auto; lia. }
  apply Z.eqb_eq in Est.
  destruct (stream_refill s) as [s1|s1|s1 c1] eqn:R.
  - apply stream_refill_ok in R.
    destruct R as (Rl & Rc & Rlc & Rp & Rst & Rlen & Rb).
    assert (state s1 = STREAM_STATE_OK) as Hst1 by congruence.
    repeat match type of H with
           | context [if ?b then _ else _] => destruct b
           end; inversion H; subst; unfold stream_wf; simpl;
      (split; [congruence|]); (split; [auto|]);
      (split; [apply size_t_wrap_range|auto]).
  - pose proof R as R'. apply stream_refill_eof in R.
    destruct R as (Rl & Rc & Rlc & Rp & Rb).
    inversion H; subst. unfold stream_wf. rewrite Rb, Rp.
    repeat split; auto; try lia.
    unfold stream_refill in R'.
    repeat match type of R' with
           | context [if ?b then _ else _] => destruct b
           | context [let (_, _) := ?p in _] => destruct p
           end; inversion R'; subst; simpl; auto.
  - apply stream_refill_out in R. destruct R as (Rl & Rc & Rlc & Rp & Rlen & Rb).
    inversion H; subst. unfold stream_wf; simpl.
    repeat split; auto; try lia; congruence.
Qed.

Lemma stream_unget_wf (s : stream_t) (c : Z) :
  stream_wf s -> stream_wf (stream_unget s c).
Proof.
  intros (Hlen & Hbytes & Hpos & Hstate). unfold stream_unget, stream_wf.
  repeat match goal with |- context [if ?b then _ else _] => destruct b end;
    simpl; repeat split; auto; try lia; apply size_t_wrap_range.
Qed.

(** The assertions of [stream_unget] hold for the byte [stream_get] has
    just returned. *)
Lemma stream_unget_asserts (to_lex : stream_t -> lex_t) (s : stream_t)
    (error : option json_error_t) c s' error' :
  stream_wf s ->
  stream_get to_lex s error = (c, s', error') ->
  is_sentinel c = false ->
  (0 < buffer_pos s')%nat
  /\ buf_get (buffer s') (pred (buffer_pos s')) = c.
Proof.
  intros (Hlen & Hbytes & Hpos & Hstate) H Hc. unfold stream_get in H.
  destruct (state s =? STREAM_STATE_OK) eqn:Est; simpl in H.
  2:{ inversion H; subst. apply Z.eqb_neq in Est.
      destruct Hstate as [E|[E|E]]; rewrite E in *;
        try discriminate Hc; contradiction. }
  destruct (stream_refill s) as [s1|s1|s1 c1] eqn:R.
  - repeat match type of H with
           | context [if ?b then _ else _] => destruct b
           end; inversion H; subst; simpl; split; auto; lia.
  - inversion H; subst. discriminate Hc.
  - inversion H; subst. discriminate Hc.
Qed.

(** C7: the position triple.  A [stream_get] that returns a sentinel moves
    nothing.  One that returns a byte moves the offset by one (modulo
    2^64, the width of [size_t]); on a newline it moves the line by one,
    saves the column and resets it to 0; on another byte it moves the column
    by one when the byte is the first byte of a character and leaves it
    otherwise.  [stream_unget] of the byte just returned restores the line,
    the column and the offset.  A multi-byte character, read to its end,
    has moved the column by exactly one and the offset by its length. *)
Theorem C7_position_tracking (to_lex : stream_t -> lex_t) (s : stream_t)
    (error : option json_error_t) c s' error' :
  stream_wf s ->
  stream_get to_lex s error = (c, s', error') ->
  (is_sentinel c = true ->
     line s' = line s /\ column s' = column s /\ position s' = position s)
  /\ (is_sentinel c = false ->
      position s' = size_t_wrap (position s + 1)
      /\ (c = chr "010" ->
          line s' = line s + 1 /\ last_column s' = column s /\ column s' = 0)
      /\ (c <> chr "010" ->
          line s' = line s
          /\ column s' = column s + (if utf8_check_first c =? 0 then 0 else 1)))
  /\ (let s'' := stream_unget s' c in
      line s'' = line s /\ column s'' = column s /\ position s'' = position s)
  /\ (forall lead rest,
        state s = STREAM_STATE_OK ->
        buf_get (buffer s) (buffer_pos s) = 0 ->
        data s = lead :: rest ->
        0x80 <= lead <= 0xFF ->
        is_sentinel c = false ->
        exists n cs s'',
          utf8_check_first lead = Z.of_nat n /\ (2 <= n <= 4)%nat
          /\ stream_run to_lex (repeat OpGet (n - 1)) s' error'
             = (cs, s'', error')
          /\ c :: cs = map to_uchar (firstn n (data s))
          /\ List.length (c :: cs) = n
          /\ line s'' = line s
          /\ column s'' = column s + 1
          /\ position s'' = size_t_wrap (position s + Z.of_nat n)).
Proof.
  intros Hwf H.
  assert (forall A B C D : Prop, A /\ B /\ C -> D -> A /\ B /\ C /\ D)
    as Hsplit by tauto.
  apply Hsplit; clear Hsplit.
  2:{ intros lead rest Hst Hbuf Hdata Hlead Hc.
      destruct (stream_get_character to_lex s error lead rest c s' error'
                  Hwf Hst Hbuf Hdata Hlead H Hc)
        as (n & cs & s'' & H1 & H2 & H3 & H4 & H5 & H6 & H7 & H8 & H9 & H10).
      exists n, cs, s''. repeat split; auto; lia. }
  revert Hwf H.
  intros (Hlen & Hbytes & Hpos & Hstate) H. unfold stream_get in H.
  destruct (state s =? STREAM_STATE_OK) eqn:Est; simpl in H.
  2:{ inversion H; subst. apply Z.eqb_neq in Est.
      assert (is_sentinel (state s') = true) as Hsent.
      { unfold is_sentinel. destruct Hstate as [E|[E|E]]; rewrite E in *;
          try reflexivity; contradiction. }
      unfold stream_unget. fold (is_sentinel (state s')). rewrite Hsent.
      repeat split; auto; intros; congruence. }
  destruct (stream_refill s) as [s1|s1|s1 c1] eqn:R.
  - apply stream_refill_ok in R.
    destruct R as (Rl & Rc & Rlc & Rp & Rst & Rlen & Rb).
    specialize (Rb Hbytes).
    pose proof (buf_get_byte (buffer s1) (buffer_pos s1) Rb) as Hc.
    set (b := buf_get (buffer s1) (buffer_pos s1)) in *.
    pose proof (byte_not_sentinel b Hc) as Hns.
    destruct (b =? chr "010") eqn:Enl.
    + inversion H; subst c s' error'. clear H. apply Z.eqb_eq in Enl.
      rewrite Hns. unfold stream_unget. fold (is_sentinel b). rewrite Hns.
      rewrite Enl. simpl.
      rewrite Rl, Rc, Rp. rewrite size_t_wrap_pred by assumption.
      repeat split; auto; try discriminate; try lia; intros; congruence.
    + apply Z.eqb_neq in Enl.
      destruct (utf8_check_first b =? 0) eqn:Efirst; simpl in H;
        inversion H; subst c s' error'; clear H;
        rewrite Hns; unfold stream_unget; fold (is_sentinel b); rewrite Hns;
        destruct (b =? chr "010") eqn:Enl'; try (apply Z.eqb_eq in Enl'; contradiction);
        rewrite Efirst; simpl;
        rewrite ?Rl, ?Rc, ?Rp; rewrite size_t_wrap_pred by assumption;
        repeat split; auto; try discriminate; try lia; intros; try congruence; try lia.
  - apply stream_refill_eof in R. destruct R as (Rl & Rc & Rlc & Rp & Rb).
    inversion H; subst. simpl. repeat split; auto; discriminate.
  - apply stream_refill_out in R. destruct R as (Rl & Rc & Rlc & Rp & _).
    inversion H; subst. simpl. repeat split; auto; discriminate.
Qed.

End StreamProperties.

(** ** The error reporter *)

Section ErrorProperties.

Context {header : jansson_h}.

(** A parse attempt reports its failures one after the other. *)
Definition report_all (error : option json_error_t)
    (calls : list (option lex_t * string)) : option json_error_t :=
  fold_left (fun err call => error_set err (fst call) (snd call)) calls error.

Lemma jsonp_error_set_recorded (e : json_error_t) l c p text :
  error_recorded e = true -> jsonp_error_set (Some e) l c p text = Some e.
Proof. intros H. unfold jsonp_error_set. rewrite H. reflexivity. Qed.

Lemma error_set_recorded (e : json_error_t) (lex : option lex_t)
    (msg : string) :
  error_recorded e = true -> error_set (Some e) lex msg = Some e.
Proof.
  intros H. unfold error_set.
  destruct lex as [lex|]; [|apply jsonp_error_set_recorded; assumption].
  repeat match goal with |- context [if ?b then _ else _] => destruct b end;
    apply jsonp_error_set_recorded; assumption.
Qed.

Lemma report_all_recorded (e : json_error_t) calls :
  error_recorded e = true -> report_all (Some e) calls = Some e.
Proof.
  intros H. induction calls as [|[lex msg] calls IH]; [reflexivity|].
  unfold report_all in *. cbn [fold_left fst snd].
  rewrite error_set_recorded by assumption. exact IH.
Qed.

Lemma string_take_nonempty (n : nat) (s : string) :
  (0 < n)%nat -> s <> EmptyString -> string_take n s <> EmptyString.
Proof.
  intros Hn Hs. destruct n; [lia|]. destruct s; [contradiction|].
  simpl. discriminate.
Qed.

Lemma append_nonempty (s t : string) :
  s <> EmptyString -> (s ++ t)%string <> EmptyString.
Proof. destruct s; [contradiction|]. simpl. discriminate. Qed.

Lemma bounded_nonempty (s : string) :
  (1 < JSON_ERROR_TEXT_LENGTH)%nat -> s <> EmptyString ->
  bounded s <> EmptyString.
Proof. intros. apply string_take_nonempty; [lia|assumption]. Qed.

(** [error_set] with a message leaves an error recorded. *)
Lemma error_set_records (e : json_error_t) (lex : option lex_t)
    (msg : string) :
  (1 < JSON_ERROR_TEXT_LENGTH)%nat -> msg <> EmptyString ->
  exists e', error_set (Some e) lex msg = Some e' /\ error_recorded e' = true.
Proof.
  intros HN Hmsg.
  destruct (error_recorded e) eqn:Hrec.
  { exists e. rewrite error_set_recorded by assumption. auto. }
  pose proof (bounded_nonempty msg HN Hmsg) as Hb.
  assert (forall l c p text, text <> EmptyString ->
            exists e', jsonp_error_set (Some e) l c p text = Some e'
                       /\ error_recorded e' = true) as Hset.
  { intros l c p text Ht. unfold jsonp_error_set. rewrite Hrec.
    eexists. split; [reflexivity|]. unfold error_recorded. simpl.
    apply negb_true_iff, String.eqb_neq, bounded_nonempty; assumption. }
  unfold error_set. destruct lex as [lex|]; [|apply Hset; assumption].
  repeat match goal with |- context [if ?b then _ else _] => destruct b end;
    apply Hset; try assumption;
    apply bounded_nonempty; try assumption; apply append_nonempty; assumption.
Qed.

(** C8: first failure wins.  Once an error is recorded, [error_set] is a
    no-op, and so is every sequence of later reports; the record a parse
    attempt ends with is therefore the one its first report has left. *)
Theorem C8_first_failure_wins (e : json_error_t) (lex : option lex_t)
    (msg : string) (calls : list (option lex_t * string)) :
  (error_recorded e = true ->
   error_set (Some e) lex msg = Some e /\ report_all (Some e) calls = Some e)
  /\ ((1 < JSON_ERROR_TEXT_LENGTH)%nat -> msg <> EmptyString ->
      report_all (Some e) ((lex, msg) :: calls) = error_set (Some e) lex msg).
Proof.
  split.
  - intros H. split; [apply error_set_recorded|apply report_all_recorded];
      assumption.
  - intros HN Hmsg.
    destruct (error_set_records e lex msg HN Hmsg) as (e' & He' & Hrec).
    unfold report_all. cbn [fold_left fst snd]. rewrite He'.
    apply report_all_recorded. assumption.
Qed.

Lemma string_take_idem (n : nat) (s : string) :
  string_take n (string_take n s) = string_take n s.
Proof.
  revert s; induction n as [|n IH]; intros [|a s]; simpl; auto.
  rewrite IH. reflexivity.
Qed.

Lemma bounded_idem (s : string) : bounded (bounded s) = bounded s.
Proof. apply string_take_idem. Qed.

Lemma string_take_all (n : nat) (s : string) :
  (String.length s <= n)%nat -> string_take n s = s.
Proof.
  revert s; induction n as [|n IH]; intros [|a s] H; simpl in *; auto;
    try lia.
  rewrite IH by lia. reflexivity.
Qed.

Lemma bounded_fits (s : string) :
  (String.length s < JSON_ERROR_TEXT_LENGTH)%nat -> bounded s = s.
Proof. intros. apply string_take_all. lia. Qed.

Lemma cstr_prefix (l : list Z) : exists rest, l = cstr l ++ rest.
Proof.
  induction l as [|b l [rest IH]]; [exists []; reflexivity|].
  simpl. destruct (b =? 0); [exists (b :: l); reflexivity|].
  exists rest. simpl. f_equal. exact IH.
Qed.

Lemma firstn_prefix {A : Type} (n : nat) (l : list A) :
  exists rest, l = firstn n l ++ rest.
Proof. exists (skipn n l). symmetry. apply firstn_skipn. Qed.

(** The context [error_set] takes from the saved text is a prefix of it of
    at most 20 bytes. *)
Lemma context_prefix (saved : strbuffer_t) :
  let prefix := firstn (Nat.min 20 (List.length saved)) (cstr saved) in
  (exists rest, saved = prefix ++ rest) /\ (List.length prefix <= 20)%nat.
Proof.
  cbv zeta. split.
  - destruct (cstr_prefix saved) as [r1 H1].
    destruct (firstn_prefix (Nat.min 20 (List.length saved)) (cstr saved))
      as [r2 H2].
    exists (r2 ++ r1). transitivity (cstr saved ++ r1); [exact H1|].
    rewrite app_assoc. f_equal. exact H2.
  - etransitivity; [apply firstn_le_length|apply Nat.le_min_l].
Qed.

(** C9, as the code has it: what [error_set] appends to the message
    depends on the first byte of the saved text, read as a C string.  When
    that byte is not NUL, the context is the first 20 bytes of the saved text
    at most, up to a NUL; when the saved text is empty or starts with a NUL,
    nothing is appended for a stream in the Error state and " near end of
    file" otherwise.  The texts are cut at the bound of the record. *)
Theorem C9_error_context (e : json_error_t) (lex : lex_t) (msg : string) :
  error_recorded e = false ->
  exists e',
    error_set (Some e) (Some lex) msg = Some e'
    /\ e_line e' = line (stream lex)
    /\ e_column e' = column (stream lex)
    /\ e_position e' = position (stream lex)
    /\ (strbuffer_first (saved_text lex) <> 0 ->
        exists prefix rest,
          prefix = firstn (Nat.min 20 (List.length (saved_text lex)))
                     (cstr (saved_text lex))
          /\ saved_text lex = prefix ++ rest
          /\ (List.length prefix <= 20)%nat
          /\ e_text e' = bounded (bounded msg ++ " near '"
                                  ++ string_of_bytes prefix ++ "'")%string)
    /\ (strbuffer_first (saved_text lex) = 0 ->
        state (stream lex) = STREAM_STATE_ERROR ->
        e_text e' = bounded msg)
    /\ (strbuffer_first (saved_text lex) = 0 ->
        state (stream lex) <> STREAM_STATE_ERROR ->
        e_text e' = bounded (bounded msg ++ " near end of file")%string)
    /\ (saved_text lex = [] -> strbuffer_first (saved_text lex) = 0).
Proof.
  intros Hrec. unfold error_set, jsonp_error_set. rewrite Hrec.
  destruct (Z.eqb_spec (strbuffer_first (saved_text lex)) 0) as [E0|N0];
    simpl negb; cbv iota.
  - destruct (Z.eqb_spec (state (stream lex)) STREAM_STATE_ERROR) as [Es|Ns];
      eexists; (split; [reflexivity|]); simpl;
      rewrite ?bounded_idem; repeat split; auto; try contradiction;
      intros; try contradiction; reflexivity.
  - eexists; (split; [reflexivity|]); simpl. rewrite bounded_idem.
    repeat split; auto; try contradiction.
    + intros _.
      destruct (context_prefix (saved_text lex)) as [[rest Hrest] Hlen].
      do 2 eexists. split; [reflexivity|]. split; [exact Hrest|].
      split; [exact Hlen|reflexivity].
    + intros H. rewrite H in N0. contradiction.
Qed.

End ErrorProperties.

(** ** String literals *)

Section StringProperties.

Lemma l_isxdigit_always (c : Z) : l_isxdigit c = true.
Proof.
  unfold l_isxdigit.
  destruct (Z.leb_spec (chr "A") c) as [H|H].
  - rewrite orb_true_r. reflexivity.
  - destruct (Z.leb_spec c (chr "F")) as [H'|H'].
    + rewrite orb_true_r. reflexivity.
    + unfold chr in *. simpl in *. lia.
Qed.







Ltac range_true :=
  repeat match goal with
  | |- context [?x <=? ?y] =>
      destruct (Z.leb_spec x y); [|lia]
  end; cbn [andb].


End StringProperties.

(** C1: the check of the four characters after backslash-u.  [l_isxdigit]
    holds of every character, so the first pass of [lex_scan_string] never
    reports "invalid escape" there: the text "\uZZZZ" is scanned to a
    STRING token (of the character U+25553) and no error is recorded. *)
Theorem C1_invalid_hex_escape_accepted :
  (forall c, l_isxdigit c = true)
  /\ exists lex,
       lex_scan (lex_init (json_text "'\uZZZZ'")) (Some no_error)
       = Done (lex, Some no_error)
       /\ token lex = TOKEN_STRING
       /\ value lex = ValString (Some [0xF0; 0xA5; 0x95; 0x93])
       /\ saved_text lex = json_text "'\uZZZZ'".
Proof.
  split; [exact l_isxdigit_always|].
  eexists. split; [vm_compute; reflexivity|]. repeat split.
Qed.

(** ** The parser *)

Section ParserProperties.

Context {header : jansson_h}.





Lemma bytes_eqb_eq (a b : list Z) : bytes_eqb a b = true <-> a = b.
Proof.
  revert b; induction a as [|x a IH]; intros [|y b]; simpl;
    split; intros H; try discriminate; auto.
  - apply andb_true_iff in H. destruct H as [H1 H2].
    apply Z.eqb_eq in H1. apply IH in H2. subst. reflexivity.
  - inversion H; subst. rewrite Z.eqb_refl. simpl. apply IH. reflexivity.
Qed.


Lemma bytes_eqb_neq (a b : list Z) : a <> b -> bytes_eqb a b = false.
Proof.
  intros H. destruct (bytes_eqb a b) eqn:E; [|reflexivity].
  apply bytes_eqb_eq in E. contradiction.
Qed.







End ParserProperties.

(** ** Number literals *)

(** One or more digits. *)
Definition digits (l : list Z) : Prop :=
  l <> [] /\ forallb l_isdigit l = true.

(** The strict grammar of the specification: "optional leading -; then
    either the single digit 0 or a digit run not starting with 0";
    "optional fractional part: . followed by one or more digits"; "optional
    exponent: [eE] optionally followed by +/-, then one or more digits".
    [real] says that a fraction or an exponent is present. *)
Definition number_literal (w : list Z) (real : bool) : Prop :=
  exists sign int frac exp,
    w = sign ++ int ++ frac ++ exp
    /\ (sign = [] \/ sign = [chr "-"])
    /\ (int = [chr "0"] \/ (digits int /\ nth 0 int 0 <> chr "0"))
    /\ (frac = [] \/ exists ds, frac = chr "." :: ds /\ digits ds)
    /\ (exp = []
        \/ exists e sg ds,
             exp = e :: sg ++ ds
             /\ (e = chr "e" \/ e = chr "E")
             /\ (sg = [] \/ sg = [chr "+"] \/ sg = [chr "-"])
             /\ digits ds)
    /\ (real = false <-> frac = [] /\ exp = []).

Section NumberProperties.

Context {header : jansson_h}.

(** What [lex_get_save] appends to the saved text for [c]. *)
Definition pending (c : Z) : list Z :=
  if is_sentinel c then [] else [to_uchar c].

(** The saved text is [base] followed by the character read last. *)
Definition saved_is (lex : lex_t) (base : list Z) (c : Z) : Prop :=
  saved_text lex = base ++ pending c.

Lemma pending_char (c : Z) : 0 <= c < 256 -> pending c = [c].
Proof.
  intros H. unfold pending. rewrite byte_not_sentinel by exact H.
  rewrite to_uchar_small by exact H. reflexivity.
Qed.

Lemma inr_eq {A B : Type} (x y : B) : @inr A B x = inr y -> x = y.
Proof. intros H. inversion H. reflexivity. Qed.

Lemma chr_range (a : ascii) : 0 <= chr a < 256.
Proof.
  unfold chr. pose proof (N_ascii_bounded a). lia.
Qed.

Lemma pending_chr (a : ascii) : pending (chr a) = [chr a].
Proof. apply pending_char, chr_range. Qed.

Lemma digit_range (c : Z) : l_isdigit c = true -> 48 <= c <= 57.
Proof.
  unfold l_isdigit, chr. simpl. intros H. apply andb_true_iff in H.
  destruct H as [H1 H2]. apply Z.leb_le in H1, H2. lia.
Qed.

Lemma pending_digit (c : Z) : l_isdigit c = true -> pending c = [c].
Proof. intros H. apply digit_range in H. apply pending_char. lia. Qed.

Lemma lex_get_save_saved lex error c lex' error' :
  lex_get_save lex error = (c, lex', error') ->
  saved_text lex' = saved_text lex ++ pending c
  /\ token lex' = token lex /\ value lex' = value lex.
Proof.
  unfold lex_get_save, pending.
  destruct (stream_get _ _ _) as [[c0 s0] e0].
  destruct (is_sentinel c0) eqn:E; simpl; intros H; inversion H; subst;
    rewrite E; simpl; rewrite ?app_nil_r; auto.
Qed.

Lemma lex_get_saved lex error c lex' error' :
  lex_get lex error = (c, lex', error') ->
  saved_text lex' = saved_text lex
  /\ token lex' = token lex /\ value lex' = value lex.
Proof.
  unfold lex_get. destruct (stream_get _ _ _) as [[c0 s0] e0].
  intros H; inversion H; subst. simpl. auto.
Qed.

Lemma strbuffer_pop_last (b : list Z) (x : Z) :
  snd (strbuffer_pop (b ++ [x])) = b.
Proof.
  unfold strbuffer_pop. rewrite rev_app_distr. simpl. apply rev_involutive.
Qed.

Lemma lex_unget_unsave_saved lex base c :
  saved_is lex base c ->
  saved_text (lex_unget_unsave lex c) = base
  /\ token (lex_unget_unsave lex c) = token lex
  /\ value (lex_unget_unsave lex c) = value lex.
Proof.
  unfold saved_is, pending, lex_unget_unsave. intros H.
  destruct (is_sentinel c); simpl.
  - rewrite app_nil_r in H. auto.
  - rewrite H. rewrite strbuffer_pop_last. auto.
Qed.

Lemma saved_is_step lex base c error c1 lex1 error1 :
  saved_is lex base c -> pending c = [c] ->
  lex_get_save lex error = (c1, lex1, error1) ->
  saved_is lex1 (base ++ [c]) c1.
Proof.
  unfold saved_is. intros H Hc Hget.
  apply lex_get_save_saved in Hget. destruct Hget as [Hs _].
  rewrite Hs, H, Hc. reflexivity.
Qed.

Lemma scan_digits_saved fuel : forall c lex error c' lex' error' base,
  scan_digits fuel c lex error = (c', lex', error') ->
  saved_is lex base c ->
  exists ds, forallb l_isdigit ds = true /\ saved_is lex' (base ++ ds) c'
             /\ token lex' = token lex /\ value lex' = value lex.
Proof.
  induction fuel as [|fuel IH]; intros c lex error c' lex' error' base H Hs;
    simpl in H.
  - inversion H; subst. exists []. rewrite app_nil_r. auto.
  - destruct (l_isdigit c) eqn:Hd.
    + destruct (lex_get_save lex error) as [[c1 lex1] error1] eqn:Hget.
      pose proof (saved_is_step _ _ _ _ _ _ _ Hs (pending_digit _ Hd) Hget)
        as Hs1.
      apply lex_get_save_saved in Hget. destruct Hget as (_ & Ht & Hv).
      destruct (IH _ _ _ _ _ _ _ H Hs1) as (ds & Hds & Hs' & Ht' & Hv').
      exists (c :: ds). simpl. rewrite Hd, Hds.
      rewrite <- app_assoc in Hs'. simpl in Hs'.
      repeat split; auto; congruence.
    + inversion H; subst. exists []. rewrite app_nil_r. auto.
Qed.


Lemma scan_sign_sound c lex error c1 lex1 error1 :
  saved_is lex [] c ->
  scan_sign c lex error = (c1, lex1, error1) ->
  exists sign,
    (sign = [] \/ sign = [chr "-"]) /\ saved_is lex1 sign c1
    /\ token lex1 = token lex.
Proof.
  unfold scan_sign. intros Hs H.
  destruct (Z.eqb_spec c (chr "-")) as [->|Hne].
  - exists [chr "-"]. split; [auto|].
    pose proof (saved_is_step _ _ _ _ _ _ _ Hs (pending_chr _) H).
    apply lex_get_save_saved in H. tauto.
  - inversion H; subst. exists []. auto.
Qed.

Definition integer_part_ok (int : list Z) : Prop :=
  int = [chr "0"] \/ (digits int /\ nth 0 int 0 <> chr "0").

Lemma scan_integer_part_sound c lex error base c1 lex1 error1 :
  saved_is lex base c ->
  scan_integer_part c lex error = inr (c1, lex1, error1) ->
  exists int,
    integer_part_ok int /\ saved_is lex1 (base ++ int) c1
    /\ token lex1 = token lex.
Proof.
  unfold scan_integer_part. intros Hs H.
  destruct (Z.eqb_spec c (chr "0")) as [->|Hne].
  - destruct (lex_get_save lex error) as [[c2 lex2] error2] eqn:Hget.
    destruct (l_isdigit c2); [discriminate H|]. inversion H; subst.
    exists [chr "0"]. split; [left; reflexivity|].
    pose proof (saved_is_step _ _ _ _ _ _ _ Hs (pending_chr _) Hget).
    apply lex_get_save_saved in Hget. tauto.
  - destruct (l_isdigit c) eqn:Hd; [|discriminate H].
    destruct (lex_get_save lex error) as [[c2 lex2] error2] eqn:Hget.
    apply inr_eq in H. rename H into Hscan.
    pose proof (saved_is_step _ _ _ _ _ _ _ Hs (pending_digit _ Hd) Hget) as Hs2.
    apply lex_get_save_saved in Hget. destruct Hget as (_ & Ht & _).
    destruct (scan_digits_saved _ _ _ _ _ _ _ _ Hscan Hs2)
      as (ds & Hds & Hs' & Ht' & _).
    exists (c :: ds). rewrite <- app_assoc in Hs'. simpl in Hs'.
    split; [|split; [exact Hs'|congruence]].
    right. split; [split; [discriminate|]|exact Hne].
    simpl. rewrite Hd, Hds. reflexivity.
Qed.

Definition fraction_ok (frac : list Z) : Prop :=
  frac = [] \/ exists ds, frac = chr "." :: ds /\ digits ds.

Lemma scan_fraction_sound c lex error base c1 lex1 error1 :
  saved_is lex base c ->
  scan_fraction c lex error = inr (c1, lex1, error1) ->
  exists frac,
    fraction_ok frac /\ saved_is lex1 (base ++ frac) c1
    /\ token lex1 = token lex
    /\ (c = chr "." -> frac <> [])
    /\ (c <> chr "." -> frac = [] /\ c1 = c).
Proof.
  unfold scan_fraction. intros Hs H.
  destruct (Z.eqb_spec c (chr ".")) as [->|Hne].
  - destruct (lex_get lex error) as [[c2 lex2] error2] eqn:Hget.
    destruct (l_isdigit c2) eqn:Hd; [|discriminate H]. cbn [negb] in H.
    destruct (lex_get_save (lex_save lex2 c2) error2)
      as [[c3 lex3] error3] eqn:Hget3.
    apply inr_eq in H. rename H into Hscan.
    apply lex_get_saved in Hget. destruct Hget as (Hsv & Ht & _).
    assert (saved_is (lex_save lex2 c2) (base ++ [chr "."]) c2) as Hs2.
    { unfold saved_is, lex_save, strbuffer_append_byte. simpl.
      rewrite Hsv, Hs. rewrite pending_chr.
      rewrite (pending_digit _ Hd).
      pose proof (digit_range _ Hd). rewrite to_uchar_small by lia. reflexivity. }
    pose proof (saved_is_step _ _ _ _ _ _ _ Hs2 (pending_digit _ Hd) Hget3) as Hs3.
    apply lex_get_save_saved in Hget3. destruct Hget3 as (_ & Ht3 & _).
    destruct (scan_digits_saved _ _ _ _ _ _ _ _ Hscan Hs3)
      as (ds & Hds & Hs' & Ht' & _).
    exists (chr "." :: c2 :: ds).
    repeat rewrite <- app_assoc in Hs'. simpl in Hs'.
    split.
    { right. exists (c2 :: ds). split; [reflexivity|].
      split; [discriminate|]. simpl. rewrite Hd, Hds. reflexivity. }
    split; [exact Hs'|]. split; [simpl in Ht3; congruence|].
    split; [discriminate|]. intros Hx. contradiction Hx. reflexivity.
  - inversion H; subst. exists []. rewrite app_nil_r.
    split; [left; reflexivity|]. repeat split; auto.
Qed.

Definition exponent_ok (exp : list Z) : Prop :=
  exp = []
  \/ exists e sg ds,
       exp = e :: sg ++ ds
       /\ (e = chr "e" \/ e = chr "E")
       /\ (sg = [] \/ sg = [chr "+"] \/ sg = [chr "-"])
       /\ digits ds.

Lemma scan_exponent_sound c lex error base c1 lex1 error1 :
  saved_is lex base c ->
  scan_exponent c lex error = inr (c1, lex1, error1) ->
  exists exp,
    exponent_ok exp /\ saved_is lex1 (base ++ exp) c1
    /\ token lex1 = token lex
    /\ (c = chr "E" \/ c = chr "e" -> exp <> []).
Proof.
  unfold scan_exponent. intros Hs H.
  destruct ((c =? chr "E") || (c =? chr "e")) eqn:He.
  - assert (c = chr "e" \/ c = chr "E") as Hc.
    { apply orb_true_iff in He. destruct He as [E|E]; apply Z.eqb_eq in E; auto. }
    assert (pending c = [c]) as Hpc
      by (destruct Hc as [-> | ->]; apply pending_chr).
    destruct (lex_get_save lex error) as [[c2 lex2] error2] eqn:Hget2.
    pose proof (saved_is_step _ _ _ _ _ _ _ Hs Hpc Hget2) as Hs2.
    apply lex_get_save_saved in Hget2. destruct Hget2 as (_ & Ht2 & _).
    assert (exists sg c3 lex3 error3,
              (if (c2 =? chr "+") || (c2 =? chr "-")
               then lex_get_save lex2 error2 else (c2, lex2, error2))
              = (c3, lex3, error3)
              /\ (sg = [] \/ sg = [chr "+"] \/ sg = [chr "-"])
              /\ saved_is lex3 ((base ++ [c]) ++ sg) c3
              /\ token lex3 = token lex2) as Hsign.
    { destruct ((c2 =? chr "+") || (c2 =? chr "-")) eqn:Hsg.
      - destruct (lex_get_save lex2 error2) as [[c3 lex3] error3] eqn:Hget3.
        assert (c2 = chr "+" \/ c2 = chr "-") as Hc2.
        { apply orb_true_iff in Hsg.
          destruct Hsg as [E|E]; apply Z.eqb_eq in E; auto. }
        assert (pending c2 = [c2]) as Hpc2
          by (destruct Hc2 as [-> | ->]; apply pending_chr).
        pose proof (saved_is_step _ _ _ _ _ _ _ Hs2 Hpc2 Hget3) as Hs3.
        apply lex_get_save_saved in Hget3. destruct Hget3 as (_ & Ht3 & _).
        exists [c2], c3, lex3, error3. repeat split; auto.
        destruct Hc2 as [-> | ->]; auto.
      - exists [], c2, lex2, error2. rewrite app_nil_r. repeat split; auto. }
    destruct Hsign as (sg & c3 & lex3 & error3 & Heq & Hsg & Hs3 & Ht3).
    rewrite Heq in H.
    destruct (l_isdigit c3) eqn:Hd; [|discriminate H]. cbn [negb] in H.
    destruct (lex_get_save lex3 error3) as [[c4 lex4] error4] eqn:Hget4.
    apply inr_eq in H. rename H into Hscan.
    pose proof (saved_is_step _ _ _ _ _ _ _ Hs3 (pending_digit _ Hd) Hget4) as Hs4.
    apply lex_get_save_saved in Hget4. destruct Hget4 as (_ & Ht4 & _).
    destruct (scan_digits_saved _ _ _ _ _ _ _ _ Hscan Hs4)
      as (ds & Hds & Hs' & Ht' & _).
    exists (c :: sg ++ c3 :: ds).
    split; [|split; [|split; [congruence|discriminate]]].
    + right. exists c, sg, (c3 :: ds). repeat split; auto; try discriminate.
      simpl. rewrite Hd, Hds. reflexivity.
    + unfold saved_is in *. rewrite Hs'.
      repeat (rewrite <- app_assoc || rewrite <- app_comm_cons).
      reflexivity.
  - inversion H; subst. exists []. rewrite app_nil_r.
    split; [left; reflexivity|]. repeat split; auto.
    intros [-> | ->]; discriminate He.
Qed.


Lemma lex_unget_unsave_token lex c :
  token (lex_unget_unsave lex c) = token lex.
Proof. unfold lex_unget_unsave. destruct (is_sentinel c); reflexivity. Qed.

Lemma scan_digits_token fuel : forall c lex error c' lex' error',
  scan_digits fuel c lex error = (c', lex', error') -> token lex' = token lex.
Proof.
  induction fuel as [|fuel IH]; intros c lex error c' lex' error' H;
    simpl in H.
  - inversion H; subst. reflexivity.
  - destruct (l_isdigit c); [|inversion H; subst; reflexivity].
    destruct (lex_get_save lex error) as [[c1 lex1] error1] eqn:Hget.
    apply lex_get_save_saved in Hget. destruct Hget as (_ & Ht & _).
    apply IH in H. congruence.
Qed.

Lemma scan_sign_token c lex error c1 lex1 error1 :
  scan_sign c lex error = (c1, lex1, error1) -> token lex1 = token lex.
Proof.
  unfold scan_sign. destruct (c =? chr "-"); intros H.
  - apply lex_get_save_saved in H. tauto.
  - inversion H; subst. reflexivity.
Qed.

Lemma scan_integer_part_out c lex error lex1 error1 :
  scan_integer_part c lex error = inl (lex1, error1) ->
  token lex1 = token lex.
Proof.
  unfold scan_integer_part. intros H.
  destruct (c =? chr "0").
  - destruct (lex_get_save lex error) as [[c2 lex2] error2] eqn:Hget.
    apply lex_get_save_saved in Hget. destruct Hget as (_ & Ht & _).
    destruct (l_isdigit c2); [|discriminate H]. inversion H; subst.
    rewrite lex_unget_unsave_token. exact Ht.
  - destruct (l_isdigit c).
    + destruct (lex_get_save lex error) as [[c2 lex2] error2].
      discriminate H.
    + inversion H; subst. apply lex_unget_unsave_token.
Qed.

Lemma scan_fraction_out c lex error lex1 error1 :
  scan_fraction c lex error = inl (lex1, error1) ->
  token lex1 = token lex.
Proof.
  unfold scan_fraction. intros H.
  destruct (c =? chr "."); [|discriminate H].
  destruct (lex_get lex error) as [[c2 lex2] error2] eqn:Hget.
  apply lex_get_saved in Hget. destruct Hget as (_ & Ht & _).
  destruct (negb (l_isdigit c2)).
  - inversion H; subst. exact Ht.
  - destruct (lex_get_save (lex_save lex2 c2) error2) as [[c3 lex3] error3].
    discriminate H.
Qed.

Lemma scan_exponent_out c lex error lex1 error1 :
  scan_exponent c lex error = inl (lex1, error1) ->
  token lex1 = token lex.
Proof.
  unfold scan_exponent. intros H.
  destruct ((c =? chr "E") || (c =? chr "e")); [|discriminate H].
  destruct (lex_get_save lex error) as [[c2 lex2] error2] eqn:Hget2.
  apply lex_get_save_saved in Hget2. destruct Hget2 as (_ & Ht2 & _).
  assert (forall c3 lex3 error3,
            (if (c2 =? chr "+") || (c2 =? chr "-")
             then lex_get_save lex2 error2 else (c2, lex2, error2))
            = (c3, lex3, error3) -> token lex3 = token lex2) as Hsg.
  { intros c3 lex3 error3 Heq.
    destruct ((c2 =? chr "+") || (c2 =? chr "-")).
    - apply lex_get_save_saved in Heq. tauto.
    - inversion Heq; subst. reflexivity. }
  destruct (if (c2 =? chr "+") || (c2 =? chr "-")
            then lex_get_save lex2 error2 else (c2, lex2, error2))
    as [[c3 lex3] error3].
  specialize (Hsg _ _ _ eq_refl).
  destruct (negb (l_isdigit c3)).
  - inversion H; subst. rewrite lex_unget_unsave_token. congruence.
  - destruct (lex_get_save lex3 error3) as [[c4 lex4] error4].
    discriminate H.
Qed.

(** The literal [lex_scan_number] has accepted: the token says whether it
    has a fraction or an exponent, the saved text is in the grammar, and the
    value is the conversion of the saved text, which is in range. *)
Definition number_token (lex : lex_t) : Prop :=
  (token lex = TOKEN_INTEGER
   /\ number_literal (saved_text lex) false
   /\ exists v, json_strtoint (saved_text lex) = (v, false)
                /\ value lex = ValInteger v)
  \/ (token lex = TOKEN_REAL
      /\ number_literal (saved_text lex) true
      /\ exists r, jsonp_strtod (saved_text lex) = Some r
                   /\ value lex = ValReal r).

Lemma finish_integer_sound c lex error base r lex' error' :
  saved_is lex base c ->
  token lex = TOKEN_INVALID ->
  finish_integer c lex error = (r, lex', error') ->
  saved_text lex' = base
  /\ ((r = -1 /\ token lex' = TOKEN_INVALID)
      \/ (r = 0 /\ token lex' = TOKEN_INTEGER
          /\ exists v, json_strtoint base = (v, false)
                       /\ value lex' = ValInteger v)).
Proof.
  unfold finish_integer. intros Hs Ht H.
  destruct (lex_unget_unsave_saved _ _ _ Hs) as (Hsv & Ht' & _).
  rewrite Hsv in H.
  destruct (json_strtoint base) as [v erange] eqn:Hint.
  destruct erange.
  - destruct (v <? 0); inversion H; subst r lex' error'; (split; [exact Hsv|]);
      left; split; auto; congruence.
  - inversion H; subst r lex' error'. simpl. split; [exact Hsv|].
    right. repeat split. exists v. auto.
Qed.

Lemma finish_real_sound c lex error base r lex' error' :
  saved_is lex base c ->
  token lex = TOKEN_INVALID ->
  finish_real c lex error = (r, lex', error') ->
  saved_text lex' = base
  /\ ((r = -1 /\ token lex' = TOKEN_INVALID)
      \/ (r = 0 /\ token lex' = TOKEN_REAL
          /\ exists v, jsonp_strtod base = Some v /\ value lex' = ValReal v)).
Proof.
  unfold finish_real. intros Hs Ht H.
  destruct (lex_unget_unsave_saved _ _ _ Hs) as (Hsv & Ht' & _).
  rewrite Hsv in H.
  destruct (jsonp_strtod base) as [v|] eqn:Hreal.
  - inversion H; subst r lex' error'. simpl. split; [exact Hsv|].
    right. repeat split. exists v. auto.
  - inversion H; subst r lex' error'. split; [exact Hsv|]. left. split; auto. congruence.
Qed.

Lemma lex_scan_number_sound lex c error r lex' error' :
  saved_is lex [] c ->
  lex_scan_number lex c error = (r, lex', error') ->
  (r = -1 /\ token lex' = TOKEN_INVALID) \/ (r = 0 /\ number_token lex').
Proof.
  unfold lex_scan_number. intros Hs H.
  destruct (scan_sign c (set_token lex TOKEN_INVALID) error)
    as [[c0 lex0] error0] eqn:Hsign.
  pose proof (scan_sign_token _ _ _ _ _ _ Hsign) as Ht0. simpl in Ht0.
  assert (saved_is (set_token lex TOKEN_INVALID) [] c) as Hs' by exact Hs.
  destruct (scan_sign_sound _ _ _ _ _ _ Hs' Hsign) as (sign & Hsg & Hs0 & _).
  destruct (scan_integer_part c0 lex0 error0)
    as [[lex1 error1]|[[c1 lex1] error1]] eqn:Hint.
  { inversion H; subst. left. split; [reflexivity|].
    apply scan_integer_part_out in Hint. congruence. }
  destruct (scan_integer_part_sound _ _ _ _ _ _ _ Hs0 Hint)
    as (int & Hint_ok & Hs1 & Ht1).
  destruct (negb (c1 =? chr ".") && negb (c1 =? chr "E")
            && negb (c1 =? chr "e")) eqn:Hkind.
  { destruct (finish_integer_sound _ _ _ _ _ _ _ Hs1 ltac:(congruence) H)
      as (Hsv & [[-> Ht]|(-> & Ht & v & Hv & Hval)]); [left; auto|].
    right. split; [reflexivity|]. left. rewrite Hsv.
    split; [exact Ht|]. split; [|exists v; auto].
    exists sign, int, [], []. rewrite !app_nil_r.
    repeat split; auto. }
  destruct (scan_fraction c1 lex1 error1)
    as [[lex2 error2]|[[c2 lex2] error2]] eqn:Hfrac.
  { inversion H; subst. left. split; [reflexivity|].
    apply scan_fraction_out in Hfrac. congruence. }
  destruct (scan_fraction_sound _ _ _ _ _ _ _ Hs1 Hfrac)
    as (frac & Hfrac_ok & Hs2 & Ht2 & Hdot & Hnodot).
  destruct (scan_exponent c2 lex2 error2)
    as [[lex3 error3]|[[c3 lex3] error3]] eqn:Hexp.
  { inversion H; subst. left. split; [reflexivity|].
    apply scan_exponent_out in Hexp. congruence. }
  destruct (scan_exponent_sound _ _ _ _ _ _ _ Hs2 Hexp)
    as (exp & Hexp_ok & Hs3 & Ht3 & Hexp_ne).
  destruct (finish_real_sound _ _ _ _ _ _ _ Hs3 ltac:(congruence) H)
    as (Hsv & [[-> Ht]|(-> & Ht & v & Hv & Hval)]); [left; auto|].
  right. split; [reflexivity|]. right. rewrite Hsv.
  split; [exact Ht|]. split; [|exists v; auto].
  exists sign, int, frac, exp. rewrite <- !app_assoc.
  repeat split; auto; try discriminate.
  intros [Hf He]. exfalso.
  destruct (Z.eqb_spec c1 (chr ".")) as [Hc|Hc]; [exact (Hdot Hc Hf)|].
  destruct (Hnodot Hc) as [_ ->].
  apply Hexp_ne; [|exact He].
  destruct (Z.eqb_spec c1 (chr "E")) as [HE|HE]; [left; exact HE|].
  destruct (Z.eqb_spec c1 (chr "e")) as [He'|He']; [right; exact He'|].
  discriminate Hkind.
Qed.

(** *** The lexer on a text of plain characters *)

(** A stream that can hand out bytes, and the bytes it is going to hand
    out: those waiting in the buffer, then those of the source. *)
Definition stream_ok (s : stream_t) : Prop :=
  stream_wf s /\ state s = STREAM_STATE_OK.

Definition stream_view (s : stream_t) : list Z :=
  cstr (skipn (buffer_pos s) (buffer s)) ++ data s.

Lemma cstr_skipn_nil (n : nat) : forall b,
  cstr (skipn n b) = [] -> buf_get b n = 0.
Proof.
  unfold buf_get. induction n as [|n IH]; intros [|y t]; simpl; auto.
  destruct (Z.eqb_spec y 0); [auto|discriminate].
Qed.

Lemma cstr_skipn_cons (n : nat) : forall b x u,
  cstr (skipn n b) = x :: u ->
  buf_get b n = x /\ x <> 0 /\ cstr (skipn (S n) b) = u.
Proof.
  unfold buf_get. induction n as [|n IH]; intros [|y t] x u; simpl;
    try discriminate.
  - destruct (Z.eqb_spec y 0); [discriminate|].
    intros H; inversion H; subst. auto.
  - intros H. apply IH in H. exact H.
Qed.

Lemma stream_get_ascii (to_lex : stream_t -> lex_t) (s : stream_t)
    (error : option json_error_t) (x : Z) (rest : list Z) :
  stream_ok s -> stream_view s = x :: rest -> 0 <= x < 0x80 ->
  exists s',
    stream_get to_lex s error = (x, s', error)
    /\ stream_ok s' /\ stream_view s' = rest.
Proof.
  intros [Hwf Hst] Hview Hx.
  destruct (stream_get to_lex s error) as [[c s'] error'] eqn:Hget.
  pose proof (stream_get_wf _ _ _ _ _ _ Hwf Hget) as Hwf'.
  destruct Hwf as (Hlen & Hbytes & Hpos & _).
  unfold stream_get in Hget. rewrite Hst in Hget. simpl negb in Hget.
  cbv iota in Hget. unfold stream_refill in Hget.
  unfold stream_view in Hview.
  destruct (cstr (skipn (buffer_pos s) (buffer s))) as [|y u] eqn:Hbuf.
  - simpl in Hview. apply cstr_skipn_nil in Hbuf.
    rewrite Hbuf, Hview, Z.eqb_refl in Hget. simpl source_get in Hget.
    cbv iota beta in Hget.
    destruct (Z.eqb_spec x EOF) as [E|_]; [unfold EOF in E; lia|].
    destruct (Z.leb_spec 0x80 x); [lia|]. simpl andb in Hget.
    cbv iota in Hget.
    destruct (buffer s) as [|x0 [|x1 [|x2 [|x3 [|x4 [|]]]]]] eqn:Eb;
      try discriminate Hlen.
    cbn [buf_set buf_get nth buffer buffer_pos data state line column
         last_column position] in Hget.
    rewrite (to_uchar_small x) in Hget by lia.
    assert (utf8_check_first x = 1) as Hfirst.
    { unfold utf8_check_first. rewrite to_uchar_small by lia.
      destruct (Z.ltb_spec x 0x80); [reflexivity|lia]. }
    rewrite Hfirst in Hget. simpl (negb (1 =? 0)) in Hget.
    destruct (x =? chr "010"); inversion Hget; subst c s' error';
      eexists; (split; [reflexivity|]); (split; [split; [exact Hwf'|exact Hst]|reflexivity]).
  - simpl in Hview. inversion Hview; subst y. clear Hview.
    apply cstr_skipn_cons in Hbuf. destruct Hbuf as (Hb & Hne & Hu).
    rewrite Hb in Hget.
    destruct (Z.eqb_spec x 0) as [E|_]; [contradiction|].
    rewrite Hb in Hget.
    assert (utf8_check_first x = 1) as Hfirst.
    { unfold utf8_check_first. rewrite to_uchar_small by lia.
      destruct (Z.ltb_spec x 0x80); [reflexivity|lia]. }
    rewrite Hfirst in Hget. simpl (negb (1 =? 0)) in Hget.
    destruct (x =? chr "010"); inversion Hget; subst c s' error';
      eexists; (split; [reflexivity|]);
      (split; [split; [exact Hwf'|exact Hst]|]);
      unfold stream_view; cbn [buffer buffer_pos data]; rewrite Hu;
      reflexivity.
Qed.

Lemma stream_get_eof (to_lex : stream_t -> lex_t) (s : stream_t)
    (error : option json_error_t) :
  stream_ok s -> stream_view s = [] ->
  exists s',
    stream_get to_lex s error = (STREAM_STATE_EOF, s', error)
    /\ state s' = STREAM_STATE_EOF.
Proof.
  intros [Hwf Hst] Hview. unfold stream_view in Hview.
  apply app_eq_nil in Hview. destruct Hview as [Hbuf Hdata].
  apply cstr_skipn_nil in Hbuf.
  unfold stream_get. rewrite Hst. simpl negb. cbv iota.
  unfold stream_refill. rewrite Hbuf, Hdata, Z.eqb_refl. simpl.
  eexists. split; reflexivity.
Qed.


Lemma stream_weight_view (s : stream_t) :
  stream_weight s = List.length (stream_view s).
Proof.
  unfold stream_weight, stream_view. rewrite length_app. lia.
Qed.

(** The character the lexer reads from the text [rem]. *)
Definition cur (rem : list Z) : Z :=
  match rem with
  | [] => STREAM_STATE_EOF
  | x :: _ => x
  end.

Definition plain_head (rem : list Z) : Prop :=
  match rem with
  | [] => True
  | x :: _ => 0 <= x < 0x80
  end.

(** The lexer has just read and saved the first character of [rem], after
    the saved text [base]; at the end of the text it has read the end. *)
Definition lex_at (lex : lex_t) (rem : list Z) (base : list Z) : Prop :=
  match rem with
  | [] => saved_text lex = base
  | x :: rem' =>
      stream_ok (stream lex) /\ stream_view (stream lex) = rem'
      /\ saved_text lex = base ++ [x]
  end.

Lemma lex_get_save_at lex error rem :
  stream_ok (stream lex) -> stream_view (stream lex) = rem ->
  plain_head rem ->
  exists lex',
    lex_get_save lex error = (cur rem, lex', error)
    /\ lex_at lex' rem (saved_text lex)
    /\ token lex' = token lex /\ value lex' = value lex.
Proof.
  intros Hok Hview Hplain. unfold lex_get_save.
  destruct rem as [|x rem'].
  - destruct (stream_get_eof (set_stream lex) _ error Hok Hview)
      as (s' & Hget & Hst).
    rewrite Hget. simpl. eexists. split; [reflexivity|]. simpl. auto.
  - destruct (stream_get_ascii (set_stream lex) _ error _ _ Hok Hview Hplain)
      as (s' & Hget & Hok' & Hview').
    rewrite Hget. simpl in Hplain.
    rewrite byte_not_sentinel by (unfold is_byte; lia). simpl.
    eexists. split; [reflexivity|]. simpl.
    unfold strbuffer_append_byte. rewrite to_uchar_small by lia. auto.
Qed.

Lemma lex_get_at lex error rem :
  stream_ok (stream lex) -> stream_view (stream lex) = rem ->
  plain_head rem ->
  exists lex',
    lex_get lex error = (cur rem, lex', error)
    /\ saved_text lex' = saved_text lex
    /\ token lex' = token lex /\ value lex' = value lex
    /\ match rem with
       | [] => True
       | _ :: rem' =>
           stream_ok (stream lex') /\ stream_view (stream lex') = rem'
       end.
Proof.
  intros Hok Hview Hplain. unfold lex_get.
  destruct rem as [|x rem'].
  - destruct (stream_get_eof (set_stream lex) _ error Hok Hview)
      as (s' & Hget & Hst).
    rewrite Hget. simpl. eexists. split; [reflexivity|]. simpl. auto.
  - destruct (stream_get_ascii (set_stream lex) _ error _ _ Hok Hview Hplain)
      as (s' & Hget & Hok' & Hview').
    rewrite Hget. eexists. split; [reflexivity|]. simpl. auto.
Qed.

Lemma lex_at_saved lex rem base :
  plain_head rem -> lex_at lex rem base -> saved_is lex base (cur rem).
Proof.
  unfold lex_at, saved_is. destruct rem as [|x rem']; simpl.
  - intros _ ->. unfold pending. simpl. rewrite app_nil_r. reflexivity.
  - intros Hx (_ & _ & ->). rewrite pending_char by lia. reflexivity.
Qed.

Lemma lex_at_fuel lex rem base :
  lex_at lex rem base -> (List.length rem <= lex_fuel lex)%nat.
Proof.
  unfold lex_at, lex_fuel. destruct rem as [|x rem']; simpl; [lia|].
  intros (_ & Hview & _). rewrite stream_weight_view, Hview. lia.
Qed.

Lemma plain_head_digit d rem : l_isdigit d = true -> plain_head (d :: rem).
Proof. intros H. apply digit_range in H. simpl. lia. Qed.

Lemma scan_digits_complete ds : forall fuel lex error base rest,
  lex_at lex (ds ++ rest) base ->
  forallb l_isdigit ds = true ->
  l_isdigit (cur rest) = false -> plain_head rest ->
  (List.length ds <= fuel)%nat ->
  exists lex',
    scan_digits fuel (cur (ds ++ rest)) lex error = (cur rest, lex', error)
    /\ lex_at lex' rest (base ++ ds) /\ token lex' = token lex.
Proof.
  induction ds as [|d ds IH]; intros fuel lex error base rest Hat Hds Hrest
    Hplain Hfuel.
  - simpl in *. exists lex. rewrite app_nil_r.
    destruct fuel; simpl; [|rewrite Hrest]; auto.
  - simpl in Hds. apply andb_true_iff in Hds. destruct Hds as [Hd Hds].
    destruct fuel as [|fuel]; [simpl in Hfuel; lia|].
    simpl in Hat. destruct Hat as (Hok & Hview & Hsaved).
    assert (plain_head (ds ++ rest)) as Hplain'.
    { destruct ds as [|d' ds']; [exact Hplain|].
      simpl in Hds. apply andb_true_iff in Hds.
      apply plain_head_digit. tauto. }
    destruct (lex_get_save_at lex error _ Hok Hview Hplain')
      as (lex1 & Hget & Hat1 & Ht1 & _).
    simpl. rewrite Hd, Hget. rewrite Hsaved in Hat1.
    destruct (IH fuel lex1 error (base ++ [d]) rest Hat1 Hds Hrest Hplain
                ltac:(simpl in Hfuel; lia)) as (lex' & Hscan & Hat' & Ht').
    exists lex'. rewrite <- app_assoc in Hat'. simpl in Hat'.
    repeat split; auto. congruence.
Qed.

Lemma scan_sign_complete lex error sign rem base :
  lex_at lex (sign ++ rem) base ->
  (sign = [] /\ cur rem <> chr "-") \/ sign = [chr "-"] ->
  plain_head rem ->
  exists lex',
    scan_sign (cur (sign ++ rem)) lex error = (cur rem, lex', error)
    /\ lex_at lex' rem (base ++ sign) /\ token lex' = token lex.
Proof.
  intros Hat Hsign Hplain. unfold scan_sign.
  destruct Hsign as [[-> Hne]| ->]; simpl in *.
  - apply Z.eqb_neq in Hne. rewrite Hne. exists lex. rewrite app_nil_r. auto.
  - destruct Hat as (Hok & Hview & Hsaved).
    destruct (lex_get_save_at lex error _ Hok Hview Hplain)
      as (lex1 & Hget & Hat1 & Ht1 & _).
    change (chr "-" =? chr "-") with true. cbv iota.
    exists lex1. rewrite Hsaved in Hat1. auto.
Qed.

Lemma digits_cons (l : list Z) :
  digits l ->
  exists d ds, l = d :: ds /\ l_isdigit d = true
               /\ forallb l_isdigit ds = true.
Proof.
  intros [Hne Hall]. destruct l as [|d ds]; [contradiction|].
  simpl in Hall. apply andb_true_iff in Hall. exists d, ds. tauto.
Qed.

Lemma scan_integer_part_complete lex error int rem base :
  lex_at lex (int ++ rem) base ->
  integer_part_ok int ->
  l_isdigit (cur rem) = false -> plain_head rem ->
  exists lex',
    scan_integer_part (cur (int ++ rem)) lex error = inr (cur rem, lex', error)
    /\ lex_at lex' rem (base ++ int) /\ token lex' = token lex.
Proof.
  intros Hat Hint Hrem Hplain. unfold scan_integer_part.
  destruct Hint as [->|[Hdigits Hnz]].
  - simpl in *. destruct Hat as (Hok & Hview & Hsaved).
    destruct (lex_get_save_at lex error _ Hok Hview Hplain)
      as (lex1 & Hget & Hat1 & Ht1 & _).
    change (chr "0" =? chr "0") with true. cbv iota.
    rewrite Hget, Hrem. exists lex1. rewrite Hsaved in Hat1. auto.
  - destruct (digits_cons _ Hdigits) as (d & ds & -> & Hd & Hds).
    simpl in Hnz. simpl in Hat. destruct Hat as (Hok & Hview & Hsaved).
    simpl cur. apply Z.eqb_neq in Hnz. rewrite Hnz, Hd.
    assert (plain_head (ds ++ rem)) as Hplain'.
    { destruct ds as [|d' ds']; [exact Hplain|].
      simpl in Hds. apply andb_true_iff in Hds.
      apply plain_head_digit. tauto. }
    destruct (lex_get_save_at lex error _ Hok Hview Hplain')
      as (lex1 & Hget & Hat1 & Ht1 & _).
    rewrite Hget. rewrite Hsaved in Hat1.
    pose proof (lex_at_fuel _ _ _ Hat1) as Hfuel.
    rewrite length_app in Hfuel.
    destruct (scan_digits_complete ds (lex_fuel lex1) lex1 error _ rem Hat1
                Hds Hrem Hplain ltac:(lia)) as (lex' & Hscan & Hat' & Ht').
    rewrite Hscan. exists lex'. rewrite <- app_assoc in Hat'.
    repeat split; auto. congruence.
Qed.

Lemma scan_fraction_complete lex error frac rem base :
  lex_at lex (frac ++ rem) base ->
  fraction_ok frac ->
  (frac = [] -> cur rem <> chr ".") ->
  l_isdigit (cur rem) = false -> plain_head rem ->
  exists lex',
    scan_fraction (cur (frac ++ rem)) lex error = inr (cur rem, lex', error)
    /\ lex_at lex' rem (base ++ frac) /\ token lex' = token lex.
Proof.
  intros Hat Hfrac Hdot Hrem Hplain. unfold scan_fraction.
  destruct Hfrac as [->|(ds0 & -> & Hdigits)].
  - simpl in *. specialize (Hdot eq_refl). apply Z.eqb_neq in Hdot.
    rewrite Hdot. exists lex. rewrite app_nil_r. auto.
  - destruct (digits_cons _ Hdigits) as (d & ds & -> & Hd & Hds).
    simpl in Hat. destruct Hat as (Hok & Hview & Hsaved).
    simpl cur. change (chr "." =? chr ".") with true. cbv iota.
    destruct (lex_get_at lex error _ Hok Hview (plain_head_digit d _ Hd))
      as (lex1 & Hget & Hsaved1 & Ht1 & _ & Hok1 & Hview1).
    rewrite Hget. simpl cur. rewrite Hd. cbn [negb].
    assert (plain_head (ds ++ rem)) as Hplain'.
    { destruct ds as [|d' ds']; [exact Hplain|].
      simpl in Hds. apply andb_true_iff in Hds.
      apply plain_head_digit. tauto. }
    destruct (lex_get_save_at (lex_save lex1 d) error _ Hok1 Hview1 Hplain')
      as (lex3 & Hget3 & Hat3 & Ht3 & _).
    rewrite Hget3.
    assert (saved_text (lex_save lex1 d) = (base ++ [chr "."]) ++ [d])
      as Hsaved2.
    { simpl. unfold strbuffer_append_byte. rewrite Hsaved1, Hsaved.
      pose proof (digit_range _ Hd). rewrite to_uchar_small by lia.
      reflexivity. }
    rewrite Hsaved2 in Hat3.
    pose proof (lex_at_fuel _ _ _ Hat3) as Hfuel.
    rewrite length_app in Hfuel.
    destruct (scan_digits_complete ds (lex_fuel lex3) lex3 error _ rem Hat3
                Hds Hrem Hplain ltac:(lia)) as (lex' & Hscan & Hat' & Ht').
    rewrite Hscan. exists lex'. repeat rewrite <- app_assoc in Hat'.
    repeat split; auto. simpl in Ht3. congruence.
Qed.

Lemma scan_exponent_complete lex error exp rem base :
  lex_at lex (exp ++ rem) base ->
  exponent_ok exp ->
  (exp = [] -> cur rem <> chr "E" /\ cur rem <> chr "e") ->
  l_isdigit (cur rem) = false -> plain_head rem ->
  exists lex',
    scan_exponent (cur (exp ++ rem)) lex error = inr (cur rem, lex', error)
    /\ lex_at lex' rem (base ++ exp) /\ token lex' = token lex.
Proof.
  intros Hat Hexp Hne Hrem Hplain. unfold scan_exponent.
  destruct Hexp as [->|(e & sg & ds0 & -> & He & Hsg & Hdigits)].
  - simpl in *. destruct (Hne eq_refl) as [H1 H2].
    apply Z.eqb_neq in H1, H2. rewrite H1, H2. simpl.
    exists lex. rewrite app_nil_r. auto.
  - destruct (digits_cons _ Hdigits) as (d & ds & -> & Hd & Hds).
    simpl in Hat. destruct Hat as (Hok & Hview & Hsaved).
    simpl cur.
    assert ((e =? chr "E") || (e =? chr "e") = true) as Hee
      by (destruct He as [-> | ->]; reflexivity).
    rewrite Hee.
    assert (plain_head ((sg ++ d :: ds) ++ rem)) as Hplain_sg.
    { pose proof (digit_range _ Hd).
      destruct Hsg as [->|[->| ->]]; simpl; unfold chr; simpl; lia. }
    destruct (lex_get_save_at lex error _ Hok Hview Hplain_sg)
      as (lex2 & Hget2 & Hat2 & Ht2 & _).
    rewrite Hget2. rewrite Hsaved in Hat2.
    assert (exists lex3,
              (if (cur ((sg ++ d :: ds) ++ rem) =? chr "+")
                  || (cur ((sg ++ d :: ds) ++ rem) =? chr "-")
               then lex_get_save lex2 error
               else (cur ((sg ++ d :: ds) ++ rem), lex2, error))
              = (d, lex3, error)
              /\ lex_at lex3 (d :: ds ++ rem) ((base ++ [e]) ++ sg)
              /\ token lex3 = token lex2) as Hsign.
    { pose proof (digit_range _ Hd) as Hdr.
      destruct Hsg as [->|[->| ->]]; simpl in Hat2 |- *.
      - destruct (Z.eqb_spec d (chr "+")) as [E|_];
          [unfold chr in E; simpl in E; lia|].
        destruct (Z.eqb_spec d (chr "-")) as [E|_];
          [unfold chr in E; simpl in E; lia|].
        simpl. exists lex2. rewrite app_nil_r. auto.
      - change (chr "+" =? chr "+") with true. cbv iota. simpl orb.
        destruct Hat2 as (Hok2 & Hview2 & Hsaved2).
        destruct (lex_get_save_at lex2 error _ Hok2 Hview2
                    (plain_head_digit d _ Hd))
          as (lex3 & Hget3 & Hat3 & Ht3 & _).
        rewrite Hget3. exists lex3. rewrite Hsaved2 in Hat3. auto.
      - change (chr "-" =? chr "+") with false.
        change (chr "-" =? chr "-") with true. cbv iota. simpl orb.
        destruct Hat2 as (Hok2 & Hview2 & Hsaved2).
        destruct (lex_get_save_at lex2 error _ Hok2 Hview2
                    (plain_head_digit d _ Hd))
          as (lex3 & Hget3 & Hat3 & Ht3 & _).
        rewrite Hget3. exists lex3. rewrite Hsaved2 in Hat3. auto. }
    destruct Hsign as (lex3 & Heq & Hat3 & Ht3). rewrite Heq.
    rewrite Hd. cbn [negb].
    simpl in Hat3. destruct Hat3 as (Hok3 & Hview3 & Hsaved3).
    assert (plain_head (ds ++ rem)) as Hplain'.
    { destruct ds as [|d' ds']; [exact Hplain|].
      simpl in Hds. apply andb_true_iff in Hds.
      apply plain_head_digit. tauto. }
    destruct (lex_get_save_at lex3 error _ Hok3 Hview3 Hplain')
      as (lex4 & Hget4 & Hat4 & Ht4 & _).
    rewrite Hget4. rewrite Hsaved3 in Hat4.
    pose proof (lex_at_fuel _ _ _ Hat4) as Hfuel.
    rewrite length_app in Hfuel.
    destruct (scan_digits_complete ds (lex_fuel lex4) lex4 error _ rem Hat4
                Hds Hrem Hplain ltac:(lia)) as (lex' & Hscan & Hat' & Ht').
    rewrite Hscan. exists lex'. split; [reflexivity|].
    split; [|congruence].
    replace (base ++ e :: sg ++ d :: ds)
      with ((((base ++ [e]) ++ sg) ++ [d]) ++ ds); [exact Hat'|].
    repeat (rewrite <- app_assoc || rewrite <- app_comm_cons). reflexivity.
Qed.

(** What follows a literal does not go on with it. *)
Definition literal_ends (rest : list Z) : Prop :=
  plain_head rest /\ l_isdigit (cur rest) = false
  /\ cur rest <> chr "." /\ cur rest <> chr "E" /\ cur rest <> chr "e".

Lemma integer_part_head int rem :
  integer_part_ok int -> l_isdigit (cur (int ++ rem)) = true.
Proof.
  intros [->|[Hd _]]; [reflexivity|].
  destruct (digits_cons _ Hd) as (d & ds & -> & Hd' & _). exact Hd'.
Qed.

Lemma fraction_head frac rem :
  fraction_ok frac -> frac <> [] -> cur (frac ++ rem) = chr ".".
Proof. intros [->|(ds & -> & _)] H; [contradiction|reflexivity]. Qed.

Lemma exponent_head exp rem :
  exponent_ok exp -> exp <> [] ->
  cur (exp ++ rem) = chr "e" \/ cur (exp ++ rem) = chr "E".
Proof.
  intros [->|(e & sg & ds & -> & He & _)] H; [contradiction|exact He].
Qed.

Lemma plain_head_cur rem :
  l_isdigit (cur rem) = true \/ cur rem = chr "." \/ cur rem = chr "e"
  \/ cur rem = chr "E" ->
  plain_head rem.
Proof.
  destruct rem as [|x rem']; simpl; [auto|].
  intros [H|[->|[->| ->]]]; try (unfold chr; simpl; lia).
  apply digit_range in H. lia.
Qed.

Lemma lex_scan_number_complete lex error w rest real :
  lex_at lex (w ++ rest) [] ->
  number_literal w real -> literal_ends rest ->
  exists lexN,
    lex_at lexN rest w /\ token lexN = TOKEN_INVALID
    /\ lex_scan_number lex (cur (w ++ rest)) error
       = (if real then finish_real (cur rest) lexN error
          else finish_integer (cur rest) lexN error).
Proof.
  intros Hat (sign & int & frac & exp & -> & Hsign & Hint & Hfrac & Hexp
              & Hreal) (Hplain & Hnd & Hndot & HnE & Hne).
  repeat rewrite <- app_assoc in *.
  unfold lex_scan_number.
  assert (lex_at (set_token lex TOKEN_INVALID)
            (sign ++ int ++ frac ++ exp ++ rest) []) as Hat0 by exact Hat.
  pose proof (integer_part_head int (frac ++ exp ++ rest) Hint) as Hhead.
  assert (l_isdigit (cur (frac ++ exp ++ rest)) = false
          /\ plain_head (frac ++ exp ++ rest)
          /\ l_isdigit (cur (exp ++ rest)) = false
          /\ plain_head (exp ++ rest)
          /\ (frac = [] -> cur (exp ++ rest) <> chr ".")) as Hmid.
  { assert (l_isdigit (cur (exp ++ rest)) = false
            /\ plain_head (exp ++ rest)
            /\ cur (exp ++ rest) <> chr ".") as He.
    { destruct exp as [|e exp'] eqn:Eexp; [simpl; auto|].
      destruct (exponent_head (e :: exp') rest Hexp ltac:(discriminate))
        as [E|E];
        (split; [rewrite E; reflexivity|]);
        (split; [apply plain_head_cur; rewrite E; auto|]);
        rewrite E; discriminate. }
    destruct frac as [|f frac'] eqn:Efrac; [simpl; tauto|].
    pose proof (fraction_head (f :: frac') (exp ++ rest) Hfrac
                  ltac:(discriminate)) as E.
    split; [rewrite E; reflexivity|].
    split; [apply plain_head_cur; rewrite E; auto|].
    split; [tauto|]. split; [tauto|]. discriminate. }
  destruct Hmid as (Hd1 & Hp1 & Hd2 & Hp2 & Hdot2).
  destruct (scan_sign_complete _ error sign (int ++ frac ++ exp ++ rest) []
              Hat0) as (lex0 & Hs0 & Hat1 & Ht0).
  { destruct Hsign as [->| ->]; [left|right; reflexivity].
    split; [reflexivity|]. intros E. rewrite E in Hhead. discriminate Hhead. }
  { apply plain_head_cur. auto. }
  rewrite Hs0. simpl in Ht0, Hat1.
  destruct (scan_integer_part_complete _ error int (frac ++ exp ++ rest) sign
              Hat1 Hint Hd1 Hp1) as (lex1 & Hs1 & Hat2 & Ht1).
  rewrite Hs1.
  destruct real.
  - assert (frac <> [] \/ exp <> []) as Hsome.
    { destruct frac; [|left; discriminate].
      destruct exp; [|right; discriminate].
      destruct Hreal as [_ H]. specialize (H (conj eq_refl eq_refl)).
      discriminate H. }
    assert (negb (cur (frac ++ exp ++ rest) =? chr ".")
            && negb (cur (frac ++ exp ++ rest) =? chr "E")
            && negb (cur (frac ++ exp ++ rest) =? chr "e") = false) as Hkind.
    { destruct frac as [|f frac'] eqn:Efrac.
      - destruct Hsome as [H|H]; [contradiction|].
        destruct (exponent_head exp rest Hexp H) as [E|E]; simpl app;
          rewrite E; reflexivity.
      - rewrite (fraction_head _ _ Hfrac ltac:(discriminate)). reflexivity. }
    rewrite Hkind.
    destruct (scan_fraction_complete _ error frac (exp ++ rest) _ Hat2 Hfrac
                Hdot2 Hd2 Hp2) as (lex2 & Hs2 & Hat3 & Ht2).
    rewrite Hs2.
    destruct (scan_exponent_complete _ error exp rest _ Hat3 Hexp
                ltac:(auto) Hnd Hplain) as (lex3 & Hs3 & Hat4 & Ht3).
    rewrite Hs3. exists lex3.
    repeat rewrite <- app_assoc in Hat4.
    repeat split; auto. congruence.
  - destruct Hreal as [H _]. destruct (H eq_refl) as [-> ->].
    simpl app in *. 
    assert (negb (cur rest =? chr ".") && negb (cur rest =? chr "E")
            && negb (cur rest =? chr "e") = true) as Hkind.
    { apply Z.eqb_neq in Hndot, HnE, Hne. rewrite Hndot, HnE, Hne.
      reflexivity. }
    rewrite Hkind. exists lex1. rewrite !app_nil_r.
    repeat split; auto. congruence.
Qed.

(** *** The scanner and the number tokens *)

Lemma skip_space_saved fuel : forall c lex error c' lex' error',
  skip_space fuel c lex error = (c', lex', error') ->
  saved_text lex' = saved_text lex.
Proof.
  induction fuel as [|fuel IH]; intros c lex error c' lex' error' H;
    simpl in H.
  - inversion H; subst. reflexivity.
  - destruct (is_space c); [|inversion H; subst; reflexivity].
    destruct (lex_get lex error) as [[c1 lex1] error1] eqn:Hget.
    apply lex_get_saved in Hget. destruct Hget as (Hs & _).
    apply IH in H. congruence.
Qed.

Lemma scan_hex4_token i : forall c lex error,
  match scan_hex4 i c lex error with
  | inl (lex', _) => token lex' = token lex
  | inr (_, lex', _) => token lex' = token lex
  end.
Proof.
  induction i as [|i IH]; intros c lex error; simpl; [reflexivity|].
  destruct (negb (l_isxdigit c)); [reflexivity|].
  destruct (lex_get_save lex error) as [[c1 lex1] error1] eqn:Hget.
  apply lex_get_save_saved in Hget. destruct Hget as (_ & Ht & _).
  specialize (IH c1 lex1 error1).
  destruct (scan_hex4 i c1 lex1 error1) as [[l e]|[[c2 l] e]]; congruence.
Qed.

Lemma scan_string_loop_token fuel : forall c lex error closed lex' error',
  scan_string_loop fuel c lex error = (closed, lex', error') ->
  token lex' = token lex.
Proof.
  induction fuel as [|fuel IH]; intros c lex error closed lex' error' H;
    cbn [scan_string_loop] in H.
  - inversion H; subst. reflexivity.
  - destruct (c =? chr "034"); [inversion H; subst; reflexivity|].
    destruct (c =? STREAM_STATE_ERROR); [inversion H; subst; reflexivity|].
    destruct (c =? STREAM_STATE_EOF); [inversion H; subst; reflexivity|].
    destruct ((0 <=? c) && (c <=? 31)).
    { destruct (c =? chr "010"); inversion H; subst;
        apply lex_unget_unsave_token. }
    destruct (c =? chr "\").
    + destruct (lex_get_save lex error) as [[c1 lex1] error1] eqn:Hget1.
      apply lex_get_save_saved in Hget1. destruct Hget1 as (_ & Ht1 & _).
      destruct (c1 =? chr "u").
      * destruct (lex_get_save lex1 error1) as [[c2 lex2] error2] eqn:Hget2.
        apply lex_get_save_saved in Hget2. destruct Hget2 as (_ & Ht2 & _).
        pose proof (scan_hex4_token 4 c2 lex2 error2) as Hhex.
        destruct (scan_hex4 4 c2 lex2 error2) as [[l e]|[[c3 l] e]].
        -- inversion H; subst. congruence.
        -- apply IH in H. congruence.
      * destruct ((c1 =? chr "034") || (c1 =? chr "\") || (c1 =? chr "/")
                  || (c1 =? chr "b") || (c1 =? chr "f") || (c1 =? chr "n")
                  || (c1 =? chr "r") || (c1 =? chr "t")).
        -- destruct (lex_get_save lex1 error1) as [[c2 lex2] error2] eqn:Hget2.
           apply lex_get_save_saved in Hget2. destruct Hget2 as (_ & Ht2 & _).
           apply IH in H. congruence.
        -- inversion H; subst. exact Ht1.
    + destruct (lex_get_save lex error) as [[c1 lex1] error1] eqn:Hget1.
      apply lex_get_save_saved in Hget1. destruct Hget1 as (_ & Ht1 & _).
      apply IH in H. congruence.
Qed.

Lemma lex_scan_string_token lex error lex' error' :
  lex_scan_string lex error = Done (lex', error') ->
  token lex' = TOKEN_INVALID \/ token lex' = TOKEN_STRING.
Proof.
  unfold lex_scan_string. intros H.
  destruct (lex_get_save _ error) as [[c lex1] error1] eqn:Hget.
  apply lex_get_save_saved in Hget. destruct Hget as (_ & Ht1 & _).
  simpl in Ht1.
  destruct (scan_string_loop (lex_fuel lex1) c lex1 error1)
    as [[closed lex2] error2] eqn:Hloop.
  apply scan_string_loop_token in Hloop.
  destruct closed.
  - destruct (decode_loop (advance 1 (saved_text lex2)) []) as [[msg|t]| |];
      simpl in H; inversion H; subst; simpl; auto. left. congruence.
  - inversion H; subst. left. congruence.
Qed.

(** Soundness: a token INTEGER or REAL is a literal of the grammar whose
    value is in range. *)
Lemma lex_scan_number_token lex error lex' error' :
  lex_scan lex error = Done (lex', error') ->
  token lex' = TOKEN_INTEGER \/ token lex' = TOKEN_REAL ->
  number_token lex'.
Proof.
  unfold lex_scan. intros H Htok.
  set (lexa := if token (set_saved_text lex (strbuffer_clear (saved_text lex)))
                  =? TOKEN_STRING
               then set_value (set_saved_text lex
                                 (strbuffer_clear (saved_text lex)))
                      (ValString None)
               else set_saved_text lex (strbuffer_clear (saved_text lex)))
    in *.
  assert (saved_text lexa = []) as Hsa.
  { subst lexa. destruct (_ =? TOKEN_STRING); reflexivity. }
  destruct (lex_get lexa error) as [[c0 lex0] error0] eqn:Hget.
  apply lex_get_saved in Hget. destruct Hget as (Hs0 & _).
  destruct (skip_space (lex_fuel lex0) c0 lex0 error0)
    as [[c lex1] error1] eqn:Hskip.
  apply skip_space_saved in Hskip.
  assert (forall A B, A \/ B -> token lex' <> TOKEN_INTEGER ->
                      token lex' <> TOKEN_REAL -> number_token lex')
    as Hother by (intros; destruct Htok; contradiction).
  destruct (c =? STREAM_STATE_EOF) eqn:Eeof.
  { inversion H; subst. simpl in Htok. destruct Htok; discriminate. }
  destruct (c =? STREAM_STATE_ERROR) eqn:Eerr.
  { inversion H; subst. simpl in Htok. destruct Htok; discriminate. }
  destruct (is_punct c) eqn:Ep.
  { inversion H; subst. simpl in Htok. exfalso. unfold is_punct in Ep.
    repeat (apply orb_true_iff in Ep; destruct Ep as [Ep|Ep]);
      apply Z.eqb_eq in Ep; subst c; destruct Htok; discriminate. }
  destruct (c =? chr "034").
  { apply lex_scan_string_token in H.
    destruct H as [E|E], Htok as [E'|E']; rewrite E in E'; discriminate. }
  destruct (l_isdigit c || (c =? chr "-")) eqn:Enum.
  { destruct (lex_scan_number (lex_save lex1 c) c error1)
      as [[r lex2] error2] eqn:Hnum.
    inversion H; subst lex' error'. clear H.
    assert (saved_is (lex_save lex1 c) [] c) as Hs.
    { unfold saved_is, pending, is_sentinel. rewrite Eeof, Eerr. simpl.
      unfold strbuffer_append_byte. rewrite Hskip, Hs0, Hsa. reflexivity. }
    destruct (lex_scan_number_sound _ _ _ _ _ _ Hs Hnum) as [[_ E]|[_ Hn]];
      [|exact Hn].
    destruct Htok as [E'|E']; rewrite E in E'; discriminate. }
  destruct (l_isalpha c).
  { destruct (lex_get_save (lex_save lex1 c) error1) as [[c1 lex2] error2].
    destruct (scan_alpha (lex_fuel lex2) c1 lex2 error2)
      as [[c2 lex3] error3].
    repeat match type of H with
           | context [if ?b then _ else _] => destruct b
           end; inversion H; subst; simpl in Htok;
      destruct Htok; discriminate. }
  inversion H; subst. simpl in Htok. destruct Htok; discriminate.
Qed.

(** Completeness: on a text that starts with a literal of the grammar which
    what follows does not go on with, [lex_scan] reaches the conversion of
    that literal. *)
Lemma lex_scan_number_literal lex error w rest real :
  stream_ok (stream lex) -> stream_view (stream lex) = w ++ rest ->
  number_literal w real -> literal_ends rest ->
  exists lexN,
    saved_is lexN w (cur rest) /\ token lexN = TOKEN_INVALID
    /\ lex_scan lex error
       = Done (let '(_, lex', error') :=
                 if real then finish_real (cur rest) lexN error
                 else finish_integer (cur rest) lexN error in
               (lex', error')).
Proof.
  intros Hok Hview Hlit Hends.
  assert (exists x w', w = x :: w'
                       /\ (l_isdigit x = true \/ x = chr "-")) as Hhead.
  { destruct Hlit as (sign & int & frac & exp & -> & Hsign & Hint & _).
    destruct Hsign as [->| ->].
    - pose proof (integer_part_head int (frac ++ exp) Hint) as Hh.
      simpl. destruct (int ++ frac ++ exp) as [|x w'];
        [discriminate Hh|]. exists x, w'. auto.
    - simpl. eauto. }
  destruct Hhead as (x & w' & -> & Hx).
  assert (0 <= x < 0x80) as Hxr.
  { destruct Hx as [H| ->]; [apply digit_range in H; lia|].
    unfold chr; simpl; lia. }
  unfold lex_scan.
  set (lexa := if token (set_saved_text lex (strbuffer_clear (saved_text lex)))
                  =? TOKEN_STRING
               then set_value (set_saved_text lex
                                 (strbuffer_clear (saved_text lex)))
                      (ValString None)
               else set_saved_text lex (strbuffer_clear (saved_text lex))).
  assert (saved_text lexa = [] /\ stream lexa = stream lex) as [Hsa Hstr].
  { subst lexa. destruct (_ =? TOKEN_STRING); split; reflexivity. }
  rewrite <- Hstr in Hok, Hview.
  assert (plain_head ((x :: w') ++ rest)) as Hplain by exact Hxr.
  destruct (lex_get_at lexa error _ Hok Hview Hplain)
    as (lex0 & Hget & Hs0 & _ & _ & Hnext).
  rewrite Hget. simpl app in *. simpl cur.
  destruct Hnext as [Hok0 Hview0].
  assert (is_space x = false) as Hsp.
  { unfold is_space.
    destruct Hx as [H| ->]; [apply digit_range in H|];
      repeat match goal with
             | |- context [?a =? ?b] =>
                 destruct (Z.eqb_spec a b) as [E|_];
                 [unfold chr in E; simpl in E; try lia; try discriminate E|]
             end; reflexivity. }
  unfold lex_fuel. cbn [skip_space]. rewrite Hsp.
  assert ((x =? STREAM_STATE_EOF) = false) as Heof
    by (apply Z.eqb_neq; unfold STREAM_STATE_EOF; lia).
  assert ((x =? STREAM_STATE_ERROR) = false) as Herr
    by (apply Z.eqb_neq; unfold STREAM_STATE_ERROR; lia).
  rewrite Heof, Herr.
  assert (is_punct x = false) as Hp.
  { unfold is_punct.
    destruct Hx as [H| ->]; [apply digit_range in H|];
      repeat match goal with
             | |- context [?a =? ?b] =>
                 destruct (Z.eqb_spec a b) as [E|_];
                 [unfold chr in E; simpl in E; try lia; try discriminate E|]
             end; reflexivity. }
  rewrite Hp.
  assert ((x =? chr "034") = false) as Hq.
  { apply Z.eqb_neq. destruct Hx as [H| ->]; [apply digit_range in H|];
      unfold chr; simpl; try lia; discriminate. }
  rewrite Hq.
  assert (l_isdigit x || (x =? chr "-") = true) as Hnum.
  { destruct Hx as [->| ->]; [reflexivity|]. apply orb_true_r. }
  rewrite Hnum.
  assert (lex_at (lex_save lex0 x) ((x :: w') ++ rest) []) as Hat.
  { simpl. split; [exact Hok0|]. split; [exact Hview0|].
    unfold strbuffer_append_byte. rewrite Hs0, Hsa.
    rewrite to_uchar_small by lia. reflexivity. }
  destruct (lex_scan_number_complete _ error (x :: w') rest real Hat Hlit
              Hends) as (lexN & HatN & HtN & Hscan).
  simpl app in Hscan. simpl cur in Hscan.
  rewrite Hscan. exists lexN.
  split; [apply lex_at_saved; [apply Hends|exact HatN]|].
  split; [exact HtN|].
  destruct real; [destruct (finish_real _ _ _) as [[r l] e]
                 |destruct (finish_integer _ _ _) as [[r l] e]];
    reflexivity.
Qed.

End NumberProperties.

(** ** Termination *)

(** The loops of the lexer and the recursion of the parser are bounded in
    the model.  The bounds are never what ends them: what a stream has
    left to hand out decreases with every byte read. *)

Section Termination.

Context {header : jansson_h}.

(** The bytes a stream can still hand out: none once it has left the state
    Ok. *)
Definition stream_left (s : stream_t) : nat :=
  if state s =? STREAM_STATE_OK then stream_weight s else 0%nat.

(** 1 for a byte, 0 for a sentinel. *)
Definition byte_count (c : Z) : nat := if is_sentinel c then 0%nat else 1%nat.

Lemma stream_left_weight (s : stream_t) :
  (stream_left s <= stream_weight s)%nat.
Proof. unfold stream_left. destruct (state s =? STREAM_STATE_OK); lia. Qed.

Lemma cstr_skipn_pred (n : nat) (b : list Z) :
  (List.length (cstr (skipn (pred n) b))
   <= S (List.length (cstr (skipn n b))))%nat.
Proof.
  destruct n as [|n]; simpl pred; [lia|].
  revert b. induction n as [|n IH]; intros [|y t]; simpl; try lia.
  - destruct (y =? 0); simpl; lia.
  - specialize (IH t). destruct t as [|z t']; simpl in *; lia.
Qed.

Lemma cstr_skipn_step (n : nat) (b : list Z) :
  buf_get b n <> 0 ->
  List.length (cstr (skipn n b)) = S (List.length (cstr (skipn (S n) b))).
Proof.
  unfold buf_get. revert b. induction n as [|n IH]; intros [|y t]; simpl;
    try congruence.
  - intros H. destruct (Z.eqb_spec y 0); [contradiction|]. reflexivity.
  - intros H. specialize (IH t H). destruct t as [|z t']; simpl in *; auto.
Qed.

Lemma cstr_length_le (l : list Z) : (List.length (cstr l) <= List.length l)%nat.
Proof.
  induction l as [|b l IH]; simpl; [lia|]. destruct (b =? 0); simpl; lia.
Qed.

Lemma stream_unget_left (s : stream_t) (c : Z) :
  (stream_left (stream_unget s c) <= stream_left s + byte_count c)%nat.
Proof.
  unfold stream_unget, byte_count. fold (is_sentinel c).
  destruct (is_sentinel c); [lia|].
  pose proof (cstr_skipn_pred (buffer_pos s) (buffer s)) as H.
  unfold stream_left, stream_weight.
  destruct (c =? chr "010"); [|destruct (negb (utf8_check_first c =? 0))];
    cbn [state data buffer buffer_pos];
    destruct (state s =? STREAM_STATE_OK); lia.
Qed.


Lemma cstr_skipn_zero (n : nat) (b : list Z) :
  buf_get b n = 0 -> cstr (skipn n b) = [].
Proof.
  unfold buf_get. revert b. induction n as [|n IH]; intros [|y t]; simpl;
    auto.
  intros ->. reflexivity.
Qed.

Lemma stream_left_not_ok (s : stream_t) :
  state s <> STREAM_STATE_OK -> stream_left s = 0%nat.
Proof.
  intros H. unfold stream_left.
  destruct (Z.eqb_spec (state s) STREAM_STATE_OK); [contradiction|reflexivity].
Qed.

Ltac left_sentinel :=
  match goal with
  | |- (stream_left ?s + _ <= _)%nat =>
      rewrite (stream_left_not_ok s) by (simpl; discriminate);
      unfold byte_count; simpl; lia
  end.

Ltac continuation_bounds H :=
  apply utf8_check_full_continuation in H;
  destruct H as [H|[H|H]]; destruct H as [Hsize H]; try discriminate Hsize;
  rewrite ?to_uchar_idem in H.

Ltac weigh_character Hget Hc :=
  match type of Hget with context [utf8_check_full ?b ?n] =>
    let Hfull := fresh "Hfull" in
    destruct (utf8_check_full b n) eqn:Hfull; simpl negb in Hget;
    cbv iota in Hget;
    [continuation_bounds Hfull;
     try (exfalso; change (to_uchar EOF) with 255 in Hfull; lia)
    |inversion Hget; subst; left_sentinel]
  end.

Ltac weigh_ok Hst Hu :=
  unfold stream_left, stream_weight, byte_count;
  cbn [state data buffer buffer_pos skipn cstr List.length];
  rewrite Hst; change (STREAM_STATE_OK =? STREAM_STATE_OK) with true;
  cbv iota; rewrite ?Hu;
  match goal with
  | |- context [is_sentinel ?c] =>
      rewrite (byte_not_sentinel c) by (unfold is_byte; lia)
  end;
  repeat match goal with
         | |- context [if ?a =? ?b then _ else _] =>
             destruct (Z.eqb_spec a b)
         end; simpl List.length; lia.

(** [stream_get] takes a byte off what the stream has left when it
    returns one, and adds nothing to it otherwise. *)
Lemma stream_get_left (to_lex : stream_t -> lex_t) (s : stream_t)
    (error : option json_error_t) c s' error' :
  stream_wf s ->
  stream_get to_lex s error = (c, s', error') ->
  (stream_left s' + byte_count c <= stream_left s)%nat.
Proof.
  intros (Hlen & Hbytes & Hpos & Hstate) Hget.
  unfold stream_get in Hget.
  destruct (Z.eqb_spec (state s) STREAM_STATE_OK) as [Hst|Hst];
    simpl negb in Hget; cbv iota in Hget.
  2:{ inversion Hget; subst. unfold byte_count, is_sentinel.
      destruct Hstate as [E|[E|E]]; [contradiction| |]; rewrite E; simpl; lia. }
  unfold stream_refill in Hget.
  assert (stream_left s = stream_weight s) as Hleft.
  { unfold stream_left. rewrite Hst. reflexivity. }
  rewrite Hleft. unfold stream_weight.
  destruct (Z.eqb_spec (buf_get (buffer s) (buffer_pos s)) 0) as [Hb|Hb].
  - rewrite (cstr_skipn_zero _ _ Hb). simpl List.length.
    destruct (data s) as [|c0 rest] eqn:Hdata; simpl source_get in Hget;
      cbv iota beta in Hget.
    { simpl in Hget. inversion Hget; subst. left_sentinel. }
    destruct (Z.eqb_spec c0 EOF) as [E|Hne].
    { inversion Hget; subst. left_sentinel. }
    destruct (buffer s) as [|x0 [|x1 [|x2 [|x3 [|x4 [|]]]]]] eqn:Eb;
      try discriminate Hlen. clear Hlen.
    destruct ((0x80 <=? c0) && (c0 <=? 0xFF)) eqn:Hmulti.
    + apply andb_true_iff in Hmulti. destruct Hmulti as [H1 H2].
      apply Z.leb_le in H1, H2.
      assert (to_uchar c0 = c0) as Hu by (apply to_uchar_small; lia).
      destruct (utf8_check_first_lead c0 ltac:(lia)) as [E|[E|[E|E]]];
        rewrite E in Hget.
      * simpl in Hget. inversion Hget; subst. left_sentinel.
      * change (Z.to_nat 2 - 1)%nat with 1%nat in Hget.
        change (Z.to_nat 2) with 2%nat in Hget.
        simpl Z.eqb in Hget. cbv iota in Hget.
        destruct rest as [|b1 rest];
          cbn [read_continuation source_get buf_set] in Hget;
          weigh_character Hget Hc.
        cbn [buf_get nth buf_set data buffer buffer_pos state line column
             last_column position] in Hget.
        repeat match type of Hget with
               | context [if ?b then _ else _] => destruct b
               end; inversion Hget; subst; weigh_ok Hst Hu.
      * change (Z.to_nat 3 - 1)%nat with 2%nat in Hget.
        change (Z.to_nat 3) with 3%nat in Hget.
        simpl Z.eqb in Hget. cbv iota in Hget.
        destruct rest as [|b1 [|b2 rest]];
          cbn [read_continuation source_get buf_set] in Hget;
          weigh_character Hget Hc.
        cbn [buf_get nth buf_set data buffer buffer_pos state line column
             last_column position] in Hget.
        repeat match type of Hget with
               | context [if ?b then _ else _] => destruct b
               end; inversion Hget; subst; weigh_ok Hst Hu.
      * change (Z.to_nat 4 - 1)%nat with 3%nat in Hget.
        change (Z.to_nat 4) with 4%nat in Hget.
        simpl Z.eqb in Hget. cbv iota in Hget.
        destruct rest as [|b1 [|b2 [|b3 rest]]];
          cbn [read_continuation source_get buf_set] in Hget;
          weigh_character Hget Hc.
        cbn [buf_get nth buf_set data buffer buffer_pos state line column
             last_column position] in Hget.
        repeat match type of Hget with
               | context [if ?b then _ else _] => destruct b
               end; inversion Hget; subst; weigh_ok Hst Hu.
    + cbn [buf_get nth buf_set data buffer buffer_pos state line column
           last_column position] in Hget.
      assert (is_sentinel (to_uchar c0) = false) as Hs
        by (apply byte_not_sentinel, to_uchar_byte).
      repeat match type of Hget with
             | context [if ?b then _ else _] => destruct b
             end; inversion Hget; subst;
        unfold stream_left, stream_weight, byte_count;
        cbn [state data buffer buffer_pos skipn cstr List.length];
        rewrite Hst, Hs; change (STREAM_STATE_OK =? STREAM_STATE_OK) with true;
        cbv iota; rewrite Z.eqb_refl; simpl List.length; lia.
  - pose proof (cstr_skipn_step _ _ Hb) as Hstep.
    assert (is_sentinel (buf_get (buffer s) (buffer_pos s)) = false) as Hs
      by (apply byte_not_sentinel, buf_get_byte; exact Hbytes).
    repeat match type of Hget with
           | context [if ?b then _ else _] => destruct b
           end; inversion Hget; subst;
      unfold stream_left, stream_weight, byte_count;
      cbn [state data buffer buffer_pos]; rewrite Hst, Hs;
      change (STREAM_STATE_OK =? STREAM_STATE_OK) with true; cbv iota; lia.
Qed.


(** *** The lexer *)

Definition lex_left (lex : lex_t) : nat := stream_left (stream lex).

(** The lexer has read [c], and what its stream has left, with [c] if it is
    a byte, is at most [bound]. *)
Definition reads (c : Z) (lex : lex_t) (bound : nat) : Prop :=
  stream_wf (stream lex) /\ (lex_left lex + byte_count c <= bound)%nat.

Lemma reads_weaken c lex b b' : reads c lex b -> (b <= b')%nat -> reads c lex b'.
Proof. unfold reads. intros [H1 H2] H. split; [exact H1|lia]. Qed.

Lemma reads_left c lex b :
  reads c lex b -> stream_wf (stream lex) /\ (lex_left lex <= b)%nat.
Proof. unfold reads. intros [H1 H2]. split; [exact H1|lia]. Qed.

Lemma lex_get_left lex error c lex' error' :
  stream_wf (stream lex) ->
  lex_get lex error = (c, lex', error') ->
  reads c lex' (lex_left lex).
Proof.
  unfold lex_get, reads, lex_left. intros Hwf H.
  destruct (stream_get (set_stream lex) (stream lex) error)
    as [[c0 s0] e0] eqn:Hget.
  inversion H; subst. simpl. split.
  - eapply stream_get_wf; eassumption.
  - eapply stream_get_left; eassumption.
Qed.

Lemma lex_get_save_left lex error c lex' error' :
  stream_wf (stream lex) ->
  lex_get_save lex error = (c, lex', error') ->
  reads c lex' (lex_left lex).
Proof.
  unfold lex_get_save, reads, lex_left. intros Hwf H.
  destruct (stream_get (set_stream lex) (stream lex) error)
    as [[c0 s0] e0] eqn:Hget.
  assert (stream lex' = s0 /\ c = c0) as [Hs ->].
  { destruct (negb (is_sentinel c0)); inversion H; subst; auto. }
  rewrite Hs. split.
  - eapply stream_get_wf; eassumption.
  - eapply stream_get_left; eassumption.
Qed.

(** A character read after [c]: the bound of [c] holds for it, less one
    when [c] is a byte. *)
Lemma reads_next c lex b c' lex' :
  reads c lex b -> reads c' lex' (lex_left lex) ->
  reads c' lex' (b - byte_count c).
Proof. unfold reads. intros [H1 H2] [H3 H4]. split; [exact H3|lia]. Qed.

Lemma lex_unget_left lex c b :
  reads c lex b ->
  stream_wf (stream (lex_unget lex c)) /\ (lex_left (lex_unget lex c) <= b)%nat.
Proof.
  unfold reads, lex_unget, lex_left. simpl. intros [Hwf H]. split.
  - apply stream_unget_wf. exact Hwf.
  - pose proof (stream_unget_left (stream lex) c). lia.
Qed.

Lemma lex_unget_unsave_left lex c b :
  reads c lex b ->
  stream_wf (stream (lex_unget_unsave lex c))
  /\ (lex_left (lex_unget_unsave lex c) <= b)%nat.
Proof.
  unfold reads, lex_unget_unsave, lex_left, byte_count. intros [Hwf H].
  destruct (is_sentinel c) eqn:Hs; simpl.
  - split; [exact Hwf|lia].
  - split; [apply stream_unget_wf; exact Hwf|].
    pose proof (stream_unget_left (stream lex) c) as Hu.
    unfold byte_count in Hu. rewrite Hs in Hu. lia.
Qed.

Lemma sentinel_not_digit c : is_sentinel c = true -> l_isdigit c = false.
Proof.
  unfold is_sentinel, STREAM_STATE_EOF, STREAM_STATE_ERROR. intros H.
  apply orb_true_iff in H. destruct H as [H|H]; apply Z.eqb_eq in H; subst;
    reflexivity.
Qed.

Lemma sentinel_not_alpha c : is_sentinel c = true -> l_isalpha c = false.
Proof.
  unfold is_sentinel, STREAM_STATE_EOF, STREAM_STATE_ERROR. intros H.
  apply orb_true_iff in H. destruct H as [H|H]; apply Z.eqb_eq in H; subst;
    reflexivity.
Qed.

Lemma sentinel_not_space c : is_sentinel c = true -> is_space c = false.
Proof.
  unfold is_sentinel, STREAM_STATE_EOF, STREAM_STATE_ERROR. intros H.
  apply orb_true_iff in H. destruct H as [H|H]; apply Z.eqb_eq in H; subst;
    reflexivity.
Qed.

(** The loops of one test and one read.  [test] is false of the
    sentinels. *)
Section SimpleLoop.

Variable test : Z -> bool.
Variable get : lex_t -> option json_error_t -> Z * lex_t * option json_error_t.
Variable loop :
  nat -> Z -> lex_t -> option json_error_t -> Z * lex_t * option json_error_t.

Hypothesis test_sentinel : forall c, is_sentinel c = true -> test c = false.
Hypothesis get_left : forall lex error c lex' error',
  stream_wf (stream lex) -> get lex error = (c, lex', error') ->
  reads c lex' (lex_left lex).
Hypothesis loop_0 : forall c lex error, loop 0 c lex error = (c, lex, error).
Hypothesis loop_S : forall fuel c lex error,
  loop (S fuel) c lex error =
    if test c then
      let '(c', lex', error') := get lex error in loop fuel c' lex' error'
    else (c, lex, error).

Lemma simple_loop_left fuel : forall c lex error c' lex' error' b,
  loop fuel c lex error = (c', lex', error') ->
  reads c lex b -> reads c' lex' b.
Proof.
  induction fuel as [|fuel IH]; intros c lex error c' lex' error' b H Hr.
  - rewrite loop_0 in H. inversion H; subst. exact Hr.
  - rewrite loop_S in H. destruct (test c); [|inversion H; subst; exact Hr].
    destruct (get lex error) as [[c1 lex1] error1] eqn:Hget.
    apply (IH _ _ _ _ _ _ _ H).
    apply get_left in Hget; [|apply Hr].
    eapply reads_weaken; [eapply reads_next; eassumption|lia].
Qed.

(** More fuel than the stream has bytes left changes nothing. *)
Lemma simple_loop_fuel n : forall m c lex error,
  stream_wf (stream lex) ->
  (lex_left lex < n)%nat -> (lex_left lex < m)%nat ->
  loop n c lex error = loop m c lex error.
Proof.
  induction n as [|n IH]; intros m c lex error Hwf Hn Hm; [lia|].
  destruct m as [|m]; [lia|].
  rewrite !loop_S. destruct (test c); [|reflexivity].
  destruct (get lex error) as [[c1 lex1] error1] eqn:Hget.
  apply get_left in Hget; [|exact Hwf]. destruct Hget as [Hwf1 Hleft].
  unfold byte_count in Hleft. destruct (is_sentinel c1) eqn:Hs.
  - apply test_sentinel in Hs.
    destruct n, m; rewrite ?loop_0, ?loop_S, ?Hs; reflexivity.
  - apply IH; [exact Hwf1|lia|lia].
Qed.

End SimpleLoop.

Lemma scan_digits_left fuel c lex error c' lex' error' b :
  scan_digits fuel c lex error = (c', lex', error') ->
  reads c lex b -> reads c' lex' b.
Proof.
  apply (simple_loop_left l_isdigit lex_get_save scan_digits);
    [exact lex_get_save_left|reflexivity|reflexivity].
Qed.

Lemma scan_alpha_left fuel c lex error c' lex' error' b :
  scan_alpha fuel c lex error = (c', lex', error') ->
  reads c lex b -> reads c' lex' b.
Proof.
  apply (simple_loop_left l_isalpha lex_get_save scan_alpha);
    [exact lex_get_save_left|reflexivity|reflexivity].
Qed.

Lemma skip_space_left fuel c lex error c' lex' error' b :
  skip_space fuel c lex error = (c', lex', error') ->
  reads c lex b -> reads c' lex' b.
Proof.
  apply (simple_loop_left is_space lex_get skip_space);
    [exact lex_get_left|reflexivity|reflexivity].
Qed.

Lemma lex_fuel_left (lex : lex_t) : (S (lex_left lex) < lex_fuel lex)%nat.
Proof.
  unfold lex_fuel, lex_left. pose proof (stream_left_weight (stream lex)). lia.
Qed.

Lemma scan_hex4_left i : forall c lex error b,
  reads c lex b ->
  match scan_hex4 i c lex error with
  | inl (lex', _) => stream_wf (stream lex') /\ (lex_left lex' <= b)%nat
  | inr (c', lex', _) => reads c' lex' (b - match i with O => 0 | S _ => byte_count c end)
  end.
Proof.
  induction i as [|i IH]; intros c lex error b Hr; simpl.
  - rewrite Nat.sub_0_r. exact Hr.
  - destruct (negb (l_isxdigit c)); [apply (reads_left _ _ _ Hr)|].
    destruct (lex_get_save lex error) as [[c1 lex1] error1] eqn:Hget.
    apply lex_get_save_left in Hget; [|apply Hr].
    pose proof (reads_next _ _ _ _ _ Hr Hget) as Hr1.
    specialize (IH c1 lex1 error1 _ Hr1).
    destruct (scan_hex4 i c1 lex1 error1) as [[l e]|[[c2 l] e]].
    + destruct IH as [H1 H2]. split; [exact H1|lia].
    + eapply reads_weaken; [exact IH|]. destruct i; lia.
Qed.

Lemma sentinel_cases c :
  is_sentinel c = false ->
  (c =? STREAM_STATE_ERROR) = false /\ (c =? STREAM_STATE_EOF) = false.
Proof.
  unfold is_sentinel. intros H. apply orb_false_iff in H. tauto.
Qed.

Lemma not_sentinel_cases c :
  (c =? STREAM_STATE_ERROR) = false -> (c =? STREAM_STATE_EOF) = false ->
  byte_count c = 1%nat.
Proof.
  unfold byte_count, is_sentinel. intros -> ->. reflexivity.
Qed.

Lemma scan_string_loop_left fuel : forall c lex error closed lex' error' b,
  scan_string_loop fuel c lex error = (closed, lex', error') ->
  reads c lex b ->
  stream_wf (stream lex') /\ (lex_left lex' <= b)%nat.
Proof.
  induction fuel as [|fuel IH]; intros c lex error closed lex' error' b H Hr;
    cbn [scan_string_loop] in H.
  - inversion H; subst. apply (reads_left _ _ _ Hr).
  - destruct (c =? chr "034");
      [inversion H; subst; apply (reads_left _ _ _ Hr)|].
    destruct (c =? STREAM_STATE_ERROR) eqn:E1;
      [inversion H; subst; apply (reads_left _ _ _ Hr)|].
    destruct (c =? STREAM_STATE_EOF) eqn:E2;
      [inversion H; subst; apply (reads_left _ _ _ Hr)|].
    destruct ((0 <=? c) && (c <=? 31)).
    { destruct (c =? chr "010"); inversion H; subst;
        apply lex_unget_unsave_left; exact Hr. }
    destruct (c =? chr "\").
    + destruct (lex_get_save lex error) as [[c1 lex1] error1] eqn:Hget1.
      apply lex_get_save_left in Hget1; [|apply Hr].
      pose proof (reads_next _ _ _ _ _ Hr Hget1) as Hr1.
      destruct (c1 =? chr "u").
      * destruct (lex_get_save lex1 error1) as [[c2 lex2] error2] eqn:Hget2.
        apply lex_get_save_left in Hget2; [|apply Hr1].
        pose proof (reads_next _ _ _ _ _ Hr1 Hget2) as Hr2.
        pose proof (scan_hex4_left 4 c2 lex2 error2 _ Hr2) as Hhex.
        destruct (scan_hex4 4 c2 lex2 error2) as [[l e]|[[c3 l] e]].
        -- inversion H; subst. destruct Hhex as [H1 H2]. split; [exact H1|lia].
        -- apply (IH _ _ _ _ _ _ _ H).
           eapply reads_weaken; [exact Hhex|lia].
      * destruct ((c1 =? chr "034") || (c1 =? chr "\") || (c1 =? chr "/")
                  || (c1 =? chr "b") || (c1 =? chr "f") || (c1 =? chr "n")
                  || (c1 =? chr "r") || (c1 =? chr "t")).
        -- destruct (lex_get_save lex1 error1) as [[c2 lex2] error2] eqn:Hget2.
           apply lex_get_save_left in Hget2; [|apply Hr1].
           pose proof (reads_next _ _ _ _ _ Hr1 Hget2) as Hr2.
           apply (IH _ _ _ _ _ _ _ H).
           eapply reads_weaken; [exact Hr2|lia].
        -- inversion H; subst. destruct (reads_left _ _ _ Hr1) as [H1 H2].
           split; [exact H1|lia].
    + destruct (lex_get_save lex error) as [[c1 lex1] error1] eqn:Hget1.
      apply lex_get_save_left in Hget1; [|apply Hr].
      pose proof (reads_next _ _ _ _ _ Hr Hget1) as Hr1.
      apply (IH _ _ _ _ _ _ _ H).
      eapply reads_weaken; [exact Hr1|lia].
Qed.

(** More fuel than the bytes left and two changes nothing in the first
    pass over a string. *)
Lemma scan_string_loop_fuel n : forall m c lex error,
  stream_wf (stream lex) ->
  (lex_left lex + byte_count c < n)%nat ->
  (lex_left lex + byte_count c < m)%nat ->
  scan_string_loop n c lex error = scan_string_loop m c lex error.
Proof.
  induction n as [|n IH]; intros m c lex error Hwf Hn Hm; [lia|].
  destruct m as [|m]; [lia|].
  assert (reads c lex (lex_left lex + byte_count c)) as Hr
    by (split; [exact Hwf|lia]).
  cbn [scan_string_loop].
  destruct (c =? chr "034"); [reflexivity|].
  destruct (c =? STREAM_STATE_ERROR) eqn:E1; [reflexivity|].
  destruct (c =? STREAM_STATE_EOF) eqn:E2; [reflexivity|].
  pose proof (not_sentinel_cases _ E1 E2) as Hbyte. rewrite Hbyte in *.
  destruct ((0 <=? c) && (c <=? 31)); [reflexivity|].
  destruct (c =? chr "\").
  - destruct (lex_get_save lex error) as [[c1 lex1] error1] eqn:Hget1.
    apply lex_get_save_left in Hget1; [|exact Hwf].
    destruct (c1 =? chr "u").
    + destruct (lex_get_save lex1 error1) as [[c2 lex2] error2] eqn:Hget2.
      apply lex_get_save_left in Hget2; [|apply Hget1].
      pose proof (reads_next _ _ _ _ _ Hget1 Hget2) as Hr2.
      pose proof (scan_hex4_left 4 c2 lex2 error2 _ Hr2) as Hhex.
      destruct (scan_hex4 4 c2 lex2 error2) as [[l e]|[[c3 l] e]];
        [reflexivity|].
      destruct Hhex as [Hwf3 Hleft3]. apply IH; [exact Hwf3|lia|lia].
    + destruct ((c1 =? chr "034") || (c1 =? chr "\") || (c1 =? chr "/")
                || (c1 =? chr "b") || (c1 =? chr "f") || (c1 =? chr "n")
                || (c1 =? chr "r") || (c1 =? chr "t")); [|reflexivity].
      destruct (lex_get_save lex1 error1) as [[c2 lex2] error2] eqn:Hget2.
      apply lex_get_save_left in Hget2; [|apply Hget1].
      pose proof (reads_next _ _ _ _ _ Hget1 Hget2) as [Hwf2 Hleft2].
      apply IH; [exact Hwf2|lia|lia].
  - destruct (lex_get_save lex error) as [[c1 lex1] error1] eqn:Hget1.
    apply lex_get_save_left in Hget1; [|exact Hwf].
    destruct Hget1 as [Hwf1 Hleft1]. apply IH; [exact Hwf1|lia|lia].
Qed.

Lemma lex_scan_string_left lex error lex' error' :
  stream_wf (stream lex) ->
  lex_scan_string lex error = Done (lex', error') ->
  stream_wf (stream lex') /\ (lex_left lex' <= lex_left lex)%nat.
Proof.
  unfold lex_scan_string. intros Hwf H.
  destruct (lex_get_save _ error) as [[c lex1] error1] eqn:Hget.
  apply lex_get_save_left in Hget; [|exact Hwf].
  destruct (scan_string_loop (lex_fuel lex1) c lex1 error1)
    as [[closed lex2] error2] eqn:Hloop.
  apply scan_string_loop_left with (b := lex_left lex) in Hloop;
    [|exact Hget].
  destruct closed.
  - destruct (decode_loop (advance 1 (saved_text lex2)) []) as [[msg|t]| |];
      simpl in H; inversion H; subst; exact Hloop.
  - inversion H; subst. exact Hloop.
Qed.

(** *** Numbers *)

Lemma scan_sign_left c lex error c' lex' error' b :
  scan_sign c lex error = (c', lex', error') ->
  reads c lex b -> reads c' lex' b.
Proof.
  unfold scan_sign. intros H Hr. destruct (c =? chr "-").
  - apply lex_get_save_left in H; [|apply Hr].
    eapply reads_weaken; [exact (reads_next _ _ _ _ _ Hr H)|lia].
  - inversion H; subst. exact Hr.
Qed.

Definition part_left
    (r : (lex_t * option json_error_t) + (Z * lex_t * option json_error_t))
    (b : nat) : Prop :=
  match r with
  | inl (lex', _) => stream_wf (stream lex') /\ (lex_left lex' <= b)%nat
  | inr (c', lex', _) => reads c' lex' b
  end.

Lemma scan_digits_part fuel c lex error b :
  reads c lex b -> part_left (inr (scan_digits fuel c lex error)) b.
Proof.
  intros Hr. destruct (scan_digits fuel c lex error) as [[c' lex'] error']
    eqn:H. simpl. exact (scan_digits_left _ _ _ _ _ _ _ _ H Hr).
Qed.

(** After a digit the integer part reads on, and its bound is what was
    left when it began. *)
Lemma scan_integer_part_digit c lex error :
  stream_wf (stream lex) -> l_isdigit c = true ->
  part_left (scan_integer_part c lex error) (lex_left lex).
Proof.
  unfold scan_integer_part. intros Hwf Hd. rewrite Hd.
  destruct (c =? chr "0").
  - destruct (lex_get_save lex error) as [[c1 lex1] error1] eqn:Hget.
    apply lex_get_save_left in Hget; [|exact Hwf].
    destruct (l_isdigit c1); simpl; [|exact Hget].
    apply lex_unget_unsave_left. exact Hget.
  - destruct (lex_get_save lex error) as [[c1 lex1] error1] eqn:Hget.
    apply lex_get_save_left in Hget; [|exact Hwf].
    apply scan_digits_part. exact Hget.
Qed.

Lemma scan_integer_part_left c lex error b :
  reads c lex b -> part_left (scan_integer_part c lex error) b.
Proof.
  intros Hr. destruct (l_isdigit c) eqn:Hd.
  - pose proof (scan_integer_part_digit c lex error (proj1 Hr) Hd) as H.
    destruct (scan_integer_part c lex error) as [[l e]|[[c1 l] e]]; simpl in *.
    + destruct H as [H1 H2]. destruct Hr as [_ Hr]. split; [exact H1|lia].
    + eapply reads_weaken; [exact H|]. destruct Hr as [_ Hr]. lia.
  - unfold scan_integer_part. rewrite Hd.
    destruct (c =? chr "0") eqn:E.
    { apply Z.eqb_eq in E. subst c. discriminate Hd. }
    simpl. apply lex_unget_unsave_left. exact Hr.
Qed.

Lemma lex_save_left lex c b : reads c lex b -> reads c (lex_save lex c) b.
Proof. exact (fun H => H). Qed.

Lemma scan_fraction_left c lex error b :
  reads c lex b -> part_left (scan_fraction c lex error) b.
Proof.
  unfold scan_fraction. intros Hr. destruct (c =? chr "."); [|exact Hr].
  destruct (lex_get lex error) as [[c1 lex1] error1] eqn:Hget.
  apply lex_get_left in Hget; [|apply Hr].
  pose proof (reads_next _ _ _ _ _ Hr Hget) as Hr1.
  assert (reads c1 lex1 b) as Hr1' by (eapply reads_weaken; [exact Hr1|lia]).
  destruct (negb (l_isdigit c1)); cbn [part_left].
  - apply lex_unget_left. exact Hr1'.
  - destruct (lex_get_save (lex_save lex1 c1) error1)
      as [[c3 lex3] error3] eqn:Hget3.
    apply lex_get_save_left in Hget3; [|apply Hr1'].
    apply scan_digits_part.
    eapply reads_weaken;
      [exact (reads_next _ _ _ _ _ (lex_save_left _ _ _ Hr1') Hget3)|lia].
Qed.

Lemma scan_exponent_left c lex error b :
  reads c lex b -> part_left (scan_exponent c lex error) b.
Proof.
  unfold scan_exponent. intros Hr.
  destruct ((c =? chr "E") || (c =? chr "e")); [|exact Hr].
  destruct (lex_get_save lex error) as [[c2 lex2] error2] eqn:Hget2.
  apply lex_get_save_left in Hget2; [|apply Hr].
  assert (reads c2 lex2 b) as Hr2
    by (eapply reads_weaken; [exact (reads_next _ _ _ _ _ Hr Hget2)|lia]).
  destruct (if (c2 =? chr "+") || (c2 =? chr "-")
            then lex_get_save lex2 error2 else (c2, lex2, error2))
    as [[c3 lex3] error3] eqn:Hsign.
  assert (reads c3 lex3 b) as Hr3.
  { destruct ((c2 =? chr "+") || (c2 =? chr "-")).
    - apply lex_get_save_left in Hsign; [|apply Hr2].
      eapply reads_weaken; [exact (reads_next _ _ _ _ _ Hr2 Hsign)|lia].
    - inversion Hsign; subst. exact Hr2. }
  destruct (negb (l_isdigit c3)); cbn [part_left].
  - apply lex_unget_unsave_left. exact Hr3.
  - destruct (lex_get_save lex3 error3) as [[c4 lex4] error4] eqn:Hget4.
    apply lex_get_save_left in Hget4; [|apply Hr3].
    apply scan_digits_part.
    eapply reads_weaken; [exact (reads_next _ _ _ _ _ Hr3 Hget4)|lia].
Qed.

Lemma finish_integer_left c lex error r lex' error' b :
  finish_integer c lex error = (r, lex', error') ->
  reads c lex b ->
  stream_wf (stream lex') /\ (lex_left lex' <= b)%nat.
Proof.
  unfold finish_integer. intros H Hr.
  apply lex_unget_unsave_left in Hr.
  destruct (json_strtoint (saved_text (lex_unget_unsave lex c)))
    as [v erange].
  destruct erange; [destruct (v <? 0)|]; inversion H; subst; exact Hr.
Qed.

Lemma finish_real_left c lex error r lex' error' b :
  finish_real c lex error = (r, lex', error') ->
  reads c lex b ->
  stream_wf (stream lex') /\ (lex_left lex' <= b)%nat.
Proof.
  unfold finish_real. intros H Hr.
  apply lex_unget_unsave_left in Hr.
  destruct (jsonp_strtod (saved_text (lex_unget_unsave lex c)));
    inversion H; subst; exact Hr.
Qed.

(** [lex_scan_number] gives back none of the bytes that were read before
    it. *)
Lemma lex_scan_number_left lex c error r lex' error' :
  stream_wf (stream lex) ->
  l_isdigit c || (c =? chr "-") = true ->
  lex_scan_number lex c error = (r, lex', error') ->
  stream_wf (stream lex') /\ (lex_left lex' <= lex_left lex)%nat.
Proof.
  unfold lex_scan_number. intros Hwf Hc H.
  destruct (scan_sign c (set_token lex TOKEN_INVALID) error)
    as [[c0 lex0] error0] eqn:Hsign.
  assert (part_left (scan_integer_part c0 lex0 error0) (lex_left lex))
    as Hint.
  { unfold scan_sign in Hsign. destruct (c =? chr "-") eqn:Hm.
    - apply lex_get_save_left in Hsign; [|exact Hwf].
      apply scan_integer_part_left. exact Hsign.
    - inversion Hsign; subst. rewrite orb_false_r in Hc.
      apply (scan_integer_part_digit _ (set_token lex TOKEN_INVALID));
        assumption. }
  destruct (scan_integer_part c0 lex0 error0) as [[l e]|[[c1 lex1] error1]];
    simpl in Hint; [inversion H; subst; exact Hint|].
  destruct (negb (c1 =? chr ".") && negb (c1 =? chr "E")
            && negb (c1 =? chr "e")).
  { eapply finish_integer_left; eassumption. }
  pose proof (scan_fraction_left c1 lex1 error1 _ Hint) as Hfrac.
  destruct (scan_fraction c1 lex1 error1) as [[l e]|[[c2 lex2] error2]];
    simpl in Hfrac; [inversion H; subst; exact Hfrac|].
  pose proof (scan_exponent_left c2 lex2 error2 _ Hfrac) as Hexp.
  destruct (scan_exponent c2 lex2 error2) as [[l e]|[[c3 lex3] error3]];
    simpl in Hexp; [inversion H; subst; exact Hexp|].
  eapply finish_real_left; eassumption.
Qed.

(** *** The scanner *)

Lemma lex_save_cached_loop_left fuel : forall lex,
  stream_wf (stream lex) ->
  stream_wf (stream (lex_save_cached_loop fuel lex))
  /\ (lex_left (lex_save_cached_loop fuel lex) <= lex_left lex)%nat.
Proof.
  induction fuel as [|fuel IH]; intros lex Hwf; cbn [lex_save_cached_loop].
  - split; [exact Hwf|lia].
  - destruct (Z.eqb_spec (buf_get (buffer (stream lex))
                            (buffer_pos (stream lex))) 0) as [E|N].
    + split; [exact Hwf|lia].
    + match goal with
      | |- context [lex_save_cached_loop fuel ?l] => specialize (IH l)
      end.
      destruct Hwf as (H1 & H2 & H3 & H4).
      destruct IH as [IH1 IH2].
      { repeat split; try assumption; apply size_t_wrap_range. }
      split; [exact IH1|].
      eapply Nat.le_trans; [exact IH2|].
      unfold lex_left, stream_left, stream_weight.
      cbn [stream lex_save set_stream set_saved_text state data buffer
           buffer_pos].
      rewrite (cstr_skipn_step _ _ N).
      destruct (state (stream lex) =? STREAM_STATE_OK); lia.
Qed.

(** Five turns empty the buffer: more change nothing. *)
Lemma lex_save_cached_loop_fuel n : forall m lex,
  (List.length (cstr (skipn (buffer_pos (stream lex)) (buffer (stream lex))))
   <= n)%nat ->
  (List.length (cstr (skipn (buffer_pos (stream lex)) (buffer (stream lex))))
   <= m)%nat ->
  lex_save_cached_loop n lex = lex_save_cached_loop m lex.
Proof.
  assert (forall k lex,
    cstr (skipn (buffer_pos (stream lex)) (buffer (stream lex))) = [] ->
    lex_save_cached_loop k lex = lex) as Hempty.
  { intros [|k] lex H; cbn [lex_save_cached_loop]; [reflexivity|].
    destruct (Z.eqb_spec (buf_get (buffer (stream lex))
                            (buffer_pos (stream lex))) 0) as [E|N];
      [reflexivity|].
    apply (f_equal (@List.length Z)) in H.
    rewrite (cstr_skipn_step _ _ N) in H. discriminate H. }
  induction n as [|n IH]; intros m lex Hn Hm.
  - rewrite !Hempty; [reflexivity| |];
      apply length_zero_iff_nil; lia.
  - destruct m as [|m].
    + rewrite !Hempty; [reflexivity| |]; apply length_zero_iff_nil; lia.
    + cbn [lex_save_cached_loop].
      destruct (Z.eqb_spec (buf_get (buffer (stream lex))
                              (buffer_pos (stream lex))) 0) as [E|N];
        [reflexivity|].
      rewrite (cstr_skipn_step _ _ N) in Hn, Hm.
      apply IH; cbn [stream lex_save set_stream set_saved_text buffer
                     buffer_pos]; lia.
Qed.

Lemma lex_save_cached_fuel n lex :
  stream_wf (stream lex) -> (5 <= n)%nat ->
  lex_save_cached_loop n lex = lex_save_cached lex.
Proof.
  intros (Hlen & _) Hn. unfold lex_save_cached.
  pose proof (cstr_length_le
                (skipn (buffer_pos (stream lex)) (buffer (stream lex)))) as H.
  rewrite length_skipn in H.
  apply lex_save_cached_loop_fuel; lia.
Qed.

Lemma decode_unicode_escape_finishes str :
  decode_unicode_escape str <> Unfinished.
Proof.
  unfold decode_unicode_escape, hex_value.
  destruct (negb (nth 0 str 0 =? chr "u")); [discriminate|].
  repeat match goal with
         | |- context [if ?b then _ else _] => destruct b
         end; cbn [bind]; discriminate.
Qed.

Lemma advance_length n : forall p, (List.length (advance n p) <= List.length p)%nat.
Proof.
  induction n as [|n IH]; intros [|c p]; simpl; try lia.
  specialize (IH p). lia.
Qed.

(** The second pass over a string returns or aborts. *)
Lemma decode_loop_finishes p : forall t, decode_loop p t <> Unfinished.
Proof.
  remember (List.length p) as n eqn:Hn.
  assert (List.length p <= n)%nat as Hle by lia. clear Hn.
  revert p Hle. induction n as [|n IH]; intros p Hle t.
  - destruct p; [discriminate|simpl in Hle; lia].
  - destruct p as [|c p1]; [discriminate|]. simpl in Hle.
    assert (forall k t', decode_loop (advance k p1) t' <> Unfinished) as Hk.
    { intros k t'. apply IH. pose proof (advance_length k p1). lia. }
    cbn [decode_loop].
    destruct (c =? chr "034"); [discriminate|].
    destruct (c =? chr "\"); [|apply (Hk 0%nat)].
    destruct (nth 0 p1 0 =? chr "u").
    + pose proof (decode_unicode_escape_finishes p1) as H1.
      destruct (decode_unicode_escape p1) as [value| |]; cbn [bind];
        [|discriminate|contradiction].
      destruct ((0xD800 <=? value) && (value <=? 0xDBFF)).
      * destruct ((nth 0 (advance 5 p1) 0 =? chr "\")
                  && (nth 1 (advance 5 p1) 0 =? chr "u")); [|discriminate].
        pose proof (decode_unicode_escape_finishes (advance 1 (advance 5 p1)))
          as H2.
        destruct (decode_unicode_escape (advance 1 (advance 5 p1)))
          as [value2| |]; cbn [bind]; [|discriminate|contradiction].
        destruct ((0xDC00 <=? value2) && (value2 <=? 0xDFFF)); [|discriminate].
        destruct (utf8_encode _); [|discriminate].
        apply IH.
        pose proof (advance_length 5 (advance 1 (advance 5 p1))).
        pose proof (advance_length 1 (advance 5 p1)).
        pose proof (advance_length 5 p1). lia.
      * destruct ((0xDC00 <=? value) && (value <=? 0xDFFF)); [discriminate|].
        destruct (value =? 0); [discriminate|].
        destruct (utf8_encode value); [|discriminate]. apply (Hk 5%nat).
    + destruct (short_escape (nth 0 p1 0)); try discriminate.
      apply (Hk 1%nat).
Qed.

(** A scan leaves the stream well formed and gives it no byte back; it
    takes one unless it returns the end of the input or an invalid
    token. *)
Lemma lex_scan_left lex error :
  stream_wf (stream lex) ->
  match lex_scan lex error with
  | Done (lex', _) =>
      stream_wf (stream lex')
      /\ (lex_left lex' <= lex_left lex)%nat
      /\ (token lex' = TOKEN_EOF \/ token lex' = TOKEN_INVALID
          \/ (lex_left lex' < lex_left lex)%nat)
  | Aborted => True
  | Unfinished => False
  end.
Proof.
  unfold lex_scan. intros Hwf.
  set (lexa := if token (set_saved_text lex (strbuffer_clear (saved_text lex)))
                  =? TOKEN_STRING
               then set_value (set_saved_text lex
                                 (strbuffer_clear (saved_text lex)))
                      (ValString None)
               else set_saved_text lex (strbuffer_clear (saved_text lex))).
  assert (stream lexa = stream lex) as Hsa
    by (unfold lexa; destruct (_ =? TOKEN_STRING); reflexivity).
  assert (lex_left lexa = lex_left lex) as Hla
    by (unfold lex_left; rewrite Hsa; reflexivity).
  rewrite <- Hsa in Hwf. rewrite <- Hla. clearbody lexa.
  destruct (lex_get lexa error) as [[c0 lex0] error0] eqn:Hget.
  apply lex_get_left in Hget; [|exact Hwf].
  destruct (skip_space (lex_fuel lex0) c0 lex0 error0)
    as [[c lex1] error1] eqn:Hskip.
  apply skip_space_left with (b := lex_left lexa) in Hskip; [|exact Hget].
  destruct Hskip as [Hwf1 Hleft1].
  destruct (c =? STREAM_STATE_EOF) eqn:E1.
  { cbn [token set_token stream]. unfold byte_count in Hleft1.
    change (lex_left (set_token lex1 TOKEN_EOF)) with (lex_left lex1).
    change (lex_left (set_token lex1 TOKEN_INVALID)) with (lex_left lex1).
    split; [exact Hwf1|split; [lia|auto]]. }
  destruct (c =? STREAM_STATE_ERROR) eqn:E2.
  { cbn [token set_token stream]. unfold byte_count in Hleft1.
    change (lex_left (set_token lex1 TOKEN_EOF)) with (lex_left lex1).
    change (lex_left (set_token lex1 TOKEN_INVALID)) with (lex_left lex1).
    split; [exact Hwf1|split; [lia|auto]]. }
  rewrite (not_sentinel_cases _ E2 E1) in Hleft1.
  assert (forall lex' : lex_t,
            stream_wf (stream lex')
            /\ (lex_left lex' <= lex_left lex1)%nat ->
            stream_wf (stream lex')
            /\ (lex_left lex' <= lex_left lexa)%nat
            /\ (token lex' = TOKEN_EOF \/ token lex' = TOKEN_INVALID
                \/ (lex_left lex' < lex_left lexa)%nat)) as Hdone.
  { intros lex' [H1 H2]. split; [exact H1|split; [lia|right; right; lia]]. }
  assert (forall t lex', lex_left (set_token lex' t) = lex_left lex')
    as Htok by reflexivity.
  destruct (is_punct c).
  { apply Hdone. split; [exact Hwf1|rewrite Htok; apply Nat.le_refl]. }
  destruct (c =? chr "034").
  { pose proof (lex_scan_string_left (lex_save lex1 c) error1) as Hstr.
    destruct (lex_scan_string (lex_save lex1 c) error1)
      as [[lex' error']| |] eqn:Hs.
    - apply Hdone. apply (Hstr lex' error' Hwf1 eq_refl).
    - exact I.
    - unfold lex_scan_string in Hs.
      destruct (lex_get_save _ error1) as [[c2 lex2] error2].
      destruct (scan_string_loop (lex_fuel lex2) c2 lex2 error2)
        as [[closed lex3] error3].
      destruct closed; [|discriminate Hs].
      pose proof (decode_loop_finishes (advance 1 (saved_text lex3)) [])
        as Hd.
      destruct (decode_loop (advance 1 (saved_text lex3)) [])
        as [[msg|t]| |]; cbn [bind] in Hs; try discriminate Hs.
      contradiction. }
  destruct (l_isdigit c || (c =? chr "-")) eqn:Hnum.
  { destruct (lex_scan_number (lex_save lex1 c) c error1)
      as [[r lex'] error'] eqn:Hn.
    apply Hdone.
    exact (lex_scan_number_left (lex_save lex1 c) _ _ _ _ _ Hwf1 Hnum Hn). }
  destruct (l_isalpha c).
  { destruct (lex_get_save (lex_save lex1 c) error1)
      as [[c2 lex2] error2] eqn:Hget2.
    apply lex_get_save_left in Hget2; [|exact Hwf1].
    destruct (scan_alpha (lex_fuel lex2) c2 lex2 error2)
      as [[c3 lex3] error3] eqn:Halpha.
    apply scan_alpha_left with (b := lex_left lex1) in Halpha;
      [|exact Hget2].
    apply lex_unget_unsave_left in Halpha.
    repeat match goal with
           | |- context [if ?b then _ else _] => destruct b
           end; apply Hdone; rewrite Htok; exact Halpha. }
  apply Hdone. rewrite Htok.
  apply (lex_save_cached_loop_left 5 (lex_save lex1 c) Hwf1).
Qed.

(** *** The parser *)

(** The parser returned with a well-formed stream that has at most [b]
    bytes left, or the process was aborted. *)
Definition finishes (r : parsed) (b : nat) : Prop :=
  match r with
  | Done (_, lex', _) => stream_wf (stream lex') /\ (lex_left lex' <= b)%nat
  | Aborted => True
  | Unfinished => False
  end.

Lemma finishes_weaken r b b' : finishes r b -> (b <= b')%nat -> finishes r b'.
Proof.
  destruct r as [[[v l] e]| |]; simpl; auto. intros [H1 H2] H.
  split; [exact H1|lia].
Qed.

Lemma finishes_fail lex error msg b :
  stream_wf (stream lex) -> (lex_left lex <= b)%nat ->
  finishes (fail lex error msg) b.
Proof. intros H1 H2. split; assumption. Qed.

Lemma finishes_scan lex error (k : lex_t * option json_error_t -> parsed) b :
  stream_wf (stream lex) ->
  (forall lex1 error1,
     stream_wf (stream lex1) -> (lex_left lex1 <= lex_left lex)%nat ->
     (token lex1 = TOKEN_EOF \/ token lex1 = TOKEN_INVALID
      \/ (lex_left lex1 < lex_left lex)%nat) ->
     finishes (k (lex1, error1)) b) ->
  finishes (bind (lex_scan lex error) k) b.
Proof.
  intros Hwf Hk. pose proof (lex_scan_left lex error Hwf) as H.
  destruct (lex_scan lex error) as [[lex1 error1]| |]; cbn [bind];
    [|exact I|contradiction].
  destruct H as (H1 & H2 & H3). apply Hk; assumption.
Qed.

Lemma finishes_bind (m : parsed)
    (k : json_ref * lex_t * option json_error_t -> parsed) b b' :
  finishes m b ->
  (forall v lex1 error1,
     stream_wf (stream lex1) -> (lex_left lex1 <= b)%nat ->
     finishes (k (v, lex1, error1)) b') ->
  finishes (bind m k) b'.
Proof.
  intros Hm Hk. destruct m as [[[v l] e]| |]; cbn [bind];
    [|exact I|contradiction].
  destruct Hm as [H1 H2]. apply Hk; assumption.
Qed.

(** The token opens an object or an array. *)
Definition opener (lex : lex_t) : bool :=
  (token lex =? chr "{") || (token lex =? chr "[").

Lemma opener_left lex1 b :
  token lex1 = TOKEN_EOF \/ token lex1 = TOKEN_INVALID
  \/ (lex_left lex1 < b)%nat ->
  opener lex1 = true -> (lex_left lex1 < b)%nat.
Proof.
  unfold opener. intros [E|[E|H]] Ho; [| |exact H]; rewrite E in Ho;
    discriminate Ho.
Qed.

Lemma punct_left lex1 b c :
  token lex1 = TOKEN_EOF \/ token lex1 = TOKEN_INVALID
  \/ (lex_left lex1 < b)%nat ->
  (token lex1 =? c) = true -> is_punct c = true -> (lex_left lex1 < b)%nat.
Proof.
  intros [E|[E|H]] Ht Hp; [| |exact H]; apply Z.eqb_eq in Ht; subst c;
    rewrite E in Hp; discriminate Hp.
Qed.

Lemma object_after_member_finishes
    (loop : lex_t -> option json_error_t -> json -> parsed) lex error object :
  stream_wf (stream lex) ->
  (forall l e o, stream_wf (stream l) -> (lex_left l < lex_left lex)%nat ->
                 finishes (loop l e o) (lex_left l)) ->
  finishes (object_after_member loop lex error object) (lex_left lex).
Proof.
  intros Hwf Hloop. unfold object_after_member.
  apply finishes_scan; [exact Hwf|]. intros lex1 error1 Hwf1 Hle1 Hlt1.
  destruct (token lex1 =? chr ",") eqn:Hcomma; cbn [negb].
  - apply finishes_scan; [exact Hwf1|]. intros lex2 error2 Hwf2 Hle2 _.
    pose proof (punct_left _ _ _ Hlt1 Hcomma eq_refl).
    eapply finishes_weaken; [apply Hloop; [exact Hwf2|lia]|lia].
  - destruct (negb (token lex1 =? chr "}"));
      [apply finishes_fail; assumption|split; assumption].
Qed.

Lemma array_after_element_finishes
    (loop : lex_t -> option json_error_t -> json -> parsed) lex error array :
  stream_wf (stream lex) ->
  (forall l e a, stream_wf (stream l) -> (lex_left l < lex_left lex)%nat ->
                 (opener l = true -> (S (lex_left l) < lex_left lex)%nat) ->
                 finishes (loop l e a) (lex_left l)) ->
  finishes (array_after_element loop lex error array) (lex_left lex).
Proof.
  intros Hwf Hloop. unfold array_after_element.
  apply finishes_scan; [exact Hwf|]. intros lex1 error1 Hwf1 Hle1 Hlt1.
  destruct (token lex1 =? chr ",") eqn:Hcomma; cbn [negb].
  - apply finishes_scan; [exact Hwf1|]. intros lex2 error2 Hwf2 Hle2 Hlt2.
    pose proof (punct_left _ _ _ Hlt1 Hcomma eq_refl).
    eapply finishes_weaken; [apply Hloop; [exact Hwf2|lia|]|lia].
    intros Ho. pose proof (opener_left _ _ Hlt2 Ho). lia.
  - destruct (negb (token lex1 =? chr "]"));
      [apply finishes_fail; assumption|split; assumption].
Qed.

Lemma object_member_finishes
    (value_parser : lex_t -> option json_error_t -> parsed)
    (loop : lex_t -> option json_error_t -> json -> parsed)
    lex error object key :
  stream_wf (stream lex) ->
  (forall l e, stream_wf (stream l) -> (lex_left l <= lex_left lex)%nat ->
               (opener l = true -> (lex_left l < lex_left lex)%nat) ->
               finishes (value_parser l e) (lex_left l)) ->
  (forall l e o, stream_wf (stream l) -> (lex_left l < lex_left lex)%nat ->
                 finishes (loop l e o) (lex_left l)) ->
  finishes (object_member value_parser loop lex error object key)
    (lex_left lex).
Proof.
  intros Hwf Hvalue Hloop. unfold object_member.
  apply finishes_scan; [exact Hwf|]. intros lex1 error1 Hwf1 Hle1 Hlt1.
  destruct (negb (token lex1 =? chr ":"));
    [apply finishes_fail; assumption|].
  apply finishes_scan; [exact Hwf1|]. intros lex2 error2 Hwf2 Hle2 Hlt2.
  eapply finishes_bind.
  - apply Hvalue; [exact Hwf2|lia|].
    intros Ho. pose proof (opener_left _ _ Hlt2 Ho). lia.
  - intros [v|] lex3 error3 Hwf3 Hle3; [|split; [exact Hwf3|lia]].
    eapply finishes_weaken; [|apply (Nat.le_trans _ _ _ Hle3); lia].
    apply object_after_member_finishes; [exact Hwf3|].
    intros l e o Hwfl Hl. apply Hloop; [exact Hwfl|lia].
Qed.

Lemma lex_steal_string_stream lex key lex0 :
  lex_steal_string lex = (key, lex0) -> stream lex0 = stream lex.
Proof.
  unfold lex_steal_string. intros H.
  destruct (token lex =? TOKEN_STRING); [destruct (value lex)|];
    inversion H; subst; reflexivity.
Qed.

(** The recursion bound a value needs: three calls for each byte that is
    left when its first token opens an object or an array. *)
Definition value_fuel (lex : lex_t) : nat :=
  if opener lex then 3 * lex_left lex + 4 else 1.

Definition array_loop_fuel (lex : lex_t) : nat :=
  if opener lex then 3 * lex_left lex + 5 else 3 * lex_left lex + 2.

Lemma value_fuel_pos lex : (1 <= value_fuel lex)%nat.
Proof. unfold value_fuel. destruct (opener lex); lia. Qed.

Lemma array_loop_fuel_pos lex : (2 <= array_loop_fuel lex)%nat.
Proof. unfold array_loop_fuel. destruct (opener lex); lia. Qed.

(** With the recursion bound a value needs the parser returns or
    aborts, and it gives the stream no byte back. *)
Lemma parser_finishes fuel :
  (forall lex flags error,
     stream_wf (stream lex) -> (value_fuel lex <= fuel)%nat ->
     finishes (parse_value fuel lex flags error) (lex_left lex))
  /\ (forall lex flags error,
        stream_wf (stream lex) -> (3 * lex_left lex + 3 <= fuel)%nat ->
        finishes (parse_object fuel lex flags error) (lex_left lex))
  /\ (forall lex flags error object,
        stream_wf (stream lex) -> (3 * lex_left lex + 2 <= fuel)%nat ->
        finishes (parse_object_loop fuel lex flags error object)
          (lex_left lex))
  /\ (forall lex flags error,
        stream_wf (stream lex) -> (3 * lex_left lex + 3 <= fuel)%nat ->
        finishes (parse_array fuel lex flags error) (lex_left lex))
  /\ (forall lex flags error array,
        stream_wf (stream lex) -> (array_loop_fuel lex <= fuel)%nat ->
        finishes (parse_array_loop fuel lex flags error array)
          (lex_left lex)).
Proof.
  induction fuel as [|fuel (IHvalue & IHobject & IHobject_loop & IHarray
                             & IHarray_loop)].
  { repeat split; intros; try lia.
    - pose proof (value_fuel_pos lex). lia.
    - pose proof (array_loop_fuel_pos lex). lia. }
  repeat split.
  - (* parse_value *)
    intros lex flags error Hwf Hf. cbn [parse_value].
    unfold value_fuel, opener in Hf.
    repeat match goal with
           | |- finishes (if token lex =? ?t then Done _ else _) _ =>
               destruct (token lex =? t);
               [split; [exact Hwf|apply Nat.le_refl]|]
           end.
    destruct (token lex =? chr "{").
    { apply IHobject; [exact Hwf|]. simpl in Hf. lia. }
    destruct (token lex =? chr "[").
    { apply IHarray; [exact Hwf|]. simpl in Hf. lia. }
    destruct (token lex =? TOKEN_INVALID);
      apply finishes_fail; auto.
  - (* parse_object *)
    intros lex flags error Hwf Hf. cbn [parse_object].
    apply finishes_scan; [exact Hwf|]. intros lex1 error1 Hwf1 Hle1 _.
    destruct (token lex1 =? chr "}"); [split; assumption|].
    eapply finishes_weaken; [apply IHobject_loop; [exact Hwf1|lia]|lia].
  - (* parse_object_loop *)
    intros lex flags error object Hwf Hf. cbn [parse_object_loop].
    destruct (negb (token lex =? TOKEN_STRING));
      [apply finishes_fail; auto|].
    destruct (lex_steal_string lex) as [key lex0] eqn:Hsteal.
    apply lex_steal_string_stream in Hsteal.
    assert (lex_left lex0 = lex_left lex) as Hl0
      by (unfold lex_left; rewrite Hsteal; reflexivity).
    rewrite <- Hsteal in Hwf. rewrite <- Hl0 in *.
    destruct key as [key|]; [|split; [exact Hwf|apply Nat.le_refl]].
    destruct (flag_set flags JSON_REJECT_DUPLICATES && has_key object key);
      [apply finishes_fail; auto|].
    apply object_member_finishes; [exact Hwf| |].
    + intros l e Hwfl Hle Ho. apply IHvalue; [exact Hwfl|].
      unfold value_fuel. destruct (opener l); [specialize (Ho eq_refl)|]; lia.
    + intros l e o Hwfl Hlt. apply IHobject_loop; [exact Hwfl|lia].
  - (* parse_array *)
    intros lex flags error Hwf Hf. cbn [parse_array].
    apply finishes_scan; [exact Hwf|]. intros lex1 error1 Hwf1 Hle1 Hlt1.
    destruct (token lex1 =? chr "]"); [split; assumption|].
    eapply finishes_weaken; [apply IHarray_loop; [exact Hwf1|]|lia].
    unfold array_loop_fuel. destruct (opener lex1) eqn:Ho; [|lia].
    pose proof (opener_left _ _ Hlt1 Ho). lia.
  - (* parse_array_loop *)
    intros lex flags error array Hwf Hf. cbn [parse_array_loop].
    destruct (token lex =? 0).
    { destruct (negb (token lex =? chr "]"));
        [apply finishes_fail; auto|split; auto]. }
    unfold array_loop_fuel in Hf.
    eapply finishes_bind.
    + apply IHvalue; [exact Hwf|]. unfold value_fuel.
      destruct (opener lex); lia.
    + intros [elem|] lex1 error1 Hwf1 Hle1; [|split; assumption].
      eapply finishes_weaken; [|exact Hle1].
      apply array_after_element_finishes; [exact Hwf1|].
      intros l e a Hwfl Hlt Ho. apply IHarray_loop; [exact Hwfl|].
      unfold array_loop_fuel.
      destruct (opener l); [specialize (Ho eq_refl)|];
        destruct (opener lex); lia.
Qed.

Lemma parse_fuel_enough lex :
  (value_fuel lex <= parse_fuel lex)%nat.
Proof.
  unfold value_fuel, parse_fuel, lex_left.
  pose proof (stream_left_weight (stream lex)). destruct (opener lex); lia.
Qed.

(** [parse_json] returns or aborts: the recursion bound of the parser is
    not reached. *)
Theorem parse_json_finishes lex flags error :
  stream_wf (stream lex) -> parse_json lex flags error <> Unfinished.
Proof.
  intros Hwf.
  enough (finishes (parse_json lex flags error) (lex_left lex)) as H
    by (intros E; rewrite E in H; exact H).
  unfold parse_json.
  apply finishes_scan; [exact Hwf|]. intros lex1 error1 Hwf1 Hle1 _.
  destruct (negb (flag_set flags JSON_DECODE_ANY)
            && (negb (token lex1 =? chr "[") && negb (token lex1 =? chr "{")));
    [apply finishes_fail; assumption|].
  eapply finishes_bind.
  - apply (proj1 (parser_finishes (parse_fuel lex1)));
      [exact Hwf1|apply parse_fuel_enough].
  - intros [v|] lex2 error2 Hwf2 Hle2; [|split; [exact Hwf2|lia]].
    destruct (negb (flag_set flags JSON_DISABLE_EOF_CHECK));
      [|split; [exact Hwf2|lia]].
    apply finishes_scan; [exact Hwf2|]. intros lex3 error3 Hwf3 Hle3 _.
    destruct (negb (token lex3 =? TOKEN_EOF));
      [apply finishes_fail; [exact Hwf3|lia]|split; [exact Hwf3|lia]].
Qed.

Theorem json_loadb_finishes buffer flags error :
  json_loadb buffer flags error <> Unfinished.
Proof. apply parse_json_finishes. apply stream_init_wf. Qed.

Theorem json_loads_finishes text flags error :
  json_loads text flags error <> Unfinished.
Proof. apply parse_json_finishes. apply stream_init_wf. Qed.

(** *** The bounds do not matter *)

Lemma lex_fuel_enough lex c :
  (lex_left lex + byte_count c < lex_fuel lex)%nat.
Proof.
  pose proof (lex_fuel_left lex). unfold byte_count.
  destruct (is_sentinel c); lia.
Qed.

Lemma skip_space_fuel n c lex error :
  stream_wf (stream lex) -> (lex_fuel lex <= n)%nat ->
  skip_space n c lex error = skip_space (lex_fuel lex) c lex error.
Proof.
  intros Hwf Hn. pose proof (lex_fuel_left lex).
  apply (simple_loop_fuel is_space lex_get skip_space);
    [exact sentinel_not_space|exact lex_get_left|reflexivity|reflexivity
    |exact Hwf|lia|lia].
Qed.

Lemma scan_digits_fuel n c lex error :
  stream_wf (stream lex) -> (lex_fuel lex <= n)%nat ->
  scan_digits n c lex error = scan_digits (lex_fuel lex) c lex error.
Proof.
  intros Hwf Hn. pose proof (lex_fuel_left lex).
  apply (simple_loop_fuel l_isdigit lex_get_save scan_digits);
    [exact sentinel_not_digit|exact lex_get_save_left|reflexivity|reflexivity
    |exact Hwf|lia|lia].
Qed.

Lemma scan_alpha_fuel n c lex error :
  stream_wf (stream lex) -> (lex_fuel lex <= n)%nat ->
  scan_alpha n c lex error = scan_alpha (lex_fuel lex) c lex error.
Proof.
  intros Hwf Hn. pose proof (lex_fuel_left lex).
  apply (simple_loop_fuel l_isalpha lex_get_save scan_alpha);
    [exact sentinel_not_alpha|exact lex_get_save_left|reflexivity|reflexivity
    |exact Hwf|lia|lia].
Qed.

Lemma scan_string_loop_enough n c lex error :
  stream_wf (stream lex) -> (lex_fuel lex <= n)%nat ->
  scan_string_loop n c lex error
  = scan_string_loop (lex_fuel lex) c lex error.
Proof.
  intros Hwf Hn. pose proof (lex_fuel_enough lex c).
  apply scan_string_loop_fuel; [exact Hwf|lia|lia].
Qed.

(** [r'] is [r] unless [r] is the recursion bound being reached. *)
Definition settled (r r' : parsed) : Prop := r <> Unfinished -> r' = r.

Lemma settled_refl r : settled r r.
Proof. intros _. reflexivity. Qed.

Lemma settled_bind {A : Type} (m : run A) (k k' : A -> parsed) :
  (forall a, settled (k a) (k' a)) -> settled (bind m k) (bind m k').
Proof. intros H. destruct m as [a| |]; cbn [bind]; auto using settled_refl. Qed.

Lemma settled_bind_both {A : Type} (m m' : run A) (k k' : A -> parsed) :
  (m <> Unfinished -> m' = m) ->
  (forall a, settled (k a) (k' a)) -> settled (bind m k) (bind m' k').
Proof.
  intros Hm H. destruct m as [a| |]; cbn [bind].
  - rewrite Hm by discriminate. apply H.
  - rewrite Hm by discriminate. apply settled_refl.
  - intros N. contradiction.
Qed.

Lemma object_after_member_settled
    (loop loop' : lex_t -> option json_error_t -> json -> parsed)
    lex error object :
  (forall l e o, settled (loop l e o) (loop' l e o)) ->
  settled (object_after_member loop lex error object)
    (object_after_member loop' lex error object).
Proof.
  intros H. unfold object_after_member.
  apply settled_bind. intros [lex1 error1].
  destruct (negb (token lex1 =? chr ",")); [apply settled_refl|].
  apply settled_bind. intros [lex2 error2]. apply H.
Qed.

Lemma array_after_element_settled
    (loop loop' : lex_t -> option json_error_t -> json -> parsed)
    lex error array :
  (forall l e a, settled (loop l e a) (loop' l e a)) ->
  settled (array_after_element loop lex error array)
    (array_after_element loop' lex error array).
Proof.
  intros H. unfold array_after_element.
  apply settled_bind. intros [lex1 error1].
  destruct (negb (token lex1 =? chr ",")); [apply settled_refl|].
  apply settled_bind. intros [lex2 error2]. apply H.
Qed.

Lemma object_member_settled
    (value_parser value_parser' : lex_t -> option json_error_t -> parsed)
    (loop loop' : lex_t -> option json_error_t -> json -> parsed)
    lex error object key :
  (forall l e, settled (value_parser l e) (value_parser' l e)) ->
  (forall l e o, settled (loop l e o) (loop' l e o)) ->
  settled (object_member value_parser loop lex error object key)
    (object_member value_parser' loop' lex error object key).
Proof.
  intros Hv Hl. unfold object_member.
  apply settled_bind. intros [lex1 error1].
  destruct (negb (token lex1 =? chr ":")); [apply settled_refl|].
  apply settled_bind. intros [lex2 error2].
  apply settled_bind_both; [apply Hv|]. intros [[[v|] lex3] error3];
    [|apply settled_refl].
  apply object_after_member_settled. exact Hl.
Qed.

(** One more call allowed changes no result of the parser. *)
Lemma parser_settled fuel :
  (forall lex flags error,
     settled (parse_value fuel lex flags error)
       (parse_value (S fuel) lex flags error))
  /\ (forall lex flags error,
        settled (parse_object fuel lex flags error)
          (parse_object (S fuel) lex flags error))
  /\ (forall lex flags error object,
        settled (parse_object_loop fuel lex flags error object)
          (parse_object_loop (S fuel) lex flags error object))
  /\ (forall lex flags error,
        settled (parse_array fuel lex flags error)
          (parse_array (S fuel) lex flags error))
  /\ (forall lex flags error array,
        settled (parse_array_loop fuel lex flags error array)
          (parse_array_loop (S fuel) lex flags error array)).
Proof.
  induction fuel as [|fuel (IHvalue & IHobject & IHobject_loop & IHarray
                             & IHarray_loop)].
  { repeat split; intros; intros N; contradiction N; reflexivity. }
  repeat split.
  - intros lex flags error.
    change (parse_value (S (S fuel)) lex flags error)
      with (match S fuel with S f => parse_value (S (S f)) lex flags error
            | O => Unfinished end).
    cbn [parse_value].
    repeat match goal with
           | |- settled (if ?b then _ else _) _ =>
               destruct b; [first [apply settled_refl|apply IHobject
                                  |apply IHarray]|]
           end.
    apply settled_refl.
  - intros lex flags error.
    change (parse_object (S (S fuel)) lex flags error)
      with (bind (lex_scan lex error) (fun '(lex1, error1) =>
              if token lex1 =? chr "}"
              then Done (Some (JObject []), lex1, error1)
              else parse_object_loop (S fuel) lex1 flags error1
                     (JObject []))).
    cbn [parse_object]. apply settled_bind. intros [lex1 error1].
    destruct (token lex1 =? chr "}"); [apply settled_refl|].
    apply IHobject_loop.
  - intros lex flags error object.
    change (parse_object_loop (S (S fuel)) lex flags error object)
      with (if negb (token lex =? TOKEN_STRING)
            then fail lex error "string or '}' expected"
            else
              match lex_steal_string lex with
              | (None, lex0) => Done (None, lex0, error)
              | (Some key, lex0) =>
                  if flag_set flags JSON_REJECT_DUPLICATES
                     && has_key object key
                  then fail lex0 error "duplicate object key"
                  else
                    object_member
                      (fun l e => parse_value (S fuel) l flags e)
                      (fun l e o => parse_object_loop (S fuel) l flags e o)
                      lex0 error object key
              end).
    cbn [parse_object_loop].
    destruct (negb (token lex =? TOKEN_STRING)); [apply settled_refl|].
    destruct (lex_steal_string lex) as [[key|] lex0]; [|apply settled_refl].
    destruct (flag_set flags JSON_REJECT_DUPLICATES && has_key object key);
      [apply settled_refl|].
    apply object_member_settled; intros; [apply IHvalue|apply IHobject_loop].
  - intros lex flags error.
    change (parse_array (S (S fuel)) lex flags error)
      with (bind (lex_scan lex error) (fun '(lex1, error1) =>
              if token lex1 =? chr "]"
              then Done (Some (JArray []), lex1, error1)
              else parse_array_loop (S fuel) lex1 flags error1 (JArray []))).
    cbn [parse_array]. apply settled_bind. intros [lex1 error1].
    destruct (token lex1 =? chr "]"); [apply settled_refl|].
    apply IHarray_loop.
  - intros lex flags error array.
    change (parse_array_loop (S (S fuel)) lex flags error array)
      with (if token lex =? 0
            then
              if negb (token lex =? chr "]")
              then fail lex error "']' expected"
              else Done (Some array, lex, error)
            else
              bind (parse_value (S fuel) lex flags error)
                (fun '(elem, lex1, error1) =>
                   match elem with
                   | None => Done (None, lex1, error1)
                   | Some elem =>
                       array_after_element
                         (fun l e a => parse_array_loop (S fuel) l flags e a)
                         lex1 error1 (json_array_append array elem)
                   end)).
    cbn [parse_array_loop].
    destruct (token lex =? 0); [apply settled_refl|].
    apply settled_bind_both; [apply IHvalue|].
    intros [[[elem|] lex1] error1]; [|apply settled_refl].
    apply array_after_element_settled. intros. apply IHarray_loop.
Qed.

(** Any recursion bound from [parse_fuel] on gives the result
    [parse_json] has. *)
Theorem parse_value_fuel n lex flags error :
  stream_wf (stream lex) -> (parse_fuel lex <= n)%nat ->
  parse_value n lex flags error
  = parse_value (parse_fuel lex) lex flags error.
Proof.
  intros Hwf Hn.
  pose proof (proj1 (parser_finishes (parse_fuel lex)) lex flags error Hwf
                (parse_fuel_enough lex)) as Hfin.
  induction Hn as [|n Hn IH]; [reflexivity|].
  rewrite <- IH. apply (proj1 (parser_settled n)).
  rewrite IH. intros E. rewrite E in Hfin. exact Hfin.
Qed.

End Termination.

(** * Runs of the decoder *)

(** A message written with ` for the double quote. *)
Definition quote_text (s : string) : string :=
  string_of_bytes
    (map (fun c => if c =? chr "`" then chr "034" else c) (bytes_of_string s)).

(** What a run has returned. *)
Definition returned (r : parsed) : option json_ref :=
  match r with
  | Done (v, _, _) => Some v
  | _ => None
  end.

Definition message (r : parsed) : option string :=
  match r with
  | Done (_, _, Some e) => Some (e_text e)
  | _ => None
  end.

Definition consumed (r : parsed) : option Z :=
  match r with
  | Done (_, _, Some e) => Some (e_position e)
  | _ => None
  end.

Definition scanned (r : run (lex_t * option json_error_t))
  : option (Z * lex_value * string) :=
  match r with
  | Done (lex, _) => Some (token lex, value lex, string_of_bytes (saved_text lex))
  | _ => None
  end.

Definition loadb (text : string) (flags : Z) : parsed :=
  json_loadb (json_text text) flags (Some no_error).

Example surrogate_pair_run :
  returned (loadb "'\uD83D\uDE00'" JSON_DECODE_ANY)
  = Some (Some (JString [0xF0; 0x9F; 0x98; 0x80])).
Proof. vm_compute. reflexivity. Qed.

Example lone_high_surrogate_run :
  returned (loadb "'\uD800'" JSON_DECODE_ANY) = Some None
  /\ message (loadb "'\uD800'" JSON_DECODE_ANY)
     = Some (quote_text "invalid Unicode '\uD800' near '`\uD800`'").
Proof. vm_compute. split; reflexivity. Qed.

Example escaped_nul_run :
  returned (loadb "'\u0000'" JSON_DECODE_ANY) = Some None
  /\ message (loadb "'\u0000'" JSON_DECODE_ANY)
     = Some (quote_text "\u0000 is not allowed near '`\u0000`'").
Proof. vm_compute. split; reflexivity. Qed.

Example duplicates_allowed_run :
  returned (loadb "{'a':1,'a':2}" 0)
  = Some (Some (JObject [(bytes_of_string "a", JInteger 2)])).
Proof. vm_compute. reflexivity. Qed.

Example duplicates_rejected_run :
  returned (loadb "{'a':1,'a':2}" JSON_REJECT_DUPLICATES) = Some None
  /\ message (loadb "{'a':1,'a':2}" JSON_REJECT_DUPLICATES)
     = Some (quote_text "duplicate object key near '`a`'").
Proof. vm_compute. split; reflexivity. Qed.

Example bare_scalar_run :
  returned (loadb "42" 0) = Some None
  /\ message (loadb "42" 0) = Some "'[' or '{' expected near '42'"%string
  /\ returned (loadb "42" JSON_DECODE_ANY) = Some (Some (JInteger 42)).
Proof. vm_compute. repeat split; reflexivity. Qed.

Example trailing_content_run :
  returned (loadb "{} trailing" 0) = Some None
  /\ message (loadb "{} trailing" 0)
     = Some "end of file expected near 'trailing'"%string
  /\ returned (loadb "{} trailing" JSON_DISABLE_EOF_CHECK)
     = Some (Some (JObject []))
  /\ consumed (loadb "{} trailing" JSON_DISABLE_EOF_CHECK) = Some 2.
Proof. vm_compute. repeat split; reflexivity. Qed.

Example trailing_comma_run :
  returned (loadb "{'a':1,}" 0) = Some None
  /\ message (loadb "{'a':1,}" 0)
     = Some "string or '}' expected near '}'"%string
  /\ returned (loadb "[1,]" 0) = Some None
  /\ message (loadb "[1,]" 0) = Some "unexpected token near ']'"%string.
Proof. vm_compute. repeat split; reflexivity. Qed.

Example isolated_byte_run :
  returned (json_loadb [0xFF] 0 (Some no_error)) = Some None
  /\ message (json_loadb [0xFF] 0 (Some no_error))
     = Some "unable to decode byte 0xff"%string.
Proof. vm_compute. split; reflexivity. Qed.

Example number_runs :
  returned (loadb "01" JSON_DECODE_ANY) = Some None
  /\ returned (loadb "0" JSON_DECODE_ANY) = Some (Some (JInteger 0))
  /\ returned (loadb "-0" JSON_DECODE_ANY) = Some (Some (JInteger 0))
  /\ returned (loadb "1.5e10" JSON_DECODE_ANY)
     = Some (Some (JReal (mk_real 15 9)))
  /\ returned (loadb "1e" JSON_DECODE_ANY) = Some None
  /\ returned (loadb "1." JSON_DECODE_ANY) = Some None.
Proof. vm_compute. repeat split; reflexivity. Qed.

(** ** The theorems at concrete inputs *)



Definition stream_at_eof : stream_t :=
  mk_stream [] [0; 0; 0; 0; 0] 0 STREAM_STATE_EOF 1 0 0 0.

Lemma C6_stream_state_sticky_witness :
  (state stream_at_eof = STREAM_STATE_EOF
   \/ state stream_at_eof = STREAM_STATE_ERROR)
  /\ stream_get (set_stream (lex_init [])) stream_at_eof (Some no_error)
     = (STREAM_STATE_EOF, stream_at_eof, Some no_error).
Proof.
  assert (state stream_at_eof = STREAM_STATE_EOF
          \/ state stream_at_eof = STREAM_STATE_ERROR) as H
    by (left; reflexivity).
  split; [exact H|].
  apply (C6_stream_state_sticky (set_stream (lex_init [])) stream_at_eof
           (Some no_error) H).
Defined.

Lemma C7_position_tracking_witness :
  stream_wf (stream_init (bytes_of_string "a"))
  /\ (let '(c, s', _) :=
        stream_get (set_stream (lex_init [])) (stream_init (bytes_of_string "a"))
          (Some no_error) in
      c = chr "a" /\ position s' = 1 /\ column s' = 1
      /\ position (stream_unget s' c) = 0 /\ column (stream_unget s' c) = 0).
Proof.
  assert (stream_wf (stream_init (bytes_of_string "a"))) as Hwf.
  { unfold stream_wf. simpl. repeat split; auto; try lia.
    repeat constructor; unfold is_byte; lia. }
  split; [exact Hwf|].
  destruct (stream_get (set_stream (lex_init []))
              (stream_init (bytes_of_string "a")) (Some no_error))
    as [[c s'] e'] eqn:Hget.
  pose proof (C7_position_tracking _ _ _ _ _ _ Hwf Hget)
    as (_ & Hbyte & Hunget & _).
  vm_compute in Hget. inversion Hget; subst c s' e'. clear Hget.
  destruct Hunget as (_ & Hcol & Hpos).
  destruct (Hbyte eq_refl) as (Hp & _ & Hother).
  repeat split.
Defined.

Lemma C8_first_failure_wins_witness :
  let e := mk_error 1 2 3 "<buffer>" "invalid token" in
  error_recorded e = true
  /\ error_set (Some e) None "unexpected token" = Some e.
Proof.
  split; [reflexivity|].
  destruct (C8_first_failure_wins
              (mk_error 1 2 3 "<buffer>" "invalid token")
              None "unexpected token" []) as [H _].
  apply H. reflexivity.
Defined.

Lemma C9_error_context_witness :
  error_recorded no_error = false
  /\ exists e',
       error_set (Some no_error) (Some (lex_init [])) "invalid token" = Some e'
       /\ e_text e' = "invalid token near end of file"%string.
Proof.
  assert (error_recorded no_error = false) as H by reflexivity.
  split; [exact H|].
  destruct (C9_error_context no_error (lex_init []) "invalid token" H)
    as (e' & He' & _ & _ & _ & _ & _ & Heof & _).
  exists e'. split; [exact He'|].
  rewrite (Heof eq_refl ltac:(discriminate)). reflexivity.
Defined.

(** C9 as the specification states it, with every non-empty saved text
    giving a context in quotes, fails at a saved text that starts with a
    NUL byte: [json_loadb] on the single byte 0 reports "near end of
    file". *)
Lemma C9_counterexample :
  ~ (forall (e : json_error_t) (lex : lex_t) (msg : string),
       error_recorded e = false ->
       saved_text lex <> [] ->
       exists e' prefix,
         error_set (Some e) (Some lex) msg = Some e'
         /\ e_text e' = (msg ++ " near '" ++ prefix ++ "'")%string).
Proof.
  intros H.
  destruct (H no_error (mk_lex (stream_init []) [0] TOKEN_INVALID
                          (ValString None)) "x"%string eq_refl
              ltac:(discriminate)) as (e' & prefix & He' & Ht).
  vm_compute in He'. inversion He'; subst e'. simpl in Ht.
  inversion Ht.
Qed.

Example nul_byte_run :
  returned (json_loadb [0] 0 (Some no_error)) = Some None
  /\ message (json_loadb [0] 0 (Some no_error))
     = Some "'[' or '{' expected near end of file"%string.
Proof. vm_compute. split; reflexivity. Qed.







(** ** The grammar of numbers *)

Section NumberGrammar.

Context {header : jansson_h}.

(** C3, as the code has it: [lex_scan_number] accepts the literals of the
    strict grammar whose value is in range, and only those.  On a text
    that starts with a literal of the grammar, which what follows does not
    go on with, the scan saves that literal, and gives an INTEGER token with
    its value when it has neither fraction nor exponent and its value fits
    64 bits, a REAL token when it has one of them and its value does not
    overflow, and an error for a value out of range.  Conversely the saved
    text of every INTEGER or REAL token is a literal of the grammar, without
    fraction and exponent exactly for INTEGER, and its value is in range.
    So "01", "1e" and "1." are rejected, "0" and "-0" decode to the integer 0
    and "1.5e10" to a real. *)
Theorem C3_number_grammar (lex : lex_t) (error : option json_error_t) :
  (forall w rest real,
     stream_ok (stream lex) -> stream_view (stream lex) = w ++ rest ->
     number_literal w real -> literal_ends rest ->
     exists lex' error',
       lex_scan lex error = Done (lex', error')
       /\ saved_text lex' = w
       /\ if real then
            match jsonp_strtod w with
            | Some r =>
                token lex' = TOKEN_REAL /\ value lex' = ValReal r
                /\ error' = error
            | None =>
                token lex' = TOKEN_INVALID
                /\ error' = error_set error (Some lex') "real number overflow"
            end
          else
            match json_strtoint w with
            | (v, false) =>
                token lex' = TOKEN_INTEGER /\ value lex' = ValInteger v
                /\ error' = error
            | (v, true) =>
                token lex' = TOKEN_INVALID
                /\ error' = error_set error (Some lex')
                              (if v <? 0 then "too big negative integer"
                               else "too big integer")
            end)
  /\ (forall lex' error',
        lex_scan lex error = Done (lex', error') ->
        token lex' = TOKEN_INTEGER \/ token lex' = TOKEN_REAL ->
        number_token lex')
  /\ (let any := @JSON_DECODE_ANY jansson_2 in
      returned (loadb "01" any) = Some None
      /\ returned (loadb "0" any) = Some (Some (JInteger 0))
      /\ returned (loadb "-0" any) = Some (Some (JInteger 0))
      /\ returned (loadb "1.5e10" any) = Some (Some (JReal (mk_real 15 9)))
      /\ returned (loadb "1e" any) = Some None
      /\ returned (loadb "1." any) = Some None).
Proof.
  split; [|split; [|exact number_runs]].
  - intros w rest real Hok Hview Hlit Hends.
    destruct (lex_scan_number_literal lex error w rest real Hok Hview Hlit
                Hends) as (lexN & Hs & Ht & Hscan).
    rewrite Hscan. clear Hscan.
    destruct (lex_unget_unsave_saved _ _ _ Hs) as (Hsv & Htok & _).
    destruct real.
    + unfold finish_real. rewrite Hsv.
      destruct (jsonp_strtod w) as [r|]; do 2 eexists;
        (split; [reflexivity|]); simpl; repeat split; auto; congruence.
    + unfold finish_integer. rewrite Hsv.
      destruct (json_strtoint w) as [v [|]];
        [destruct (v <? 0)|]; do 2 eexists;
        (split; [reflexivity|]); simpl; repeat split; auto; congruence.
  - intros lex' error'. apply lex_scan_number_token.
Qed.

End NumberGrammar.

Lemma C3_number_grammar_witness :
  stream_ok (stream (lex_init (json_text "-0")))
  /\ stream_view (stream (lex_init (json_text "-0"))) = json_text "-0" ++ []
  /\ number_literal (json_text "-0") false
  /\ literal_ends []
  /\ exists lex' error',
       lex_scan (lex_init (json_text "-0")) (Some no_error)
       = Done (lex', error')
       /\ saved_text lex' = json_text "-0"
       /\ token lex' = TOKEN_INTEGER /\ value lex' = ValInteger 0.
Proof.
  assert (stream_ok (stream (lex_init (json_text "-0")))) as H1.
  { split; [|reflexivity]. unfold stream_wf. simpl.
    repeat split; auto; try lia. repeat constructor; unfold is_byte; lia. }
  assert (stream_view (stream (lex_init (json_text "-0")))
          = json_text "-0" ++ []) as H2 by reflexivity.
  assert (number_literal (json_text "-0") false) as H3.
  { exists [chr "-"], [chr "0"], [], []. repeat split; auto. }
  assert (literal_ends []) as H4.
  { unfold literal_ends. simpl. repeat split; auto; discriminate. }
  split; [exact H1|]. split; [exact H2|]. split; [exact H3|].
  split; [exact H4|].
  destruct (C3_number_grammar (lex_init (json_text "-0")) (Some no_error))
    as [Hcomplete _].
  destruct (Hcomplete _ _ _ H1 H2 H3 H4) as (lex' & error' & Hs & Hsv & Hv).
  exists lex', error'. split; [exact Hs|]. split; [exact Hsv|].
  vm_compute in Hv. tauto.
Defined.

(** C3 as the specification states it, with every literal of the grammar
    accepted, fails at a literal whose value is out of range: the twenty
    digits 99999999999999999999 have neither fraction nor exponent and
    give no INTEGER token, but the error "too big integer". *)
Lemma C3_counterexample :
  ~ (forall w : list Z,
       number_literal w false ->
       exists lex' error',
         lex_scan (lex_init w) (Some no_error) = Done (lex', error')
         /\ token lex' = TOKEN_INTEGER).
Proof.
  intros H.
  destruct (H (json_text "99999999999999999999")) as (lex' & error' & Hs & Ht).
  { exists [], (json_text "99999999999999999999"), [], [].
    split; [reflexivity|]. split; [auto|].
    split; [right; split; [split; [discriminate|reflexivity]|discriminate]|].
    repeat split; auto. }
  vm_compute in Hs. inversion Hs; subst lex' error'. discriminate Ht.
Qed.

Example out_of_range_runs :
  message (loadb "99999999999999999999" JSON_DECODE_ANY)
  = Some "too big integer near '99999999999999999999'"%string
  /\ message (loadb "-99999999999999999999" JSON_DECODE_ANY)
     = Some "too big negative integer near '-9999999999999999999'"%string
  /\ message (loadb "1e400" JSON_DECODE_ANY)
     = Some "real number overflow near '1e400'"%string.
Proof. vm_compute. repeat split; reflexivity. Qed.


(** * Further properties *)

(** ** What [stream_get] returns *)

Section StreamResults.

Context {header : jansson_h}.

Lemma sentinel_state (s : stream_t) :
  stream_wf s -> state s <> STREAM_STATE_OK -> is_sentinel (state s) = true.
Proof.
  intros (_ & _ & _ & [E|[E|E]]) N; [contradiction| |]; rewrite E; reflexivity.
Qed.

Lemma stream_refill_state s s1 :
  stream_refill s = RefillOk s1 -> state s1 = state s.
Proof. intros R. apply stream_refill_ok in R. tauto. Qed.

(** The value [stream_get] returns and the state it leaves. *)
Lemma stream_get_result (to_lex : stream_t -> lex_t) (s : stream_t)
    (error : option json_error_t) c s' error' :
  stream_wf s ->
  stream_get to_lex s error = (c, s', error') ->
  stream_wf s'
  /\ (is_sentinel c = true -> state s' = c)
  /\ (is_sentinel c = false ->
      is_byte c /\ state s = STREAM_STATE_OK /\ state s' = STREAM_STATE_OK
      /\ error' = error)
  /\ (c = STREAM_STATE_EOF -> error' = error).
Proof.
  intros Hwf H. split; [exact (stream_get_wf _ _ _ _ _ _ Hwf H)|].
  pose proof Hwf as (Hlen & Hbytes & Hpos & Hstate).
  unfold stream_get in H.
  destruct (Z.eqb_spec (state s) STREAM_STATE_OK) as [Est|Est];
    cbn [negb] in H.
  2:{ inversion H; subst. pose proof (sentinel_state _ Hwf Est) as Hs.
      rewrite Hs. repeat split; auto; discriminate. }
  destruct (stream_refill s) as [s1|s1|s1 c1] eqn:R.
  - pose proof (stream_refill_ok _ _ R) as (_ & _ & _ & _ & Rst & _ & Rb).
    assert (is_byte (buf_get (buffer s1) (buffer_pos s1))) as Hb
      by (apply buf_get_byte; auto).
    assert (c = buf_get (buffer s1) (buffer_pos s1) /\ error' = error
            /\ state s' = state s1) as (-> & -> & Hst).
    { repeat match type of H with
             | context [if ?b then _ else _] => destruct b
             end; inversion H; subst; auto. }
    rewrite (byte_not_sentinel _ Hb). rewrite Hst, Rst.
    repeat split; auto; try discriminate.
    + unfold is_byte in Hb; lia.
    + unfold is_byte in Hb; lia.
  - inversion H; subst c s' error'.
    assert (state s1 = STREAM_STATE_EOF) as Hst.
    { unfold stream_refill in R.
      repeat match type of R with
             | context [if ?b then _ else _] => destruct b
             | context [let (_, _) := ?p in _] => destruct p
             end; inversion R; subst; reflexivity. }
    repeat split; auto; discriminate.
  - inversion H; subst c s' error'. repeat split; auto; discriminate.
Qed.

(** What [stream_get] does on a stream in the state Ok whose buffer has a
    byte left: it returns that byte and moves the cursor and the
    counters. *)
Definition stream_step (s : stream_t) : stream_t :=
  let c := buf_get (buffer s) (buffer_pos s) in
  let pos := size_t_wrap (position s + 1) in
  if c =? chr "010" then
    mk_stream (data s) (buffer s) (S (buffer_pos s)) (state s)
      (line s + 1) 0 (column s) pos
  else if negb (utf8_check_first c =? 0) then
    mk_stream (data s) (buffer s) (S (buffer_pos s)) (state s)
      (line s) (column s + 1) (last_column s) pos
  else
    mk_stream (data s) (buffer s) (S (buffer_pos s)) (state s)
      (line s) (column s) (last_column s) pos.

Lemma stream_get_buffered (to_lex : stream_t -> lex_t) (s : stream_t)
    (error : option json_error_t) :
  state s = STREAM_STATE_OK ->
  buf_get (buffer s) (buffer_pos s) <> 0 ->
  stream_get to_lex s error
  = (buf_get (buffer s) (buffer_pos s), stream_step s, error).
Proof.
  intros Hst Hb. unfold stream_get, stream_refill, stream_step.
  destruct (Z.eqb_spec (state s) STREAM_STATE_OK); [|contradiction].
  cbn [negb].
  destruct (Z.eqb_spec (buf_get (buffer s) (buffer_pos s)) 0);
    [contradiction|].
  repeat match goal with
         | |- context [if ?b then _ else _] => destruct b
         end; reflexivity.
Qed.

Lemma stream_get_refilled (to_lex : stream_t -> lex_t) (s s1 : stream_t)
    (error : option json_error_t) :
  state s = STREAM_STATE_OK ->
  stream_refill s = RefillOk s1 ->
  stream_get to_lex s error
  = (buf_get (buffer s1) (buffer_pos s1), stream_step s1, error).
Proof.
  intros Hst R. unfold stream_get, stream_step.
  destruct (Z.eqb_spec (state s) STREAM_STATE_OK); [|contradiction].
  rewrite R. cbn [negb].
  repeat match goal with
         | |- context [if ?b then _ else _] => destruct b
         end; reflexivity.
Qed.

Lemma stream_eq (a b : stream_t) :
  data a = data b -> buffer a = buffer b -> buffer_pos a = buffer_pos b ->
  state a = state b -> line a = line b -> column a = column b ->
  last_column a = last_column b -> position a = position b -> a = b.
Proof.
  destruct a, b; simpl; intros; subst; reflexivity.
Qed.

Lemma stream_reget (to_lex to_lex' : stream_t -> lex_t) (s : stream_t)
    (error : option json_error_t) c s' error' :
  stream_wf s ->
  stream_get to_lex s error = (c, s', error') ->
  is_sentinel c = false -> c <> 0 ->
  stream_get to_lex' (stream_unget s' c) error' = (c, s', error').
Proof.
  intros Hwf H Hc Hnz.
  destruct (stream_get_result to_lex s error c s' error' Hwf H)
    as (Hwf' & _ & Hbyte & _).
  destruct (Hbyte Hc) as (_ & Hst & Hst' & ->).
  assert (exists s1, s' = stream_step s1
                     /\ c = buf_get (buffer s1) (buffer_pos s1)
                     /\ 0 <= position s1 < 2 ^ 64
                     /\ state s1 = STREAM_STATE_OK)
    as (s1 & Hs' & Hc1 & Hp1 & Hst1).
  { unfold stream_get in H. rewrite Hst in H.
    cbn [negb Z.eqb STREAM_STATE_OK] in H.
    destruct (stream_refill s) as [s1|s1|s1 c1] eqn:R;
      [|inversion H; subst c; discriminate Hc
       |inversion H; subst c; discriminate Hc].
    exists s1.
    pose proof (stream_refill_ok _ _ R) as (_ & _ & _ & Rp & Rst & _).
    destruct Hwf as (_ & _ & Hp & _). rewrite Rp, Rst, Hst.
    unfold stream_step.
    repeat match type of H with
           | context [if ?b then _ else _] => destruct b
           end; inversion H; subst; auto. }
  set (u := stream_unget s' c).
  assert (state u = STREAM_STATE_OK /\ buffer u = buffer s1
          /\ buffer_pos u = buffer_pos s1 /\ data u = data s1
          /\ position u = position s1 /\ line u = line s1
          /\ column u = column s1
          /\ (c = chr "010" \/ last_column u = last_column s1))
    as (Hu1 & Hu2 & Hu3 & Hu4 & Hu5 & Hu6 & Hu7 & Hu8).
  { unfold u, stream_unget. fold (is_sentinel c). rewrite Hc.
    rewrite Hs' in Hst' |- *. unfold stream_step in *. rewrite <- Hc1 in *.
    destruct (Z.eqb_spec c (chr "010")) as [E|E];
      [|destruct (negb (utf8_check_first c =? 0))];
      cbn [data buffer buffer_pos state line column last_column position pred]
        in *;
      rewrite size_t_wrap_pred by exact Hp1;
      repeat split; auto; lia. }
  rewrite stream_get_buffered; [|exact Hu1|rewrite Hu2, Hu3, <- Hc1; exact Hnz].
  rewrite Hu2, Hu3, <- Hc1. f_equal. f_equal.
  rewrite Hs'. unfold stream_step. rewrite Hu2, Hu3, <- Hc1.
  destruct (Z.eqb_spec c (chr "010")) as [E|E].
  - apply stream_eq; cbn [data buffer buffer_pos state line column
                          last_column position]; congruence.
  - destruct Hu8 as [E'|Hu8]; [contradiction|].
    destruct (negb (utf8_check_first c =? 0));
      apply stream_eq; cbn [data buffer buffer_pos state line column
                            last_column position]; congruence.
Qed.

(** X2: a byte that was ungot is read again.  When [stream_get] has
    returned a byte other than NUL, [stream_unget] of it followed by
    [stream_get] returns the same byte and leaves the same stream, the
    error record untouched. *)
Theorem stream_get_unget_get (to_lex : stream_t -> lex_t) (s : stream_t)
    (error : option json_error_t) c s' error' :
  stream_wf s ->
  stream_get to_lex s error = (c, s', error') ->
  is_sentinel c = false -> c <> 0 ->
  stream_get to_lex (stream_unget s' c) error' = (c, s', error').
Proof. apply stream_reget. Qed.

(** X3: a NUL byte that was ungot is lost.  [stream_get] takes a NUL under
    the cursor for an empty buffer: after [stream_unget] of a NUL that was
    returned, the next [stream_get] reads the source, and the offset has
    counted one byte for the two. *)
Theorem stream_unget_nul (to_lex : stream_t -> lex_t) (s : stream_t)
    (error : option json_error_t) s' error' x rest :
  stream_wf s ->
  stream_get to_lex s error = (0, s', error') ->
  data s' = x :: rest -> 0 < x < 0x80 ->
  exists s2,
    stream_get to_lex (stream_unget s' 0) error' = (x, s2, error')
    /\ data s2 = rest
    /\ position s2 = position s'.
Proof.
  intros Hwf H Hdata Hx.
  destruct (stream_get_result to_lex s error 0 s' error' Hwf H)
    as (Hwf' & _ & Hbyte & _).
  destruct (Hbyte eq_refl) as (_ & Hst & Hst' & ->).
  assert (exists s1, s' = stream_step s1
                     /\ buf_get (buffer s1) (buffer_pos s1) = 0
                     /\ 0 <= position s1 < 2 ^ 64
                     /\ state s1 = STREAM_STATE_OK
                     /\ List.length (buffer s1) = 5%nat)
    as (s1 & Hs' & Hc1 & Hp1 & Hst1 & Hlen1).
  { destruct (stream_refill s) as [s1|s1|s1 c1] eqn:R.
    - rewrite (stream_get_refilled _ _ _ _ Hst R) in H.
      injection H as H1 H2. exists s1.
      pose proof (stream_refill_ok _ _ R)
        as (_ & _ & _ & Rp & Rst & Rlen & _).
      destruct Hwf as (Hlen & _ & Hp & _). rewrite Rp, Rst, Hst, Rlen.
      auto.
    - unfold stream_get in H. rewrite Hst, R in H. discriminate H.
    - unfold stream_get in H. rewrite Hst, R in H. discriminate H. }
  assert (position s' = size_t_wrap (position s1 + 1)) as Hp'.
  { rewrite Hs'. unfold stream_step.
    repeat match goal with
           | |- context [if ?b then _ else _] => destruct b
           end; reflexivity. }
  assert (data s1 = x :: rest) as Hd1.
  { rewrite <- Hdata, Hs'. unfold stream_step.
    repeat match goal with
           | |- context [if ?b then _ else _] => destruct b
           end; reflexivity. }
  set (u := stream_unget s' 0).
  assert (state u = STREAM_STATE_OK /\ buffer u = buffer s1
          /\ buffer_pos u = buffer_pos s1 /\ data u = data s1
          /\ position u = position s1)
    as (Hu1 & Hu2 & Hu3 & Hu4 & Hu5).
  { unfold u, stream_unget. rewrite Hs'. unfold stream_step. rewrite Hc1.
    change (0 =? STREAM_STATE_EOF) with false.
    change (0 =? STREAM_STATE_ERROR) with false.
    change (0 =? chr "010") with false.
    change (utf8_check_first 0 =? 0) with false.
    cbn [orb negb data buffer buffer_pos state line column last_column
         position pred].
    rewrite size_t_wrap_pred by exact Hp1. auto. }
  unfold stream_get, stream_refill.
  rewrite Hu1, Hu2, Hu3, Hu4, Hu5, Hc1, Hd1.
  cbn [negb Z.eqb STREAM_STATE_OK source_get].
  destruct (Z.eqb_spec x EOF) as [E|_]; [unfold EOF in E; lia|].
  destruct (Z.leb_spec 0x80 x); [lia|]. cbn [andb].
  destruct (buffer s1) as [|x0 [|x1 [|x2 [|x3 [|x4 [|]]]]]] eqn:Eb;
    try discriminate Hlen1.
  cbn [buf_set buf_get nth buffer buffer_pos data state line column
       last_column position].
  rewrite (to_uchar_small x) by lia.
  repeat match goal with
         | |- context [if ?b then _ else _] => destruct b
         end; eexists; (split; [reflexivity|]); split; auto.
Qed.

(** X4: how [stream_get] fails.  A stream in the state Ok returns the
    sentinel of an error only from an empty buffer, on a byte of the source
    from 0x80 to 0xFF that is no lead byte or whose sequence is not valid.
    The stream is then in the state Error with its counters where the
    sequence began, and the message names that byte. *)
Theorem stream_get_error (to_lex : stream_t -> lex_t) (s : stream_t)
    (error : option json_error_t) s' error' :
  stream_wf s -> state s = STREAM_STATE_OK ->
  stream_get to_lex s error = (STREAM_STATE_ERROR, s', error') ->
  exists c rest,
    data s = c :: rest /\ 0x80 <= c <= 0xFF
    /\ buf_get (buffer s) (buffer_pos s) = 0
    /\ (utf8_check_first c = 0
        \/ utf8_check_full (buffer s') (utf8_check_first c) = false)
    /\ state s' = STREAM_STATE_ERROR
    /\ line s' = line s /\ column s' = column s
    /\ position s' = position s
    /\ error' = error_set error (Some (to_lex s'))
                  ("unable to decode byte 0x" ++ fmt_x c)%string.
Proof.
  intros Hwf Hst H.
  destruct (stream_refill s) as [s1|s1|s1 c1] eqn:R.
  - exfalso. rewrite (stream_get_refilled _ _ _ _ Hst R) in H.
    injection H as H1 _ _.
    pose proof (stream_refill_ok _ _ R) as (_ & _ & _ & _ & _ & _ & Rb).
    destruct Hwf as (_ & Hbytes & _).
    pose proof (buf_get_byte (buffer s1) (buffer_pos s1) (Rb Hbytes)) as Hb.
    rewrite H1 in Hb. unfold is_byte, STREAM_STATE_ERROR in Hb. lia.
  - unfold stream_get in H. rewrite Hst, R in H. discriminate H.
  - unfold stream_get in H. rewrite Hst, R in H.
    cbn [negb Z.eqb STREAM_STATE_OK] in H.
    injection H as H2 H3. subst s' error'.
    unfold stream_refill in R.
    destruct (Z.eqb_spec (buf_get (buffer s) (buffer_pos s)) 0) as [E|N];
      [|discriminate R].
    destruct (data s) as [|c rest] eqn:Hd; cbn [source_get] in R;
      [discriminate R|].
    destruct (c =? EOF); [discriminate R|].
    destruct ((0x80 <=? c) && (c <=? 0xFF)) eqn:Hr; [|discriminate R].
    apply andb_true_iff in Hr. destruct Hr as [H1 H2].
    apply Z.leb_le in H1, H2.
    exists c, rest.
    destruct (Z.eqb_spec (utf8_check_first c) 0) as [Hf|Hf].
    + inversion R; subst s1 c1. cbn. repeat split; auto; lia.
    + destruct (read_continuation _ _ _ _) as [d'' b1].
      destruct (utf8_check_full b1 (utf8_check_first c)) eqn:Hfull;
        [discriminate R|].
      inversion R; subst s1 c1. cbn. repeat split; auto; lia.
Qed.

Lemma strbuffer_pop_append (b : strbuffer_t) (c : Z) :
  strbuffer_pop (strbuffer_append_byte b c) = (to_uchar c, b).
Proof.
  unfold strbuffer_pop, strbuffer_append_byte. rewrite rev_app_distr. simpl.
  rewrite rev_involutive. reflexivity.
Qed.

(** X5: [lex_unget_unsave] undoes [lex_get_save].  For the byte
    [lex_get_save] has returned, the byte popped off the saved text is that
    byte, which is what [lex_unget_unsave] asserts, and the saved text is
    what it was before; unless the byte is NUL, reading again gives the same
    byte and the same lexer. *)
Theorem lex_get_save_unget_unsave (lex : lex_t)
    (error : option json_error_t) c lex' error' :
  stream_wf (stream lex) ->
  lex_get_save lex error = (c, lex', error') ->
  is_sentinel c = false ->
  fst (strbuffer_pop (saved_text lex')) = c
  /\ saved_text (lex_unget_unsave lex' c) = saved_text lex
  /\ (c <> 0 -> lex_get_save (lex_unget_unsave lex' c) error' = (c, lex', error')).
Proof.
  intros Hwf H Hc. unfold lex_get_save in H.
  destruct (stream_get (set_stream lex) (stream lex) error)
    as [[c0 s0] e0] eqn:Hget.
  assert (c0 = c) as -> by (destruct (negb (is_sentinel c0)); congruence).
  rewrite Hc in H. cbn [negb] in H. injection H as <- <-.
  destruct (stream_get_result _ _ _ _ _ _ Hwf Hget) as (_ & _ & Hbyte & _).
  destruct (Hbyte Hc) as (Hb & _).
  assert (to_uchar c = c) as Hu
    by (apply to_uchar_small; unfold is_byte in Hb; lia).
  unfold lex_unget_unsave. rewrite Hc. cbn [negb].
  cbn [lex_save set_stream set_saved_text saved_text stream token value].
  rewrite strbuffer_pop_append, Hu. cbn [fst snd].
  split; [reflexivity|]. split; [reflexivity|].
  intros Hnz. unfold lex_get_save.
  cbn [set_stream set_saved_text saved_text stream token value].
  rewrite (stream_reget _ _ _ _ _ _ _ Hwf Hget Hc Hnz).
  rewrite Hc. reflexivity.
Qed.

End StreamResults.

(** ** The error record across the lexer *)

Section ErrorFlow.

Context {header : jansson_h}.

(** [e'] is [e] after some calls of [error_set]. *)
Inductive reports (e : option json_error_t) : option json_error_t -> Prop :=
| reports_refl : reports e e
| reports_step e1 lex msg :
    reports e e1 -> msg <> EmptyString ->
    reports e (error_set e1 lex msg).

Lemma reports_trans e e1 e2 : reports e e1 -> reports e1 e2 -> reports e e2.
Proof.
  intros H1 H2. induction H2 as [|e2 lex msg H2 IH Hmsg]; [exact H1|].
  apply reports_step; assumption.
Qed.

Lemma reports_one e lex msg :
  msg <> EmptyString -> reports e (error_set e lex msg).
Proof. intros H. apply reports_step; [apply reports_refl|exact H]. Qed.

Lemma error_set_none lex msg : error_set None lex msg = None.
Proof. reflexivity. Qed.

Lemma error_set_some e lex msg :
  exists e', error_set (Some e) lex msg = Some e'.
Proof.
  unfold error_set, jsonp_error_set. destruct lex as [lex|];
    repeat match goal with
           | |- context [if ?b then _ else _] => destruct b
           end; eexists; reflexivity.
Qed.

(** The reports of a parse attempt keep a null record null, and a record
    in which an error is recorded as it is. *)
Lemma reports_kind e e' :
  reports e e' ->
  match e with
  | None => e' = None
  | Some e0 =>
      exists e1, e' = Some e1 /\ (error_recorded e0 = true -> e1 = e0)
  end.
Proof.
  intros H. induction H as [|e1 lex msg H IH Hmsg].
  - destruct e as [e0|]; [exists e0; auto|reflexivity].
  - destruct e as [e0|].
    + destruct IH as (e2 & -> & Hrec).
      destruct (error_set_some e2 lex msg) as (e3 & He3). exists e3.
      split; [exact He3|]. intros Hr. specialize (Hrec Hr). subst e2.
      rewrite error_set_recorded in He3 by exact Hr. congruence.
    + rewrite IH. reflexivity.
Qed.

(** The value the lexer has read last: a sentinel is the state of the
    stream; a byte is the one before the cursor of the buffer, and the
    stream is in the state Ok. *)
Definition seen (c : Z) (lex : lex_t) : Prop :=
  if is_sentinel c then state (stream lex) = c
  else (0 < buffer_pos (stream lex))%nat
       /\ buf_get (buffer (stream lex)) (pred (buffer_pos (stream lex))) = c
       /\ state (stream lex) = STREAM_STATE_OK.

(** What a read of the lexer leaves, [e] being the error record before it:
    the token is untouched, and the record too unless the read has
    returned the sentinel of an error. *)
Definition after (e : option json_error_t) (lex : lex_t) (c' : Z)
    (lex' : lex_t) (e' : option json_error_t) : Prop :=
  stream_wf (stream lex')
  /\ token lex' = token lex
  /\ reports e e'
  /\ (e' = e \/ c' = STREAM_STATE_ERROR)
  /\ seen c' lex'.

Lemma seen_sentinel c lex :
  seen c lex -> is_sentinel c = true -> state (stream lex) = c.
Proof. unfold seen. intros H Hc. rewrite Hc in H. exact H. Qed.

Lemma stream_get_after (to_lex : stream_t -> lex_t) s e c s' e' :
  stream_wf s ->
  stream_get to_lex s e = (c, s', e') ->
  stream_wf s'
  /\ reports e e'
  /\ (e' = e \/ c = STREAM_STATE_ERROR)
  /\ (if is_sentinel c then state s' = c
      else (0 < buffer_pos s')%nat
           /\ buf_get (buffer s') (pred (buffer_pos s')) = c
           /\ state s' = STREAM_STATE_OK).
Proof.
  intros Hwf H.
  destruct (stream_get_result to_lex s e c s' e' Hwf H)
    as (Hwf' & Hsent0 & Hbyte & Heof).
  assert (if is_sentinel c then state s' = c
          else (0 < buffer_pos s')%nat
               /\ buf_get (buffer s') (pred (buffer_pos s')) = c
               /\ state s' = STREAM_STATE_OK) as Hsent.
  { destruct (is_sentinel c) eqn:Hc; [exact (Hsent0 eq_refl)|].
    destruct (stream_unget_asserts _ _ _ _ _ _ Hwf H Hc) as [H1 H2].
    destruct (Hbyte eq_refl) as (_ & _ & H3 & _). auto. }
  clear Hsent0.
  split; [exact Hwf'|].
  assert (e' = e \/ (c = STREAM_STATE_ERROR /\ reports e e')) as Herr.
  { destruct (is_sentinel c) eqn:Hc.
    - unfold is_sentinel in Hc. apply orb_true_iff in Hc.
      destruct Hc as [Hc|Hc]; apply Z.eqb_eq in Hc;
        [left; auto|right; split; [exact Hc|]].
      unfold stream_get in H.
      destruct (negb (state s =? STREAM_STATE_OK));
        [inversion H; apply reports_refl|].
      destruct (stream_refill s) as [s1|s1|s1 c1].
      + repeat match type of H with
               | context [if ?b then _ else _] => destruct b
               end; inversion H; apply reports_refl.
      + inversion H; apply reports_refl.
      + inversion H. apply reports_one.
        intros E. destruct (fmt_x c1) eqn:Hf; discriminate E.
    - left. destruct (Hbyte eq_refl) as (_ & _ & _ & ->). reflexivity. }
  destruct Herr as [->|[Hc Hr]].
  - split; [apply reports_refl|]. split; [left; reflexivity|exact Hsent].
  - split; [exact Hr|]. split; [right; exact Hc|exact Hsent].
Qed.

Lemma lex_get_after lex e c lex' e' :
  stream_wf (stream lex) ->
  lex_get lex e = (c, lex', e') -> after e lex c lex' e'.
Proof.
  unfold lex_get, after, seen. intros Hwf H.
  destruct (stream_get (set_stream lex) (stream lex) e)
    as [[c0 s0] e0] eqn:Hget.
  injection H as <- <- <-.
  destruct (stream_get_after _ _ _ _ _ _ Hwf Hget) as (H1 & H2 & H3 & H4).
  cbn [stream set_stream token]. auto.
Qed.

Lemma lex_get_save_after lex e c lex' e' :
  stream_wf (stream lex) ->
  lex_get_save lex e = (c, lex', e') -> after e lex c lex' e'.
Proof.
  unfold lex_get_save, after, seen. intros Hwf H.
  destruct (stream_get (set_stream lex) (stream lex) e)
    as [[c0 s0] e0] eqn:Hget.
  destruct (stream_get_after _ _ _ _ _ _ Hwf Hget) as (H1 & H2 & H3 & H4).
  destruct (negb (is_sentinel c0)); injection H as <- <- <-;
    cbn [stream set_stream token lex_save set_saved_text]; auto.
Qed.

(** A read that follows another. *)
Lemma after_then e lex0 c lex e1 c' lex' e' :
  after e lex0 c lex e1 -> is_sentinel c = false ->
  after e1 lex c' lex' e' -> after e lex0 c' lex' e'.
Proof.
  intros (_ & Ht & Hr & Herr & _) Hc (Hwf' & Ht' & Hr' & Herr' & Hs').
  assert (e1 = e) as ->.
  { destruct Herr as [E|E]; [exact E|]. subst c. discriminate Hc. }
  split; [exact Hwf'|]. split; [congruence|]. split; [exact Hr'|].
  split; [exact Herr'|exact Hs'].
Qed.

Lemma after_wf e lex0 c lex e1 : after e lex0 c lex e1 -> stream_wf (stream lex).
Proof. intros H. apply H. Qed.

Lemma lex_unget_unsave_after e lex0 c lex e1 :
  after e lex0 c lex e1 ->
  stream_wf (stream (lex_unget_unsave lex c))
  /\ token (lex_unget_unsave lex c) = token lex0
  /\ reports e e1
  /\ (e1 = e \/ state (stream (lex_unget_unsave lex c)) = STREAM_STATE_ERROR).
Proof.
  intros (Hwf & Ht & Hr & Herr & Hs). unfold lex_unget_unsave.
  destruct (is_sentinel c) eqn:Hc; cbn [negb].
  - split; [exact Hwf|]. split; [exact Ht|]. split; [exact Hr|].
    destruct Herr as [E|E]; [left; exact E|right].
    rewrite (seen_sentinel _ _ Hs Hc). exact E.
  - cbn [stream set_stream set_saved_text token].
    split; [apply stream_unget_wf; exact Hwf|].
    split; [exact Ht|]. split; [exact Hr|].
    destruct Herr as [E|E]; [left; exact E|].
    subst c. discriminate Hc.
Qed.

Lemma lex_unget_after e lex0 c lex e1 :
  after e lex0 c lex e1 ->
  stream_wf (stream (lex_unget lex c))
  /\ token (lex_unget lex c) = token lex0
  /\ reports e e1
  /\ (e1 = e \/ state (stream (lex_unget lex c)) = STREAM_STATE_ERROR).
Proof.
  intros (Hwf & Ht & Hr & Herr & Hs). unfold lex_unget.
  cbn [stream set_stream token].
  split; [apply stream_unget_wf; exact Hwf|].
  split; [exact Ht|]. split; [exact Hr|].
  destruct Herr as [E|E]; [left; exact E|right].
  subst c. unfold stream_unget. cbn [Z.eqb orb STREAM_STATE_EOF
                                     STREAM_STATE_ERROR].
  exact (seen_sentinel _ _ Hs eq_refl).
Qed.

Section ErrorLoop.

Variable test : Z -> bool.
Variable get : lex_t -> option json_error_t -> Z * lex_t * option json_error_t.
Variable loop :
  nat -> Z -> lex_t -> option json_error_t -> Z * lex_t * option json_error_t.

Hypothesis test_sentinel : forall c, is_sentinel c = true -> test c = false.
Hypothesis get_after : forall lex e c lex' e',
  stream_wf (stream lex) -> get lex e = (c, lex', e') ->
  after e lex c lex' e'.
Hypothesis loop_0 : forall c lex e, loop 0 c lex e = (c, lex, e).
Hypothesis loop_S : forall fuel c lex e,
  loop (S fuel) c lex e =
    if test c then
      let '(c', lex', e') := get lex e in loop fuel c' lex' e'
    else (c, lex, e).

Lemma simple_loop_after fuel : forall e lex0 c lex e1 c' lex' e',
  loop fuel c lex e1 = (c', lex', e') ->
  after e lex0 c lex e1 -> after e lex0 c' lex' e'.
Proof.
  induction fuel as [|fuel IH]; intros e lex0 c lex e1 c' lex' e' H Ha.
  - rewrite loop_0 in H. injection H as <- <- <-. exact Ha.
  - rewrite loop_S in H. destruct (test c) eqn:Ht;
      [|injection H as <- <- <-; exact Ha].
    destruct (get lex e1) as [[c2 lex2] e2] eqn:Hget.
    apply get_after in Hget; [|apply Ha].
    apply (IH _ _ _ _ _ _ _ _ H).
    eapply after_then; [exact Ha| |exact Hget].
    destruct (is_sentinel c) eqn:Hc; [|reflexivity].
    rewrite (test_sentinel _ Hc) in Ht. discriminate Ht.
Qed.

End ErrorLoop.

Lemma scan_digits_after fuel e lex0 c lex e1 c' lex' e' :
  scan_digits fuel c lex e1 = (c', lex', e') ->
  after e lex0 c lex e1 -> after e lex0 c' lex' e'.
Proof.
  apply (simple_loop_after l_isdigit lex_get_save scan_digits);
    [exact sentinel_not_digit|exact lex_get_save_after|reflexivity
    |reflexivity].
Qed.

Lemma scan_alpha_after fuel e lex0 c lex e1 c' lex' e' :
  scan_alpha fuel c lex e1 = (c', lex', e') ->
  after e lex0 c lex e1 -> after e lex0 c' lex' e'.
Proof.
  apply (simple_loop_after l_isalpha lex_get_save scan_alpha);
    [exact sentinel_not_alpha|exact lex_get_save_after|reflexivity
    |reflexivity].
Qed.

Lemma skip_space_after fuel e lex0 c lex e1 c' lex' e' :
  skip_space fuel c lex e1 = (c', lex', e') ->
  after e lex0 c lex e1 -> after e lex0 c' lex' e'.
Proof.
  apply (simple_loop_after is_space lex_get skip_space);
    [exact sentinel_not_space|exact lex_get_after|reflexivity|reflexivity].
Qed.

(** A byte was read: the error record is as before. *)
Lemma after_byte e lex0 c lex e1 :
  after e lex0 c lex e1 -> is_sentinel c = false -> e1 = e.
Proof.
  intros (_ & _ & _ & [E|E] & _) Hc; [exact E|]. subst c. discriminate Hc.
Qed.

(** What a part of [lex_scan_number] leaves. *)
Definition part_after (e : option json_error_t) (lex0 : lex_t)
    (r : (lex_t * option json_error_t) + (Z * lex_t * option json_error_t))
  : Prop :=
  match r with
  | inl (lex', e') =>
      stream_wf (stream lex') /\ token lex' = token lex0 /\ reports e e'
      /\ (e' = e \/ state (stream lex') = STREAM_STATE_ERROR)
  | inr (c', lex', e') => after e lex0 c' lex' e'
  end.

Lemma digit_not_sentinel c : l_isdigit c = true -> is_sentinel c = false.
Proof.
  intros H. destruct (is_sentinel c) eqn:Hs; [|reflexivity].
  rewrite (sentinel_not_digit _ Hs) in H. discriminate H.
Qed.

Lemma chr_not_sentinel (a : ascii) : is_sentinel (chr a) = false.
Proof.
  apply byte_not_sentinel. unfold is_byte, chr.
  pose proof (N_ascii_bounded a). lia.
Qed.

Lemma eqb_chr_not_sentinel c (a : ascii) :
  (c =? chr a) = true -> is_sentinel c = false.
Proof. intros H. apply Z.eqb_eq in H. subst c. apply chr_not_sentinel. Qed.

Lemma scan_sign_after e lex0 c lex e1 c' lex' e' :
  scan_sign c lex e1 = (c', lex', e') ->
  after e lex0 c lex e1 -> after e lex0 c' lex' e'.
Proof.
  unfold scan_sign. intros H Ha. destruct (c =? chr "-") eqn:Hc.
  - apply lex_get_save_after in H; [|apply Ha].
    eapply after_then; [exact Ha|exact (eqb_chr_not_sentinel _ _ Hc)|exact H].
  - injection H as <- <- <-. exact Ha.
Qed.

Lemma scan_integer_part_after e lex0 c lex e1 :
  after e lex0 c lex e1 -> part_after e lex0 (scan_integer_part c lex e1).
Proof.
  unfold scan_integer_part. intros Ha.
  destruct (c =? chr "0") eqn:Hz.
  - destruct (lex_get_save lex e1) as [[c1 lex1] e2] eqn:Hget.
    apply lex_get_save_after in Hget; [|apply Ha].
    pose proof (after_then _ _ _ _ _ _ _ _ Ha
                  (eqb_chr_not_sentinel _ _ Hz) Hget) as Ha1.
    destruct (l_isdigit c1); cbn [part_after]; [|exact Ha1].
    apply lex_unget_unsave_after. exact Ha1.
  - destruct (l_isdigit c) eqn:Hd; cbn [part_after].
    + destruct (lex_get_save lex e1) as [[c1 lex1] e2] eqn:Hget.
      apply lex_get_save_after in Hget; [|apply Ha].
      pose proof (after_then _ _ _ _ _ _ _ _ Ha (digit_not_sentinel _ Hd)
                    Hget) as Ha1.
      destruct (scan_digits (lex_fuel lex1) c1 lex1 e2)
        as [[c2 lex2] e3] eqn:Hscan.
      exact (scan_digits_after _ _ _ _ _ _ _ _ _ Hscan Ha1).
    + apply lex_unget_unsave_after. exact Ha.
Qed.

Lemma lex_save_after e lex0 c lex e1 :
  after e lex0 c lex e1 -> after e lex0 c (lex_save lex c) e1.
Proof. exact (fun H => H). Qed.

Lemma scan_fraction_after e lex0 c lex e1 :
  after e lex0 c lex e1 -> part_after e lex0 (scan_fraction c lex e1).
Proof.
  unfold scan_fraction. intros Ha.
  destruct (c =? chr ".") eqn:Hdot; [|exact Ha].
  destruct (lex_get lex e1) as [[c1 lex1] e2] eqn:Hget.
  apply lex_get_after in Hget; [|apply Ha].
  pose proof (after_then _ _ _ _ _ _ _ _ Ha
                (eqb_chr_not_sentinel _ _ Hdot) Hget) as Ha1.
  destruct (l_isdigit c1) eqn:Hd; cbn [negb part_after].
  - destruct (lex_get_save (lex_save lex1 c1) e2)
      as [[c3 lex3] e3] eqn:Hget3.
    apply lex_get_save_after in Hget3; [|apply Ha1].
    pose proof (after_then _ _ _ _ _ _ _ _ (lex_save_after _ _ _ _ _ Ha1)
                  (digit_not_sentinel _ Hd) Hget3) as Ha3.
    destruct (scan_digits (lex_fuel lex3) c3 lex3 e3)
      as [[c4 lex4] e4] eqn:Hscan.
    exact (scan_digits_after _ _ _ _ _ _ _ _ _ Hscan Ha3).
  - apply lex_unget_after. exact Ha1.
Qed.

Lemma scan_exponent_after e lex0 c lex e1 :
  after e lex0 c lex e1 -> part_after e lex0 (scan_exponent c lex e1).
Proof.
  unfold scan_exponent. intros Ha.
  destruct ((c =? chr "E") || (c =? chr "e")) eqn:He; [|exact Ha].
  assert (is_sentinel c = false) as Hc.
  { apply orb_true_iff in He.
    destruct He as [H|H]; exact (eqb_chr_not_sentinel _ _ H). }
  destruct (lex_get_save lex e1) as [[c2 lex2] e2] eqn:Hget2.
  apply lex_get_save_after in Hget2; [|apply Ha].
  pose proof (after_then _ _ _ _ _ _ _ _ Ha Hc Hget2) as Ha2.
  destruct (if (c2 =? chr "+") || (c2 =? chr "-")
            then lex_get_save lex2 e2 else (c2, lex2, e2))
    as [[c3 lex3] e3] eqn:Hsign.
  assert (after e lex0 c3 lex3 e3) as Ha3.
  { destruct ((c2 =? chr "+") || (c2 =? chr "-")) eqn:Hs.
    - apply lex_get_save_after in Hsign; [|apply Ha2].
      eapply after_then; [exact Ha2| |exact Hsign].
      apply orb_true_iff in Hs.
      destruct Hs as [H|H]; exact (eqb_chr_not_sentinel _ _ H).
    - injection Hsign as <- <- <-. exact Ha2. }
  destruct (l_isdigit c3) eqn:Hd; cbn [negb part_after].
  - destruct (lex_get_save lex3 e3) as [[c4 lex4] e4] eqn:Hget4.
    apply lex_get_save_after in Hget4; [|apply Ha3].
    pose proof (after_then _ _ _ _ _ _ _ _ Ha3 (digit_not_sentinel _ Hd)
                  Hget4) as Ha4.
    destruct (scan_digits (lex_fuel lex4) c4 lex4 e4)
      as [[c5 lex5] e5] eqn:Hscan.
    exact (scan_digits_after _ _ _ _ _ _ _ _ _ Hscan Ha4).
  - apply lex_unget_unsave_after. exact Ha3.
Qed.

(** What [lex_scan_number] and [lex_scan_string] leave: an invalid token,
    or their token with the error record untouched, or changed by a read
    that has left the stream in the state of an error. *)
Definition token_after (e : option json_error_t) (lex' : lex_t)
    (e' : option json_error_t) (tokens : list Z) : Prop :=
  stream_wf (stream lex') /\ reports e e'
  /\ (token lex' = TOKEN_INVALID
      \/ (In (token lex') tokens
          /\ (e' = e \/ state (stream lex') = STREAM_STATE_ERROR))).

Lemma finish_integer_after e lex0 c lex e1 r lex' e' :
  token lex0 = TOKEN_INVALID ->
  after e lex0 c lex e1 ->
  finish_integer c lex e1 = (r, lex', e') ->
  token_after e lex' e' [TOKEN_INTEGER; TOKEN_REAL].
Proof.
  unfold finish_integer, token_after. intros Ht0 Ha H.
  destruct (lex_unget_unsave_after _ _ _ _ _ Ha) as (Hwf & Ht & Hr & Herr).
  destruct (json_strtoint (saved_text (lex_unget_unsave lex c)))
    as [v erange].
  destruct erange; [destruct (v <? 0)|]; injection H as <- <- <-;
    cbn [stream set_token set_value token].
  - split; [exact Hwf|]. split; [|left; congruence].
    eapply reports_trans; [exact Hr|apply reports_one; discriminate].
  - split; [exact Hwf|]. split; [|left; congruence].
    eapply reports_trans; [exact Hr|apply reports_one; discriminate].
  - split; [exact Hwf|]. split; [exact Hr|]. right. split; [left; reflexivity|].
    exact Herr.
Qed.

Lemma finish_real_after e lex0 c lex e1 r lex' e' :
  token lex0 = TOKEN_INVALID ->
  after e lex0 c lex e1 ->
  finish_real c lex e1 = (r, lex', e') ->
  token_after e lex' e' [TOKEN_INTEGER; TOKEN_REAL].
Proof.
  unfold finish_real, token_after. intros Ht0 Ha H.
  destruct (lex_unget_unsave_after _ _ _ _ _ Ha) as (Hwf & Ht & Hr & Herr).
  destruct (jsonp_strtod (saved_text (lex_unget_unsave lex c)));
    injection H as <- <- <-; cbn [stream set_token set_value token].
  - split; [exact Hwf|]. split; [exact Hr|]. right.
    split; [right; left; reflexivity|exact Herr].
  - split; [exact Hwf|]. split; [|left; congruence].
    eapply reports_trans; [exact Hr|apply reports_one; discriminate].
Qed.

Lemma part_after_out e lex0 lex' e' tokens :
  token lex0 = TOKEN_INVALID ->
  part_after e lex0 (inl (lex', e')) -> token_after e lex' e' tokens.
Proof.
  intros Ht0 (Hwf & Ht & Hr & _). split; [exact Hwf|].
  split; [exact Hr|left; congruence].
Qed.

Lemma lex_scan_number_after e lex c r lex' e' :
  stream_wf (stream lex) -> seen c lex ->
  lex_scan_number lex c e = (r, lex', e') ->
  token_after e lex' e' [TOKEN_INTEGER; TOKEN_REAL].
Proof.
  unfold lex_scan_number. intros Hwf Hc H.
  set (lex0 := set_token lex TOKEN_INVALID) in *.
  assert (token lex0 = TOKEN_INVALID) as Ht0 by reflexivity.
  assert (after e lex0 c lex0 e) as Ha.
  { split; [exact Hwf|]. split; [reflexivity|]. split; [apply reports_refl|].
    split; [left; reflexivity|exact Hc]. }
  destruct (scan_sign c lex0 e) as [[c0 lex1] e1] eqn:Hsign.
  pose proof (scan_sign_after _ _ _ _ _ _ _ _ Hsign Ha) as Ha1.
  pose proof (scan_integer_part_after _ _ _ _ _ Ha1) as Hint.
  destruct (scan_integer_part c0 lex1 e1) as [[l x]|[[c1 lex2] e2]];
    [injection H as <- <- <-; exact (part_after_out _ _ _ _ _ Ht0 Hint)|].
  cbn [part_after] in Hint.
  destruct (negb (c1 =? chr ".") && negb (c1 =? chr "E")
            && negb (c1 =? chr "e")).
  { exact (finish_integer_after _ _ _ _ _ _ _ _ Ht0 Hint H). }
  pose proof (scan_fraction_after _ _ _ _ _ Hint) as Hfrac.
  destruct (scan_fraction c1 lex2 e2) as [[l x]|[[c2 lex3] e3]];
    [injection H as <- <- <-; exact (part_after_out _ _ _ _ _ Ht0 Hfrac)|].
  cbn [part_after] in Hfrac.
  pose proof (scan_exponent_after _ _ _ _ _ Hfrac) as Hexp.
  destruct (scan_exponent c2 lex3 e3) as [[l x]|[[c3 lex4] e4]];
    [injection H as <- <- <-; exact (part_after_out _ _ _ _ _ Ht0 Hexp)|].
  cbn [part_after] in Hexp.
  exact (finish_real_after _ _ _ _ _ _ _ _ Ht0 Hexp H).
Qed.

Lemma lex_get_save_sentinel lex e c :
  is_sentinel c = true -> state (stream lex) = c ->
  lex_get_save lex e = (c, lex, e).
Proof.
  intros Hc Hst. unfold lex_get_save, stream_get. rewrite Hst.
  assert ((c =? STREAM_STATE_OK) = false) as ->.
  { unfold is_sentinel in Hc. apply orb_true_iff in Hc.
    destruct Hc as [H|H]; apply Z.eqb_eq in H; subst c; reflexivity. }
  cbn [negb]. rewrite Hc. cbn [negb]. destruct lex; reflexivity.
Qed.

Lemma scan_hex4_after i : forall e lex0 c lex e1,
  after e lex0 c lex e1 ->
  match scan_hex4 i c lex e1 with
  | inl (lex', e') =>
      stream_wf (stream lex') /\ token lex' = token lex0 /\ reports e e'
  | inr (c', lex', e') => after e lex0 c' lex' e'
  end.
Proof.
  induction i as [|i IH]; intros e lex0 c lex e1 Ha; cbn [scan_hex4];
    [exact Ha|].
  destruct (negb (l_isxdigit c)).
  - destruct Ha as (Hwf & Ht & Hr & _). split; [exact Hwf|].
    split; [exact Ht|].
    eapply reports_trans; [exact Hr|apply reports_one; discriminate].
  - destruct (lex_get_save lex e1) as [[c1 lex1] e2] eqn:Hget.
    destruct (is_sentinel c) eqn:Hc;
      [|apply lex_get_save_after in Hget; [|apply Ha]].
    + (* the sentinel was read: the stream returns it again *)
      destruct Ha as (Hwf & Ht & Hr & Herr & Hs).
      rewrite (lex_get_save_sentinel _ _ _ Hc (seen_sentinel _ _ Hs Hc))
        in Hget.
      injection Hget as <- <- <-.
      apply IH. exact (conj Hwf (conj Ht (conj Hr (conj Herr Hs)))).
    + exact (IH _ _ _ _ _ (after_then _ _ _ _ _ _ _ _ Ha Hc Hget)).
Qed.

(** The first pass over a string: the closing quote is reached only with
    the error record untouched. *)
Lemma scan_string_loop_after fuel : forall e lex0 c lex e1 closed lex' e',
  scan_string_loop fuel c lex e1 = (closed, lex', e') ->
  after e lex0 c lex e1 ->
  stream_wf (stream lex') /\ token lex' = token lex0 /\ reports e e'
  /\ (closed = true -> e' = e).
Proof.
  induction fuel as [|fuel IH]; intros e lex0 c lex e1 closed lex' e' H Ha;
    cbn [scan_string_loop] in H.
  { injection H as <- <- <-. destruct Ha as (Hwf & Ht & Hr & _).
    split; [exact Hwf|]. split; [exact Ht|]. split; [exact Hr|discriminate]. }
  destruct (c =? chr "034") eqn:Hq.
  { injection H as <- <- <-.
    pose proof (after_byte _ _ _ _ _ Ha (eqb_chr_not_sentinel _ _ Hq)).
    destruct Ha as (Hwf & Ht & Hr & _).
    split; [exact Hwf|]. split; [exact Ht|]. split; [exact Hr|auto]. }
  destruct (c =? STREAM_STATE_ERROR) eqn:E1.
  { injection H as <- <- <-. destruct Ha as (Hwf & Ht & Hr & _).
    split; [exact Hwf|]. split; [exact Ht|]. split; [exact Hr|discriminate]. }
  destruct (c =? STREAM_STATE_EOF) eqn:E2.
  { injection H as <- <- <-. destruct Ha as (Hwf & Ht & Hr & _).
    split; [exact Hwf|]. split; [exact Ht|].
    split; [|discriminate].
    eapply reports_trans; [exact Hr|apply reports_one; discriminate]. }
  assert (is_sentinel c = false) as Hc
    by (unfold is_sentinel; rewrite E1, E2; reflexivity).
  destruct ((0 <=? c) && (c <=? 31)).
  { destruct (lex_unget_unsave_after _ _ _ _ _ Ha) as (Hwf & Ht & Hr & _).
    destruct (c =? chr "010"); injection H as <- <- <-;
      (split; [exact Hwf|]); (split; [exact Ht|]);
      (split; [|discriminate]);
      (eapply reports_trans; [exact Hr|apply reports_one]);
      [discriminate|]. 
    intros E. destruct (fmt_x c); discriminate E. }
  destruct (c =? chr "\").
  - destruct (lex_get_save lex e1) as [[c1 lex1] e2] eqn:Hget1.
    apply lex_get_save_after in Hget1; [|apply Ha].
    pose proof (after_then _ _ _ _ _ _ _ _ Ha Hc Hget1) as Ha1.
    destruct (c1 =? chr "u") eqn:Hu.
    + destruct (lex_get_save lex1 e2) as [[c2 lex2] e3] eqn:Hget2.
      apply lex_get_save_after in Hget2; [|apply Ha1].
      pose proof (after_then _ _ _ _ _ _ _ _ Ha1
                    (eqb_chr_not_sentinel _ _ Hu) Hget2) as Ha2.
      pose proof (scan_hex4_after 4 _ _ _ _ _ Ha2) as Hhex.
      destruct (scan_hex4 4 c2 lex2 e3) as [[l x]|[[c3 l] x]].
      * injection H as <- <- <-. destruct Hhex as (Hwf & Ht & Hr).
        split; [exact Hwf|]. split; [exact Ht|].
        split; [exact Hr|discriminate].
      * exact (IH _ _ _ _ _ _ _ _ H Hhex).
    + destruct ((c1 =? chr "034") || (c1 =? chr "\") || (c1 =? chr "/")
                || (c1 =? chr "b") || (c1 =? chr "f") || (c1 =? chr "n")
                || (c1 =? chr "r") || (c1 =? chr "t")) eqn:Hesc.
      * destruct (lex_get_save lex1 e2) as [[c2 lex2] e3] eqn:Hget2.
        apply lex_get_save_after in Hget2; [|apply Ha1].
        apply (IH _ _ _ _ _ _ _ _ H).
        eapply after_then; [exact Ha1| |exact Hget2].
        repeat (apply orb_true_iff in Hesc; destruct Hesc as [Hesc|Hesc];
                [|exact (eqb_chr_not_sentinel _ _ Hesc)]).
        exact (eqb_chr_not_sentinel _ _ Hesc).
      * injection H as <- <- <-. destruct Ha1 as (Hwf & Ht & Hr & _).
        split; [exact Hwf|]. split; [exact Ht|]. split; [|discriminate].
        eapply reports_trans; [exact Hr|apply reports_one; discriminate].
  - destruct (lex_get_save lex e1) as [[c1 lex1] e2] eqn:Hget1.
    apply lex_get_save_after in Hget1; [|apply Ha].
    apply (IH _ _ _ _ _ _ _ _ H).
    exact (after_then _ _ _ _ _ _ _ _ Ha Hc Hget1).
Qed.

(** The second pass over a string aborts, returns the string, or returns
    a message, which is not empty. *)
Lemma decode_loop_result (Q : run (string + list Z) -> Prop) :
  Q Aborted -> (forall t, Q (Done (inr t))) ->
  (forall msg, msg <> EmptyString -> Q (Done (inl msg))) ->
  forall p t, Q (decode_loop p t).
Proof.
  intros Habort Hstring Hmsg p.
  remember (List.length p) as n eqn:Hn.
  assert (List.length p <= n)%nat as Hle by lia. clear Hn.
  revert p Hle. induction n as [|n IH]; intros p Hle t.
  - destruct p; [exact Habort|simpl in Hle; lia].
  - destruct p as [|c p1]; [exact Habort|]. simpl in Hle.
    assert (forall k t', Q (decode_loop (advance k p1) t')) as Hk.
    { intros k t'. apply IH. pose proof (advance_length k p1). lia. }
    cbn [decode_loop].
    destruct (c =? chr "034"); [apply Hstring|].
    destruct (c =? chr "\"); [|apply (Hk 0%nat)].
    destruct (nth 0 p1 0 =? chr "u").
    + pose proof (decode_unicode_escape_finishes p1) as H1.
      destruct (decode_unicode_escape p1) as [value| |]; cbn [bind];
        [|exact Habort|contradiction].
      destruct ((0xD800 <=? value) && (value <=? 0xDBFF)).
      * destruct ((nth 0 (advance 5 p1) 0 =? chr "\")
                  && (nth 1 (advance 5 p1) 0 =? chr "u"));
          [|apply Hmsg; discriminate].
        pose proof (decode_unicode_escape_finishes (advance 1 (advance 5 p1)))
          as H2.
        destruct (decode_unicode_escape (advance 1 (advance 5 p1)))
          as [value2| |]; cbn [bind]; [|exact Habort|contradiction].
        destruct ((0xDC00 <=? value2) && (value2 <=? 0xDFFF));
          [|apply Hmsg; discriminate].
        destruct (utf8_encode _); [|exact Habort].
        apply IH.
        pose proof (advance_length 5 (advance 1 (advance 5 p1))).
        pose proof (advance_length 1 (advance 5 p1)).
        pose proof (advance_length 5 p1). lia.
      * destruct ((0xDC00 <=? value) && (value <=? 0xDFFF));
          [apply Hmsg; discriminate|].
        destruct (value =? 0); [apply Hmsg; discriminate|].
        destruct (utf8_encode value); [|exact Habort]. apply (Hk 5%nat).
    + destruct (short_escape (nth 0 p1 0)); try exact Habort.
      apply (Hk 1%nat).
Qed.

Lemma lex_scan_string_after lex e lex' e' :
  stream_wf (stream lex) ->
  lex_scan_string lex e = Done (lex', e') ->
  stream_wf (stream lex') /\ reports e e'
  /\ (token lex' = TOKEN_INVALID
      \/ (token lex' = TOKEN_STRING /\ e' = e
          /\ exists t, value lex' = ValString (Some t))).
Proof.
  unfold lex_scan_string. intros Hwf H.
  set (lex0 := set_token (set_value lex (ValString None)) TOKEN_INVALID) in *.
  destruct (lex_get_save lex0 e) as [[c lex1] e1] eqn:Hget.
  apply lex_get_save_after in Hget; [|exact Hwf].
  destruct (scan_string_loop (lex_fuel lex1) c lex1 e1)
    as [[closed lex2] e2] eqn:Hloop.
  destruct (scan_string_loop_after _ _ _ _ _ _ _ _ _ Hloop Hget)
    as (Hwf2 & Ht2 & Hr2 & Hclosed).
  change (token lex0) with TOKEN_INVALID in Ht2.
  destruct closed.
  - specialize (Hclosed eq_refl). subst e2.
    destruct (decode_loop (advance 1 (saved_text lex2)) []) as [[msg|t]| |]
      eqn:Hdec; cbn [bind] in H; try discriminate H;
      injection H as <- <-.
    + split; [exact Hwf2|]. split; [|left; exact Ht2].
      apply reports_one.
      pose proof (decode_loop_result
                    (fun r => forall m, r = Done (inl m) -> m <> EmptyString))
        as Hm.
      apply (Hm ltac:(discriminate) ltac:(discriminate)
               ltac:(intros m0 Hm0 m1 E; injection E as <-; exact Hm0)
               _ _ _ Hdec).
    + cbn [stream set_token set_value token value].
      split; [exact Hwf2|]. split; [apply reports_refl|]. right.
      split; [reflexivity|]. split; [reflexivity|]. exists t. reflexivity.
  - injection H as <- <-. split; [exact Hwf2|]. split; [exact Hr2|].
    left. exact Ht2.
Qed.

Lemma is_punct_byte c : is_punct c = true -> is_sentinel c = false.
Proof.
  unfold is_punct. intros H.
  repeat (apply orb_true_iff in H; destruct H as [H|H];
          [|exact (eqb_chr_not_sentinel _ _ H)]).
  exact (eqb_chr_not_sentinel _ _ H).
Qed.

(** The tokens a scan can end with. *)
Definition scalar_tokens : list Z :=
  [TOKEN_STRING; TOKEN_INTEGER; TOKEN_REAL; TOKEN_TRUE; TOKEN_FALSE;
   TOKEN_NULL].

(** What [lex_scan] leaves, [e] being the error record before it. *)
Definition scanned_after (e : option json_error_t) (lex lex' : lex_t)
    (e' : option json_error_t) : Prop :=
  stream_wf (stream lex')
  /\ reports e e'
  /\ (token lex' = TOKEN_INVALID
      \/ (token lex' = TOKEN_EOF /\ e' = e
          /\ state (stream lex') = STREAM_STATE_EOF)
      \/ (is_punct (token lex') = true /\ e' = e)
      \/ (In (token lex') scalar_tokens
          /\ (e' = e \/ state (stream lex') = STREAM_STATE_ERROR)))
  /\ (token lex' = TOKEN_STRING -> exists t, value lex' = ValString (Some t))
  /\ (state (stream lex) = STREAM_STATE_ERROR -> token lex' = TOKEN_INVALID).

Lemma skip_space_sentinel fuel c lex e :
  is_sentinel c = true -> skip_space fuel c lex e = (c, lex, e).
Proof.
  intros Hc. destruct fuel; cbn [skip_space]; [reflexivity|].
  rewrite (sentinel_not_space _ Hc). reflexivity.
Qed.

Lemma lex_get_not_ok lex e :
  state (stream lex) <> STREAM_STATE_OK ->
  lex_get lex e = (state (stream lex), lex, e).
Proof.
  intros Hst. unfold lex_get, stream_get.
  destruct (Z.eqb_spec (state (stream lex)) STREAM_STATE_OK);
    [contradiction|]. cbn [negb]. destruct lex; reflexivity.
Qed.

Lemma lex_scan_after lex e lex' e' :
  stream_wf (stream lex) ->
  lex_scan lex e = Done (lex', e') ->
  scanned_after e lex lex' e'.
Proof.
  unfold lex_scan. intros Hwf H.
  set (lexa := if token (set_saved_text lex (strbuffer_clear (saved_text lex)))
                  =? TOKEN_STRING
               then set_value (set_saved_text lex
                                 (strbuffer_clear (saved_text lex)))
                      (ValString None)
               else set_saved_text lex (strbuffer_clear (saved_text lex)))
    in *.
  assert (stream lexa = stream lex) as Hsa
    by (unfold lexa; destruct (_ =? TOKEN_STRING); reflexivity).
  rewrite <- Hsa in Hwf. unfold scanned_after. rewrite <- Hsa.
  clearbody lexa. clear Hsa.
  destruct (lex_get lexa e) as [[c0 lex0] e0] eqn:Hget.
  pose proof (lex_get_after _ _ _ _ _ Hwf Hget) as Ha0.
  destruct (skip_space (lex_fuel lex0) c0 lex0 e0)
    as [[c lex1] e1] eqn:Hskip.
  pose proof (skip_space_after _ _ _ _ _ _ _ _ _ Hskip Ha0) as Ha.
  assert (state (stream lexa) = STREAM_STATE_ERROR ->
          c = STREAM_STATE_ERROR) as Hsticky.
  { intros Hst. rewrite lex_get_not_ok in Hget by (rewrite Hst; discriminate).
    rewrite Hst in Hget. injection Hget as <- <- <-.
    rewrite skip_space_sentinel in Hskip by reflexivity. congruence. }
  destruct Ha as (Hwf1 & _ & Hr1 & Herr1 & Hs1).
  destruct (Z.eqb_spec c STREAM_STATE_EOF) as [E1|E1].
  { injection H as <- <-. cbn [stream token set_token value].
    split; [exact Hwf1|]. split; [exact Hr1|].
    split; [|split; [discriminate|]].
    - right. left. split; [reflexivity|].
      split; [|rewrite (seen_sentinel _ _ Hs1 ltac:(rewrite E1; reflexivity));
               exact E1].
      destruct Herr1 as [E|E]; [exact E|]. rewrite E in E1. discriminate E1.
    - intros Hst. specialize (Hsticky Hst). rewrite Hsticky in E1.
      discriminate E1. }
  destruct (Z.eqb_spec c STREAM_STATE_ERROR) as [E2|E2].
  { injection H as <- <-. cbn [stream token set_token value].
    split; [exact Hwf1|]. split; [exact Hr1|].
    split; [left; reflexivity|]. split; [discriminate|reflexivity]. }
  assert (is_sentinel c = false) as Hc.
  { unfold is_sentinel. apply orb_false_iff.
    split; apply Z.eqb_neq; assumption. }
  assert (e1 = e) as ->
    by (destruct Herr1 as [E|E]; [exact E|contradiction]).
  assert (forall P : Prop, (state (stream lexa) = STREAM_STATE_ERROR -> P))
    as Hnever.
  { intros P Hst. specialize (Hsticky Hst). contradiction. }
  destruct (is_punct c) eqn:Hp.
  { injection H as <- <-. cbn [stream token set_token value lex_save
                                set_saved_text].
    split; [exact Hwf1|]. split; [exact Hr1|].
    split; [|split; [|apply Hnever]].
    - right. right. left. auto.
    - intros E. rewrite E in Hp. discriminate Hp. }
  destruct (c =? chr "034").
  { destruct (lex_scan_string_after (lex_save lex1 c) e lex' e' Hwf1 H)
      as (Hwf' & Hr' & Htok).
    split; [exact Hwf'|]. split; [exact Hr'|].
    split; [|split; [|apply Hnever]].
    - destruct Htok as [Ht|(Ht & He & _)]; [left; exact Ht|].
      right. right. right. rewrite Ht. split; [left; reflexivity|].
      left. exact He.
    - intros Ht. destruct Htok as [Ht'|(_ & _ & Hv)]; [|exact Hv].
      rewrite Ht in Ht'. discriminate Ht'. }
  destruct (l_isdigit c || (c =? chr "-")).
  { destruct (lex_scan_number (lex_save lex1 c) c e)
      as [[r lexn] en] eqn:Hn.
    injection H as <- <-.
    destruct (lex_scan_number_after _ (lex_save lex1 c) _ _ _ _ Hwf1 Hs1 Hn)
      as (Hwf' & Hr' & Htok).
    split; [exact Hwf'|]. split; [exact Hr'|].
    split; [|split; [|apply Hnever]].
    - destruct Htok as [Ht|(Ht & He)]; [left; exact Ht|].
      right. right. right. split; [|exact He].
      destruct Ht as [Ht|[Ht|[]]]; rewrite <- Ht; simpl; auto.
    - intros Ht. destruct Htok as [Ht'|([Ht'|[Ht'|[]]] & _)];
        rewrite Ht in Ht'; discriminate Ht'. }
  destruct (l_isalpha c).
  { destruct (lex_get_save (lex_save lex1 c) e) as [[c2 lex2] e2] eqn:Hget2.
    pose proof (lex_get_save_after (lex_save lex1 c) _ _ _ _ Hwf1 Hget2)
      as Ha2.
    destruct (scan_alpha (lex_fuel lex2) c2 lex2 e2)
      as [[c3 lex3] e3] eqn:Halpha.
    pose proof (scan_alpha_after _ _ _ _ _ _ _ _ _ Halpha Ha2) as Ha3.
    destruct (lex_unget_unsave_after _ _ _ _ _ Ha3) as (Hwf' & _ & Hr' & He').
    repeat match type of H with
           | context [if ?b then _ else _] => destruct b
           end; injection H as <- <-; cbn [stream token set_token value];
      (split; [exact Hwf'|]); (split; [exact Hr'|]);
      (split; [|split; [discriminate|apply Hnever]]);
      try (left; reflexivity);
      right; right; right; (split; [simpl; auto 10|exact He']). }
  injection H as <- <-. cbn [token set_token value].
  split; [apply (lex_save_cached_loop_left 5 (lex_save lex1 c) Hwf1)|].
  split; [exact Hr1|]. split; [left; reflexivity|].
  split; [discriminate|apply Hnever].
Qed.

End ErrorFlow.

(** ** Invariants of the parser *)

(** A property of the lexer and the error record that holds before every
    scan ([Pre]) and one that holds after every scan ([Post]) give what the
    parser returns: [Pre] with a value, [Bad] of the error record with
    none. *)
Section ParserInvariant.

Context {header : jansson_h}.

Variables Pre Post : lex_t -> option json_error_t -> Prop.
Variable Bad : option json_error_t -> Prop.

Hypothesis scan_post : forall lex e lex1 e1,
  Pre lex e -> lex_scan lex e = Done (lex1, e1) -> Post lex1 e1.
Hypothesis post_pre : forall lex e,
  Post lex e -> token lex <> TOKEN_INVALID -> Pre lex e.
Hypothesis fail_bad : forall lex e msg,
  Post lex e -> msg <> EmptyString -> Bad (error_set e (Some lex) msg).
Hypothesis steal_pre : forall lex e key lex0,
  Post lex e -> token lex = TOKEN_STRING ->
  lex_steal_string lex = (Some key, lex0) ->
  Pre lex0 e
  /\ forall msg, msg <> EmptyString -> Bad (error_set e (Some lex0) msg).
Hypothesis steal_none : forall lex e lex0,
  Post lex e -> token lex = TOKEN_STRING ->
  lex_steal_string lex = (None, lex0) -> Bad e.

Definition kept (r : parsed) : Prop :=
  match r with
  | Done (Some _, lex', e') => Pre lex' e'
  | Done (None, _, e') => Bad e'
  | _ => True
  end.

Lemma kept_fail lex e msg :
  Post lex e -> msg <> EmptyString -> kept (fail lex e msg).
Proof. intros. apply fail_bad; assumption. Qed.

Lemma kept_scan lex e (k : lex_t * option json_error_t -> parsed) :
  Pre lex e ->
  (forall lex1 e1, Post lex1 e1 -> kept (k (lex1, e1))) ->
  kept (bind (lex_scan lex e) k).
Proof.
  intros Hpre Hk. destruct (lex_scan lex e) as [[lex1 e1]| |] eqn:Hs;
    cbn [bind]; [|exact I|exact I].
  apply Hk. exact (scan_post _ _ _ _ Hpre Hs).
Qed.

Lemma kept_bind (m : parsed)
    (k : json_ref * lex_t * option json_error_t -> parsed) :
  kept m ->
  (forall v lex1 e1, Pre lex1 e1 -> kept (k (Some v, lex1, e1))) ->
  (forall lex1 e1, Bad e1 -> kept (k (None, lex1, e1))) ->
  kept (bind m k).
Proof.
  intros Hm Hsome Hnone.
  destruct m as [[[[v|] lex1] e1]| |]; cbn [bind]; auto.
Qed.

Lemma token_is lex t :
  (token lex =? t) = true -> t <> TOKEN_INVALID -> token lex <> TOKEN_INVALID.
Proof. intros H N. apply Z.eqb_eq in H. congruence. Qed.

Lemma object_after_member_kept
    (loop : lex_t -> option json_error_t -> json -> parsed) lex e object :
  Pre lex e ->
  (forall l e1 o, Post l e1 -> kept (loop l e1 o)) ->
  kept (object_after_member loop lex e object).
Proof.
  intros Hpre Hloop. unfold object_after_member.
  apply kept_scan; [exact Hpre|]. intros lex1 e1 Hpost.
  destruct (token lex1 =? chr ",") eqn:Hcomma; cbn [negb].
  - apply kept_scan.
    + apply post_pre; [exact Hpost|].
      apply (token_is _ _ Hcomma). discriminate.
    + intros lex2 e2 Hpost2. apply Hloop. exact Hpost2.
  - destruct (token lex1 =? chr "}") eqn:Hclose; cbn [negb].
    + apply post_pre; [exact Hpost|].
      apply (token_is _ _ Hclose). discriminate.
    + apply kept_fail; [exact Hpost|discriminate].
Qed.

Lemma array_after_element_kept
    (loop : lex_t -> option json_error_t -> json -> parsed) lex e array :
  Pre lex e ->
  (forall l e1 a, Post l e1 -> kept (loop l e1 a)) ->
  kept (array_after_element loop lex e array).
Proof.
  intros Hpre Hloop. unfold array_after_element.
  apply kept_scan; [exact Hpre|]. intros lex1 e1 Hpost.
  destruct (token lex1 =? chr ",") eqn:Hcomma; cbn [negb].
  - apply kept_scan.
    + apply post_pre; [exact Hpost|].
      apply (token_is _ _ Hcomma). discriminate.
    + intros lex2 e2 Hpost2. apply Hloop. exact Hpost2.
  - destruct (token lex1 =? chr "]") eqn:Hclose; cbn [negb].
    + apply post_pre; [exact Hpost|].
      apply (token_is _ _ Hclose). discriminate.
    + apply kept_fail; [exact Hpost|discriminate].
Qed.

Lemma object_member_kept
    (value_parser : lex_t -> option json_error_t -> parsed)
    (loop : lex_t -> option json_error_t -> json -> parsed)
    lex e object key :
  Pre lex e ->
  (forall l e1, Post l e1 -> kept (value_parser l e1)) ->
  (forall l e1 o, Post l e1 -> kept (loop l e1 o)) ->
  kept (object_member value_parser loop lex e object key).
Proof.
  intros Hpre Hvalue Hloop. unfold object_member.
  apply kept_scan; [exact Hpre|]. intros lex1 e1 Hpost1.
  destruct (token lex1 =? chr ":") eqn:Hcolon; cbn [negb];
    [|apply kept_fail; [exact Hpost1|discriminate]].
  apply kept_scan.
  { apply post_pre; [exact Hpost1|].
    apply (token_is _ _ Hcolon). discriminate. }
  intros lex2 e2 Hpost2.
  apply kept_bind; [apply Hvalue; exact Hpost2| |].
  - intros v lex3 e3 Hpre3.
    apply object_after_member_kept; assumption.
  - intros lex3 e3 Hbad. exact Hbad.
Qed.

Theorem parser_kept fuel :
  (forall lex flags e,
     Post lex e -> kept (parse_value fuel lex flags e))
  /\ (forall lex flags e,
        Pre lex e -> kept (parse_object fuel lex flags e))
  /\ (forall lex flags e object,
        Post lex e -> kept (parse_object_loop fuel lex flags e object))
  /\ (forall lex flags e,
        Pre lex e -> kept (parse_array fuel lex flags e))
  /\ (forall lex flags e array,
        Post lex e -> kept (parse_array_loop fuel lex flags e array)).
Proof.
  induction fuel as [|fuel (IHvalue & IHobject & IHobject_loop & IHarray
                             & IHarray_loop)].
  { repeat split; intros; exact I. }
  split; [|split; [|split; [|split]]].
  - (* parse_value *)
    intros lex flags e Hpost. cbn [parse_value].
    repeat match goal with
           | |- kept (if token lex =? ?t then Done _ else _) =>
               let E := fresh "E" in
               destruct (token lex =? t) eqn:E;
               [apply post_pre; [exact Hpost|];
                apply (token_is _ _ E); discriminate|]
           end.
    destruct (token lex =? chr "{") eqn:Eo.
    { apply IHobject. apply post_pre; [exact Hpost|].
      apply (token_is _ _ Eo). discriminate. }
    destruct (token lex =? chr "[") eqn:Ea.
    { apply IHarray. apply post_pre; [exact Hpost|].
      apply (token_is _ _ Ea). discriminate. }
    destruct (token lex =? TOKEN_INVALID);
      apply kept_fail; try exact Hpost; discriminate.
  - (* parse_object *)
    intros lex flags e Hpre. cbn [parse_object].
    apply kept_scan; [exact Hpre|]. intros lex1 e1 Hpost.
    destruct (token lex1 =? chr "}") eqn:Hclose.
    + apply post_pre; [exact Hpost|].
      apply (token_is _ _ Hclose). discriminate.
    + apply IHobject_loop. exact Hpost.
  - (* parse_object_loop *)
    intros lex flags e object Hpost. cbn [parse_object_loop].
    destruct (token lex =? TOKEN_STRING) eqn:Hstr; cbn [negb];
      [|apply kept_fail; [exact Hpost|discriminate]].
    apply Z.eqb_eq in Hstr.
    destruct (lex_steal_string lex) as [[key|] lex0] eqn:Hsteal.
    + destruct (steal_pre _ _ _ _ Hpost Hstr Hsteal) as [Hpre0 Hfail0].
      destruct (flag_set flags JSON_REJECT_DUPLICATES && has_key object key).
      * apply Hfail0. discriminate.
      * apply object_member_kept; [exact Hpre0| |]; intros;
          [apply IHvalue|apply IHobject_loop]; assumption.
    + exact (steal_none _ _ _ Hpost Hstr Hsteal).
  - (* parse_array *)
    intros lex flags e Hpre. cbn [parse_array].
    apply kept_scan; [exact Hpre|]. intros lex1 e1 Hpost.
    destruct (token lex1 =? chr "]") eqn:Hclose.
    + apply post_pre; [exact Hpost|].
      apply (token_is _ _ Hclose). discriminate.
    + apply IHarray_loop. exact Hpost.
  - (* parse_array_loop *)
    intros lex flags e array Hpost. cbn [parse_array_loop].
    destruct (token lex =? 0) eqn:Hz.
    { destruct (token lex =? chr "]") eqn:Hclose; cbn [negb].
      - apply post_pre; [exact Hpost|].
        apply (token_is _ _ Hclose). discriminate.
      - apply kept_fail; [exact Hpost|discriminate]. }
    apply kept_bind; [apply IHvalue; exact Hpost| |].
    + intros v lex1 e1 Hpre1.
      apply array_after_element_kept; [exact Hpre1|].
      intros. apply IHarray_loop. assumption.
    + intros lex1 e1 Hbad. exact Hbad.
Qed.

(** What [parse_json] returns: with no value, [Bad] of the error record;
    with a value, the error record of the lexer it has come to with the
    offset stored in it, that lexer being after the scan that has found the
    end of the input when the check is in force. *)
Definition kept_json (flags : Z) (r : parsed) : Prop :=
  match r with
  | Done (Some _, lex', e') =>
      exists e0,
        e' = set_error_position e0 (position (stream lex'))
        /\ if flag_set flags JSON_DISABLE_EOF_CHECK then Pre lex' e0
           else Post lex' e0 /\ token lex' = TOKEN_EOF
  | Done (None, _, e') => Bad e'
  | _ => True
  end.

Theorem parse_json_kept lex flags e :
  Pre lex e -> kept_json flags (parse_json lex flags e).
Proof.
  intros Hpre. unfold parse_json.
  destruct (lex_scan lex e) as [[lex1 e1]| |] eqn:Hs; cbn [bind];
    [|exact I|exact I].
  pose proof (scan_post _ _ _ _ Hpre Hs) as Hpost.
  destruct (negb (flag_set flags JSON_DECODE_ANY)
            && (negb (token lex1 =? chr "[") && negb (token lex1 =? chr "{"))).
  { apply fail_bad; [exact Hpost|discriminate]. }
  pose proof (proj1 (parser_kept (parse_fuel lex1)) lex1 flags e1 Hpost)
    as Hv.
  destruct (parse_value (parse_fuel lex1) lex1 flags e1)
    as [[[[v|] lex2] e2]| |]; cbn [bind]; try exact I; [|exact Hv].
  cbn [kept] in Hv.
  destruct (flag_set flags JSON_DISABLE_EOF_CHECK) eqn:Hflag; cbn [negb].
  - cbn [kept_json]. rewrite Hflag. exists e2. auto.
  - destruct (lex_scan lex2 e2) as [[lex3 e3]| |] eqn:Hs3; cbn [bind];
      [|exact I|exact I].
    pose proof (scan_post _ _ _ _ Hv Hs3) as Hpost3.
    destruct (token lex3 =? TOKEN_EOF) eqn:Heof; cbn [negb].
    + cbn [kept_json]. rewrite Hflag. exists e3. apply Z.eqb_eq in Heof.
      auto.
    + apply fail_bad; [exact Hpost3|discriminate].
Qed.

End ParserInvariant.

(** ** The value returned and the error record *)

Section ErrorResults.

Context {header : jansson_h}.

Lemma lex_steal_string_some lex t :
  token lex = TOKEN_STRING -> value lex = ValString (Some t) ->
  exists lex0, lex_steal_string lex = (Some t, lex0).
Proof.
  intros Ht Hv. unfold lex_steal_string. rewrite Ht, Hv.
  eexists. reflexivity.
Qed.

(** No value is returned without an error being recorded. *)
Lemma parse_json_null lex flags e0 lex' e' :
  (1 < JSON_ERROR_TEXT_LENGTH)%nat ->
  stream_wf (stream lex) ->
  parse_json lex flags (Some e0) = Done (None, lex', e') ->
  exists e1, e' = Some e1 /\ error_recorded e1 = true.
Proof.
  intros HN Hwf H.
  pose (Pre := fun (l : lex_t) (e : option json_error_t) =>
                 stream_wf (stream l) /\ exists e1, e = Some e1).
  pose (Post := fun (l : lex_t) (e : option json_error_t) =>
                  stream_wf (stream l) /\ (exists e1, e = Some e1)
                  /\ (token l = TOKEN_STRING ->
                      exists t, value l = ValString (Some t))).
  pose (Bad := fun e : option json_error_t =>
                 exists e1, e = Some e1 /\ error_recorded e1 = true).
  assert (forall l e msg, (exists e1, e = Some e1) -> msg <> EmptyString ->
                          Bad (error_set e (Some l) msg)) as Hfail.
  { intros l e msg (e1 & ->) Hmsg.
    exact (error_set_records e1 (Some l) msg HN Hmsg). }
  pose proof (parse_json_kept Pre Post Bad) as Hkept.
  specialize (Hkept).
  assert (kept_json Pre Post Bad flags (parse_json lex flags (Some e0)))
    as Hk.
  { apply Hkept.
    - intros l e l1 e1 [Hwfl (e2 & ->)] Hs.
      destruct (lex_scan_after _ _ _ _ Hwfl Hs) as (Hwf1 & Hr & _ & Hv & _).
      apply reports_kind in Hr. destruct Hr as (e3 & -> & _).
      split; [exact Hwf1|]. split; [exists e3; reflexivity|exact Hv].
    - intros l e (Hwfl & He & _) _. split; assumption.
    - intros l e msg (_ & He & _) Hmsg. apply Hfail; assumption.
    - intros l e key l0 (Hwfl & He & _) _ Hsteal.
      split; [|intros msg Hmsg; apply Hfail; assumption].
      split; [|exact He].
      rewrite (lex_steal_string_stream _ _ _ Hsteal). exact Hwfl.
    - intros l e l0 (_ & _ & Hv) Ht Hsteal. exfalso.
      destruct (Hv Ht) as (t & Hval).
      destruct (lex_steal_string_some _ _ Ht Hval) as (l1 & E).
      rewrite E in Hsteal. discriminate Hsteal.
    - split; [exact Hwf|]. exists e0. reflexivity. }
  rewrite H in Hk. exact Hk.
Qed.

(** A value is returned with the error record as it was, but for the
    offset, unless the stream has been left in the state of an error and the
    end of the input was not asked for. *)
Lemma parse_json_value lex flags e v lex' e' :
  stream_wf (stream lex) ->
  parse_json lex flags e = Done (Some v, lex', e') ->
  flag_set flags JSON_DISABLE_EOF_CHECK = false
  \/ state (stream lex') <> STREAM_STATE_ERROR ->
  e' = set_error_position e (position (stream lex')).
Proof.
  intros Hwf H Hcase.
  pose (Pre := fun (l : lex_t) (e1 : option json_error_t) =>
                 stream_wf (stream l)
                 /\ (e1 = e \/ state (stream l) = STREAM_STATE_ERROR)).
  pose (Post := fun (l : lex_t) (e1 : option json_error_t) =>
                  stream_wf (stream l)
                  /\ (e1 = e \/ token l = TOKEN_INVALID
                      \/ state (stream l) = STREAM_STATE_ERROR)
                  /\ (token l = TOKEN_EOF -> e1 = e)).
  assert (kept_json Pre Post (fun _ => True) flags (parse_json lex flags e))
    as Hk.
  { apply parse_json_kept; try (intros; exact I).
    - intros l e1 l1 e2 [Hwfl Hl] Hs.
      destruct (lex_scan_after _ _ _ _ Hwfl Hs)
        as (Hwf1 & _ & Htok & _ & Hsticky).
      split; [exact Hwf1|].
      destruct Hl as [->|Hst].
      + destruct Htok as [Ht|[(Ht & -> & _)|[(Ht & ->)|(Ht & He)]]].
        * split; [right; left; exact Ht|].
          intros E. rewrite E in Ht. discriminate Ht.
        * split; [left; reflexivity|reflexivity].
        * split; [left; reflexivity|reflexivity].
        * split; [destruct He as [->|He]; auto|].
          intros E. rewrite E in Ht. simpl in Ht.
          repeat (destruct Ht as [Ht|Ht]; [discriminate Ht|]). contradiction.
      + specialize (Hsticky Hst). split; [right; left; exact Hsticky|].
        intros E. rewrite E in Hsticky. discriminate Hsticky.
    - intros l e1 (Hwfl & Hl & _) Ht. split; [exact Hwfl|].
      destruct Hl as [Hl|[Hl|Hl]]; [left; exact Hl|contradiction
                                   |right; exact Hl].
    - intros l e1 key l0 (Hwfl & Hl & _) Ht Hsteal.
      split; [|intros; exact I].
      rewrite Ht in Hl.
      rewrite <- (lex_steal_string_stream _ _ _ Hsteal) in Hwfl, Hl.
      split; [exact Hwfl|].
      destruct Hl as [Hl|[Hl|Hl]]; [left; exact Hl|discriminate Hl
                                   |right; exact Hl].
    - split; [exact Hwf|left; reflexivity]. }
  rewrite H in Hk. cbn [kept_json] in Hk. destruct Hk as (e1 & -> & Hk).
  destruct (flag_set flags JSON_DISABLE_EOF_CHECK).
  - destruct Hk as (_ & [->|Hst]); [reflexivity|].
    destruct Hcase as [Hc|Hc]; [discriminate Hc|contradiction].
  - destruct Hk as ((_ & _ & Heof) & Ht). rewrite (Heof Ht). reflexivity.
Qed.

End ErrorResults.

Section EntryResults.

Context {header : jansson_h}.

(** X6: a null result comes with a message.  When an entry point is given
    an error record and returns no value, an error is recorded in it: its
    text is not empty. *)
Theorem json_loadb_null (buffer : list Z) (flags : Z) (e : json_error_t)
    lex' e' :
  (1 < JSON_ERROR_TEXT_LENGTH)%nat ->
  json_loadb buffer flags (Some e) = Done (None, lex', e') ->
  exists e1, e' = Some e1 /\ e_text e1 <> EmptyString.
Proof.
  intros HN H. unfold json_loadb in H. cbn [jsonp_error_init] in H.
  destruct (parse_json_null (lex_init buffer) _ _ _ _ HN
              (stream_init_wf buffer) H)
    as (e1 & -> & Hrec).
  exists e1. split; [reflexivity|]. unfold error_recorded in Hrec.
  apply negb_true_iff, String.eqb_neq in Hrec. exact Hrec.
Qed.

(** X7: a value comes with a clean record.  When the end of the input is
    checked (JSON_DISABLE_EOF_CHECK unset) and a value is returned, the
    error record is as [jsonp_error_init] has left it, with an empty text,
    but for the offset, which is that of the stream. *)
Theorem json_loadb_value (buffer : list Z) (flags : Z) (e : json_error_t)
    v lex' e' :
  flag_set flags JSON_DISABLE_EOF_CHECK = false ->
  json_loadb buffer flags (Some e) = Done (Some v, lex', e') ->
  e' = Some (mk_error (-1) (-1) (position (stream lex')) "<buffer>" EmptyString).
Proof.
  intros Hflag H. unfold json_loadb in H. cbn [jsonp_error_init] in H.
  rewrite (parse_json_value (lex_init buffer) _ _ _ _ _
             (stream_init_wf buffer) H (or_introl Hflag)).
  reflexivity.
Qed.

End EntryResults.

(** With JSON_DISABLE_EOF_CHECK set a value can come with a message: the
    number 1 followed by a byte that cannot be decoded is returned, and the
    error of the byte is recorded. *)
Example value_with_message_run :
  let r := json_loadb [chr "1"; 0xFF]
             (Z.lor JSON_DECODE_ANY JSON_DISABLE_EOF_CHECK) (Some no_error) in
  returned r = Some (Some (JInteger 1))
  /\ message r = Some "unable to decode byte 0xff near '1'"%string.
Proof. vm_compute. split; reflexivity. Qed.

(** A NUL byte after a number is dropped: the four bytes of [[1], NUL, ]]
    decode to the array of 1, and the offset is 3. *)
Example nul_after_number_run :
  let r := json_loadb [chr "["; chr "1"; 0; chr "]"] 0 (Some no_error) in
  returned r = Some (Some (JArray [JInteger 1]))
  /\ consumed r = Some 3.
Proof. vm_compute. split; reflexivity. Qed.


(** ** The lexer on a text of plain characters, token by token *)

Section Tokens.

Context {header : jansson_h}.

(** The stream is going to hand out the text [rest] and then the end of
    the input. *)
Definition remaining (s : stream_t) (rest : list Z) : Prop :=
  stream_wf s
  /\ ((state s = STREAM_STATE_OK /\ stream_view s = rest)
      \/ (state s = STREAM_STATE_EOF /\ rest = [])).

Lemma remaining_ok s x rest :
  remaining s (x :: rest) -> stream_ok s /\ stream_view s = x :: rest.
Proof.
  intros (Hwf & [[Hst Hview]|[_ E]]); [|discriminate E].
  split; [split|]; assumption.
Qed.

Lemma cstr_skipn_uncons (n : nat) : forall b x,
  buf_get b n = x -> x <> 0 ->
  cstr (skipn n b) = x :: cstr (skipn (S n) b).
Proof.
  unfold buf_get. induction n as [|n IH]; intros b x H Hx.
  - destruct b as [|y t]; simpl in *; [congruence|]. subst y.
    destruct (Z.eqb_spec x 0); [contradiction|reflexivity].
  - destruct b as [|y t]; simpl in H; [congruence|].
    change (skipn (S n) (y :: t)) with (skipn n t).
    change (skipn (S (S n)) (y :: t)) with (skipn (S n) t).
    exact (IH t x H Hx).
Qed.

(** The byte that was read last is handed out again after
    [stream_unget]. *)
Lemma stream_unget_remaining (s : stream_t) (x : Z) (rest : list Z) :
  stream_wf s -> stream_view s = rest ->
  (0 < buffer_pos s)%nat -> buf_get (buffer s) (pred (buffer_pos s)) = x ->
  state s = STREAM_STATE_OK -> 0 < x < 256 ->
  remaining (stream_unget s x) (x :: rest).
Proof.
  intros Hwf Hview Hpos Hbuf Hst Hx.
  split; [apply stream_unget_wf; exact Hwf|]. left.
  unfold stream_unget.
  fold (is_sentinel x). rewrite byte_not_sentinel by (unfold is_byte; lia).
  assert (cstr (skipn (pred (buffer_pos s)) (buffer s)) ++ data s
          = x :: rest) as Hv.
  { rewrite (cstr_skipn_uncons _ _ x Hbuf) by lia.
    replace (S (pred (buffer_pos s))) with (buffer_pos s) by lia.
    rewrite <- Hview. reflexivity. }
  destruct (x =? chr "010"); [|destruct (negb (utf8_check_first x =? 0))];
    unfold stream_view;
    cbn [state data buffer buffer_pos]; auto.
Qed.

(** The lexer has read [c] last, with the error record untouched. *)
Definition reading (lex : lex_t) (c : Z) : Prop :=
  stream_wf (stream lex) /\ seen c lex.

Lemma after_reading e lex0 c lex e1 :
  after e lex0 c lex e1 -> reading lex c.
Proof. intros (Hwf & _ & _ & _ & Hs). split; assumption. Qed.

Lemma reading_after e lex c : reading lex c -> after e lex c lex e.
Proof.
  intros [Hwf Hs]. split; [exact Hwf|]. split; [reflexivity|].
  split; [apply reports_refl|]. split; [left; reflexivity|exact Hs].
Qed.

(** [lex_scan_number] on a literal, with what it leaves to read. *)
Lemma lex_scan_number_reading lex error w rest real :
  lex_at lex (w ++ rest) [] -> reading lex (cur (w ++ rest)) ->
  number_literal w real -> literal_ends rest ->
  exists lexN,
    lex_at lexN rest w /\ reading lexN (cur rest)
    /\ token lexN = TOKEN_INVALID
    /\ lex_scan_number lex (cur (w ++ rest)) error
       = (if real then finish_real (cur rest) lexN error
          else finish_integer (cur rest) lexN error).
Proof.
  intros Hat Hread (sign & int & frac & exp & -> & Hsign & Hint & Hfrac & Hexp
                    & Hreal) (Hplain & Hnd & Hndot & HnE & Hne).
  repeat rewrite <- app_assoc in *.
  unfold lex_scan_number.
  assert (lex_at (set_token lex TOKEN_INVALID)
            (sign ++ int ++ frac ++ exp ++ rest) []) as Hat0 by exact Hat.
  assert (after error (set_token lex TOKEN_INVALID)
            (cur (sign ++ int ++ frac ++ exp ++ rest))
            (set_token lex TOKEN_INVALID) error) as Ha0
    by (apply reading_after; exact Hread).
  pose proof (integer_part_head int (frac ++ exp ++ rest) Hint) as Hhead.
  assert (l_isdigit (cur (frac ++ exp ++ rest)) = false
          /\ plain_head (frac ++ exp ++ rest)
          /\ l_isdigit (cur (exp ++ rest)) = false
          /\ plain_head (exp ++ rest)
          /\ (frac = [] -> cur (exp ++ rest) <> chr ".")) as Hmid.
  { assert (l_isdigit (cur (exp ++ rest)) = false
            /\ plain_head (exp ++ rest)
            /\ cur (exp ++ rest) <> chr ".") as He.
    { destruct exp as [|e exp'] eqn:Eexp; [simpl; auto|].
      destruct (exponent_head (e :: exp') rest Hexp ltac:(discriminate))
        as [E|E];
        (split; [rewrite E; reflexivity|]);
        (split; [apply plain_head_cur; rewrite E; auto|]);
        rewrite E; discriminate. }
    destruct frac as [|f frac'] eqn:Efrac; [simpl; tauto|].
    pose proof (fraction_head (f :: frac') (exp ++ rest) Hfrac
                  ltac:(discriminate)) as E.
    split; [rewrite E; reflexivity|].
    split; [apply plain_head_cur; rewrite E; auto|].
    split; [tauto|]. split; [tauto|]. discriminate. }
  destruct Hmid as (Hd1 & Hp1 & Hd2 & Hp2 & Hdot2).
  destruct (scan_sign_complete _ error sign (int ++ frac ++ exp ++ rest) []
              Hat0) as (lex0 & Hs0 & Hat1 & Ht0).
  { destruct Hsign as [->| ->]; [left|right; reflexivity].
    split; [reflexivity|]. intros E. rewrite E in Hhead. discriminate Hhead. }
  { apply plain_head_cur. auto. }
  pose proof (scan_sign_after _ _ _ _ _ _ _ _ Hs0 Ha0) as Ha1.
  rewrite Hs0. simpl in Ht0, Hat1.
  destruct (scan_integer_part_complete _ error int (frac ++ exp ++ rest) sign
              Hat1 Hint Hd1 Hp1) as (lex1 & Hs1 & Hat2 & Ht1).
  pose proof (scan_integer_part_after _ _ _ _ _ Ha1) as Ha2.
  rewrite Hs1 in Ha2. cbn [part_after] in Ha2.
  rewrite Hs1.
  destruct real.
  - assert (frac <> [] \/ exp <> []) as Hsome.
    { destruct frac; [|left; discriminate].
      destruct exp; [|right; discriminate].
      destruct Hreal as [_ H]. specialize (H (conj eq_refl eq_refl)).
      discriminate H. }
    assert (negb (cur (frac ++ exp ++ rest) =? chr ".")
            && negb (cur (frac ++ exp ++ rest) =? chr "E")
            && negb (cur (frac ++ exp ++ rest) =? chr "e") = false) as Hkind.
    { destruct frac as [|f frac'] eqn:Efrac.
      - destruct Hsome as [H|H]; [contradiction|].
        destruct (exponent_head exp rest Hexp H) as [E|E]; simpl app;
          rewrite E; reflexivity.
      - rewrite (fraction_head _ _ Hfrac ltac:(discriminate)). reflexivity. }
    rewrite Hkind.
    destruct (scan_fraction_complete _ error frac (exp ++ rest) _ Hat2 Hfrac
                Hdot2 Hd2 Hp2) as (lex2 & Hs2 & Hat3 & Ht2).
    pose proof (scan_fraction_after _ _ _ _ _ Ha2) as Ha3.
    rewrite Hs2 in Ha3. cbn [part_after] in Ha3.
    rewrite Hs2.
    destruct (scan_exponent_complete _ error exp rest _ Hat3 Hexp
                ltac:(auto) Hnd Hplain) as (lex3 & Hs3 & Hat4 & Ht3).
    pose proof (scan_exponent_after _ _ _ _ _ Ha3) as Ha4.
    rewrite Hs3 in Ha4. cbn [part_after] in Ha4.
    rewrite Hs3. exists lex3.
    repeat rewrite <- app_assoc in Hat4.
    split; [exact Hat4|]. split; [exact (after_reading _ _ _ _ _ Ha4)|].
    split; [congruence|reflexivity].
  - destruct Hreal as [H _]. destruct (H eq_refl) as [-> ->].
    simpl app in *.
    assert (negb (cur rest =? chr ".") && negb (cur rest =? chr "E")
            && negb (cur rest =? chr "e") = true) as Hkind.
    { apply Z.eqb_neq in Hndot, HnE, Hne. rewrite Hndot, HnE, Hne.
      reflexivity. }
    rewrite Hkind. exists lex1. rewrite !app_nil_r in *.
    split; [exact Hat2|]. split; [exact (after_reading _ _ _ _ _ Ha2)|].
    split; [congruence|reflexivity].
Qed.

(** The lexer has read the first character of [rem], or the end of the
    input when [rem] is empty, and has the rest of [rem] to read. *)
Definition got (lex : lex_t) (rem : list Z) : Prop :=
  reading lex (cur rem)
  /\ match rem with
     | [] => True
     | _ :: rem' =>
         stream_ok (stream lex) /\ stream_view (stream lex) = rem'
     end.

Lemma remaining_get lex e rem :
  remaining (stream lex) rem -> plain_head rem ->
  exists lex',
    lex_get lex e = (cur rem, lex', e) /\ got lex' rem
    /\ saved_text lex' = saved_text lex
    /\ token lex' = token lex /\ value lex' = value lex.
Proof.
  intros (Hwf & Hrem) Hplain.
  destruct (lex_get lex e) as [[c lex'] e'] eqn:Hget.
  pose proof (lex_get_after _ _ _ _ _ Hwf Hget) as Ha.
  destruct Hrem as [[Hst Hview]|[Hst ->]].
  - destruct (lex_get_at lex e rem (conj Hwf Hst) Hview Hplain)
      as (lex1 & Hget1 & Hsv & Ht & Hv & Hnext).
    rewrite Hget1 in Hget. injection Hget as <- <- <-.
    exists lex1. split; [reflexivity|].
    split; [|auto]. split; [exact (after_reading _ _ _ _ _ Ha)|].
    destruct rem; [exact I|exact Hnext].
  - rewrite lex_get_not_ok in Hget by (rewrite Hst; discriminate).
    rewrite Hst in Hget. injection Hget as <- <- <-.
    exists lex. split; [reflexivity|]. split; [|auto].
    split; [|exact I]. exact (after_reading _ _ _ _ _ Ha).
Qed.

Lemma got_get lex e x rem :
  got lex (x :: rem) -> plain_head rem ->
  exists lex',
    lex_get lex e = (cur rem, lex', e) /\ got lex' rem
    /\ saved_text lex' = saved_text lex
    /\ token lex' = token lex /\ value lex' = value lex.
Proof.
  intros ([Hwf _] & [Hok Hview]) Hplain.
  apply remaining_get; [|exact Hplain].
  split; [exact Hwf|]. left. split; [apply Hok|exact Hview].
Qed.

Lemma got_get_save lex e x rem :
  got lex (x :: rem) -> plain_head rem ->
  exists lex',
    lex_get_save lex e = (cur rem, lex', e) /\ got lex' rem
    /\ saved_text lex' = saved_text lex ++ pending (cur rem)
    /\ token lex' = token lex /\ value lex' = value lex.
Proof.
  intros ([Hwf _] & [Hok Hview]) Hplain.
  destruct (lex_get_save lex e) as [[c lex'] e'] eqn:Hget.
  pose proof (lex_get_save_after _ _ _ _ _ Hwf Hget) as Ha.
  destruct (lex_get_save_at lex e rem Hok Hview Hplain)
    as (lex1 & Hget1 & Hat & Ht & Hv).
  rewrite Hget1 in Hget. injection Hget as <- <- <-.
  exists lex1. split; [reflexivity|].
  destruct (lex_get_save_saved _ _ _ _ _ Hget1) as (Hsv & _).
  split; [|auto]. split; [exact (after_reading _ _ _ _ _ Ha)|].
  destruct rem as [|y rem']; [exact I|].
  destruct Hat as (H1 & H2 & _). auto.
Qed.

Lemma space_range c : is_space c = true -> 0 < c < 0x80.
Proof.
  unfold is_space. intros H.
  repeat (apply orb_true_iff in H; destruct H as [H|H];
          [|apply Z.eqb_eq in H; subst c; unfold chr; simpl; lia]).
  apply Z.eqb_eq in H; subst c; unfold chr; simpl; lia.
Qed.

Lemma skip_space_got ws : forall fuel lex e x rest,
  got lex (ws ++ x :: rest) ->
  forallb is_space ws = true -> is_space x = false -> 0 <= x < 0x80 ->
  (List.length ws < fuel)%nat ->
  exists lex',
    skip_space fuel (cur (ws ++ x :: rest)) lex e = (x, lex', e)
    /\ got lex' (x :: rest)
    /\ saved_text lex' = saved_text lex
    /\ token lex' = token lex /\ value lex' = value lex.
Proof.
  induction ws as [|w ws IH]; intros fuel lex e x rest Hgot Hws Hx Hxr Hfuel.
  - destruct fuel; [simpl in Hfuel; lia|]. cbn [app cur skip_space].
    rewrite Hx. exists lex. auto.
  - destruct fuel; [simpl in Hfuel; lia|].
    cbn [forallb] in Hws. apply andb_true_iff in Hws.
    destruct Hws as [Hw Hws]. cbn [app cur skip_space]. rewrite Hw.
    assert (plain_head (ws ++ x :: rest)) as Hplain.
    { destruct ws as [|w' ws']; cbn [app plain_head]; [exact Hxr|].
      cbn [forallb] in Hws. apply andb_true_iff in Hws.
      pose proof (space_range w' (proj1 Hws)). lia. }
    destruct (got_get lex e w _ Hgot Hplain)
      as (lex1 & Hget & Hgot1 & Hsv & Ht & Hv).
    rewrite Hget.
    destruct (IH fuel lex1 e x rest Hgot1 Hws Hx Hxr
                ltac:(simpl in Hfuel; lia))
      as (lex' & Hskip & Hgot' & Hsv' & Ht' & Hv').
    exists lex'. split; [exact Hskip|]. split; [exact Hgot'|].
    split; [congruence|]. split; congruence.
Qed.

(** The end of the input after white space. *)
Lemma skip_space_end ws : forall fuel lex e,
  got lex ws -> forallb is_space ws = true ->
  (List.length ws < fuel)%nat ->
  exists lex',
    skip_space fuel (cur ws) lex e = (STREAM_STATE_EOF, lex', e)
    /\ reading lex' STREAM_STATE_EOF
    /\ token lex' = token lex.
Proof.
  induction ws as [|w ws IH]; intros fuel lex e Hgot Hws Hfuel.
  - destruct fuel; [simpl in Hfuel; lia|]. cbn [cur skip_space].
    change (is_space STREAM_STATE_EOF) with false. cbv iota.
    exists lex. split; [reflexivity|]. split; [apply Hgot|reflexivity].
  - destruct fuel; [simpl in Hfuel; lia|].
    cbn [forallb] in Hws. apply andb_true_iff in Hws.
    destruct Hws as [Hw Hws]. cbn [cur skip_space]. rewrite Hw.
    assert (plain_head ws) as Hplain.
    { destruct ws as [|w' ws']; cbn [plain_head]; [exact I|].
      cbn [forallb] in Hws. apply andb_true_iff in Hws.
      pose proof (space_range w' (proj1 Hws)). lia. }
    destruct (got_get lex e w _ Hgot Hplain)
      as (lex1 & Hget & Hgot1 & Hsv & Ht & Hv).
    rewrite Hget.
    destruct (IH fuel lex1 e Hgot1 Hws ltac:(simpl in Hfuel; lia))
      as (lex' & Hskip & Hread & Ht').
    exists lex'. split; [exact Hskip|]. split; [exact Hread|congruence].
Qed.

(** [lex_scan] from the test for a punctuation character on: [c] is the
    first character of the token, which [lex] has saved. *)
Definition scan_token (c : Z) (lex : lex_t) (error : option json_error_t)
  : run (lex_t * option json_error_t) :=
  if is_punct c then Done (set_token lex c, error)
  else if c =? chr "034" then lex_scan_string lex error
  else if l_isdigit c || (c =? chr "-") then
    let '(_, lex', error') := lex_scan_number lex c error in
    Done (lex', error')
  else if l_isalpha c then
    let '(c1, lex1, error1) := lex_get_save lex error in
    let '(c2, lex2, error2) := scan_alpha (lex_fuel lex1) c1 lex1 error1 in
    let lex3 := lex_unget_unsave lex2 c2 in
    if strcmp0 (saved_text lex3) "true" then
      Done (set_token lex3 TOKEN_TRUE, error2)
    else if strcmp0 (saved_text lex3) "false" then
      Done (set_token lex3 TOKEN_FALSE, error2)
    else if strcmp0 (saved_text lex3) "null" then
      Done (set_token lex3 TOKEN_NULL, error2)
    else Done (set_token lex3 TOKEN_INVALID, error2)
  else Done (set_token (lex_save_cached lex) TOKEN_INVALID, error).

Lemma stream_weight_got lex x rem :
  got lex (x :: rem) -> stream_weight (stream lex) = List.length rem.
Proof.
  intros (_ & _ & Hview). rewrite stream_weight_view, Hview. reflexivity.
Qed.

(** The scan of a text that begins, after white space, with the character
    [x]: the white space is skipped, [x] is saved, and the scan goes on as
    [x] says. *)
Lemma lex_scan_first lex e ws x rest :
  remaining (stream lex) (ws ++ x :: rest) ->
  forallb is_space ws = true -> is_space x = false -> 0 <= x < 0x80 ->
  exists lex1,
    got lex1 (x :: rest) /\ saved_text lex1 = [x]
    /\ lex_scan lex e = scan_token x lex1 e.
Proof.
  intros Hrem Hws Hx Hxr. unfold lex_scan.
  set (lexa := if token (set_saved_text lex (strbuffer_clear (saved_text lex)))
                  =? TOKEN_STRING
               then set_value (set_saved_text lex
                                 (strbuffer_clear (saved_text lex)))
                      (ValString None)
               else set_saved_text lex (strbuffer_clear (saved_text lex))).
  assert (saved_text lexa = [] /\ stream lexa = stream lex) as [Hsa Hstr].
  { subst lexa. destruct (_ =? TOKEN_STRING); split; reflexivity. }
  rewrite <- Hstr in Hrem. clearbody lexa.
  assert (plain_head (ws ++ x :: rest)) as Hplain.
  { destruct ws as [|w' ws']; cbn [app plain_head]; [exact Hxr|].
    cbn [forallb] in Hws. apply andb_true_iff in Hws.
    pose proof (space_range w' (proj1 Hws)). lia. }
  destruct (remaining_get lexa e _ Hrem Hplain)
    as (lex0 & Hget & Hgot0 & Hsv0 & _).
  rewrite Hget.
  assert (List.length ws < lex_fuel lex0)%nat as Hfuel.
  { unfold lex_fuel. destruct ws as [|w ws']; [simpl; lia|].
    cbn [app] in Hgot0. rewrite (stream_weight_got _ _ _ Hgot0).
    rewrite length_app. simpl. lia. }
  destruct (skip_space_got ws _ lex0 e x rest Hgot0 Hws Hx Hxr Hfuel)
    as (lex1 & Hskip & Hgot1 & Hsv1 & _).
  rewrite Hskip.
  assert ((x =? STREAM_STATE_EOF) = false) as ->
    by (apply Z.eqb_neq; unfold STREAM_STATE_EOF; lia).
  assert ((x =? STREAM_STATE_ERROR) = false) as ->
    by (apply Z.eqb_neq; unfold STREAM_STATE_ERROR; lia).
  exists (lex_save lex1 x). split; [exact Hgot1|].
  split; [|reflexivity].
  cbn [lex_save set_saved_text saved_text]. unfold strbuffer_append_byte.
  rewrite Hsv1, Hsv0, Hsa. rewrite to_uchar_small by lia. reflexivity.
Qed.

(** The scan of a text of white space gives the end of the input. *)
Lemma lex_scan_end lex e ws :
  remaining (stream lex) ws -> forallb is_space ws = true ->
  exists lex',
    lex_scan lex e = Done (lex', e) /\ token lex' = TOKEN_EOF
    /\ remaining (stream lex') [].
Proof.
  intros Hrem Hws. unfold lex_scan.
  set (lexa := if token (set_saved_text lex (strbuffer_clear (saved_text lex)))
                  =? TOKEN_STRING
               then set_value (set_saved_text lex
                                 (strbuffer_clear (saved_text lex)))
                      (ValString None)
               else set_saved_text lex (strbuffer_clear (saved_text lex))).
  assert (stream lexa = stream lex) as Hstr
    by (subst lexa; destruct (_ =? TOKEN_STRING); reflexivity).
  rewrite <- Hstr in Hrem. clearbody lexa.
  assert (plain_head ws) as Hplain.
  { destruct ws as [|w' ws']; cbn [plain_head]; [exact I|].
    cbn [forallb] in Hws. apply andb_true_iff in Hws.
    pose proof (space_range w' (proj1 Hws)). lia. }
  destruct (remaining_get lexa e _ Hrem Hplain)
    as (lex0 & Hget & Hgot0 & _).
  rewrite Hget.
  assert (List.length ws < lex_fuel lex0)%nat as Hfuel.
  { unfold lex_fuel. destruct ws as [|w ws']; [simpl; lia|].
    rewrite (stream_weight_got _ _ _ Hgot0). simpl. lia. }
  destruct (skip_space_end ws _ lex0 e Hgot0 Hws Hfuel)
    as (lex1 & Hskip & [Hwf1 Hs1] & _).
  rewrite Hskip. cbn [Z.eqb STREAM_STATE_EOF].
  change (-1 =? -1) with true. cbv iota.
  eexists. split; [reflexivity|]. split; [reflexivity|].
  cbn [stream set_token]. split; [exact Hwf1|]. right.
  split; [exact (seen_sentinel _ _ Hs1 eq_refl)|reflexivity].
Qed.

(** What is left to read after the character read last was ungot. *)
Lemma unget_unsave_remaining lex rest :
  got lex rest -> plain_head rest -> cur rest <> 0 ->
  remaining (stream (lex_unget_unsave lex (cur rest))) rest.
Proof.
  intros ([Hwf Hs] & Hrest) Hplain Hnz. unfold lex_unget_unsave.
  destruct rest as [|y r]; cbn [cur] in *.
  - change (is_sentinel STREAM_STATE_EOF) with true. cbn [negb].
    split; [exact Hwf|]. right.
    split; [exact (seen_sentinel _ _ Hs eq_refl)|reflexivity].
  - cbn [plain_head] in Hplain.
    assert (is_sentinel y = false) as Hy
      by (apply byte_not_sentinel; unfold is_byte; lia).
    rewrite Hy. cbn [negb stream set_stream set_saved_text].
    unfold seen in Hs. rewrite Hy in Hs. destruct Hs as (H1 & H2 & H3).
    destruct Hrest as [_ Hview].
    apply stream_unget_remaining; auto. lia.
Qed.

Lemma remaining_got lex x rest :
  got lex (x :: rest) -> remaining (stream lex) rest.
Proof.
  intros ([Hwf _] & [Hok Hview]). split; [exact Hwf|]. left.
  split; [apply Hok|exact Hview].
Qed.

(** *** Punctuation *)

Lemma scan_token_punct lex e x rest :
  got lex (x :: rest) -> is_punct x = true ->
  exists lex',
    scan_token x lex e = Done (lex', e)
    /\ token lex' = x /\ remaining (stream lex') rest.
Proof.
  intros Hgot Hp. unfold scan_token. rewrite Hp.
  eexists. split; [reflexivity|]. split; [reflexivity|].
  exact (remaining_got _ _ _ Hgot).
Qed.

(** *** Names *)

Definition name (w : list Z) : Prop :=
  w <> [] /\ forallb l_isalpha w = true.

Lemma alpha_range c : l_isalpha c = true -> 0 < c < 0x80.
Proof.
  unfold l_isalpha, l_isupper, l_islower, chr. simpl. intros H.
  apply orb_true_iff in H.
  destruct H as [H|H]; apply andb_true_iff in H; destruct H as [H1 H2];
    apply Z.leb_le in H1, H2; lia.
Qed.

Lemma scan_alpha_got w : forall fuel lex e rest,
  got lex (w ++ rest) -> forallb l_isalpha w = true ->
  l_isalpha (cur rest) = false -> plain_head rest ->
  (List.length w < fuel)%nat ->
  exists lex',
    scan_alpha fuel (cur (w ++ rest)) lex e = (cur rest, lex', e)
    /\ got lex' rest
    /\ saved_text lex'
       = saved_text lex ++ skipn 1 (w ++ firstn 1 rest).
Proof.
  induction w as [|a w IH]; intros fuel lex e rest Hgot Hw Hrest Hplain Hfuel.
  - destruct fuel; [simpl in Hfuel; lia|]. cbn [app scan_alpha].
    rewrite Hrest. exists lex. split; [reflexivity|].
    split; [exact Hgot|].
    destruct rest; simpl; rewrite app_nil_r; reflexivity.
  - destruct fuel; [simpl in Hfuel; lia|].
    cbn [forallb] in Hw. apply andb_true_iff in Hw. destruct Hw as [Ha Hw].
    cbn [app cur scan_alpha]. rewrite Ha.
    assert (plain_head (w ++ rest)) as Hplain'.
    { destruct w as [|a' w']; cbn [app plain_head]; [exact Hplain|].
      cbn [forallb] in Hw. apply andb_true_iff in Hw.
      pose proof (alpha_range a' (proj1 Hw)). lia. }
    destruct (got_get_save lex e a _ Hgot Hplain')
      as (lex1 & Hget & Hgot1 & Hsv1 & _).
    rewrite Hget.
    destruct (IH fuel lex1 e rest Hgot1 Hw Hrest Hplain
                ltac:(simpl in Hfuel; lia)) as (lex' & Hscan & Hgot' & Hsv').
    exists lex'. split; [exact Hscan|]. split; [exact Hgot'|].
    rewrite Hsv', Hsv1, <- app_assoc. f_equal.
    cbn [app skipn].
    destruct w as [|a' w']; cbn [app cur skipn].
    + destruct rest as [|y r]; cbn [cur firstn app].
      * reflexivity.
      * cbn [plain_head] in Hplain. rewrite pending_char by lia.
        reflexivity.
    + cbn [forallb] in Hw. apply andb_true_iff in Hw.
      pose proof (alpha_range a' (proj1 Hw)).
      rewrite pending_char by lia. reflexivity.
Qed.

Lemma cstr_name w : forallb l_isalpha w = true -> cstr w = w.
Proof.
  induction w as [|a w IH]; [reflexivity|]. cbn [forallb cstr].
  intros H. apply andb_true_iff in H. destruct H as [Ha Hw].
  pose proof (alpha_range a Ha).
  destruct (Z.eqb_spec a 0); [lia|]. rewrite (IH Hw). reflexivity.
Qed.

(** The token of a name: that of true, false or null when the name is the
    word, and the invalid token for every other name. *)
Definition name_token (w : list Z) : Z :=
  if bytes_eqb w (bytes_of_string "true") then TOKEN_TRUE
  else if bytes_eqb w (bytes_of_string "false") then TOKEN_FALSE
  else if bytes_eqb w (bytes_of_string "null") then TOKEN_NULL
  else TOKEN_INVALID.

Lemma scan_token_name lex e x w rest :
  got lex (x :: w ++ rest) -> saved_text lex = [x] ->
  name (x :: w) -> l_isalpha (cur rest) = false ->
  plain_head rest -> cur rest <> 0 ->
  exists lex',
    scan_token x lex e = Done (lex', e)
    /\ token lex' = name_token (x :: w)
    /\ saved_text lex' = x :: w
    /\ remaining (stream lex') rest.
Proof.
  intros Hgot Hsv [_ Hname] Hrest Hplain Hnz. unfold scan_token.
  cbn [forallb] in Hname. apply andb_true_iff in Hname.
  destruct Hname as [Hx Hw].
  pose proof (alpha_range x Hx) as Hxr.
  assert (is_punct x = false) as ->.
  { unfold is_punct, l_isalpha, l_isupper, l_islower, chr in *. simpl in *.
    repeat match goal with
           | |- context [?a =? ?b] =>
               destruct (Z.eqb_spec a b) as [E|_];
               [subst x; discriminate Hx|]
           end. reflexivity. }
  assert ((x =? chr "034") = false) as ->.
  { apply Z.eqb_neq. intros ->. discriminate Hx. }
  assert (l_isdigit x || (x =? chr "-") = false) as ->.
  { apply orb_false_iff. split.
    - destruct (l_isdigit x) eqn:Hd; [|reflexivity].
      apply digit_range in Hd.
      unfold l_isalpha, l_isupper, l_islower, chr in Hx. simpl in Hx.
      apply orb_true_iff in Hx.
      destruct Hx as [H|H]; apply andb_true_iff in H; destruct H as [H1 H2];
        apply Z.leb_le in H1, H2; lia.
    - apply Z.eqb_neq. intros ->. discriminate Hx. }
  rewrite Hx.
  assert (plain_head (w ++ rest)) as Hplain'.
  { destruct w as [|a' w']; cbn [app plain_head]; [exact Hplain|].
    cbn [forallb] in Hw. apply andb_true_iff in Hw.
    pose proof (alpha_range a' (proj1 Hw)). lia. }
  destruct (got_get_save lex e x _ Hgot Hplain')
    as (lex1 & Hget & Hgot1 & Hsv1 & _).
  rewrite Hget.
  assert (List.length w < lex_fuel lex1)%nat as Hfuel.
  { unfold lex_fuel. destruct (w ++ rest) as [|y r] eqn:E.
    - apply app_eq_nil in E. destruct E as [-> _]. simpl. lia.
    - rewrite (stream_weight_got _ _ _ Hgot1).
      apply (f_equal (@List.length Z)) in E. rewrite length_app in E.
      simpl in E. lia. }
  destruct (scan_alpha_got w _ lex1 e rest Hgot1 Hw Hrest Hplain Hfuel)
    as (lex2 & Hscan & Hgot2 & Hsv2).
  rewrite Hscan.
  assert (saved_text (lex_unget_unsave lex2 (cur rest)) = x :: w) as Hsaved.
  { rewrite Hsv1, Hsv in Hsv2.
    apply (lex_unget_unsave_saved lex2 (x :: w) (cur rest)).
    unfold saved_is. rewrite Hsv2. cbn [app]. f_equal.
    destruct w as [|a' w']; cbn [app cur skipn].
    - destruct rest as [|y r]; cbn [cur firstn app pending]; [reflexivity|].
      cbn [plain_head] in Hplain. rewrite pending_char by lia. reflexivity.
    - cbn [forallb] in Hw. apply andb_true_iff in Hw.
      pose proof (alpha_range a' (proj1 Hw)).
      rewrite pending_char by lia. cbn [app]. f_equal.
      assert (forall (l : list Z), l ++ firstn 1 rest = l ++ pending (cur rest))
        as Hl.
      { intros l. f_equal. destruct rest as [|y r]; [reflexivity|].
        cbn [plain_head cur firstn] in *. rewrite pending_char by lia.
        reflexivity. }
      apply Hl. }
  pose proof (unget_unsave_remaining _ _ Hgot2 Hplain Hnz) as Hrem.
  unfold strcmp0. rewrite Hsaved.
  rewrite (cstr_name (x :: w))
    by (cbn [forallb]; rewrite Hx, Hw; reflexivity).
  unfold name_token.
  repeat match goal with
         | |- context [if ?b then _ else _] => destruct b
         end; eexists; (split; [reflexivity|]); auto.
Qed.

(** *** Numbers *)

Lemma scan_token_number lex e x w rest real :
  got lex (x :: w ++ rest) -> saved_text lex = [x] ->
  number_literal (x :: w) real -> literal_ends rest -> cur rest <> 0 ->
  exists lex',
    scan_token x lex e
    = Done (let '(_, l, e') :=
              if real then finish_real (cur rest) lex' e
              else finish_integer (cur rest) lex' e in (l, e'))
    /\ saved_is lex' (x :: w) (cur rest)
    /\ token lex' = TOKEN_INVALID
    /\ remaining (stream (lex_unget_unsave lex' (cur rest))) rest.
Proof.
  intros Hgot Hsv Hlit Hends Hnz.
  assert (l_isdigit x = true \/ x = chr "-") as Hx.
  { destruct Hlit as (sign & int & frac & exp & E & Hsign & Hint & _).
    destruct Hsign as [->| ->].
    - pose proof (integer_part_head int (frac ++ exp) Hint) as Hh.
      cbn [app] in E. rewrite <- E in Hh. left. exact Hh.
    - injection E as -> _. right. reflexivity. }
  unfold scan_token.
  assert (is_punct x = false) as ->.
  { unfold is_punct.
    destruct Hx as [H| ->]; [apply digit_range in H|];
      repeat match goal with
             | |- context [?a =? ?b] =>
                 destruct (Z.eqb_spec a b) as [E|_];
                 [unfold chr in E; simpl in E; try lia; try discriminate E|]
             end; reflexivity. }
  assert ((x =? chr "034") = false) as ->.
  { apply Z.eqb_neq. destruct Hx as [H| ->]; [apply digit_range in H|];
      unfold chr; simpl; try lia; discriminate. }
  assert (l_isdigit x || (x =? chr "-") = true) as ->.
  { destruct Hx as [->| ->]; [reflexivity|]. apply orb_true_r. }
  assert (lex_at lex ((x :: w) ++ rest) []) as Hat.
  { destruct Hgot as (_ & Hok & Hview). cbn [app lex_at].
    split; [exact Hok|]. split; [exact Hview|exact Hsv]. }
  destruct (lex_scan_number_reading lex e (x :: w) rest real Hat
              (proj1 Hgot) Hlit Hends)
    as (lexN & HatN & HreadN & HtN & Hscan).
  cbn [app cur] in Hscan. rewrite Hscan. exists lexN.
  split.
  { destruct real; [destruct (finish_real _ _ _) as [[r l] e']
                   |destruct (finish_integer _ _ _) as [[r l] e']];
      reflexivity. }
  split; [apply lex_at_saved; [apply Hends|exact HatN]|].
  split; [exact HtN|].
  apply unget_unsave_remaining; [|apply Hends|exact Hnz].
  split; [exact HreadN|].
  destruct rest as [|y r]; [exact I|].
  destruct HatN as (H1 & H2 & _). auto.
Qed.

(** An integer in range: the token and its value. *)
Lemma scan_token_integer lex e x w rest v :
  got lex (x :: w ++ rest) -> saved_text lex = [x] ->
  number_literal (x :: w) false -> json_strtoint (x :: w) = (v, false) ->
  literal_ends rest -> cur rest <> 0 ->
  exists lex',
    scan_token x lex e = Done (lex', e)
    /\ token lex' = TOKEN_INTEGER /\ value lex' = ValInteger v
    /\ remaining (stream lex') rest.
Proof.
  intros Hgot Hsv Hlit Hv Hends Hnz.
  destruct (scan_token_number lex e x w rest false Hgot Hsv Hlit Hends Hnz)
    as (lexN & Hscan & Hs & Ht & Hrem).
  rewrite Hscan. unfold finish_integer.
  destruct (lex_unget_unsave_saved _ _ _ Hs) as (Hsaved & _).
  rewrite Hsaved, Hv.
  eexists. split; [reflexivity|]. split; [reflexivity|].
  split; [reflexivity|exact Hrem].
Qed.

(** *** Strings *)

(** The characters a string literal holds as they are: those of ASCII but
    the control characters, the double quote and the backslash. *)
Definition plain_char (c : Z) : bool :=
  (0x20 <=? c) && (c <? 0x80) && negb (c =? chr "034") && negb (c =? chr "\").

Definition plain_string (s : list Z) : Prop := forallb plain_char s = true.

Lemma plain_char_range c :
  plain_char c = true ->
  0x20 <= c < 0x80 /\ c <> chr "034" /\ c <> chr "\".
Proof.
  unfold plain_char. intros H.
  repeat (apply andb_true_iff in H; destruct H as [H ?]).
  apply Z.leb_le in H. apply Z.ltb_lt in H2.
  apply negb_true_iff, Z.eqb_neq in H0, H1. auto.
Qed.

Lemma scan_string_loop_plain s : forall fuel lex e rest,
  got lex (s ++ chr "034" :: rest) -> plain_string s ->
  (List.length s < fuel)%nat ->
  exists lex',
    scan_string_loop fuel (cur (s ++ chr "034" :: rest)) lex e
    = (true, lex', e)
    /\ got lex' (chr "034" :: rest)
    /\ saved_text lex'
       = saved_text lex ++ skipn 1 (s ++ [chr "034"])
    /\ token lex' = token lex.
Proof.
  induction s as [|a s IH]; intros fuel lex e rest Hgot Hs Hfuel.
  - destruct fuel; [simpl in Hfuel; lia|]. cbn [app cur scan_string_loop].
    rewrite Z.eqb_refl. exists lex. split; [reflexivity|].
    split; [exact Hgot|]. split; [|reflexivity].
    simpl. rewrite app_nil_r. reflexivity.
  - destruct fuel; [simpl in Hfuel; lia|].
    unfold plain_string in Hs. cbn [forallb] in Hs.
    apply andb_true_iff in Hs. destruct Hs as [Ha Hs].
    destruct (plain_char_range a Ha) as (Har & Hq & Hb).
    cbn [app cur scan_string_loop].
    apply Z.eqb_neq in Hq, Hb. rewrite Hq, Hb.
    assert ((a =? STREAM_STATE_ERROR) = false) as ->
      by (apply Z.eqb_neq; unfold STREAM_STATE_ERROR; lia).
    assert ((a =? STREAM_STATE_EOF) = false) as ->
      by (apply Z.eqb_neq; unfold STREAM_STATE_EOF; lia).
    assert ((0 <=? a) && (a <=? 31) = false) as ->.
    { apply andb_false_iff. right. apply Z.leb_gt. lia. }
    assert (plain_head (s ++ chr "034" :: rest)) as Hplain.
    { destruct s as [|a' s']; cbn [app plain_head];
        [unfold chr; simpl; lia|].
      cbn [forallb] in Hs. apply andb_true_iff in Hs.
      pose proof (plain_char_range a' (proj1 Hs)). lia. }
    destruct (got_get_save lex e a _ Hgot Hplain)
      as (lex1 & Hget & Hgot1 & Hsv1 & Ht1 & _).
    rewrite Hget.
    destruct (IH fuel lex1 e rest Hgot1 Hs ltac:(simpl in Hfuel; lia))
      as (lex' & Hloop & Hgot' & Hsv' & Ht').
    exists lex'. split; [exact Hloop|]. split; [exact Hgot'|].
    split; [|congruence].
    rewrite Hsv', Hsv1, <- app_assoc. f_equal.
    cbn [app skipn].
    destruct s as [|a' s']; cbn [app cur skipn].
    + rewrite pending_char by (unfold chr; simpl; lia). reflexivity.
    + cbn [forallb] in Hs. apply andb_true_iff in Hs.
      pose proof (plain_char_range a' (proj1 Hs)).
      rewrite pending_char by lia. reflexivity.
Qed.

Lemma decode_loop_plain s : forall t,
  plain_string s ->
  decode_loop (s ++ [chr "034"]) t = Done (inr (t ++ s)).
Proof.
  induction s as [|a s IH]; intros t Hs.
  - cbn [app decode_loop]. rewrite Z.eqb_refl, app_nil_r. reflexivity.
  - unfold plain_string in Hs. cbn [forallb] in Hs.
    apply andb_true_iff in Hs. destruct Hs as [Ha Hs].
    destruct (plain_char_range a Ha) as (Har & Hq & Hb).
    cbn [app decode_loop]. apply Z.eqb_neq in Hq, Hb. rewrite Hq, Hb.
    rewrite (IH _ Hs), <- app_assoc. reflexivity.
Qed.

Lemma scan_token_string lex e s rest :
  got lex (chr "034" :: s ++ chr "034" :: rest) ->
  saved_text lex = [chr "034"] -> plain_string s ->
  exists lex',
    scan_token (chr "034") lex e = Done (lex', e)
    /\ token lex' = TOKEN_STRING /\ value lex' = ValString (Some s)
    /\ remaining (stream lex') rest.
Proof.
  intros Hgot Hsv Hs. unfold scan_token.
  change (is_punct (chr "034")) with false.
  change (chr "034" =? chr "034") with true. cbv iota.
  unfold lex_scan_string.
  set (lex0 := set_token (set_value lex (ValString None)) TOKEN_INVALID).
  assert (got lex0 (chr "034" :: s ++ chr "034" :: rest)) as Hgot0
    by exact Hgot.
  assert (plain_head (s ++ chr "034" :: rest)) as Hplain.
  { destruct s as [|a' s']; cbn [app plain_head];
      [unfold chr; simpl; lia|].
    unfold plain_string in Hs.
    cbn [forallb] in Hs. apply andb_true_iff in Hs.
    pose proof (plain_char_range a' (proj1 Hs)). lia. }
  destruct (got_get_save lex0 e _ _ Hgot0 Hplain)
    as (lex1 & Hget & Hgot1 & Hsv1 & Ht1 & _).
  rewrite Hget.
  assert (List.length s < lex_fuel lex1)%nat as Hfuel.
  { unfold lex_fuel. destruct s as [|a s']; [simpl; lia|].
    cbn [app] in Hgot1. rewrite (stream_weight_got _ _ _ Hgot1).
    rewrite length_app. simpl. lia. }
  destruct (scan_string_loop_plain s _ lex1 e rest Hgot1 Hs Hfuel)
    as (lex2 & Hloop & Hgot2 & Hsv2 & Ht2).
  rewrite Hloop.
  assert (saved_text lex2 = chr "034" :: s ++ [chr "034"]) as Hsaved.
  { rewrite Hsv2, Hsv1. change (saved_text lex0) with (saved_text lex).
    rewrite Hsv. cbn [app]. f_equal.
    destruct s as [|a s']; cbn [app cur skipn].
    - rewrite pending_char by (unfold chr; simpl; lia). reflexivity.
    - unfold plain_string in Hs. cbn [forallb] in Hs.
      apply andb_true_iff in Hs.
      pose proof (plain_char_range a (proj1 Hs)).
      rewrite pending_char by lia. reflexivity. }
  rewrite Hsaved. cbn [advance].
  rewrite (decode_loop_plain s [] Hs). cbn [bind app].
  eexists. split; [reflexivity|]. split; [reflexivity|].
  split; [reflexivity|]. cbn [stream set_token set_value].
  exact (remaining_got _ _ _ Hgot2).
Qed.

End Tokens.


(** ** Texts and their tokens *)

(** The tokens of the lexer, with the values they carry. *)
Inductive tok : Type :=
| TPunct (c : Z)
| TString (s : list Z)
| TInteger (v : Z)
| TReal (r : real_t)
| TTrue
| TFalse
| TNull.

(** The texts of a token: a punctuation character; a string of plain
    characters between double quotes; a number literal with the value of the
    token; the words true, false and null. *)
Definition spelled (t : tok) (w : list Z) : Prop :=
  match t with
  | TPunct c => is_punct c = true /\ w = [c]
  | TString s => plain_string s /\ w = chr "034" :: s ++ [chr "034"]
  | TInteger v => number_literal w false /\ json_strtoint w = (v, false)
  | TReal r => number_literal w true /\ jsonp_strtod w = Some r
  | TTrue => w = bytes_of_string "true"
  | TFalse => w = bytes_of_string "false"
  | TNull => w = bytes_of_string "null"
  end.

(** The text is the tokens one after the other, with white space or none
    before each of them and at the end. *)
Fixpoint spells (toks : list tok) (text : list Z) : Prop :=
  match toks with
  | [] => forallb is_space text = true
  | t :: toks' =>
      exists ws w rest,
        text = ws ++ w ++ rest /\ forallb is_space ws = true
        /\ spelled t w /\ spells toks' rest
  end.

(** The lexer holds the token. *)
Definition holds (lex : lex_t) (t : tok) : Prop :=
  match t with
  | TPunct c => token lex = c
  | TString s => token lex = TOKEN_STRING /\ value lex = ValString (Some s)
  | TInteger v => token lex = TOKEN_INTEGER /\ value lex = ValInteger v
  | TReal r => token lex = TOKEN_REAL /\ value lex = ValReal r
  | TTrue => token lex = TOKEN_TRUE
  | TFalse => token lex = TOKEN_FALSE
  | TNull => token lex = TOKEN_NULL
  end.

(** A token that ends where the character after it says so is followed by
    punctuation or by nothing. *)
Definition closed_by (t : tok) (toks : list tok) : Prop :=
  match t with
  | TPunct _ | TString _ => True
  | _ =>
      match toks with
      | [] => True
      | TPunct _ :: _ => True
      | _ => False
      end
  end.

Section Spelling.

Context {header : jansson_h}.

(** The end, white space or punctuation. *)
Definition delimited (rest : list Z) : Prop :=
  match rest with
  | [] => True
  | x :: _ => is_space x = true \/ is_punct x = true
  end.

Lemma punct_range c : is_punct c = true -> 0 < c < 0x80.
Proof.
  unfold is_punct. intros H.
  repeat (apply orb_true_iff in H; destruct H as [H|H];
          [|apply Z.eqb_eq in H; subst c; unfold chr; simpl; lia]).
  apply Z.eqb_eq in H; subst c; unfold chr; simpl; lia.
Qed.

Lemma delimiter_cases x :
  is_space x = true \/ is_punct x = true ->
  0 < x < 0x80 /\ l_isdigit x = false /\ l_isalpha x = false
  /\ x <> chr "." /\ x <> chr "E" /\ x <> chr "e".
Proof.
  intros [H|H].
  - unfold is_space in H.
    repeat (apply orb_true_iff in H; destruct H as [H|H]);
      apply Z.eqb_eq in H; subst x; repeat split; vm_compute;
      try reflexivity; discriminate.
  - unfold is_punct in H.
    repeat (apply orb_true_iff in H; destruct H as [H|H]);
      apply Z.eqb_eq in H; subst x; repeat split; vm_compute;
      try reflexivity; discriminate.
Qed.

Lemma delimited_ends rest :
  delimited rest ->
  literal_ends rest /\ l_isalpha (cur rest) = false /\ cur rest <> 0.
Proof.
  destruct rest as [|x r]; cbn [delimited cur].
  - intros _. repeat split; discriminate.
  - intros H. destruct (delimiter_cases x H) as (H1 & H2 & H3 & H4 & H5 & H6).
    unfold literal_ends. cbn [plain_head cur].
    repeat split; auto; lia.
Qed.

Lemma spelled_punct_head c w rest :
  spelled (TPunct c) w -> delimited (w ++ rest).
Proof. intros [Hp ->]. cbn [app delimited]. right. exact Hp. Qed.

Lemma spells_delimited toks text :
  spells toks text ->
  match toks with
  | [] => True
  | TPunct _ :: _ => True
  | _ => False
  end ->
  delimited text.
Proof.
  destruct toks as [|t toks]; cbn [spells].
  - intros H _. destruct text as [|x r]; [exact I|].
    cbn [forallb] in H. apply andb_true_iff in H. left. apply H.
  - intros (ws & w & rest & -> & Hws & Hsp & _) Ht.
    destruct ws as [|x ws'].
    + destruct t; try contradiction. exact (spelled_punct_head _ _ _ Hsp).
    + cbn [forallb] in Hws. apply andb_true_iff in Hws. left. apply Hws.
Qed.

Lemma punct_not_space c : is_punct c = true -> is_space c = false.
Proof.
  unfold is_punct. intros H.
  repeat (apply orb_true_iff in H; destruct H as [H|H]);
    apply Z.eqb_eq in H; subst c; reflexivity.
Qed.

Lemma number_head w real :
  number_literal w real ->
  exists x w', w = x :: w' /\ 0 <= x < 0x80 /\ is_space x = false.
Proof.
  intros (sign & int & frac & exp & -> & Hsign & Hint & _).
  assert (forall x, l_isdigit x = true \/ x = chr "-" ->
                    0 <= x < 0x80 /\ is_space x = false) as Hd.
  { intros x [H| ->]; [|split; [unfold chr; simpl; lia|reflexivity]].
    apply digit_range in H. split; [lia|]. unfold is_space.
    repeat match goal with
           | |- context [?a =? ?b] =>
               destruct (Z.eqb_spec a b) as [E|_];
               [unfold chr in E; simpl in E; lia|]
           end. reflexivity. }
  destruct Hsign as [->| ->].
  - pose proof (integer_part_head int (frac ++ exp) Hint) as Hh.
    cbn [app]. destruct (int ++ frac ++ exp) as [|x w']; [discriminate Hh|].
    exists x, w'. split; [reflexivity|]. apply Hd. left. exact Hh.
  - cbn [app]. eexists _, _. split; [reflexivity|]. apply Hd. right.
    reflexivity.
Qed.

Lemma closed_delimited t toks rest :
  closed_by t toks -> spells toks rest ->
  match t with TPunct _ | TString _ => True | _ => delimited rest end.
Proof.
  intros Hc Hs.
  destruct t; try exact I; apply (spells_delimited toks rest Hs);
    cbn [closed_by] in Hc; destruct toks as [|[] ?]; auto.
Qed.

Lemma scan_word lex e ws (w : list Z) rest :
  remaining (stream lex) (ws ++ w ++ rest) ->
  forallb is_space ws = true ->
  name w -> delimited rest ->
  exists lex',
    lex_scan lex e = Done (lex', e)
    /\ token lex' = name_token w
    /\ saved_text lex' = w
    /\ remaining (stream lex') rest.
Proof.
  intros Hrem Hws Hname Hdel.
  destruct w as [|x w]; [destruct Hname as [N _]; contradiction|].
  pose proof Hname as [_ Halpha]. cbn [forallb] in Halpha.
  apply andb_true_iff in Halpha. destruct Halpha as [Hx _].
  pose proof (alpha_range x Hx) as Hxr.
  assert (is_space x = false) as Hsp.
  { unfold is_space, l_isalpha, l_isupper, l_islower, chr in *. simpl in *.
    repeat match goal with
           | |- context [?a =? ?b] =>
               destruct (Z.eqb_spec a b) as [E'|_];
               [subst x; discriminate Hx|]
           end. reflexivity. }
  cbn [app] in Hrem.
  destruct (lex_scan_first lex e ws x (w ++ rest) Hrem Hws Hsp ltac:(lia))
    as (lex1 & Hgot & Hsv & Hscan).
  destruct (delimited_ends rest Hdel) as ((Hplain & _) & Hna & Hnz).
  destruct (scan_token_name lex1 e x w rest Hgot Hsv Hname Hna Hplain Hnz)
    as (lex' & Htok & Ht & Hsaved & Hrem').
  exists lex'. rewrite Hscan. auto.
Qed.

(** The scan of a text that spells tokens gives the first of them, and
    leaves the text of the others. *)
Lemma scan_spelled lex e t toks text :
  remaining (stream lex) text -> spells (t :: toks) text ->
  closed_by t toks ->
  exists lex' rest,
    lex_scan lex e = Done (lex', e) /\ holds lex' t
    /\ remaining (stream lex') rest /\ spells toks rest.
Proof.
  intros Hrem (ws & w & rest & -> & Hws & Hsp & Hrest) Hclosed.
  pose proof (closed_delimited t toks rest Hclosed Hrest) as Hdel.
  destruct t as [c|s|v|r| | |]; cbn [spelled holds] in *.
  - destruct Hsp as [Hp ->]. cbn [app] in Hrem.
    pose proof (punct_range c Hp).
    destruct (lex_scan_first lex e ws c rest Hrem Hws
                (punct_not_space c Hp) ltac:(lia))
      as (lex1 & Hgot & _ & Hscan).
    destruct (scan_token_punct lex1 e c rest Hgot Hp)
      as (lex' & Htok & Ht & Hrem').
    exists lex', rest. rewrite Hscan. auto.
  - destruct Hsp as [Hs ->].
    cbn [app] in Hrem. rewrite <- app_assoc in Hrem. cbn [app] in Hrem.
    destruct (lex_scan_first lex e ws (chr "034")
                (s ++ chr "034" :: rest) Hrem Hws eq_refl
                ltac:(unfold chr; simpl; lia))
      as (lex1 & Hgot & Hsv & Hscan).
    destruct (scan_token_string lex1 e s rest Hgot Hsv Hs)
      as (lex' & Htok & Ht & Hv & Hrem').
    exists lex', rest. rewrite Hscan. auto.
  - destruct Hsp as [Hlit Hv].
    destruct (number_head w false Hlit) as (x & w' & -> & Hxr & Hsp).
    cbn [app] in Hrem.
    destruct (lex_scan_first lex e ws x (w' ++ rest) Hrem Hws Hsp Hxr)
      as (lex1 & Hgot & Hsv & Hscan).
    destruct (delimited_ends rest Hdel) as (Hends & _ & Hnz).
    destruct (scan_token_integer lex1 e x w' rest v Hgot Hsv Hlit Hv Hends
                Hnz) as (lex' & Htok & Ht & Hval & Hrem').
    exists lex', rest. rewrite Hscan. auto.
  - destruct Hsp as [Hlit Hv].
    destruct (number_head w true Hlit) as (x & w' & -> & Hxr & Hsp).
    cbn [app] in Hrem.
    destruct (lex_scan_first lex e ws x (w' ++ rest) Hrem Hws Hsp Hxr)
      as (lex1 & Hgot & Hsv & Hscan).
    destruct (delimited_ends rest Hdel) as (Hends & _ & Hnz).
    destruct (scan_token_number lex1 e x w' rest true Hgot Hsv Hlit Hends
                Hnz) as (lexN & Htok & Hs & Ht & Hrem').
    rewrite Hscan, Htok. unfold finish_real.
    destruct (lex_unget_unsave_saved _ _ _ Hs) as (Hsaved & _).
    rewrite Hsaved, Hv.
    eexists _, rest. split; [reflexivity|]. split; [split; reflexivity|].
    split; [exact Hrem'|exact Hrest].
  - subst w.
    destruct (scan_word lex e ws (bytes_of_string "true") rest Hrem Hws
                ltac:(split; [discriminate|reflexivity]) Hdel)
      as (lex' & Hscan & Ht & _ & Hrem').
    exists lex', rest. auto.
  - subst w.
    destruct (scan_word lex e ws (bytes_of_string "false") rest Hrem Hws
                ltac:(split; [discriminate|reflexivity]) Hdel)
      as (lex' & Hscan & Ht & _ & Hrem').
    exists lex', rest. auto.
  - subst w.
    destruct (scan_word lex e ws (bytes_of_string "null") rest Hrem Hws
                ltac:(split; [discriminate|reflexivity]) Hdel)
      as (lex' & Hscan & Ht & _ & Hrem').
    exists lex', rest. auto.
Qed.

Lemma scan_spelled_end lex e text :
  remaining (stream lex) text -> spells [] text ->
  exists lex',
    lex_scan lex e = Done (lex', e) /\ token lex' = TOKEN_EOF
    /\ remaining (stream lex') [].
Proof. intros Hrem Hs. exact (lex_scan_end lex e text Hrem Hs). Qed.

End Spelling.

(** ** Values and their texts *)

(** The token lists [l] with [sep] between them. *)
Fixpoint join (sep : tok) (l : list (list tok)) : list tok :=
  match l with
  | [] => []
  | x :: l' =>
      match l' with
      | [] => x
      | _ => x ++ sep :: join sep l'
      end
  end.

(** The tokens a value is written with. *)
Fixpoint tokens_of (v : json) : list tok :=
  match v with
  | JObject members =>
      TPunct (chr "{")
      :: join (TPunct (chr ","))
           (map (fun kv => TString (fst kv) :: TPunct (chr ":")
                           :: tokens_of (snd kv)) members)
      ++ [TPunct (chr "}")]
  | JArray elements =>
      TPunct (chr "[")
      :: join (TPunct (chr ",")) (map tokens_of elements)
      ++ [TPunct (chr "]")]
  | JString s => [TString s]
  | JInteger i => [TInteger i]
  | JReal r => [TReal r]
  | JTrue => [TTrue]
  | JFalse => [TFalse]
  | JNull => [TNull]
  end.

(** No object of the value has a key twice. *)
Fixpoint distinct_keys (v : json) : Prop :=
  match v with
  | JObject members =>
      NoDup (map fst members)
      /\ (fix all (m : list (list Z * json)) : Prop :=
            match m with
            | [] => True
            | kv :: m' => distinct_keys (snd kv) /\ all m'
            end) members
  | JArray elements =>
      (fix all (l : list json) : Prop :=
         match l with
         | [] => True
         | x :: l' => distinct_keys x /\ all l'
         end) elements
  | _ => True
  end.

Lemma json_induction (P : json -> Prop) :
  (forall members, Forall (fun kv => P (snd kv)) members ->
                   P (JObject members)) ->
  (forall elements, Forall P elements -> P (JArray elements)) ->
  (forall s, P (JString s)) -> (forall i, P (JInteger i)) ->
  (forall r, P (JReal r)) -> P JTrue -> P JFalse -> P JNull ->
  forall v, P v.
Proof.
  intros Hobj Harr Hstr Hint Hreal Htrue Hfalse Hnull.
  fix F 1. intros [members|elements|s|i|r| | |].
  - apply Hobj. induction members as [|[k x] m IH];
      constructor; [apply F|exact IH].
  - apply Harr. induction elements as [|x l IH];
      constructor; [apply F|exact IH].
  - apply Hstr.
  - apply Hint.
  - apply Hreal.
  - exact Htrue.
  - exact Hfalse.
  - exact Hnull.
Qed.

Section Decoding.

Context {header : jansson_h}.

(** Nothing, or punctuation first. *)
Definition follows (toks : list tok) : Prop :=
  match toks with
  | [] => True
  | TPunct _ :: _ => True
  | _ => False
  end.

(** The text of [v] is decoded to [v]: the scan of its first token and the
    parse that begins with that token, with what is left to read after
    it. *)
Definition decodes (v : json) : Prop :=
  forall toks' text lex e flags,
    spells (tokens_of v ++ toks') text -> follows toks' ->
    remaining (stream lex) text ->
    exists n lex1 lex' text',
      lex_scan lex e = Done (lex1, e)
      /\ (forall fuel, (n <= fuel)%nat ->
            parse_value fuel lex1 flags e = Done (Some v, lex', e))
      /\ remaining (stream lex') text' /\ spells toks' text'.

Ltac eval_eqb :=
  repeat match goal with
         | |- context [?a =? ?b] =>
             let v := eval vm_compute in (a =? b) in
             match v with
             | true => change (a =? b) with true
             | false => change (a =? b) with false
             end
         end; cbv iota; cbn [negb andb].

Lemma closed_follows t toks : follows toks -> closed_by t toks.
Proof. destruct t, toks as [|[] ?]; simpl; auto. Qed.

Lemma decodes_scalar v t :
  tokens_of v = [t] ->
  (forall lex fuel flags e,
     holds lex t -> parse_value (S fuel) lex flags e = Done (Some v, lex, e)) ->
  decodes v.
Proof.
  intros Htoks Hparse toks' text lex e flags Hs Hf Hrem.
  rewrite Htoks in Hs. cbn [app] in Hs.
  destruct (scan_spelled lex e t toks' text Hrem Hs (closed_follows _ _ Hf))
    as (lex1 & rest & Hscan & Hholds & Hrem1 & Hs1).
  exists 1%nat, lex1, lex1, rest. split; [exact Hscan|].
  split; [|auto]. intros [|fuel] Hfuel; [lia|]. apply Hparse. exact Hholds.
Qed.

Lemma parse_value_first fuel lex flags e v lex' e' :
  parse_value fuel lex flags e = Done (Some v, lex', e') -> token lex <> 0.
Proof.
  intros H E. destruct fuel; [discriminate H|]. cbn [parse_value] in H.
  rewrite E in H. revert H. eval_eqb. discriminate.
Qed.

Lemma all_distinct (l : list json) :
  (fix all (l : list json) : Prop :=
     match l with
     | [] => True
     | x :: l' => distinct_keys x /\ all l'
     end) l -> Forall distinct_keys l.
Proof.
  induction l as [|x l IH]; [constructor|]. intros [H1 H2].
  constructor; auto.
Qed.

Lemma all_distinct_members (m : list (list Z * json)) :
  (fix all (m : list (list Z * json)) : Prop :=
     match m with
     | [] => True
     | kv :: m' => distinct_keys (snd kv) /\ all m'
     end) m -> Forall (fun kv => distinct_keys (snd kv)) m.
Proof.
  induction m as [|x l IH]; [constructor|]. intros [H1 H2].
  constructor; auto.
Qed.

Lemma join_cons sep (x : list tok) y l :
  join sep (x :: y :: l) = x ++ sep :: join sep (y :: l).
Proof. reflexivity. Qed.

(** The elements of an array from the first token of one of them on. *)
Lemma array_loop_decodes flags : forall l x acc toks' text lex e,
  Forall (fun y => distinct_keys y -> decodes y) (x :: l) ->
  Forall distinct_keys (x :: l) ->
  spells (join (TPunct (chr ",")) (map tokens_of (x :: l))
          ++ TPunct (chr "]") :: toks') text ->
  remaining (stream lex) text ->
  exists n lex1 lex' text',
    lex_scan lex e = Done (lex1, e)
    /\ (forall fuel, (n <= fuel)%nat ->
          parse_array_loop fuel lex1 flags e (JArray acc)
          = Done (Some (JArray (acc ++ x :: l)), lex', e))
    /\ remaining (stream lex') text' /\ spells toks' text'.
Proof.
  induction l as [|y l IH]; intros x acc toks' text lex e Hdec Hdist Hs Hrem.
  - (* the last element *)
    inversion Hdec as [|? ? Hx _]; subst. inversion Hdist as [|? ? Hdx _]; subst.
    cbn [map join] in Hs.
    destruct (Hx Hdx (TPunct (chr "]") :: toks') text lex e flags Hs I Hrem)
      as (n & lex1 & lex2 & text2 & Hscan & Hval & Hrem2 & Hs2).
    destruct (scan_spelled lex2 e _ _ _ Hrem2 Hs2 I)
      as (lex3 & text3 & Hscan3 & Ht3 & Hrem3 & Hs3).
    cbn [holds] in Ht3.
    exists (S n), lex1, lex3, text3. split; [exact Hscan|].
    split; [|auto]. intros [|fuel] Hfuel; [lia|].
    pose proof (Hval fuel ltac:(lia)) as Hv.
    pose proof (parse_value_first _ _ _ _ _ _ _ Hv) as Hne.
    cbn [parse_array_loop]. apply Z.eqb_neq in Hne. rewrite Hne, Hv.
    cbn [bind]. unfold array_after_element. rewrite Hscan3. cbn [bind].
    rewrite Ht3. eval_eqb. reflexivity.
  - (* an element that another follows *)
    inversion Hdec as [|? ? Hx Hdec']; subst.
    inversion Hdist as [|? ? Hdx Hdist']; subst.
    cbn [map] in Hs. rewrite join_cons in Hs.
    rewrite <- app_assoc in Hs. cbn [app] in Hs.
    destruct (Hx Hdx _ text lex e flags Hs I Hrem)
      as (n & lex1 & lex2 & text2 & Hscan & Hval & Hrem2 & Hs2).
    destruct (scan_spelled lex2 e _ _ _ Hrem2 Hs2 I)
      as (lex3 & text3 & Hscan3 & Ht3 & Hrem3 & Hs3).
    cbn [holds] in Ht3.
    destruct (IH y (acc ++ [x]) toks' text3 lex3 e Hdec' Hdist' Hs3 Hrem3)
      as (n' & lex4 & lex5 & text5 & Hscan4 & Hloop & Hrem5 & Hs5).
    exists (S (Nat.max n n')), lex1, lex5, text5. split; [exact Hscan|].
    split; [|auto]. intros [|fuel] Hfuel; [lia|].
    pose proof (Hval fuel ltac:(lia)) as Hv.
    pose proof (parse_value_first _ _ _ _ _ _ _ Hv) as Hne.
    cbn [parse_array_loop]. apply Z.eqb_neq in Hne. rewrite Hne, Hv.
    cbn [bind]. unfold array_after_element. rewrite Hscan3. cbn [bind].
    rewrite Ht3. eval_eqb. rewrite Hscan4. cbn [bind json_array_append].
    rewrite (Hloop fuel ltac:(lia)). rewrite <- app_assoc. reflexivity.
Qed.

Lemma members_get_absent (acc : list (list Z * json)) (k : list Z) :
  ~ In k (map fst acc) -> members_get acc k = None.
Proof.
  induction acc as [|[k0 v0] acc IH]; [reflexivity|]. cbn [map fst In].
  intros N. cbn [members_get].
  rewrite bytes_eqb_neq by (intros E; apply N; left; exact E).
  apply IH. intros H. apply N. right. exact H.
Qed.

Lemma members_set_absent (acc : list (list Z * json)) (k : list Z) v :
  ~ In k (map fst acc) -> members_set acc k v = acc ++ [(k, v)].
Proof.
  induction acc as [|[k0 v0] acc IH]; [reflexivity|]. cbn [map fst In].
  intros N. cbn [members_set app].
  rewrite bytes_eqb_neq by (intros E; apply N; left; exact E).
  rewrite IH; [reflexivity|]. intros H. apply N. right. exact H.
Qed.

Lemma NoDup_middle (A : Type) (a : list A) (x : A) (b : list A) :
  NoDup (a ++ x :: b) -> ~ In x a /\ NoDup ((a ++ [x]) ++ b).
Proof.
  intros H. split.
  - apply NoDup_remove_2 in H. intros Hin. apply H. apply in_or_app.
    left. exact Hin.
  - rewrite <- app_assoc. exact H.
Qed.

(** The tokens of a member. *)
Definition member_tokens (kv : list Z * json) : list tok :=
  TString (fst kv) :: TPunct (chr ":") :: tokens_of (snd kv).

(** The members of an object from the key of one of them on. *)
Lemma object_loop_decodes flags : forall m kx acc toks' text lex e,
  Forall (fun kv => distinct_keys (snd kv) -> decodes (snd kv)) (kx :: m) ->
  Forall (fun kv => distinct_keys (snd kv)) (kx :: m) ->
  NoDup (map fst (acc ++ kx :: m)) ->
  spells (join (TPunct (chr ",")) (map member_tokens (kx :: m))
          ++ TPunct (chr "}") :: toks') text ->
  remaining (stream lex) text ->
  exists n lex1 lex' text',
    lex_scan lex e = Done (lex1, e)
    /\ (forall fuel, (n <= fuel)%nat ->
          parse_object_loop fuel lex1 flags e (JObject acc)
          = Done (Some (JObject (acc ++ kx :: m)), lex', e))
    /\ remaining (stream lex') text' /\ spells toks' text'.
Proof.
  induction m as [|ky m IH];
    intros [k x] acc toks' text lex e Hdec Hdist Hnd Hs Hrem.
  - (* the last member *)
    inversion Hdec as [|? ? Hx _]; subst. inversion Hdist as [|? ? Hdx _]; subst.
    cbn [snd] in Hx, Hdx.
    cbn [map join member_tokens fst snd app] in Hs.
    destruct (scan_spelled lex e _ _ _ Hrem Hs I)
      as (lex1 & text1 & Hscan1 & [Ht1 Hv1] & Hrem1 & Hs1).
    assert (remaining (stream (set_value lex1 (ValString None))) text1)
      as Hrem0 by exact Hrem1.
    destruct (scan_spelled _ e _ _ _ Hrem0 Hs1 I)
      as (lex2 & text2 & Hscan2 & Ht2 & Hrem2 & Hs2).
    cbn [holds] in Ht2.
    destruct (Hx Hdx (TPunct (chr "}") :: toks') text2 lex2 e flags Hs2 I Hrem2)
      as (n & lex3 & lex4 & text4 & Hscan3 & Hval & Hrem4 & Hs4).
    destruct (scan_spelled lex4 e _ _ _ Hrem4 Hs4 I)
      as (lex5 & text5 & Hscan5 & Ht5 & Hrem5 & Hs5).
    cbn [holds] in Ht5.
    rewrite map_app in Hnd. cbn [map fst] in Hnd.
    destruct (NoDup_middle _ _ _ _ Hnd) as [Hnew _].
    exists (S n), lex1, lex5, text5. split; [exact Hscan1|].
    split; [|auto]. intros [|fuel] Hfuel; [lia|].
    cbn [parse_object_loop]. rewrite Ht1. eval_eqb.
    unfold lex_steal_string. rewrite Ht1, Hv1. eval_eqb.
    unfold has_key. cbn [json_object_get].
    rewrite (members_get_absent _ _ Hnew), andb_false_r.
    unfold object_member. rewrite Hscan2. cbn [bind]. rewrite Ht2. eval_eqb.
    rewrite Hscan3. cbn [bind]. rewrite (Hval fuel ltac:(lia)). cbn [bind].
    unfold object_after_member. rewrite Hscan5. cbn [bind]. rewrite Ht5.
    eval_eqb. cbn [json_object_set_nocheck].
    rewrite (members_set_absent _ _ _ Hnew). reflexivity.
  - (* a member that another follows *)
    inversion Hdec as [|? ? Hx Hdec']; subst.
    inversion Hdist as [|? ? Hdx Hdist']; subst.
    cbn [snd] in Hx, Hdx.
    cbn [map] in Hs. rewrite join_cons in Hs.
    cbn [member_tokens fst snd app] in Hs.
    rewrite <- app_assoc in Hs. cbn [app] in Hs.
    destruct (scan_spelled lex e _ _ _ Hrem Hs I)
      as (lex1 & text1 & Hscan1 & [Ht1 Hv1] & Hrem1 & Hs1).
    assert (remaining (stream (set_value lex1 (ValString None))) text1)
      as Hrem0 by exact Hrem1.
    destruct (scan_spelled _ e _ _ _ Hrem0 Hs1 I)
      as (lex2 & text2 & Hscan2 & Ht2 & Hrem2 & Hs2).
    cbn [holds] in Ht2.
    destruct (Hx Hdx _ text2 lex2 e flags Hs2 I Hrem2)
      as (n & lex3 & lex4 & text4 & Hscan3 & Hval & Hrem4 & Hs4).
    destruct (scan_spelled lex4 e _ _ _ Hrem4 Hs4 I)
      as (lex5 & text5 & Hscan5 & Ht5 & Hrem5 & Hs5).
    cbn [holds] in Ht5.
    rewrite map_app in Hnd. cbn [map fst] in Hnd.
    destruct (NoDup_middle _ _ _ _ Hnd) as [Hnew Hnd'].
    assert (NoDup (map fst ((acc ++ [(k, x)]) ++ ky :: m))) as Hnd''.
    { rewrite !map_app. cbn [map fst] in *. exact Hnd'. }
    destruct (IH ky (acc ++ [(k, x)]) toks' text5 lex5 e Hdec' Hdist' Hnd''
                Hs5 Hrem5)
      as (n' & lex6 & lex7 & text7 & Hscan6 & Hloop & Hrem7 & Hs7).
    exists (S (Nat.max n n')), lex1, lex7, text7. split; [exact Hscan1|].
    split; [|auto]. intros [|fuel] Hfuel; [lia|].
    cbn [parse_object_loop]. rewrite Ht1. eval_eqb.
    unfold lex_steal_string. rewrite Ht1, Hv1. eval_eqb.
    unfold has_key. cbn [json_object_get].
    rewrite (members_get_absent _ _ Hnew), andb_false_r.
    unfold object_member. rewrite Hscan2. cbn [bind]. rewrite Ht2. eval_eqb.
    rewrite Hscan3. cbn [bind]. rewrite (Hval fuel ltac:(lia)). cbn [bind].
    unfold object_after_member. rewrite Hscan5. cbn [bind]. rewrite Ht5.
    eval_eqb. rewrite Hscan6. cbn [bind json_object_set_nocheck].
    rewrite (members_set_absent _ _ _ Hnew).
    rewrite (Hloop fuel ltac:(lia)). rewrite <- app_assoc. reflexivity.
Qed.

Lemma parse_array_loop_first fuel lex flags e a v lex' e' :
  parse_array_loop fuel lex flags e a = Done (Some v, lex', e') ->
  token lex <> chr "]".
Proof.
  intros H E. destruct fuel as [|[|fuel]]; [discriminate H| |];
    cbn [parse_array_loop parse_value] in H; rewrite E in H; revert H;
    eval_eqb; cbn [bind fail]; discriminate.
Qed.

(** Every value without an object that has a key twice is decoded from
    its text. *)
Lemma distinct_decodes v : distinct_keys v -> decodes v.
Proof.
  induction v as [members IH|elements IH|s|i|r| | |] using json_induction;
    intros Hd.
  - (* objects *)
    intros toks' text lex e flags Hs Hf Hrem.
    cbn [tokens_of app] in Hs.
    destruct (scan_spelled lex e _ _ _ Hrem Hs I)
      as (lex1 & text1 & Hscan1 & Ht1 & Hrem1 & Hs1).
    cbn [holds] in Ht1. cbn [distinct_keys] in Hd. destruct Hd as [Hnd Hall].
    apply all_distinct_members in Hall.
    destruct members as [|kx m].
    + cbn [map join app] in Hs1.
      destruct (scan_spelled lex1 e _ _ _ Hrem1 Hs1 I)
        as (lex2 & text2 & Hscan2 & Ht2 & Hrem2 & Hs2).
      cbn [holds] in Ht2.
      exists 2%nat, lex1, lex2, text2. split; [exact Hscan1|].
      split; [|auto]. intros [|[|fuel]] Hfuel; try lia.
      cbn [parse_value]. rewrite Ht1. eval_eqb.
      cbn [parse_object]. rewrite Hscan2. cbn [bind]. rewrite Ht2. eval_eqb.
      reflexivity.
    + rewrite <- app_assoc in Hs1. cbn [app] in Hs1.
      destruct (object_loop_decodes flags m kx [] toks' text1 lex1 e IH Hall
                  Hnd Hs1 Hrem1)
        as (n & lex2 & lex3 & text3 & Hscan2 & Hloop & Hrem3 & Hs3).
      exists (S (S n)), lex1, lex3, text3. split; [exact Hscan1|].
      split; [|auto]. intros [|[|fuel]] Hfuel; try lia.
      cbn [parse_value]. rewrite Ht1. eval_eqb.
      cbn [parse_object]. rewrite Hscan2. cbn [bind].
      pose proof (Hloop fuel ltac:(lia)) as Hl.
      assert (token lex2 = TOKEN_STRING) as Ht2.
      { destruct fuel; [discriminate Hl|]. cbn [parse_object_loop] in Hl.
        destruct (Z.eqb_spec (token lex2) TOKEN_STRING) as [E|N];
          [exact E|discriminate Hl]. }
      rewrite Ht2. eval_eqb. exact Hl.
  - (* arrays *)
    intros toks' text lex e flags Hs Hf Hrem.
    cbn [tokens_of app] in Hs.
    destruct (scan_spelled lex e _ _ _ Hrem Hs I)
      as (lex1 & text1 & Hscan1 & Ht1 & Hrem1 & Hs1).
    cbn [holds] in Ht1. cbn [distinct_keys] in Hd.
    apply all_distinct in Hd.
    destruct elements as [|x l].
    + cbn [map join app] in Hs1.
      destruct (scan_spelled lex1 e _ _ _ Hrem1 Hs1 I)
        as (lex2 & text2 & Hscan2 & Ht2 & Hrem2 & Hs2).
      cbn [holds] in Ht2.
      exists 2%nat, lex1, lex2, text2. split; [exact Hscan1|].
      split; [|auto]. intros [|[|fuel]] Hfuel; try lia.
      cbn [parse_value]. rewrite Ht1. eval_eqb.
      cbn [parse_array]. rewrite Hscan2. cbn [bind]. rewrite Ht2. eval_eqb.
      reflexivity.
    + rewrite <- app_assoc in Hs1. cbn [app] in Hs1.
      destruct (array_loop_decodes flags l x [] toks' text1 lex1 e IH Hd
                  Hs1 Hrem1)
        as (n & lex2 & lex3 & text3 & Hscan2 & Hloop & Hrem3 & Hs3).
      exists (S (S n)), lex1, lex3, text3. split; [exact Hscan1|].
      split; [|auto]. intros [|[|fuel]] Hfuel; try lia.
      cbn [parse_value]. rewrite Ht1. eval_eqb.
      cbn [parse_array]. rewrite Hscan2. cbn [bind].
      pose proof (Hloop fuel ltac:(lia)) as Hl.
      pose proof (parse_array_loop_first _ _ _ _ _ _ _ _ Hl) as Ht2.
      apply Z.eqb_neq in Ht2. rewrite Ht2. exact Hl.
  - apply (decodes_scalar _ (TString s)); [reflexivity|].
    intros lex fuel flags e [Ht Hv]. cbn [parse_value]. rewrite Ht. eval_eqb.
    unfold lex_string. rewrite Hv. reflexivity.
  - apply (decodes_scalar _ (TInteger i)); [reflexivity|].
    intros lex fuel flags e [Ht Hv]. cbn [parse_value]. rewrite Ht. eval_eqb.
    unfold lex_integer. rewrite Hv. reflexivity.
  - apply (decodes_scalar _ (TReal r)); [reflexivity|].
    intros lex fuel flags e [Ht Hv]. cbn [parse_value]. rewrite Ht. eval_eqb.
    unfold lex_real. rewrite Hv. reflexivity.
  - apply (decodes_scalar _ TTrue); [reflexivity|].
    intros lex fuel flags e Ht. cbn [holds] in Ht. cbn [parse_value].
    rewrite Ht. eval_eqb. reflexivity.
  - apply (decodes_scalar _ TFalse); [reflexivity|].
    intros lex fuel flags e Ht. cbn [holds] in Ht. cbn [parse_value].
    rewrite Ht. eval_eqb. reflexivity.
  - apply (decodes_scalar _ TNull); [reflexivity|].
    intros lex fuel flags e Ht. cbn [holds] in Ht. cbn [parse_value].
    rewrite Ht. eval_eqb. reflexivity.
Qed.

End Decoding.

Section RoundTrip.

Context {header : jansson_h}.

Definition is_container (v : json) : bool :=
  match v with
  | JObject _ | JArray _ => true
  | _ => false
  end.

Lemma stream_init_remaining (text : list Z) :
  remaining (stream_init text) text.
Proof. split; [apply stream_init_wf|]. left. split; reflexivity. Qed.

Lemma container_token v toks :
  is_container v = true ->
  exists c toks', tokens_of v ++ toks = TPunct c :: toks'
                  /\ (c = chr "[" \/ c = chr "{").
Proof.
  destruct v; try discriminate; intros _; cbn [tokens_of app];
    eexists _, _; (split; [reflexivity|]); auto.
Qed.

(** X8: the decoder decodes what is written.  For a value none of whose
    objects has a key twice, and a text that is its tokens in order, with
    white space or none before each of them and at the end (strings of
    plain ASCII characters between double quotes, numbers as literals of
    the grammar with their value in range, the names true, false and null,
    and the punctuation of arrays and objects), [json_loadb] returns the
    value, for every setting of the flags that allows it at the top level;
    the error record is as it was initialised, but for the offset. *)
Theorem json_loadb_decodes (v : json) (text : list Z) (flags : Z)
    (error : option json_error_t) :
  distinct_keys v -> spells (tokens_of v) text ->
  flag_set flags JSON_DECODE_ANY = true \/ is_container v = true ->
  exists lex',
    json_loadb text flags error
    = Done (Some v, lex',
            set_error_position (jsonp_error_init error "<buffer>")
              (position (stream lex'))).
Proof.
  intros Hd Hs Htop. unfold json_loadb.
  set (e0 := jsonp_error_init error "<buffer>").
  pose proof (stream_init_remaining text) as Hrem.
  change (stream_init text) with (stream (lex_init text)) in Hrem.
  rewrite <- (app_nil_r (tokens_of v)) in Hs.
  destruct (distinct_decodes v Hd [] text (lex_init text) e0 flags Hs I Hrem)
    as (n & lex1 & lex2 & text2 & Hscan & Hval & Hrem2 & Hs2).
  unfold parse_json. rewrite Hscan. cbn [bind].
  assert (negb (flag_set flags JSON_DECODE_ANY)
          && (negb (token lex1 =? chr "[") && negb (token lex1 =? chr "{"))
          = false) as ->.
  { destruct Htop as [->|Hc]; [reflexivity|].
    destruct (container_token v [] Hc) as (c & toks' & E & Hc').
    rewrite E in Hs.
    destruct (scan_spelled (lex_init text) e0 _ _ _ Hrem Hs I)
      as (lex1' & rest & Hscan' & Ht & _).
    rewrite Hscan in Hscan'. injection Hscan' as <-. cbn [holds] in Ht.
    rewrite Ht. destruct Hc' as [->| ->];
      [rewrite andb_false_r|rewrite !andb_false_r]; reflexivity. }
  assert (stream_wf (stream lex1)) as Hwf1.
  { pose proof (lex_scan_left (lex_init text) e0 (stream_init_wf text)) as H.
    rewrite Hscan in H. apply H. }
  rewrite <- (parse_value_fuel (Nat.max n (parse_fuel lex1)) lex1 flags e0
                Hwf1 ltac:(lia)).
  rewrite (Hval (Nat.max n (parse_fuel lex1)) ltac:(lia)). cbn [bind].
  destruct (flag_set flags JSON_DISABLE_EOF_CHECK); cbn [negb].
  - exists lex2. reflexivity.
  - destruct (scan_spelled_end lex2 e0 text2 Hrem2 Hs2)
      as (lex3 & Hscan3 & Ht3 & _).
    rewrite Hscan3. cbn [bind]. rewrite Ht3.
    change (TOKEN_EOF =? TOKEN_EOF) with true. cbn [negb].
    exists lex3. reflexivity.
Qed.

End RoundTrip.


(** ** The results of the stream, of the scanner and of the decoder *)

Section Results.

Context {header : jansson_h}.

(** X1: the value [stream_get] returns and the state it leaves agree.  A
    sentinel that is returned is the state of the stream from then on; a
    byte is returned only by a stream in the state Ok, which stays in it,
    and with the error record untouched; the end of the input leaves the
    error record untouched as well.  The stream stays well formed. *)
Theorem stream_get_returns (to_lex : stream_t -> lex_t) (s : stream_t)
    (error : option json_error_t) c s' error' :
  stream_wf s ->
  stream_get to_lex s error = (c, s', error') ->
  stream_wf s'
  /\ (is_sentinel c = true -> state s' = c)
  /\ (is_sentinel c = false ->
      is_byte c /\ state s = STREAM_STATE_OK /\ state s' = STREAM_STATE_OK
      /\ error' = error)
  /\ (c = STREAM_STATE_EOF -> error' = error).
Proof. apply stream_get_result. Qed.

(** X9: the tokens of [lex_scan].  A scan gives INVALID, EOF, one of the
    six punctuation characters or one of the six tokens of a scalar, and
    EOF only with the stream at the end of its input.  With a token other
    than INVALID the error record is as it was, unless the stream has met
    a byte it cannot decode; a STRING token has its string, so that the
    parser's test of a missing key never fires; and once the stream is in
    the state Error every scan gives INVALID. *)
Theorem lex_scan_tokens (lex : lex_t) (e : option json_error_t) lex' e' :
  stream_wf (stream lex) ->
  lex_scan lex e = Done (lex', e') ->
  (token lex' = TOKEN_INVALID \/ token lex' = TOKEN_EOF
   \/ is_punct (token lex') = true \/ In (token lex') scalar_tokens)
  /\ (token lex' = TOKEN_EOF -> state (stream lex') = STREAM_STATE_EOF)
  /\ (token lex' <> TOKEN_INVALID ->
      e' = e \/ state (stream lex') = STREAM_STATE_ERROR)
  /\ (token lex' = TOKEN_STRING -> exists t, value lex' = ValString (Some t))
  /\ (state (stream lex) = STREAM_STATE_ERROR -> token lex' = TOKEN_INVALID).
Proof.
  intros Hwf H.
  destruct (lex_scan_after lex e lex' e' Hwf H) as (_ & _ & Ht & Hv & He).
  split; [|split; [|split; [|split; [exact Hv|exact He]]]].
  - destruct Ht as [Ht|[(Ht & _)|[(Ht & _)|(Ht & _)]]]; auto.
  - intros E.
    destruct Ht as [Ht|[(_ & _ & Ht)|[(Ht & _)|(Ht & _)]]];
      [rewrite E in Ht; discriminate Ht|exact Ht
      |rewrite E in Ht; discriminate Ht|].
    rewrite E in Ht. cbn [In scalar_tokens] in Ht.
    repeat (destruct Ht as [Ht|Ht]; [discriminate Ht|]). contradiction.
  - intros N.
    destruct Ht as [Ht|[(_ & Ht & _)|[(_ & Ht)|(_ & Ht)]]]; auto.
    contradiction.
Qed.

(** X10: the names of the scanner.  A run of ASCII letters after white
    space, up to the end of the input, white space or punctuation, is
    scanned whole: the token is TRUE, FALSE or NULL when the run is exactly
    that word in lower case, and INVALID for every other run; the saved
    text is the run, the error record is untouched and the stream is left
    at the character after the run. *)
Theorem lex_scan_name (lex : lex_t) (e : option json_error_t)
    (ws w rest : list Z) :
  remaining (stream lex) (ws ++ w ++ rest) ->
  forallb is_space ws = true ->
  name w -> delimited rest ->
  exists lex',
    lex_scan lex e = Done (lex', e)
    /\ token lex' = name_token w
    /\ saved_text lex' = w
    /\ remaining (stream lex') rest.
Proof. apply scan_word. Qed.


End Results.

(** ** The further properties at concrete inputs *)

Lemma stream_get_returns_witness :
  stream_wf (stream_init (bytes_of_string "a"))
  /\ (let '(c, s', e') :=
        stream_get (set_stream (lex_init [])) (stream_init (bytes_of_string "a"))
          (Some no_error) in
      c = chr "a" /\ state s' = STREAM_STATE_OK /\ e' = Some no_error).
Proof.
  pose proof (stream_init_wf (bytes_of_string "a")) as Hwf.
  split; [exact Hwf|].
  destruct (stream_get (set_stream (lex_init []))
              (stream_init (bytes_of_string "a")) (Some no_error))
    as [[c s'] e'] eqn:Hget.
  pose proof (stream_get_returns _ _ _ _ _ _ Hwf Hget) as (_ & _ & Hbyte & _).
  vm_compute in Hget. injection Hget as <- <- <-.
  destruct (Hbyte eq_refl) as (_ & _ & Hst & He).
  split; [reflexivity|]. split; [exact Hst|exact He].
Defined.

Lemma stream_get_unget_get_witness :
  stream_wf (stream_init (bytes_of_string "a"))
  /\ (let '(c, s', e') :=
        stream_get (set_stream (lex_init [])) (stream_init (bytes_of_string "a"))
          (Some no_error) in
      is_sentinel c = false /\ c <> 0
      /\ stream_get (set_stream (lex_init [])) (stream_unget s' c) e'
         = (c, s', e')).
Proof.
  pose proof (stream_init_wf (bytes_of_string "a")) as Hwf.
  split; [exact Hwf|].
  destruct (stream_get (set_stream (lex_init []))
              (stream_init (bytes_of_string "a")) (Some no_error))
    as [[c s'] e'] eqn:Hget.
  pose proof (stream_get_unget_get _ _ _ _ _ _ Hwf Hget) as H.
  assert (c = chr "a") as Hc
    by (vm_compute in Hget; injection Hget as <- _ _; reflexivity).
  assert (is_sentinel c = false) as Hs by (rewrite Hc; reflexivity).
  assert (c <> 0) as Hnz by (rewrite Hc; discriminate).
  split; [exact Hs|]. split; [exact Hnz|exact (H Hs Hnz)].
Defined.

Lemma stream_unget_nul_witness :
  stream_wf (stream_init [0; chr "a"])
  /\ (let '(c, s', e') :=
        stream_get (set_stream (lex_init [])) (stream_init [0; chr "a"])
          (Some no_error) in
      c = 0 /\ data s' = [chr "a"] /\ 0 < chr "a" < 0x80
      /\ exists s2,
           stream_get (set_stream (lex_init [])) (stream_unget s' 0) e'
           = (chr "a", s2, e')
           /\ data s2 = [] /\ position s2 = position s').
Proof.
  pose proof (stream_init_wf [0; chr "a"]) as Hwf.
  split; [exact Hwf|].
  destruct (stream_get (set_stream (lex_init [])) (stream_init [0; chr "a"])
              (Some no_error))
    as [[c s'] e'] eqn:Hget.
  assert (c = 0 /\ data s' = [chr "a"]) as (Hc & Hd)
    by (vm_compute in Hget; injection Hget as <- <- _; split; reflexivity).
  assert (0 < chr "a" < 0x80) as Hx by (unfold chr; simpl; lia).
  rewrite Hc in Hget.
  split; [exact Hc|]. split; [exact Hd|]. split; [exact Hx|].
  exact (stream_unget_nul _ _ _ _ _ _ _ Hwf Hget Hd Hx).
Defined.

Lemma stream_get_error_witness :
  stream_wf (stream_init [0xFF])
  /\ state (stream_init [0xFF]) = STREAM_STATE_OK
  /\ (let '(c, s', e') :=
        stream_get (set_stream (lex_init [])) (stream_init [0xFF])
          (Some no_error) in
      c = STREAM_STATE_ERROR
      /\ state s' = STREAM_STATE_ERROR /\ position s' = 0
      /\ exists b rest,
           [0xFF] = b :: rest
           /\ e' = error_set (Some no_error) (Some (set_stream (lex_init []) s'))
                     ("unable to decode byte 0x" ++ fmt_x b)%string).
Proof.
  pose proof (stream_init_wf [0xFF]) as Hwf.
  split; [exact Hwf|]. split; [reflexivity|].
  destruct (stream_get (set_stream (lex_init [])) (stream_init [0xFF])
              (Some no_error))
    as [[c s'] e'] eqn:Hget.
  assert (c = STREAM_STATE_ERROR) as Hc
    by (vm_compute in Hget; injection Hget as <- _ _; reflexivity).
  rewrite Hc in Hget. split; [exact Hc|].
  destruct (stream_get_error _ _ _ _ _ Hwf eq_refl Hget)
    as (b & rest & Hd & _ & _ & _ & Hst & _ & _ & Hp & He).
  split; [exact Hst|]. split; [exact Hp|].
  exists b, rest. split; [exact Hd|exact He].
Defined.

Lemma lex_get_save_unget_unsave_witness :
  stream_wf (stream (lex_init (bytes_of_string "a")))
  /\ (let '(c, lex', e') :=
        lex_get_save (lex_init (bytes_of_string "a")) (Some no_error) in
      is_sentinel c = false
      /\ fst (strbuffer_pop (saved_text lex')) = c
      /\ saved_text (lex_unget_unsave lex' c) = []
      /\ (c <> 0 ->
          lex_get_save (lex_unget_unsave lex' c) e' = (c, lex', e'))).
Proof.
  pose proof (stream_init_wf (bytes_of_string "a")) as Hwf.
  change (stream_init (bytes_of_string "a"))
    with (stream (lex_init (bytes_of_string "a"))) in Hwf.
  split; [exact Hwf|].
  destruct (lex_get_save (lex_init (bytes_of_string "a")) (Some no_error))
    as [[c lex'] e'] eqn:Hget.
  assert (c = chr "a") as Hc
    by (vm_compute in Hget; injection Hget as <- _ _; reflexivity).
  assert (is_sentinel c = false) as Hs by (rewrite Hc; reflexivity).
  split; [exact Hs|].
  exact (lex_get_save_unget_unsave _ _ _ _ _ Hwf Hget Hs).
Defined.

Lemma json_loadb_null_witness :
  (1 < @JSON_ERROR_TEXT_LENGTH jansson_2)%nat
  /\ match json_loadb [] 0 (Some no_error) with
     | Done (None, _, Some e1) => e_text e1 <> EmptyString
     | _ => False
     end.
Proof.
  assert (1 < @JSON_ERROR_TEXT_LENGTH jansson_2)%nat as HN
    by (vm_compute; lia).
  split; [exact HN|].
  destruct (json_loadb [] 0 (Some no_error)) as [[[v lex'] e']| |] eqn:H;
    [|vm_compute in H; discriminate H|vm_compute in H; discriminate H].
  assert (v = None) as Hv
    by (vm_compute in H; injection H as <- _ _; reflexivity).
  rewrite Hv in H.
  destruct (json_loadb_null _ _ _ _ _ HN H) as (e1 & He & Hne).
  rewrite Hv, He. exact Hne.
Defined.

Lemma json_loadb_value_witness :
  flag_set 0 JSON_DISABLE_EOF_CHECK = false
  /\ match json_loadb (json_text "[]") 0 (Some no_error) with
     | Done (Some _, lex', e') =>
         e' = Some (mk_error (-1) (-1) (position (stream lex')) "<buffer>"
                      EmptyString)
     | _ => False
     end.
Proof.
  split; [reflexivity|].
  destruct (json_loadb (json_text "[]") 0 (Some no_error))
    as [[[v lex'] e']| |] eqn:H;
    [|vm_compute in H; discriminate H|vm_compute in H; discriminate H].
  destruct v as [v|]; [|vm_compute in H; discriminate H].
  exact (json_loadb_value (json_text "[]") 0 no_error v lex' e' eq_refl H).
Defined.

Lemma lex_scan_tokens_witness :
  stream_wf (stream (lex_init (json_text "'a'")))
  /\ match lex_scan (lex_init (json_text "'a'")) (Some no_error) with
     | Done (lex', e') =>
         token lex' = TOKEN_STRING
         /\ exists t, value lex' = ValString (Some t)
     | _ => False
     end.
Proof.
  pose proof (stream_init_wf (json_text "'a'")) as Hwf.
  change (stream_init (json_text "'a'"))
    with (stream (lex_init (json_text "'a'"))) in Hwf.
  split; [exact Hwf|].
  destruct (lex_scan (lex_init (json_text "'a'")) (Some no_error))
    as [[lex' e']| |] eqn:H;
    [|vm_compute in H; discriminate H|vm_compute in H; discriminate H].
  assert (token lex' = TOKEN_STRING) as Ht
    by (vm_compute in H; injection H as <- _; reflexivity).
  destruct (lex_scan_tokens _ _ _ _ Hwf H) as (_ & _ & _ & Hv & _).
  split; [exact Ht|exact (Hv Ht)].
Defined.

Lemma lex_scan_name_witness :
  remaining (stream (lex_init (bytes_of_string " nul,")))
    (bytes_of_string " " ++ bytes_of_string "nul" ++ bytes_of_string ",")
  /\ forallb is_space (bytes_of_string " ") = true
  /\ name (bytes_of_string "nul")
  /\ delimited (bytes_of_string ",")
  /\ exists lex',
       lex_scan (lex_init (bytes_of_string " nul,")) (Some no_error)
       = Done (lex', Some no_error)
       /\ token lex' = TOKEN_INVALID
       /\ saved_text lex' = bytes_of_string "nul"
       /\ remaining (stream lex') (bytes_of_string ",").
Proof.
  assert (remaining (stream (lex_init (bytes_of_string " nul,")))
            (bytes_of_string " " ++ bytes_of_string "nul"
             ++ bytes_of_string ",")) as Hrem
    by exact (stream_init_remaining (bytes_of_string " nul,")).
  assert (forallb is_space (bytes_of_string " ") = true) as Hws
    by reflexivity.
  assert (name (bytes_of_string "nul")) as Hname
    by (split; [discriminate|reflexivity]).
  assert (delimited (bytes_of_string ",")) as Hdel
    by (right; reflexivity).
  split; [exact Hrem|]. split; [exact Hws|]. split; [exact Hname|].
  split; [exact Hdel|].
  exact (lex_scan_name _ (Some no_error) _ _ _ Hrem Hws Hname Hdel).
Defined.

Lemma json_loadb_decodes_witness :
  let v := JArray [JString (bytes_of_string "a"); JTrue] in
  let text := json_text "[ 'a',true ] " in
  distinct_keys v /\ spells (tokens_of v) text
  /\ (flag_set 0 JSON_DECODE_ANY = true \/ is_container v = true)
  /\ exists lex',
       json_loadb text 0 (Some no_error)
       = Done (Some v, lex',
               set_error_position
                 (jsonp_error_init (Some no_error) "<buffer>")
                 (position (stream lex'))).
Proof.
  intros v text.
  assert (distinct_keys v) as Hd by (cbn; auto).
  assert (spells (tokens_of v) text) as Hs.
  { exists [], [chr "["], (json_text " 'a',true ] ").
    split; [reflexivity|]. split; [reflexivity|].
    split; [split; reflexivity|].
    exists [chr " "], (json_text "'a'"), (json_text ",true ] ").
    split; [reflexivity|]. split; [reflexivity|].
    split; [split; [|reflexivity]|].
    { vm_compute. repeat constructor; discriminate. }
    exists [], [chr ","], (json_text "true ] ").
    split; [reflexivity|]. split; [reflexivity|].
    split; [split; reflexivity|].
    exists [], (json_text "true"), (json_text " ] ").
    split; [reflexivity|]. split; [reflexivity|].
    split; [reflexivity|].
    exists [chr " "], [chr "]"], [chr " "].
    split; [reflexivity|]. split; [reflexivity|].
    split; [split; reflexivity|]. reflexivity. }
  assert (flag_set 0 JSON_DECODE_ANY = true \/ is_container v = true) as Ht
    by (right; reflexivity).
  split; [exact Hd|]. split; [exact Hs|]. split; [exact Ht|].
  exact (json_loadb_decodes v text 0 (Some no_error) Hd Hs Ht).
Defined.


(** ** The getters of the entry points *)


Record buffer_data_t : Type := mk_buffer_data {
  buffer_data : list Z;
  buffer_len : Z;
  buffer_data_pos : Z
}.


Definition buffer_get (stream : buffer_data_t) : Z * buffer_data_t :=
  if buffer_len stream <=? buffer_data_pos stream then (EOF, stream)
  else
    let c := nth (Z.to_nat (buffer_data_pos stream)) (buffer_data stream) 0 in
    (to_uchar c,
     mk_buffer_data (buffer_data stream) (buffer_len stream)
       (size_t_wrap (buffer_data_pos stream + 1))).


(** The values the getter of [json_loadb] is going to return. *)
Definition buffer_source (stream : buffer_data_t) : get_func :=
  skipn (Z.to_nat (buffer_data_pos stream))
    (firstn (Z.to_nat (buffer_len stream)) (buffer_data stream)).


Lemma skipn_S_tail (A : Type) (l : list A) : forall n x rest,
  skipn n l = x :: rest -> skipn (S n) l = rest.
Proof.
  induction l as [|a l IH]; intros n x rest H.
  - rewrite skipn_nil in H. discriminate H.
  - destruct n as [|n]; cbn [skipn] in *.
    + injection H as _ ->. reflexivity.
    + exact (IH n x rest H).
Qed.


Lemma skipn_Forall (A : Type) (P : A -> Prop) (l : list A) : forall n,
  Forall P l -> Forall P (skipn n l).
Proof.
  induction l as [|a l IH]; intros n H; [rewrite skipn_nil; constructor|].
  destruct n as [|n]; cbn [skipn]; [exact H|]. apply IH.
  inversion H; assumption.
Qed.

Lemma to_uchar_of_byte c : is_byte c -> to_uchar c = c.
Proof. unfold is_byte, to_uchar. intros H. apply Z.mod_small. lia. Qed.


(** X13: [buffer_get] hands out the bytes of its buffer, NUL bytes as
    well.  With the cursor inside a buffer of [len] bytes or at its end, a
    call returns the byte at the cursor and moves one byte on, or returns
    EOF at the end and stays: the calls give the [len] bytes in order, then
    EOF for ever. *)
Theorem buffer_get_source (stream : buffer_data_t) :
  Forall is_byte (buffer_data stream) ->
  buffer_len stream = Z.of_nat (List.length (buffer_data stream)) ->
  buffer_len stream < 2 ^ 64 ->
  0 <= buffer_data_pos stream <= buffer_len stream ->
  let '(c, stream') := buffer_get stream in
  source_get (buffer_source stream) = (c, buffer_source stream')
  /\ buffer_data stream' = buffer_data stream
  /\ buffer_len stream' = buffer_len stream
  /\ 0 <= buffer_data_pos stream' <= buffer_len stream
  /\ (c = EOF -> stream' = stream /\ buffer_source stream = []).
Proof.
  destruct stream as [text len pos].
  cbn [buffer_data buffer_len buffer_data_pos].
  intros Hb -> Hlen Hpos. unfold buffer_get, buffer_source.
  cbn [buffer_data buffer_len buffer_data_pos].
  rewrite Nat2Z.id, firstn_all.
  destruct (Z.leb_spec (Z.of_nat (List.length text)) pos) as [Hge|Hlt].
  - cbn [buffer_data buffer_len buffer_data_pos].
    rewrite Nat2Z.id, firstn_all.
    rewrite skipn_all2 by lia. cbn [source_get].
    repeat split; auto; lia.
  - cbn [buffer_data buffer_len buffer_data_pos].
    rewrite Nat2Z.id, firstn_all.
    destruct (skipn (Z.to_nat pos) text) as [|c rest] eqn:E.
    { apply (f_equal (@List.length Z)) in E. rewrite length_skipn in E.
      cbn [List.length] in E. lia. }
    assert (nth (Z.to_nat pos) text 0 = c) as ->.
    { rewrite <- (firstn_skipn (Z.to_nat pos) text) at 1. rewrite E.
      rewrite app_nth2 by (rewrite length_firstn; lia).
      rewrite length_firstn.
      replace (Z.to_nat pos - Nat.min (Z.to_nat pos) (List.length text))%nat
        with O by lia. reflexivity. }
    assert (is_byte c) as Hbc.
    { pose proof (skipn_Forall _ _ _ (Z.to_nat pos) Hb) as H.
      rewrite E in H. inversion H; assumption. }
    rewrite (to_uchar_of_byte c Hbc).
    assert (size_t_wrap (pos + 1) = pos + 1) as ->
      by (unfold size_t_wrap; apply Z.mod_small; lia).
    replace (Z.to_nat (pos + 1)) with (S (Z.to_nat pos)) by lia.
    rewrite (skipn_S_tail _ _ _ _ _ E). cbn [source_get].
    split; [reflexivity|]. split; [reflexivity|]. split; [reflexivity|].
    split; [lia|].
    intros Heof. unfold is_byte in Hbc. unfold EOF in Heof. lia.
Qed.


Lemma buffer_get_source_witness :
  let stream := mk_buffer_data [chr "a"; 0; chr "b"] 3 1 in
  Forall is_byte (buffer_data stream)
  /\ buffer_len stream = Z.of_nat (List.length (buffer_data stream))
  /\ buffer_len stream < 2 ^ 64
  /\ 0 <= buffer_data_pos stream <= buffer_len stream
  /\ source_get (buffer_source stream)
     = (0, buffer_source (mk_buffer_data [chr "a"; 0; chr "b"] 3 2)).
Proof.
  intros stream.
  assert (Forall is_byte (buffer_data stream)) as Hb
    by (repeat constructor; unfold is_byte, chr; simpl; lia).
  assert (buffer_len stream = Z.of_nat (List.length (buffer_data stream)))
    as Hl by reflexivity.
  assert (buffer_len stream < 2 ^ 64) as Hlt by reflexivity.
  assert (0 <= buffer_data_pos stream <= buffer_len stream) as Hp
    by (simpl; lia).
  split; [exact Hb|]. split; [exact Hl|]. split; [exact Hlt|].
  split; [exact Hp|].
  pose proof (buffer_get_source stream Hb Hl Hlt Hp) as H.
  change (buffer_get stream)
    with (0, mk_buffer_data [chr "a"; 0; chr "b"] 3 2) in H.
  apply H.
Defined.
